(** * Audio-Typewriter: the overlapping capture and transcription pipeline

    A shallow embedding of [terminal_app/llm_client.py],
    [terminal_app/audio.py] and the hotkey handlers of
    [terminal_app/main.py], and the properties of the pipeline proved on it.

    - [Keys]: [KeyManager] and [GroqLLM._with_key], the credential rotation.
    - [Assembler]: the results list and [_write_transcript].
    - [Retry]: [_transcribe_single], the bounded retry of one artifact.
    - [Manager]: [OverlapAudioManager] with its threads (scheduler, capture
      segments, watchers, transcriber loops and the caller of the control
      methods) as a transition system whose steps are the statements that
      touch shared state.
    - [App]: the handlers [main] binds to the hotkeys and to the buttons of
      the window, with the [status] dictionary they share.

    Conventions.  Python [str] values are [string]s holding their UTF-8
    bytes.  Clock readings ([time.time()]) are integers in a fixed unit, the
    unit of [cooldown_seconds]; only their order and sums are used.  A
    temporary audio file is named by the number of the segment that wrote it
    ([tempfile.mkstemp] returns a fresh name on every call). *)

From stdpp Require Import gmap strings list.
From Stdlib Require Import ZArith Lia Ascii.

Local Open Scope Z_scope.

(** ** Strings *)

Module Str.

(** [str.lower] on the bytes of a string.  Only the letters A-Z change: the
    tokens searched for afterwards are ASCII, and no other character lowers
    to a sequence that completes one of them. *)
Definition lower_byte (c : ascii) : ascii :=
  let n := nat_of_ascii c in
  if (65 <=? n)%nat && (n <=? 90)%nat then ascii_of_nat (n + 32) else c.

Fixpoint lower (s : string) : string :=
  match s with
  | EmptyString => EmptyString
  | String c s' => String (lower_byte c) (lower s')
  end.

(** [tok in s] *)
Fixpoint contains (tok s : string) : bool :=
  String.prefix tok s ||
  match s with
  | EmptyString => false
  | String _ s' => contains tok s'
  end.

(** [sep.join(parts)] *)
Fixpoint join (sep : string) (parts : list string) : string :=
  match parts with
  | [] => EmptyString
  | [p] => p
  | p :: rest => (p ++ sep ++ join sep rest)%string
  end.

(** [s[:n]] *)
Definition take (n : nat) (s : string) : string := String.substring 0 n s.

Definition bytes (l : list nat) : string :=
  String.string_of_list_ascii (List.map ascii_of_nat l).

(** The characters [str.strip] removes, each as its UTF-8 encoding: the
    characters for which [str.isspace] holds. *)
Definition whitespace : list string :=
  List.map bytes
    ([[9]; [10]; [11]; [12]; [13]; [28]; [29]; [30]; [31]; [32];
      [194; 133]; [194; 160]; [225; 154; 128];
      [226; 128; 128]; [226; 128; 129]; [226; 128; 130]; [226; 128; 131];
      [226; 128; 132]; [226; 128; 133]; [226; 128; 134]; [226; 128; 135];
      [226; 128; 136]; [226; 128; 137]; [226; 128; 138];
      [226; 128; 168]; [226; 128; 169]; [226; 128; 175]; [226; 129; 159];
      [227; 128; 128]])%nat.

Definition drop_prefix (p s : string) : option string :=
  if String.prefix p s
  then Some (String.substring (String.length p) (String.length s - String.length p) s)
  else None.

Fixpoint first_some {A B} (f : A → option B) (l : list A) : option B :=
  match l with
  | [] => None
  | x :: l' => match f x with Some y => Some y | None => first_some f l' end
  end.

Fixpoint lstrip_fuel (fuel : nat) (ws : list string) (s : string) : string :=
  match fuel with
  | O => s
  | S fuel' =>
      match first_some (λ w, drop_prefix w s) ws with
      | Some s' => lstrip_fuel fuel' ws s'
      | None => s
      end
  end.

Definition lstrip_with (ws : list string) (s : string) : string :=
  lstrip_fuel (String.length s) ws s.

Definition rev (s : string) : string :=
  String.string_of_list_ascii (List.rev (String.list_ascii_of_string s)).

(** [s.strip()] *)
Definition strip (s : string) : string :=
  rev (lstrip_with (List.map rev whitespace) (rev (lstrip_with whitespace s))).

(** Truthiness of a [str]. *)
Definition nonempty (s : string) : bool :=
  match s with EmptyString => false | _ => true end.

Definition cr : ascii := ascii_of_nat 13.
Definition lf : ascii := ascii_of_nat 10.

(** A file opened in text mode with the default [newline=None], on
    writing: every line feed is written as [os.linesep]. *)
Fixpoint to_linesep (linesep : string) (s : string) : string :=
  match s with
  | EmptyString => EmptyString
  | String c s' =>
      if Ascii.eqb c lf then (linesep ++ to_linesep linesep s')%string
      else String c (to_linesep linesep s')
  end.

(** The same, on reading: a carriage return followed by a line feed, and a
    carriage return alone, come back as one line feed. *)
Fixpoint universal_newlines (s : string) : string :=
  match s with
  | EmptyString => EmptyString
  | String c s' =>
      if Ascii.eqb c cr then
        match s' with
        | String d s'' =>
            if Ascii.eqb d lf then String lf (universal_newlines s'')
            else String lf (universal_newlines s')
        | EmptyString => String lf EmptyString
        end
      else String c (universal_newlines s')
  end.

End Str.

(** ** [llm_client.py]: key rotation *)

Module Keys.

Definition RATE_LIMIT_TOKENS : list string :=
  ["rate limit"; "429"; "limit"; "quota"; "too many"; "overloaded"]%string.

(** [any(token in msg for token in RATE_LIMIT_TOKENS)] with
    [msg = str(exc).lower()] *)
Definition is_rate_limit (exc : string) : bool :=
  existsb (λ token, Str.contains token (Str.lower exc)) RATE_LIMIT_TOKENS.

Record KeyManager := {
  keys : list string;
  cooldown_seconds : Z;
  cooldown_until : gmap string Z;
  cursor : nat
}.

Definition set_cursor (c : nat) (km : KeyManager) : KeyManager :=
  {| keys := keys km; cooldown_seconds := cooldown_seconds km;
     cooldown_until := cooldown_until km; cursor := c |}.

Definition set_cooldown_until (m : gmap string Z) (km : KeyManager) : KeyManager :=
  {| keys := keys km; cooldown_seconds := cooldown_seconds km;
     cooldown_until := m; cursor := cursor km |}.

(** [KeyManager.__init__], from the items of [sorted(os.environ.items())]:
    the non-empty values of the variables whose name starts with
    GROQ_API_KEY; [None] is the RuntimeError raised when there is none. *)
Definition KeyManager_init (environ : list (string * string)) (cooldown : Z)
  : option KeyManager :=
  let ks := List.map snd
              (List.filter (λ kv, String.prefix "GROQ_API_KEY" (fst kv) && Str.nonempty (snd kv))
                 environ) in
  match ks with
  | [] => None
  | _ => Some {| keys := ks; cooldown_seconds := cooldown;
                 cooldown_until := ∅; cursor := 0 |}
  end.

(** [_is_available]: [self.cooldown_until.get(key, 0.0) <= now] *)
Definition is_available (km : KeyManager) (key : string) (now : Z) : bool :=
  default 0 (cooldown_until km !! key) <=? now.

(** The [for _ in range(len(self.keys))] loop of [next_key], [n] rounds
    left. *)
Fixpoint scan (n : nat) (km : KeyManager) (now : Z) : option string * KeyManager :=
  match n with
  | O => (None, km)
  | S n' =>
      let idx := (cursor km mod length (keys km))%nat in
      match keys km !! idx with
      | Some key =>
          let km' := set_cursor ((cursor km + 1) mod length (keys km))%nat km in
          if is_available km' key now then (Some key, km') else scan n' km' now
      | None => (None, km)
      end
  end.

(** [next_key], with [now] the reading of [time.time()] it starts with. *)
Definition next_key (km : KeyManager) (now : Z) : option string * KeyManager :=
  scan (length (keys km)) km now.

(** [backoff], with [now] the reading of [time.time()]. *)
Definition backoff (km : KeyManager) (key : string) (now : Z) : KeyManager :=
  set_cooldown_until (<[key := now + cooldown_seconds km]> (cooldown_until km)) km.

(** What a call [fn(client)] does: it returns a text or raises an exception
    with message [msg]. *)
Inductive reply := Ok (text : string) | Exc (msg : string).

(** The world [_with_key] runs in: the successive readings of the clock and
    the remote service, asked for the [n]-th time within the call with the
    client of [key]. *)
Record world := {
  clock : nat → Z;
  remote : nat → string → reply
}.

Inductive outcome :=
| Returned (text : string)
| GroqRateLimitError (msg : string).

Record run := {
  result : outcome;
  manager : KeyManager;        (* the key manager when the call ends *)
  attempted : list string;     (* the keys [fn] was called with, in order *)
  errors : list string;        (* the local [errors] *)
  ticks : nat                  (* clock readings consumed *)
}.

Definition exhausted (errs : list string) : outcome :=
  GroqRateLimitError
    ("All Groq keys failed or are cooling down: " ++ Str.join "; " errs)%string.

(** The [while tried < max_tries] loop of [_with_key], with
    [n = max_tries - tried] rounds left; [tick] counts the clock readings
    made so far and [log] the keys tried so far. *)
Fixpoint with_key_loop (w : world) (n : nat) (km : KeyManager) (tick : nat)
    (errs log : list string) : run :=
  match n with
  | O => {| result := exhausted errs; manager := km; attempted := log;
            errors := errs; ticks := tick |}
  | S n' =>
      match next_key km (clock w tick) with
      | (None, km1) =>
          {| result := exhausted errs; manager := km1; attempted := log;
             errors := errs; ticks := S tick |}
      | (Some key, km1) =>
          match remote w (length log) key with
          | Ok text =>
              {| result := Returned text; manager := km1;
                 attempted := log ++ [key]; errors := errs; ticks := S tick |}
          | Exc msg =>
              if is_rate_limit msg then
                with_key_loop w n' (backoff km1 key (clock w (S tick))) (S (S tick))
                  (errs ++ [(Str.take 5 key ++ "*** rate-limited; cooling down")%string])
                  (log ++ [key])
              else
                with_key_loop w n' km1 (S tick)
                  (errs ++ [(Str.take 5 key ++ "*** failed: " ++ msg)%string])
                  (log ++ [key])
          end
      end
  end.

(** [GroqLLM._with_key] *)
Definition with_key (w : world) (km : KeyManager) : run :=
  with_key_loop w (length (keys km)) km 0 [] [].

(** [GroqLLM.__init__] builds its key manager with [cooldown_seconds = 300]
    unless told otherwise. *)
Definition default_cooldown_seconds : Z := 300.

End Keys.

(** ** [audio.py]: the transcript assembler *)

Module Assembler.

(** One transcription result: [(start_ts, text)]. *)
Definition entry : Type := Z * string.

(** [sorted(self._results, key=lambda x: x[0])].  Python's sort is stable:
    entries with equal keys keep the order they were appended in. *)
Fixpoint insert (x : entry) (l : list entry) : list entry :=
  match l with
  | [] => [x]
  | y :: l' => if x.1 <=? y.1 then x :: l else y :: insert x l'
  end.

Definition sorted (l : list entry) : list entry := foldr insert [] l.

(** [texts] of [_write_transcript]. *)
Definition texts_of (results : list entry) : list string :=
  List.map snd (sorted results).

(** The second half of [_write_transcript], given the [texts] read under
    the lock, when [mkdir], [open] and [write] all go through; [None] is an
    absent file, and the text of a file is the text that was written to
    it. *)
Definition flush (texts : list string) (sink : option string) : option string :=
  match texts with
  | [] => sink
  | _ => Some (Str.join " " texts)
  end.

(** The same when one of them raises: with [kept = None] before the file
    was opened, which leaves it as it was; with [kept = Some n] after
    [open] has truncated it and [n] bytes of the text have reached it. *)
Definition flush_raises (texts : list string) (kept : option nat)
    (sink : option string) : option string :=
  match kept with
  | None => sink
  | Some n => Some (Str.take n (Str.join " " texts))
  end.

(** [_write_transcript] run in one piece, nothing raising. *)
Definition write_transcript (results : list entry) (sink : option string)
  : option string :=
  flush (texts_of results) sink.

(** [self._results.append((start_ts, text.strip()))] *)
Definition append (start_ts : Z) (text : string) (results : list entry) : list entry :=
  results ++ [(start_ts, Str.strip text)].


End Assembler.

(** ** [audio.py]: the bounded retry *)

Module Retry.

(** What one call of [self.llm.transcribe] does: it returns a text, raises
    [GroqRateLimitError], or raises another exception. *)
Inductive reply := Text (s : string) | RateLimited | Failed.

Inductive next :=
| Return (text : string)
| Sleep (secs : Z) (retries : Z).

(** One round of the [while retries <= self.max_retries] loop of
    [_transcribe_single], entered with the loop test true. *)
Definition attempt (max_retries retries : Z) (r : reply) : next :=
  match r with
  | Text s => Return s
  | RateLimited =>
      let retries := retries + 1 in
      if retries >? max_retries then Return "" else Sleep 5 retries
  | Failed =>
      let retries := retries + 1 in
      if retries >? max_retries then Return "" else Sleep 1 retries
  end.

Record outcome := {
  text : string;          (* the value returned *)
  attempts : nat;         (* calls of [llm.transcribe] *)
  sleeps : list Z         (* the [time.sleep] calls, in order *)
}.

(** The loop, with the replies of the successive calls given by [oracle].
    [fuel] bounds the rounds; [transcribe_single_total] shows the bound is
    never hit. *)
Fixpoint loop (fuel : nat) (max_retries : Z) (oracle : nat → reply)
    (retries : Z) (calls : nat) (naps : list Z) : option outcome :=
  match fuel with
  | O => None
  | S fuel' =>
      if retries <=? max_retries then
        match attempt max_retries retries (oracle calls) with
        | Return t => Some {| text := t; attempts := S calls; sleeps := naps |}
        | Sleep secs retries' =>
            loop fuel' max_retries oracle retries' (S calls) (naps ++ [secs])
        end
      else Some {| text := ""; attempts := calls; sleeps := naps |}
  end.

(** [_transcribe_single] *)
Definition transcribe_single (max_retries : Z) (oracle : nat → reply) : option outcome :=
  loop (S (Z.to_nat (max_retries + 1))) max_retries oracle 0 0 [].

Definition is_failure (r : reply) : bool :=
  match r with Text _ => false | _ => true end.

(** The delay [_transcribe_single] sleeps after a failure that is not the
    last one. *)
Definition delay (r : reply) : Z :=
  match r with RateLimited => 5 | _ => 1 end.

End Retry.

(** ** [audio.py]: the manager and its threads *)

Module Manager.

(** A temporary audio file, named by the segment that wrote it. *)
Definition path : Type := nat.

(** Where the thread of a [RecordingSegment] is: in the capture loop, past
    [sf.write] with its artifact on disk, returned, or returned through
    [except Exception]. *)
Inductive seg_phase := Capturing | Flushed | Finished | Crashed.

Record RecordingSegment := {
  started_at : Z;              (* [_started_at] *)
  max_duration : Z;
  stop_event : bool;           (* [stop_event.is_set()] *)
  frames : nat;                (* [len(frames)] *)
  file_path : option path;
  phase : seg_phase;
  watched : bool               (* its watcher thread is past [_watch_segment] *)
}.

Definition seg_ended (s : RecordingSegment) : bool :=
  match phase s with Finished | Crashed => true | _ => false end.

Definition seg_signal (s : RecordingSegment) : RecordingSegment :=
  {| started_at := started_at s; max_duration := max_duration s;
     stop_event := true; frames := frames s; file_path := file_path s;
     phase := phase s; watched := watched s |}.

Definition seg_block (s : RecordingSegment) : RecordingSegment :=
  {| started_at := started_at s; max_duration := max_duration s;
     stop_event := stop_event s; frames := S (frames s); file_path := file_path s;
     phase := phase s; watched := watched s |}.

Definition seg_phase_set (ph : seg_phase) (s : RecordingSegment) : RecordingSegment :=
  {| started_at := started_at s; max_duration := max_duration s;
     stop_event := stop_event s; frames := frames s; file_path := file_path s;
     phase := ph; watched := watched s |}.

Definition seg_write (p : path) (s : RecordingSegment) : RecordingSegment :=
  {| started_at := started_at s; max_duration := max_duration s;
     stop_event := stop_event s; frames := frames s; file_path := Some p;
     phase := Flushed; watched := watched s |}.

Definition seg_watched (s : RecordingSegment) : RecordingSegment :=
  {| started_at := started_at s; max_duration := max_duration s;
     stop_event := stop_event s; frames := frames s; file_path := file_path s;
     phase := phase s; watched := true |}.

(** Where the scheduler thread [_schedule] is. *)
Inductive sched_pc :=
| SNone                                   (* [self._scheduler is None] *)
| SLoop                                   (* [while not self._stop_all.is_set()] *)
| SSpawn                                  (* creating the next segment *)
| SWait                                   (* [self._stop_all.wait(self.segment_gap)] *)
| SSnapshot                               (* entering [_stop_active_segments] *)
| SStopping (todo : list nat) (signalled : bool)
                                          (* its [for seg in active] loop *)
| SDead.                                  (* the thread has ended *)

(** Where a transcriber thread [_transcriber_loop] is; [it] is the item
    [(start_ts, path)] it took from the queue. *)
Inductive worker_pc :=
| WTop                                    (* [if self._stop_all.is_set()] *)
| WTopEmpty                               (* [if self._pending_queue.empty()] *)
| WTopIdle                                (* [if self._transcribing == 0: break] *)
| WGet                                    (* [self._pending_queue.get(timeout=0.5)] *)
| WEmpty                                  (* [except queue.Empty: if ... is_set(): break] *)
| WBegin (it : Z * path)                  (* [self._transcribing += 1] *)
| WCall (it : Z * path) (retries : Z)     (* loop test and [self.llm.transcribe] *)
| WSleep (it : Z * path) (retries : Z) (secs : Z)   (* [time.sleep(secs)] *)
| WText (it : Z * path) (text : string)   (* [if text: self._results.append] *)
| WSnapshot (it : Z * path)               (* [_write_transcript], under the lock *)
| WFlush (it : Z * path) (texts : list string)      (* [if texts: ... fh.write] *)
| WUnlink (it : Z * path)                 (* [path.unlink(missing_ok=True)] *)
| WEnd                                    (* [finally: self._transcribing -= 1] *)
| WDone.                                  (* the thread has ended *)

(** Where the caller of the control methods is. *)
Inductive ctl_pc :=
| CIdle                                   (* between two calls *)
| CJoinScheduler (cancelling : bool)      (* [self._scheduler.join(timeout=2)] *)
| CStopSnapshot                           (* pause, stop: entering [_stop_active_segments] *)
| CStopping (todo : list nat) (signalled : bool)
| CJoinTranscriber                        (* pause, stop: [join(timeout=30)] *)
| CCancelSnapshot                         (* cancel: [active = list(self._active)] *)
| CCancelling (todo : list nat) (signalled : bool)
| CCancelClear                            (* cancel: [self._active.clear()] *)
| CCancelDrain                            (* cancel: emptying the pending queue *)
| CCancelJoin                             (* cancel: [join(timeout=5)] *)
| CCancelResults                          (* cancel: [self._results.clear()] *)
| CCancelTranscript.                      (* cancel: [self.clear_transcript()] *)

Record state := {
  (* attributes of [OverlapAudioManager] *)
  segment_gap : Z;
  segment_duration : Z;
  max_retries : Z;
  stop_all : bool;                        (* [self._stop_all.is_set()] *)
  scheduler : sched_pc;                   (* [self._scheduler] *)
  active : list nat;                      (* [self._active], segments by number *)
  paused : bool;
  transcribing : Z;
  pending_queue : list (Z * path);        (* smallest item first *)
  results : list (Z * string);
  transcriber_thread : option nat;        (* a transcriber by number *)
  (* the world around it *)
  transcript : option string;             (* the file at [transcript_path] *)
  files : gset path;                      (* the temporary files on disk *)
  segments : list RecordingSegment;       (* every segment created so far *)
  workers : list worker_pc;               (* every transcriber thread created so far *)
  controller : ctl_pc;
  (* history *)
  enqueued : list nat;                    (* the segment of every [put] on the queue *)
  sent : list path                        (* the file of every [llm.transcribe] call *)
}.

Definition set_stop_all (v : bool) (st : state) : state :=
  {| segment_gap := segment_gap st; segment_duration := segment_duration st;
     max_retries := max_retries st; stop_all := v; scheduler := scheduler st;
     active := active st; paused := paused st;
     transcribing := transcribing st; pending_queue := pending_queue st;
     results := results st; transcriber_thread := transcriber_thread st;
     transcript := transcript st; files := files st; segments := segments st;
     workers := workers st; controller := controller st;
     enqueued := enqueued st; sent := sent st |}.

Definition set_scheduler (v : sched_pc) (st : state) : state :=
  {| segment_gap := segment_gap st; segment_duration := segment_duration st;
     max_retries := max_retries st; stop_all := stop_all st; scheduler := v;
     active := active st; paused := paused st;
     transcribing := transcribing st; pending_queue := pending_queue st;
     results := results st; transcriber_thread := transcriber_thread st;
     transcript := transcript st; files := files st; segments := segments st;
     workers := workers st; controller := controller st;
     enqueued := enqueued st; sent := sent st |}.

Definition set_active (v : list nat) (st : state) : state :=
  {| segment_gap := segment_gap st; segment_duration := segment_duration st;
     max_retries := max_retries st; stop_all := stop_all st;
     scheduler := scheduler st; active := v; paused := paused st;
     transcribing := transcribing st; pending_queue := pending_queue st;
     results := results st; transcriber_thread := transcriber_thread st;
     transcript := transcript st; files := files st; segments := segments st;
     workers := workers st; controller := controller st;
     enqueued := enqueued st; sent := sent st |}.

Definition set_paused (v : bool) (st : state) : state :=
  {| segment_gap := segment_gap st; segment_duration := segment_duration st;
     max_retries := max_retries st; stop_all := stop_all st;
     scheduler := scheduler st; active := active st; paused := v;
     transcribing := transcribing st; pending_queue := pending_queue st;
     results := results st; transcriber_thread := transcriber_thread st;
     transcript := transcript st; files := files st; segments := segments st;
     workers := workers st; controller := controller st;
     enqueued := enqueued st; sent := sent st |}.

Definition set_transcribing (v : Z) (st : state) : state :=
  {| segment_gap := segment_gap st; segment_duration := segment_duration st;
     max_retries := max_retries st; stop_all := stop_all st;
     scheduler := scheduler st; active := active st; paused := paused st;
     transcribing := v; pending_queue := pending_queue st;
     results := results st; transcriber_thread := transcriber_thread st;
     transcript := transcript st; files := files st; segments := segments st;
     workers := workers st; controller := controller st;
     enqueued := enqueued st; sent := sent st |}.

Definition set_pending_queue (v : list (Z * path)) (st : state) : state :=
  {| segment_gap := segment_gap st; segment_duration := segment_duration st;
     max_retries := max_retries st; stop_all := stop_all st;
     scheduler := scheduler st; active := active st; paused := paused st;
     transcribing := transcribing st; pending_queue := v;
     results := results st; transcriber_thread := transcriber_thread st;
     transcript := transcript st; files := files st; segments := segments st;
     workers := workers st; controller := controller st;
     enqueued := enqueued st; sent := sent st |}.

Definition set_results (v : list (Z * string)) (st : state) : state :=
  {| segment_gap := segment_gap st; segment_duration := segment_duration st;
     max_retries := max_retries st; stop_all := stop_all st;
     scheduler := scheduler st; active := active st; paused := paused st;
     transcribing := transcribing st; pending_queue := pending_queue st;
     results := v; transcriber_thread := transcriber_thread st;
     transcript := transcript st; files := files st; segments := segments st;
     workers := workers st; controller := controller st;
     enqueued := enqueued st; sent := sent st |}.

Definition set_transcriber_thread (v : option nat) (st : state) : state :=
  {| segment_gap := segment_gap st; segment_duration := segment_duration st;
     max_retries := max_retries st; stop_all := stop_all st;
     scheduler := scheduler st; active := active st; paused := paused st;
     transcribing := transcribing st; pending_queue := pending_queue st;
     results := results st; transcriber_thread := v;
     transcript := transcript st; files := files st; segments := segments st;
     workers := workers st; controller := controller st;
     enqueued := enqueued st; sent := sent st |}.

Definition set_transcript (v : option string) (st : state) : state :=
  {| segment_gap := segment_gap st; segment_duration := segment_duration st;
     max_retries := max_retries st; stop_all := stop_all st;
     scheduler := scheduler st; active := active st; paused := paused st;
     transcribing := transcribing st; pending_queue := pending_queue st;
     results := results st; transcriber_thread := transcriber_thread st;
     transcript := v; files := files st; segments := segments st;
     workers := workers st; controller := controller st;
     enqueued := enqueued st; sent := sent st |}.

Definition set_files (v : gset path) (st : state) : state :=
  {| segment_gap := segment_gap st; segment_duration := segment_duration st;
     max_retries := max_retries st; stop_all := stop_all st;
     scheduler := scheduler st; active := active st; paused := paused st;
     transcribing := transcribing st; pending_queue := pending_queue st;
     results := results st; transcriber_thread := transcriber_thread st;
     transcript := transcript st; files := v; segments := segments st;
     workers := workers st; controller := controller st;
     enqueued := enqueued st; sent := sent st |}.

Definition set_segments (v : list RecordingSegment) (st : state) : state :=
  {| segment_gap := segment_gap st; segment_duration := segment_duration st;
     max_retries := max_retries st; stop_all := stop_all st;
     scheduler := scheduler st; active := active st; paused := paused st;
     transcribing := transcribing st; pending_queue := pending_queue st;
     results := results st; transcriber_thread := transcriber_thread st;
     transcript := transcript st; files := files st; segments := v;
     workers := workers st; controller := controller st;
     enqueued := enqueued st; sent := sent st |}.

Definition set_workers (v : list worker_pc) (st : state) : state :=
  {| segment_gap := segment_gap st; segment_duration := segment_duration st;
     max_retries := max_retries st; stop_all := stop_all st;
     scheduler := scheduler st; active := active st; paused := paused st;
     transcribing := transcribing st; pending_queue := pending_queue st;
     results := results st; transcriber_thread := transcriber_thread st;
     transcript := transcript st; files := files st; segments := segments st;
     workers := v; controller := controller st; enqueued := enqueued st;
     sent := sent st |}.

Definition set_controller (v : ctl_pc) (st : state) : state :=
  {| segment_gap := segment_gap st; segment_duration := segment_duration st;
     max_retries := max_retries st; stop_all := stop_all st;
     scheduler := scheduler st; active := active st; paused := paused st;
     transcribing := transcribing st; pending_queue := pending_queue st;
     results := results st; transcriber_thread := transcriber_thread st;
     transcript := transcript st; files := files st; segments := segments st;
     workers := workers st; controller := v; enqueued := enqueued st;
     sent := sent st |}.

Definition set_enqueued (v : list nat) (st : state) : state :=
  {| segment_gap := segment_gap st; segment_duration := segment_duration st;
     max_retries := max_retries st; stop_all := stop_all st;
     scheduler := scheduler st; active := active st; paused := paused st;
     transcribing := transcribing st; pending_queue := pending_queue st;
     results := results st; transcriber_thread := transcriber_thread st;
     transcript := transcript st; files := files st; segments := segments st;
     workers := workers st; controller := controller st; enqueued := v;
     sent := sent st |}.

Definition set_sent (v : list path) (st : state) : state :=
  {| segment_gap := segment_gap st; segment_duration := segment_duration st;
     max_retries := max_retries st; stop_all := stop_all st;
     scheduler := scheduler st; active := active st; paused := paused st;
     transcribing := transcribing st; pending_queue := pending_queue st;
     results := results st; transcriber_thread := transcriber_thread st;
     transcript := transcript st; files := files st; segments := segments st;
     workers := workers st; controller := controller st;
     enqueued := enqueued st; sent := v |}.

(** [OverlapAudioManager.__init__]; [on_disk] is the transcript file as a
    previous run left it.  [max_workers] is accepted and dropped, as in the
    source, which stores every other argument. *)
Definition init (on_disk : option string) (segment_gap segment_duration : Z)
    (max_workers max_retries : Z) : state :=
  {| segment_gap := segment_gap; segment_duration := segment_duration;
     max_retries := max_retries; stop_all := false; scheduler := SNone;
     active := []; paused := false; transcribing := 0; pending_queue := [];
     results := []; transcriber_thread := None;
     transcript := on_disk; files := ∅; segments := []; workers := [];
     controller := CIdle; enqueued := []; sent := [] |}.

(** [main]: the worker count of the configuration is clamped to 2..5 and
    passed on; the gap and the duration keep their defaults. *)
Definition clamp_workers (workers : Z) : Z := Z.max 2 (Z.min 5 workers).

Definition main_recorder (on_disk : option string) (cfg_workers cfg_max_retries : Z)
  : state :=
  init on_disk 12 15 (clamp_workers cfg_workers) cfg_max_retries.

(** [running] *)
Definition running (st : state) : bool :=
  match scheduler st with SNone | SDead => false | _ => true end.

Definition worker_alive (st : state) (w : nat) : bool :=
  match workers st !! w with
  | Some WDone | None => false
  | Some _ => true
  end.

Definition ended (st : state) (i : nat) : bool :=
  match segments st !! i with Some s => seg_ended s | None => true end.

(** The priority queue: [put] keeps the list sorted by [(start_ts, path)],
    [get] takes its head. *)
Definition item_le (a b : Z * path) : bool :=
  (a.1 <? b.1) || ((a.1 =? b.1) && (a.2 <=? b.2)%nat).

Fixpoint pq_put (x : Z * path) (q : list (Z * path)) : list (Z * path) :=
  match q with
  | [] => [x]
  | y :: q' => if item_le x y then x :: q else y :: pq_put x q'
  end.

(** [seg.file_path and seg.file_path.exists()] *)
Definition artifact (st : state) (i : nat) : option path :=
  match segments st !! i with
  | Some s =>
      match file_path s with
      | Some p => if bool_decide (p ∈ files st) then Some p else None
      | None => None
      end
  | None => None
  end.

(** [if seg.file_path and seg.file_path.exists():
       self._pending_queue.put((seg._started_at, seg.file_path))] *)
Definition queue_segment (i : nat) (st : state) : state :=
  match segments st !! i, artifact st i with
  | Some s, Some p =>
      set_pending_queue (pq_put (started_at s, p) (pending_queue st))
        (set_enqueued (enqueued st ++ [i]) st)
  | _, _ => st
  end.

(** [if seg.file_path and seg.file_path.exists(): seg.file_path.unlink()] *)
Definition discard_segment (i : nat) (st : state) : state :=
  match artifact st i with
  | Some p => set_files (files st ∖ {[p]}) st
  | None => st
  end.

(** [seg.stop_event.set()] *)
Definition signal (i : nat) (st : state) : state :=
  set_segments (alter seg_signal i (segments st)) st.

(** A new transcriber thread, started. *)
Definition spawn_transcriber (st : state) : state :=
  set_transcriber_thread (Some (length (workers st)))
    (set_workers (workers st ++ [WTop]) st).

(** *** The control methods *)

Inductive command := Start | Resume | Pause | Stop | Cancel.

(** The statements of a method up to its first join.  [start] and [resume]
    have no join and run to their end. *)
Definition call (c : command) (st : state) : option state :=
  match controller st with
  | CIdle =>
      Some
        match c with
        | Start =>
            if running st then st
            else
              set_scheduler SLoop
                (spawn_transcriber
                   (set_pending_queue []
                      (set_results []
                         (set_transcript None
                            (set_stop_all false (set_paused false st))))))
        | Resume =>
            if running st then st
            else if negb (paused st) then st
            else
              let st1 := set_stop_all false (set_paused false st) in
              let st2 :=
                match transcriber_thread st1 with
                | Some w => if worker_alive st1 w then st1 else spawn_transcriber st1
                | None => spawn_transcriber st1
                end in
              set_scheduler SLoop st2
        | Pause =>
            if negb (running st) then st
            else set_controller (CJoinScheduler false)
                   (set_stop_all true (set_paused true st))
        | Stop =>
            set_controller (CJoinScheduler false)
              (set_stop_all true (set_paused false st))
        | Cancel =>
            set_controller (CJoinScheduler true)
              (set_stop_all true (set_paused false st))
        end
  | _ => None
  end.

Definition stopping (todo : list nat) : ctl_pc :=
  match todo with [] => CJoinTranscriber | _ => CStopping todo false end.

Definition cancelling (todo : list nat) : ctl_pc :=
  match todo with [] => CCancelClear | _ => CCancelling todo false end.

(** The next statement of the method the caller is in.  A join returns when
    its thread has ended or, with [timeout], when it gives up. *)
Definition ctl_step (timeout : bool) (st : state) : option state :=
  match controller st with
  | CIdle => None
  | CJoinScheduler c =>
      if timeout || negb (running st) then
        Some (set_controller (if c then CCancelSnapshot else CStopSnapshot) st)
      else None
  | CStopSnapshot =>
      Some (set_controller (stopping (active st)) (set_active [] st))
  | CStopping [] _ => None
  | CStopping (i :: rest) false =>
      Some (set_controller (CStopping (i :: rest) true) (signal i st))
  | CStopping (i :: rest) true =>
      if timeout || ended st i then
        Some (set_controller (stopping rest) (queue_segment i st))
      else None
  | CJoinTranscriber =>
      match transcriber_thread st with
      | None => Some (set_controller CIdle st)
      | Some w =>
          if timeout || negb (worker_alive st w) then
            Some (set_controller CIdle (set_transcriber_thread None st))
          else None
      end
  | CCancelSnapshot =>
      Some (set_controller (cancelling (active st)) st)
  | CCancelling [] _ => None
  | CCancelling (i :: rest) false =>
      Some (set_controller (CCancelling (i :: rest) true) (signal i st))
  | CCancelling (i :: rest) true =>
      if timeout || ended st i then
        Some (set_controller (cancelling rest) (discard_segment i st))
      else None
  | CCancelClear =>
      Some (set_controller CCancelDrain (set_active [] st))
  | CCancelDrain =>
      match pending_queue st with
      | [] => Some (set_controller CCancelJoin st)
      | (_, p) :: q => Some (set_files (files st ∖ {[p]}) (set_pending_queue q st))
      end
  | CCancelJoin =>
      match transcriber_thread st with
      | None => Some (set_controller CCancelResults st)
      | Some w =>
          if timeout || negb (worker_alive st w) then
            Some (set_controller CCancelResults (set_transcriber_thread None st))
          else None
      end
  | CCancelResults =>
      Some (set_controller CCancelTranscript (set_results [] st))
  | CCancelTranscript =>
      Some (set_controller CIdle (set_transcript None st))
  end.

(** *** The scheduler *)

Definition sched_stopping (todo : list nat) : sched_pc :=
  match todo with [] => SDead | _ => SStopping todo false end.

Definition sched_step (timeout : bool) (st : state) : option state :=
  match scheduler st with
  | SNone | SDead | SSpawn => None
  | SLoop => Some (set_scheduler (if stop_all st then SSnapshot else SSpawn) st)
  | SWait => Some (set_scheduler (if stop_all st then SSnapshot else SLoop) st)
  | SSnapshot =>
      Some (set_scheduler (sched_stopping (active st)) (set_active [] st))
  | SStopping [] _ => None
  | SStopping (i :: rest) false =>
      Some (set_scheduler (SStopping (i :: rest) true) (signal i st))
  | SStopping (i :: rest) true =>
      if timeout || ended st i then
        Some (set_scheduler (sched_stopping rest) (queue_segment i st))
      else None
  end.

(** Lines 148-164: a segment is created at [now], put on the active list and
    started together with its watcher. *)
Definition spawn (now : Z) (st : state) : option state :=
  match scheduler st with
  | SSpawn =>
      let seg := {| started_at := now; max_duration := segment_duration st;
                    stop_event := false; frames := 0; file_path := None;
                    phase := Capturing; watched := false |} in
      Some (set_scheduler SWait
              (set_active (active st ++ [length (segments st)])
                 (set_segments (segments st ++ [seg]) st)))
  | _ => None
  end.

(** *** A capture segment and its watcher *)

(** One more block is read: the loop test found the stop event unset. *)
Definition seg_read (i : nat) (st : state) : option state :=
  match segments st !! i with
  | Some s =>
      match phase s with
      | Capturing =>
          if stop_event s then None
          else Some (set_segments (alter seg_block i (segments st)) st)
      | _ => None
      end
  | None => None
  end.

(** The loop is left, by the stop event or, after a block, by the duration
    test; without frames [run] returns, otherwise it writes the artifact. *)
Definition seg_leave (i : nat) (st : state) : option state :=
  match segments st !! i with
  | Some s =>
      match phase s with
      | Capturing =>
          if stop_event s || (1 <=? frames s)%nat then
            Some
              (match frames s with
               | O => set_segments (alter (seg_phase_set Finished) i (segments st)) st
               | S _ =>
                   set_files ({[i]} ∪ files st)
                     (set_segments (alter (seg_write i) i (segments st)) st)
               end)
          else None
      | _ => None
      end
  | None => None
  end.

(** [run] returns after [sf.write]. *)
Definition seg_exit (i : nat) (st : state) : option state :=
  match segments st !! i with
  | Some s =>
      match phase s with
      | Flushed => Some (set_segments (alter (seg_phase_set Finished) i (segments st)) st)
      | _ => None
      end
  | None => None
  end.

(** The capture raises: [except Exception: return]. *)
Definition seg_crash (i : nat) (st : state) : option state :=
  match segments st !! i with
  | Some s =>
      match phase s with
      | Capturing => Some (set_segments (alter (seg_phase_set Crashed) i (segments st)) st)
      | _ => None
      end
  | None => None
  end.

(** [list.remove]: the first occurrence goes. *)
Fixpoint remove_first (i : nat) (l : list nat) : list nat :=
  match l with
  | [] => []
  | j :: l' => if decide (i = j) then l' else j :: remove_first i l'
  end.

(** [_watch_segment] after its [segment.join()]: the critical section. *)
Definition watch (i : nat) (st : state) : option state :=
  match segments st !! i with
  | Some s =>
      if seg_ended s && negb (watched s) then
        let st1 := set_segments (alter seg_watched i (segments st)) st in
        Some (if bool_decide (i ∈ active st)
              then queue_segment i (set_active (remove_first i (active st)) st1)
              else st1)
      else None
  | None => None
  end.

(** *** A transcriber *)

Definition set_worker (w : nat) (pc : worker_pc) (st : state) : state :=
  set_workers (<[w := pc]> (workers st)) st.

(** The next statement of transcriber [w], when it does not raise; [r] is
    what the remote answers if that statement is the call of
    [llm.transcribe]. *)
Definition work (w : nat) (r : Retry.reply) (st : state) : option state :=
  match workers st !! w with
  | None | Some WDone => None
  | Some WTop => Some (set_worker w (if stop_all st then WTopEmpty else WGet) st)
  | Some WTopEmpty =>
      Some (set_worker w (match pending_queue st with [] => WTopIdle | _ => WGet end) st)
  | Some WTopIdle =>
      Some (set_worker w (if transcribing st =? 0 then WDone else WGet) st)
  | Some WGet =>
      Some (match pending_queue st with
            | [] => set_worker w WEmpty st
            | it :: q => set_worker w (WBegin it) (set_pending_queue q st)
            end)
  | Some WEmpty => Some (set_worker w (if stop_all st then WDone else WTop) st)
  | Some (WBegin it) =>
      Some (set_worker w (WCall it 0) (set_transcribing (transcribing st + 1) st))
  | Some (WCall it retries) =>
      Some (if retries <=? max_retries st then
              match Retry.attempt (max_retries st) retries r with
              | Retry.Return t => set_worker w (WText it t) (set_sent (sent st ++ [it.2]) st)
              | Retry.Sleep secs retries' =>
                  set_worker w (WSleep it retries' secs) (set_sent (sent st ++ [it.2]) st)
              end
            else set_worker w (WText it "") st)
  | Some (WSleep it retries _) => Some (set_worker w (WCall it retries) st)
  | Some (WText it t) =>
      Some (if Str.nonempty t
            then set_worker w (WSnapshot it)
                   (set_results (Assembler.append it.1 t (results st)) st)
            else set_worker w (WUnlink it) st)
  | Some (WSnapshot it) =>
      Some (set_worker w (WFlush it (Assembler.texts_of (results st))) st)
  | Some (WFlush it texts) =>
      Some (set_worker w (WUnlink it)
              (set_transcript (Assembler.flush texts (transcript st)) st))
  | Some (WUnlink it) =>
      Some (set_worker w WEnd (set_files (files st ∖ {[it.2]}) st))
  | Some WEnd =>
      Some (set_worker w WTop (set_transcribing (transcribing st - 1) st))
  end.

(** The file write of [_write_transcript] raises in transcriber [w]: the
    exception leaves the [try] through [finally: self._transcribing -= 1]
    and ends the thread; the result stays appended and the artifact is not
    unlinked. *)
Definition write_raises (w : nat) (kept : option nat) (st : state) : option state :=
  match workers st !! w with
  | Some (WFlush it (t :: texts)) =>
      Some (set_worker w WDone
              (set_transcribing (transcribing st - 1)
                 (set_transcript
                    (Assembler.flush_raises (t :: texts) kept (transcript st)) st)))
  | _ => None
  end.

(** *** The transition system *)

Inductive event :=
| Call (c : command)                 (* a control method is called *)
| Ctl (timeout : bool)               (* the caller runs its next statement *)
| Sched (timeout : bool)             (* the scheduler runs its next statement *)
| Spawn (now : Z)                    (* the scheduler creates a segment *)
| Work (w : nat) (r : Retry.reply)   (* a transcriber runs its next statement *)
| WriteRaises (w : nat) (kept : option nat)
                                     (* the file write of a transcriber raises *)
| SegRead (i : nat)
| SegLeave (i : nat)
| SegExit (i : nat)
| SegCrash (i : nat)
| Watch (i : nat).

Definition step (e : event) (st : state) : option state :=
  match e with
  | Call c => call c st
  | Ctl timeout => ctl_step timeout st
  | Sched timeout => sched_step timeout st
  | Spawn now => spawn now st
  | Work w r => work w r st
  | WriteRaises w kept => write_raises w kept st
  | SegRead i => seg_read i st
  | SegLeave i => seg_leave i st
  | SegExit i => seg_exit i st
  | SegCrash i => seg_crash i st
  | Watch i => watch i st
  end.

(** A run: the events happen one after the other; [None] when one of them
    cannot happen where it stands. *)
Fixpoint run (tr : list event) (st : state) : option state :=
  match tr with
  | [] => Some st
  | e :: tr' => match step e st with Some st' => run tr' st' | None => None end
  end.

(** No join gives up in a timely event. *)
Definition timely (e : event) : bool :=
  match e with
  | Ctl true | Sched true => false
  | _ => true
  end.

(** No file write raises in a steady event. *)
Definition steady (e : event) : bool :=
  match e with
  | WriteRaises _ _ => false
  | _ => true
  end.

End Manager.

(** ** [main.py]: the hotkey handlers *)

Module App.

(** The [status] dictionary of [main]. *)
Record status := {
  recording : bool;
  paused : bool;
  last_formatted : string;
  mode : string
}.

Definition initial : status :=
  {| recording := false; paused := false; last_formatted := ""; mode := "transcribe" |}.

(** What a handler does to the world around it, in order: it calls a method
    of the recorder, shows a label in the window, asks the language model,
    appends to [formatted.log], inserts a text at the cursor. *)
Inductive effect :=
| Recorder (c : Manager.command)
| Label (text : string)
| Generate (raw : string)              (* [llm.generate_prompt(raw)] *)
| Format (raw : string)                (* [llm.format_text(raw)] *)
| Log (text : string)
| Insert (text : string).              (* [safe_insert(text)] *)

(** What the call of the language model does: it returns the formatted
    text, raises [GroqRateLimitError], or raises another exception. *)
Inductive llm_reply := Formatted (text : string) | RateLimited | Raised (msg : string).

(** What [stop_and_process] meets: the transcript file as [stop] left it,
    the answer of the language model, and whether the append to
    [formatted.log] goes through. *)
Record world := {
  transcript : string;
  reply : llm_reply;
  log_ok : bool
}.

Definition line_feed : string := String (ascii_of_nat 10) EmptyString.

(** [start_recording(mode)] *)
Definition start_recording (m : string) (s : status) : status * list effect :=
  if recording s && paused s then
    ({| recording := recording s; paused := false;
        last_formatted := last_formatted s; mode := mode s |},
     [Recorder Manager.Resume;
      Label ("recording" ++ (if String.eqb (mode s) "prompt" then " prompt" else ""))])
  else if recording s then (s, [])
  else
    ({| recording := true; paused := false;
        last_formatted := last_formatted s; mode := m |},
     [Recorder Manager.Start;
      Label (if String.eqb m "transcribe" then "recording" else "recording prompt")]).

(** [pause_recording()] *)
Definition pause_recording (s : status) : status * list effect :=
  if negb (recording s) then (s, [])
  else if paused s then (s, [])
  else
    ({| recording := recording s; paused := true;
        last_formatted := last_formatted s; mode := mode s |},
     [Recorder Manager.Pause; Label "paused"]).

(** [stop_and_process()] *)
Definition stop_and_process (w : world) (s : status) : status * list effect :=
  if negb (recording s) then (s, [])
  else
    let raw_text := Str.strip (transcript w) in
    let idle formatted :=
      {| recording := false; paused := false;
         last_formatted := formatted; mode := "transcribe" |} in
    if negb (Str.nonempty raw_text) then
      (idle (last_formatted s),
       [Label "processing"; Recorder Manager.Stop; Label "idle"])
    else
      let ask := if String.eqb (mode s) "prompt"
                 then Generate raw_text else Format raw_text in
      match reply w with
      | Formatted formatted =>
          if log_ok w then
            (idle formatted,
             [Label "processing"; Recorder Manager.Stop; ask;
              Log (formatted ++ line_feed ++ line_feed); Insert formatted; Label "idle"])
          else
            (idle formatted,
             [Label "processing"; Recorder Manager.Stop; ask; Label "idle"])
      | _ =>
          (idle (last_formatted s),
           [Label "processing"; Recorder Manager.Stop; ask; Label "idle"])
      end.

(** [cancel_all()] *)
Definition cancel_all (s : status) : status * list effect :=
  if negb (recording s) && negb (paused s) then (s, [])
  else
    ({| recording := false; paused := false;
        last_formatted := last_formatted s; mode := "transcribe" |},
     [Recorder Manager.Cancel; Label "idle"]).

(** The hotkeys [main] registers, and the buttons of the window, which call
    the same handlers: start and resume, prompt, pause, stop, cancel. *)
Inductive hotkey := KStart | KPrompt | KPause | KStop (w : world) | KCancel.

Definition press (k : hotkey) (s : status) : status * list effect :=
  match k with
  | KStart => start_recording "transcribe" s
  | KPrompt => start_recording "prompt" s
  | KPause => pause_recording s
  | KStop w => stop_and_process w s
  | KCancel => cancel_all s
  end.

(** The handlers run one at a time, each to its end before the next one is
    entered. *)
Fixpoint presses (ks : list hotkey) (s : status) : status * list effect :=
  match ks with
  | [] => (s, [])
  | k :: ks' =>
      let '(s1, e1) := press k s in
      let '(s2, e2) := presses ks' s1 in
      (s2, e1 ++ e2)
  end.

(** The methods of the recorder a handler calls. *)
Fixpoint commands (effs : list effect) : list Manager.command :=
  match effs with
  | [] => []
  | Recorder c :: effs' => c :: commands effs'
  | _ :: effs' => commands effs'
  end.

(** The handlers and the recorder together: after each key, the recorder
    runs the method the handler called to its end, and its threads run on
    until the next key.  A handler writes [status] after the method it
    called has returned, so the status it leaves is paired with a state in
    which no method is in progress; [None] when a key comes while a method
    has not returned, which the handlers, run one at a time, exclude. *)
Fixpoint drive (ks : list (hotkey * list Manager.event)) (s : status) (st : Manager.state)
  : option (status * Manager.state) :=
  match ks with
  | [] => Some (s, st)
  | (k, evs) :: ks' =>
      let '(s1, effs) := press k s in
      match Manager.run ((Manager.Call <$> commands effs) ++ evs) st with
      | Some st1 =>
          match Manager.controller st1 with
          | Manager.CIdle => drive ks' s1 st1
          | _ => None
          end
      | None => None
      end
  end.

End App.

Module Solo.

Import Manager.

(** The events of transcriber [w] while it is inside [_transcribe_single]
    and nothing else happens: one per round of the loop, and one more for
    each sleep. *)
Fixpoint retry_events (w : nat) (fuel : nat) (max_retries : Z) (oracle : nat → Retry.reply)
    (retries : Z) (calls : nat) : list event :=
  match fuel with
  | O => []
  | S fuel' =>
      Work w (oracle calls) ::
      (if retries <=? max_retries then
         match Retry.attempt max_retries retries (oracle calls) with
         | Retry.Return _ => []
         | Retry.Sleep _ retries' =>
             Work w (oracle calls)
               :: retry_events w fuel' max_retries oracle retries' (S calls)
         end
       else [])
  end.

(** One round of [_transcriber_loop] on an item already taken from the
    queue, the transcriber alone: [+= 1], [_transcribe_single], the three
    statements that follow a text that is empty, [-= 1]. *)
Definition failed_round (w : nat) (max_retries : Z) (oracle : nat → Retry.reply)
  : list event :=
  Work w (oracle 0%nat)
    :: retry_events w (S (Z.to_nat (max_retries + 1))) max_retries oracle 0 0
    ++ [Work w (oracle 0%nat); Work w (oracle 0%nat); Work w (oracle 0%nat)].

(** The fields a transcriber inside [_transcribe_single] leaves alone. *)
Definition same_but_worker (st st' : state) : Prop :=
  results st' = results st ∧ transcript st' = transcript st
  ∧ files st' = files st ∧ pending_queue st' = pending_queue st
  ∧ transcribing st' = transcribing st ∧ max_retries st' = max_retries st
  ∧ stop_all st' = stop_all st ∧ segments st' = segments st
  ∧ active st' = active st ∧ enqueued st' = enqueued st
  ∧ scheduler st' = scheduler st ∧ controller st' = controller st.

End Solo.

Module Traces.

Import Manager.

Definition fresh : state := init None 12 15 2 3.

Definition tick (w : nat) : event := Work w (Retry.Text "").

(** A recording with one segment mid-capture. *)
Definition recording : list event :=
  [Call Start; Sched false; Spawn 100; tick 0; SegRead 0].

(** [cancel] while segment 0 is mid-capture: the scheduler's own shutdown
    queues the segment and the transcriber takes it before [cancel] empties
    the queue. *)
Definition cancel_race : list event :=
  [Call Cancel;
   Sched false; Sched false; Sched false; SegLeave 0; SegExit 0; Sched false;
   tick 0; tick 0; Work 0 (Retry.Text " hello ");
   Ctl false; Ctl false; Ctl false; Ctl false;
   tick 0; tick 0; tick 0; tick 0; tick 0; tick 0; tick 0; tick 0;
   Ctl false; Ctl false; Ctl false].

(** [pause] while segment 0 is mid-capture, every join waited for. *)
Definition pausing : list event :=
  [Call Pause;
   Sched false; Sched false; Sched false; SegLeave 0; SegExit 0; Sched false;
   tick 0; tick 0; Work 0 (Retry.Text " hello ");
   tick 0; tick 0; tick 0; tick 0; tick 0; tick 0; tick 0; tick 0;
   Ctl false; Ctl false; Ctl false].

(** [stop] while segment 0 is mid-capture, every join waited for. *)
Definition stopping : list event :=
  [Call Stop;
   Sched false; Sched false; Sched false; SegLeave 0; SegExit 0; Sched false;
   tick 0; tick 0; Work 0 (Retry.Text " hello ");
   tick 0; tick 0; tick 0; tick 0; tick 0; tick 0; tick 0; tick 0;
   Ctl false; Ctl false; Ctl false].

(** [stop] called again. *)
Definition stop_again : list event := [Call Stop; Ctl false; Ctl false; Ctl false].

(** [stop] while segment 0 is mid-capture: the transcriber reads the flag
    and the empty queue before the scheduler queues the segment, and leaves
    after it. *)
Definition stop_race : list event :=
  [tick 0; tick 0; Call Stop; tick 0; tick 0;
   Sched false; Sched false; Sched false; SegLeave 0; SegExit 0; Sched false].

(** Segment 0 ends by itself and is queued; transcriber 0 is asleep after a
    rate limit when [cancel] gives up joining it; [start] adds transcriber 1,
    which times out on the empty queue before [stop] sets the flag. *)
Definition two_consumers : list event :=
  [Call Start; Sched false; Spawn 100; SegRead 0; SegLeave 0; SegExit 0; Watch 0;
   tick 0; tick 0; tick 0; Work 0 Retry.RateLimited;
   Call Cancel; Sched false; Sched false;
   Ctl false; Ctl false; Ctl false; Ctl false; Ctl true; Ctl false; Ctl false;
   Call Start; tick 1; tick 1; Call Stop].

(** [stop_race] to its end: the transcriber leaves and [stop] returns. *)
Definition stop_early : list event :=
  stop_race ++ [tick 0; Ctl false; Ctl false; Ctl false].

(** Segment 0 ends by itself and is queued, and transcriber 0 is asleep
    after a rate limit when segment 1 starts. *)
Definition asleep : list event :=
  [Call Start; Sched false; Spawn 100; SegRead 0; SegLeave 0; SegExit 0; Watch 0;
   tick 0; tick 0; tick 0; Work 0 Retry.RateLimited;
   Sched false; Sched false; Spawn 200; SegRead 1].

(** [pause] after [asleep], segment 1 mid-capture: the scheduler stops and
    queues segment 1, and the join of the transcriber gives up. *)
Definition pause_gives_up : list event :=
  [Call Pause;
   Sched false; Sched false; Sched false; SegLeave 1; SegExit 1; Sched false;
   Ctl false; Ctl false; Ctl true].


(** After [asleep] and [pause_gives_up], [resume] adds transcriber 1, which
    takes segment 1 and reads the results for its write; transcriber 0 wakes
    up, appends its text and writes; transcriber 1 writes last. *)
Definition overtaken : list event :=
  [Call Resume;
   tick 1; tick 1; tick 1; Work 1 (Retry.Text "new"); tick 1; tick 1;
   tick 0; Work 0 (Retry.Text "old"); tick 0; tick 0; tick 0;
   tick 1;
   tick 0; tick 0; tick 1; tick 1].

(** Two segments and one transcriber, no join involved: the file is written
    for the first, and the write for the second raises before the file is
    opened. *)
Definition second_write_raises : list event :=
  [Call Start; Sched false; Spawn 100; SegRead 0; SegLeave 0; SegExit 0; Watch 0;
   tick 0; tick 0; tick 0; Work 0 (Retry.Text "one");
   tick 0; tick 0; tick 0; tick 0; tick 0;
   Sched false; Sched false; Spawn 200; SegRead 1; SegLeave 1; SegExit 1; Watch 1;
   tick 0; tick 0; tick 0; Work 0 (Retry.Text "two"); tick 0; tick 0;
   WriteRaises 0 None].

End Traces.

(** ** Concrete inputs used by the examples *)

Module Examples.
Import Keys.

(** Two keys, none cooling down; every call is answered with a 429. *)
Definition km_two : KeyManager :=
  {| keys := ["gsk_alpha"; "gsk_beta"]%string; cooldown_seconds := 300;
     cooldown_until := ∅; cursor := 0 |}.

Definition w_429 : world :=
  {| clock := λ n, 1000 + Z.of_nat n;
     remote := λ _ _, Exc "Error code: 429 - Too Many Requests" |}.

(** Four minutes later, with a remote that would answer. *)
Definition w_later : world :=
  {| clock := λ n, 1240 + Z.of_nat n; remote := λ _ _, Ok "hello" |}.

(** Two keys, the first one cooling down until 1000; the clock stands at 0
    and every call fails with an error that is not a rate limit. *)
Definition km_cooling : KeyManager :=
  {| keys := ["gsk_alpha"; "gsk_beta"]%string; cooldown_seconds := 300;
     cooldown_until := <["gsk_alpha"%string := 1000]> ∅; cursor := 0 |}.

Definition w_boom : world :=
  {| clock := λ _, 0; remote := λ _ _, Exc "connection reset" |}.

End Examples.

(** ** What the properties speak of *)

(** The key rotation. *)

Module KeysSpec.
Import Keys.

(** From here on: the keys the cursor will meet next, [rest], are distinct
    and available, and the clock does not run backwards. *)
Definition fresh_from (w : world) (km : KeyManager) (tick : nat) (rest : list string) : Prop :=
  NoDup rest
  ∧ (∀ i, (i < length rest)%nat →
       keys km !! ((cursor km + i) mod length (keys km))%nat = rest !! i)
  ∧ (∀ k, k ∈ rest → default 0 (cooldown_until km !! k) ≤ clock w tick).

Definition monotone (w : world) : Prop := ∀ n, clock w n ≤ clock w (S n).

Definition always_rate_limited (w : world) : Prop :=
  ∀ n k, ∃ msg, remote w n k = Exc msg ∧ is_rate_limit msg = true.


End KeysSpec.

(** The assembler. *)

Module AssemblerSpec.
Import Assembler.


End AssemblerSpec.

(** The retry. *)

Module RetrySpec.
(** The claim that an item is given at most [max_retries] attempts. *)
Definition at_most_max_retries_attempts (max_retries : Z) (oracle : nat → Retry.reply) : Prop :=
  ∀ o, Retry.transcribe_single max_retries oracle = Some o →
       Z.of_nat (Retry.attempts o) ≤ max_retries.

End RetrySpec.

(** The manager: what its runs keep. *)

Module Invariants.
Import Manager.

(** The segments a thread inside [_stop_active_segments] still has to
    handle. *)
Definition sched_todo (pc : sched_pc) : list nat :=
  match pc with SStopping todo _ => todo | _ => [] end.

Definition ctl_todo (pc : ctl_pc) : list nat :=
  match pc with CStopping todo _ => todo | _ => [] end.

(** The segments that may still be put on the queue, each by the one who
    holds it: the active list, or the local list of a stopping thread. *)
Definition owners (st : state) : list nat :=
  active st ++ sched_todo (scheduler st) ++ ctl_todo (controller st).

(** What is known of a segment with a file path. *)
Definition seg_ok (i : nat) (s : RecordingSegment) : Prop :=
  (∀ p, file_path s = Some p →
     p = i ∧ (1 ≤ frames s)%nat ∧ (phase s = Flushed ∨ phase s = Finished)).

Record queue_inv (st : state) : Prop := {
  qi_enqueued : NoDup (enqueued st);
  qi_owners : NoDup (owners st);
  qi_apart : ∀ i, i ∈ owners st → i ∉ enqueued st;
  qi_bound : ∀ i, i ∈ owners st → (i < length (segments st))%nat;
  qi_file : ∀ i : nat, i ∈ enqueued st →
            ∃ s, segments st !! i = Some s ∧ file_path s = Some i;
  qi_segs : ∀ i s, segments st !! i = Some s → seg_ok i s
}.

Definition alive (pc : worker_pc) : bool :=
  match pc with WDone => false | _ => true end.

Definition sched_looping (pc : sched_pc) : bool :=
  match pc with SLoop | SSpawn | SWait => true | _ => false end.

Definition sched_off (pc : sched_pc) : bool :=
  match pc with SNone | SDead => true | _ => false end.

Definition past_scheduler_join (pc : ctl_pc) : bool :=
  match pc with CIdle | CJoinScheduler _ => false | _ => true end.

Definition past_transcriber_join (pc : ctl_pc) : bool :=
  match pc with CCancelResults | CCancelTranscript => true | _ => false end.

Definition no_local_list (pc : ctl_pc) : bool :=
  match pc with CStopping _ _ | CCancelling _ _ => false | _ => true end.

Definition all_done (st : state) : Prop :=
  ∀ w pc, workers st !! w = Some pc → pc = WDone.

(** What holds of the threads as long as no join gives up. *)
Record control_inv (st : state) : Prop := {
  ci_busy : controller st ≠ CIdle → stop_all st = true;
  ci_sched_joined : past_scheduler_join (controller st) = true →
                    sched_off (scheduler st) = true;
  ci_idle : controller st = CIdle →
            (sched_looping (scheduler st) = true ∧ stop_all st = false)
            ∨ (sched_off (scheduler st) = true ∧ all_done st
               ∧ transcriber_thread st = None);
  ci_single : ∀ w pc, workers st !! w = Some pc → alive pc = true →
              transcriber_thread st = Some w;
  ci_joined : past_transcriber_join (controller st) = true →
              all_done st ∧ transcriber_thread st = None;
  ci_no_list : no_local_list (controller st) = true;
  ci_paused : paused st = true → controller st = CIdle →
              sched_off (scheduler st) = true;
  ci_flag_seen : ∀ w pc, workers st !! w = Some pc →
                 pc = WTopEmpty ∨ pc = WTopIdle → stop_all st = true;
  ci_active : sched_looping (scheduler st) = false → scheduler st ≠ SSnapshot →
              active st = []
}.

(** *** The in-flight counter *)

Definition in_flight (pc : worker_pc) : bool :=
  match pc with
  | WCall _ _ | WSleep _ _ _ | WText _ _ | WSnapshot _ | WFlush _ _ | WUnlink _
  | WEnd => true
  | _ => false
  end.

Definition weight (pc : worker_pc) : Z := if in_flight pc then 1 else 0.

Fixpoint flying (l : list worker_pc) : Z :=
  match l with
  | [] => 0
  | pc :: l' => weight pc + flying l'
  end.

(** [_transcribing] counts the transcribers that are between their
    [+= 1] and their [-= 1]. *)
Definition counter_inv (st : state) : Prop :=
  transcribing st = flying (workers st).

(** The item a transcriber holds. *)
Definition held (pc : worker_pc) : option (Z * path) :=
  match pc with
  | WBegin it | WCall it _ | WSleep it _ _ | WText it _ | WSnapshot it
  | WFlush it _ | WUnlink it => Some it
  | _ => None
  end.

(** Where the artifacts are, as long as no join gives up. *)
Record data_inv (st : state) : Prop := {
  di_pending : ∀ it, it ∈ pending_queue st → it.2 ∈ enqueued st;
  di_held : ∀ w pc it, workers st !! w = Some pc → held pc = Some it →
            it.2 ∈ enqueued st;
  di_owned : ∀ (i : nat) s, segments st !! i = Some s →
             i ∈ active st ∨ i ∈ sched_todo (scheduler st)
             ∨ (seg_ended s = true ∧ (file_path s = None ∨ i ∈ enqueued st));
  di_files : ∀ (i : nat) s p, segments st !! i = Some s → file_path s = Some p →
             i ∉ enqueued st → p ∈ files st;
  di_phase : ∀ (i : nat) s, segments st !! i = Some s →
             (phase s = Flushed → file_path s = Some i)
             ∧ (phase s = Finished → frames s = 0%nat ∨ file_path s = Some i)
}.

(** While the stop flag is unset after a [start], the transcriber thread of
    the manager is alive. *)
Definition consumer_inv (st : state) : Prop :=
  stop_all st = false → scheduler st ≠ SNone →
  ∃ w, transcriber_thread st = Some w ∧ worker_alive st w = true.

(** Everything that holds as long as no join gives up. *)
Record timely_inv (st : state) : Prop := {
  ti_queue : queue_inv st;
  ti_control : control_inv st;
  ti_data : data_inv st;
  ti_counter : counter_inv st
}.

End Invariants.

(** The manager: what is claimed of it. *)

Module ManagerSpec.
(** The claim that a transcriber leaves its loop only in a state where the
    stop flag is set, the queue is empty and nothing is in flight. *)
Definition exits_only_when_drained (st : Manager.state) : Prop :=
  ∀ w r st',
    Manager.work w r st = Some st' →
    Manager.worker_alive st w = true → Manager.worker_alive st' w = false →
    Manager.stop_all st = true ∧ Manager.pending_queue st = []
    ∧ Manager.transcribing st = 0.


(** The calls that start a transcriber thread when none is known to be
    alive. *)
Definition is_restart (e : Manager.event) : bool :=
  match e with
  | Manager.Call Manager.Start | Manager.Call Manager.Resume => true
  | _ => false
  end.

Definition restarts (tr : list Manager.event) : nat :=
  length (List.filter is_restart tr).

End ManagerSpec.

(** The key rotation over several calls. *)

Module KeysMore.
Import Keys.

(** Successive calls of [_with_key] on one [GroqLLM], the [j]-th one in the
    world [ws !! j]: each call starts with the key manager the previous one
    left. *)
Fixpoint calls (ws : list world) (km : KeyManager) : list run :=
  match ws with
  | [] => []
  | w :: ws' => let r := with_key w km in r :: calls ws' (manager r)
  end.

(** Every call is answered at once. *)
Definition always_answers (w : world) : Prop :=
  ∀ n k, ∃ text, remote w n k = Ok text.

(** [key] is cooling down at every clock reading of [w]. *)
Definition cooling_throughout (w : world) (km : KeyManager) (key : string) : Prop :=
  ∀ t, clock w t < default 0 (cooldown_until km !! key).

(** An ASCII capital letter. *)
Definition is_upper (c : ascii) : bool :=
  (65 <=? nat_of_ascii c)%nat && (nat_of_ascii c <=? 90)%nat.

(** The same byte, or the same ASCII letter in its two cases. *)
Definition same_letter (c d : ascii) : bool :=
  Ascii.eqb c d
  || (is_upper c && (nat_of_ascii d =? nat_of_ascii c + 32)%nat)
  || (is_upper d && (nat_of_ascii c =? nat_of_ascii d + 32)%nat).

(** The same string, the case of its ASCII letters apart. *)
Fixpoint same_ignoring_case (s t : string) : bool :=
  match s, t with
  | EmptyString, EmptyString => true
  | String c s', String d t' => same_letter c d && same_ignoring_case s' t'
  | _, _ => false
  end.

End KeysMore.

(** One item through the loop, transcribed. *)

Module RetryMore.
Import Manager.

(** The seconds slept in all. *)
Definition total (naps : list Z) : Z := foldr Z.add 0 naps.

(** One round of [_transcriber_loop] on an item already taken from the
    queue, the transcriber alone: [+= 1], [_transcribe_single], and the five
    statements that follow a text that is not empty: the append to
    [_results], the two halves of [_write_transcript], the unlink and
    [-= 1]. *)
Definition good_round (w : nat) (max_retries : Z) (oracle : nat → Retry.reply)
  : list event :=
  Work w (oracle 0%nat)
    :: Solo.retry_events w (S (Z.to_nat (max_retries + 1))) max_retries oracle 0 0
    ++ replicate 5 (Work w (oracle 0%nat)).

(** The same round when the write of the transcript file raises: the
    append to [_results], the first half of [_write_transcript], and the
    exception, which leaves through [finally]. *)
Definition raising_round (w : nat) (max_retries : Z) (oracle : nat → Retry.reply)
    (kept : option nat) : list event :=
  Work w (oracle 0%nat)
    :: Solo.retry_events w (S (Z.to_nat (max_retries + 1))) max_retries oracle 0 0
    ++ [Work w (oracle 0%nat); Work w (oracle 0%nat); WriteRaises w kept].

End RetryMore.

(** The manager: the items on their way, and the transcript file. *)

Module ManagerMore.
Import Manager Invariants.

(** [read_transcript]: the empty string without a file, otherwise
    [read_text(encoding="utf-8")].  [transcript] holds the string that was
    handed to [fh.write]; writing it in text mode turns every line feed
    into [linesep], the [os.linesep] of the platform, and reading it back
    turns every line ending into a line feed. *)
Definition read_transcript (linesep : string) (st : state) : string :=
  match transcript st with
  | None => EmptyString
  | Some text => Str.universal_newlines (Str.to_linesep linesep text)
  end.

(** No carriage return in the string. *)
Fixpoint cr_free (s : string) : bool :=
  match s with
  | EmptyString => true
  | String c s' => negb (Ascii.eqb c Str.cr) && cr_free s'
  end.

(** The queue hands out its items smallest first. *)
Fixpoint queue_sorted (q : list (Z * path)) : Prop :=
  match q with
  | [] => True
  | x :: q' => Forall (λ y, item_le x y = true) q' ∧ queue_sorted q'
  end.

(** The calls of [llm.transcribe] made so far on the file [p]. *)
Definition calls_for (p : path) (st : state) : nat :=
  length (filter (λ q, q = p) (sent st)).

(** The calls of [llm.transcribe] a transcriber may still make on the item
    it holds. *)
Definition budget (max_retries : Z) (pc : worker_pc) : Z :=
  match pc with
  | WBegin _ => Z.max 0 (max_retries + 1)
  | WCall _ retries | WSleep _ retries _ => Z.max 0 (max_retries + 1 - retries)
  | _ => 0
  end.

(** An item is the start time and the artifact of a segment that was put
    on the queue. *)
Definition item_of_segment (st : state) (it : Z * path) : Prop :=
  ∃ s, segments st !! it.2 = Some s ∧ started_at s = it.1 ∧ it.2 ∈ enqueued st.

(** Where the items are, in every run. *)
Record items_inv (st : state) : Prop := {
  ii_sorted : queue_sorted (pending_queue st);
  ii_item : ∀ it, it ∈ pending_queue st → item_of_segment st it;
  ii_held : ∀ w pc it, workers st !! w = Some pc → held pc = Some it →
            item_of_segment st it;
  ii_results : ∀ e, e ∈ results st →
               ∃ (i : nat) s, segments st !! i = Some s ∧ started_at s = e.1
                              ∧ i ∈ enqueued st;
  ii_queue_nodup : NoDup (pending_queue st).*2;
  ii_apart : ∀ w pc it, workers st !! w = Some pc → held pc = Some it →
             it.2 ∉ (pending_queue st).*2;
  ii_one_holder : ∀ w w' pc pc' it it',
                  workers st !! w = Some pc → workers st !! w' = Some pc' →
                  held pc = Some it → held pc' = Some it' → it.2 = it'.2 → w = w';
  ii_unsent_new : ∀ p : path, p ∉ enqueued st → p ∉ sent st;
  ii_unsent_pending : ∀ it, it ∈ pending_queue st → it.2 ∉ sent st;
  ii_budget : ∀ w pc it, workers st !! w = Some pc → held pc = Some it →
              Z.of_nat (calls_for it.2 st) + budget (max_retries st) pc
              ≤ Z.max 0 (max_retries st + 1);
  ii_sent : ∀ p, Z.of_nat (calls_for p st) ≤ Z.max 0 (max_retries st + 1)
}.

(** Segments are never dropped and keep their start time. *)
Definition seg_grows (st st' : state) : Prop :=
  ∀ (i : nat) s, segments st !! i = Some s →
    ∃ s', segments st' !! i = Some s' ∧ started_at s' = started_at s.

(** What one step does to the items. *)
Inductive effect (st st' : state) : Prop :=
| Quiet :
    pending_queue st' `sublist_of` pending_queue st →
    results st' `sublist_of` results st →
    (∃ extra, workers st' = workers st ++ extra ∧ Forall (λ pc, held pc = None) extra) →
    sent st' = sent st → enqueued st' = enqueued st → effect st st'
| Put (i : nat) (s : RecordingSegment) :
    segments st !! i = Some s → i ∉ enqueued st →
    pending_queue st' = pq_put (started_at s, i) (pending_queue st) →
    enqueued st' = enqueued st ++ [i] →
    results st' = results st → workers st' = workers st → sent st' = sent st →
    effect st st'
| Worked (w : nat) (r : Retry.reply) :
    work w r st = Some st' → effect st st'
| Raised (w : nat) (kept : option nat) :
    write_raises w kept st = Some st' → effect st st'.

(** The caller is in [cancel], past the loop that empties the queue. *)
Definition drained (pc : ctl_pc) : bool :=
  match pc with
  | CCancelJoin | CCancelResults | CCancelTranscript => true
  | _ => false
  end.

(** The caller is in [cancel]. *)
Definition in_cancel (pc : ctl_pc) : bool :=
  match pc with
  | CJoinScheduler true | CCancelSnapshot | CCancelling _ _ | CCancelClear
  | CCancelDrain | CCancelJoin | CCancelResults | CCancelTranscript => true
  | _ => false
  end.

(** A transcriber is inside [_write_transcript], between its append to the
    results and its write of the file. *)
Definition writing (pc : worker_pc) : bool :=
  match pc with WSnapshot _ | WFlush _ _ => true | _ => false end.

(** Nobody is about to write or to remove the transcript file. *)
Definition settled (st : state) : Prop :=
  (∀ w pc, workers st !! w = Some pc → writing pc = false)
  ∧ controller st ≠ CCancelTranscript.

(** The transcript file and the results, as long as no join gives up;
    [on_disk] is the file the manager found when it was built, and [whole]
    tells that no write of the file has raised so far. *)
Record sink_inv (on_disk : option string) (whole : bool) (st : state) : Prop := {
  si_drained : drained (controller st) = true → pending_queue st = [];
  si_cleared : controller st = CCancelTranscript → results st = [];
  si_unpaused : in_cancel (controller st) = true → paused st = false;
  si_fresh : scheduler st = SNone →
             workers st = [] ∧ results st = [] ∧ paused st = false
             ∧ (transcript st = on_disk ∨ transcript st = None);
  si_some : whole = true → settled st → results st ≠ [] →
            transcript st = Some (Str.join " " (Assembler.texts_of (results st)));
  si_none : settled st → results st = [] → scheduler st ≠ SNone →
            transcript st = None;
  si_flush : ∀ w it texts, workers st !! w = Some (WFlush it texts) →
             texts = Assembler.texts_of (results st);
  si_writing : ∀ w pc, workers st !! w = Some pc → writing pc = true →
               results st ≠ []
}.

(** An event of the manager's own threads in which no join gives up: not
    the call of a control method, and not a timeout. *)
Definition own (e : event) : bool :=
  match e with
  | Call _ | Ctl true | Sched true => false
  | _ => true
  end.

End ManagerMore.

(** The handlers: what is said of them. *)

Module AppSpec.
Import App.

(** The label the window should show for a status. *)
Definition label_of (s : status) : string :=
  if negb (recording s) then "idle"
  else if paused s then "paused"
  else if String.eqb (mode s) "prompt" then "recording prompt"
  else "recording".

(** The label the window shows after some effects, having shown [shown]
    before; a new window shows ["idle"]. *)
Fixpoint last_label (shown : string) (effs : list effect) : string :=
  match effs with
  | [] => shown
  | Label text :: effs' => last_label text effs'
  | _ :: effs' => last_label shown effs'
  end.

(** The session as its user sees it. *)
Inductive phase := Idle | Recording | Paused.

Definition phase_of (s : status) : phase :=
  if negb (recording s) then Idle else if paused s then Paused else Recording.

(** The order in which the methods of the recorder are meant to be
    called. *)
Definition next (p : phase) (c : Manager.command) : option phase :=
  match p, c with
  | Idle, Manager.Start => Some Recording
  | Recording, Manager.Pause => Some Paused
  | Paused, Manager.Resume => Some Recording
  | Recording, Manager.Stop | Paused, Manager.Stop => Some Idle
  | Recording, Manager.Cancel | Paused, Manager.Cancel => Some Idle
  | _, _ => None
  end.

Fixpoint follow (p : phase) (cs : list Manager.command) : option phase :=
  match cs with
  | [] => Some p
  | c :: cs' => match next p c with Some p' => follow p' cs' | None => None end
  end.

(** Between two keys only the recorder's own threads run, and no join
    gives up. *)
Definition quiet (ks : list (hotkey * list Manager.event)) : bool :=
  forallb (λ k, forallb ManagerMore.own k.2) ks.

(** The status of [main] and the state of the recorder tell the same
    story. *)
Definition in_step (s : status) (st : Manager.state) : Prop :=
  paused s = Manager.paused st
  ∧ match phase_of s with
    | Recording =>
        Manager.stop_all st = false ∧ Manager.controller st = Manager.CIdle
        ∧ Invariants.sched_looping (Manager.scheduler st) = true
    | Paused => Manager.stop_all st = true
    | Idle =>
        Manager.stop_all st = true
        ∨ (Manager.scheduler st = Manager.SNone ∧ Manager.stop_all st = false
           ∧ Manager.controller st = Manager.CIdle)
    end.

(** What the handlers keep. *)
Definition sound (s : status) : Prop :=
  (paused s = true → recording s = true)
  ∧ (recording s = false → mode s = "transcribe"%string)
  ∧ (mode s = "transcribe"%string ∨ mode s = "prompt"%string).

End AppSpec.

(** The manager: what its threads can always do. *)

Module Progress.
Import Manager ManagerMore.

(** The remote service, as a function of the files sent to it so far. *)
Definition remote : Type := list path → Retry.reply.

(** An event as it happens when the remote is [answer]: a transcriber gets,
    at its call, the reply [answer] gives. *)
Definition answered (answer : remote) (e : event) (st : state) : event :=
  match e with
  | Work w _ => Work w (answer (sent st))
  | _ => e
  end.

(** The run of a schedule [tr] of the threads against the remote [answer]. *)
Fixpoint run_answered (answer : remote) (tr : list event) (st : state)
  : option state :=
  match tr with
  | [] => Some st
  | e :: tr' =>
      match step (answered answer e st) st with
      | Some st' => run_answered answer tr' st'
      | None => None
      end
  end.

(** An event of a thread other than the caller of the control methods, in
    which no join gives up and no write raises. *)
Definition bystander (e : event) : bool :=
  match e with
  | Ctl _ | WriteRaises _ _ => false
  | _ => own e
  end.

(** An event of the manager's own threads in which no join gives up and no
    write raises. *)
Definition calm (e : event) : bool := own e && steady e.

(** [st'] is reached from [st] by a schedule of events that are all [ok]. *)
Definition reaches (ok : event → bool) (answer : remote) (st st' : state) : Prop :=
  ∃ tr, forallb ok tr = true ∧ run_answered answer tr st = Some st'.

(** The loop of [_stop_active_segments] is only entered with a segment to
    stop. *)
Definition sched_wf (st : state) : Prop :=
  ∀ signalled, scheduler st ≠ SStopping [] signalled.

(** How far a transcriber is from the end of its loop, the queue apart. *)
Definition rank (pc : worker_pc) : nat :=
  match pc with
  | WDone => 0
  | WEmpty => 1
  | WGet => 2
  | WTopIdle => 3
  | WTopEmpty => 4
  | WTop => 5
  | _ => 6
  end.

(** The transcriber [w] is back at the top of its loop, the queue as it
    was. *)
Definition back_on_top (answer : remote) (w : nat) (st st' : state) : Prop :=
  reaches bystander answer st st' ∧ workers st' !! w = Some WTop
  ∧ pending_queue st' = pending_queue st.

(** The caller comes back from the method it is in. *)
Definition returns (answer : remote) (st : state) : Prop :=
  ∃ st', reaches calm answer st st' ∧ controller st' = CIdle.

End Progress.

(** The manager: the temporary files. *)

Module Disk.
Import Manager Invariants.

(** The artifacts on the queue and in the hands of the transcribers are
    files on disk. *)
Definition files_inv (st : state) : Prop :=
  (∀ it, it ∈ pending_queue st → it.2 ∈ files st)
  ∧ (∀ w pc it, workers st !! w = Some pc → held pc = Some it → it.2 ∈ files st).

(** An artifact that was queued, is on disk, was never sent, and is neither
    on the queue nor in the hands of a transcriber. *)
Definition orphan (p : path) (st : state) : Prop :=
  p ∈ files st ∧ p ∈ enqueued st ∧ (p ∉ sent st)
  ∧ (p ∉ (pending_queue st).*2)
  ∧ ∀ w pc it, workers st !! w = Some pc → held pc = Some it → it.2 ≠ p.

(** What one step does to the files: it removes none, and what it adds to
    the queue is on disk; or it is the [unlink] of [cancel] on the item it
    takes from the queue; or the [unlink] of a transcriber on the item it
    holds. *)
Inductive unlinks (st st' : state) : Prop :=
| Kept :
    files st ⊆ files st' →
    (∀ it, it ∈ pending_queue st' → it ∈ pending_queue st ∨ it.2 ∈ files st) →
    unlinks st st'
| Drained (ts : Z) (p : path) (q : list (Z * path)) :
    pending_queue st = (ts, p) :: q →
    st' = set_files (files st ∖ {[p]}) (set_pending_queue q st) →
    unlinks st st'
| Unlinked (w : nat) (it : Z * path) :
    workers st !! w = Some (WUnlink it) →
    st' = set_worker w WEnd (set_files (files st ∖ {[it.2]}) st) →
    unlinks st st'.

End Disk.

(** The manager: what [pause] leaves behind. *)

Module Pausing.
Import Manager Invariants.






End Pausing.

(** The retry of [audio.py] on top of the key rotation of [llm_client.py]. *)

Module Transcribe.
Import Keys.

(** [GroqLLM.transcribe] as [_transcribe_single] meets it: the text
    [_with_key] returns, or the [GroqRateLimitError] it raises, the only
    exception it lets out. *)
Definition reply_of (r : run) : Retry.reply :=
  match result r with
  | Returned text => Retry.Text text
  | GroqRateLimitError _ => Retry.RateLimited
  end.

(** The key manager before the [n]-th call of [transcribe] on one client,
    the calls made one after the other, the [j]-th one in the world [ws j]. *)
Fixpoint manager_before (ws : nat → world) (km : KeyManager) (n : nat)
  : KeyManager :=
  match n with
  | O => km
  | S n' => manager (with_key (ws n') (manager_before ws km n'))
  end.

(** The [n]-th call. *)
Definition call (ws : nat → world) (km : KeyManager) (n : nat) : run :=
  with_key (ws n) (manager_before ws km n).

Definition oracle (ws : nat → world) (km : KeyManager) : nat → Retry.reply :=
  λ n, reply_of (call ws km n).

(** The requests the first [n] calls send to the remote. *)
Fixpoint requests (ws : nat → world) (km : KeyManager) (n : nat) : nat :=
  match n with
  | O => 0
  | S n' => requests ws km n' + length (attempted (call ws km n'))
  end.

End Transcribe.

Import KeysSpec AssemblerSpec RetrySpec Invariants ManagerSpec Solo.

(** * Properties of the key rotation *)

Section KeysFacts.

Import Keys.

Lemma set_cursor_twice c c' km : set_cursor c (set_cursor c' km) = set_cursor c km.
Proof. reflexivity. Qed.

Lemma scan_keys n km now : keys (scan n km now).2 = keys km
  ∧ cooldown_until (scan n km now).2 = cooldown_until km
  ∧ cooldown_seconds (scan n km now).2 = cooldown_seconds km.
Proof.
  revert km. induction n as [|n IH]; intros km; simpl; [done|].
  destruct (keys km !! _) as [key|]; [|done].
  destruct (is_available _ key now); [done|].
  destruct (IH (set_cursor ((cursor km + 1) mod length (keys km))%nat km)) as (?&?&?).
  done.
Qed.

Lemma mod_add_shift (c i N : nat) :
  (N ≠ 0 → ((c + 1) mod N + i) mod N = (c + S i) mod N)%nat.
Proof.
  intros HN. rewrite Nat.Div0.add_mod_idemp_l. f_equal. lia.
Qed.

(** What [scan] returns after [n] rounds. *)
Lemma scan_spec n km now :
  let N := length (keys km) in
  match scan n km now with
  | (Some k, km') =>
      ∃ j, (j < n)%nat
        ∧ keys km !! ((cursor km + j) mod N)%nat = Some k
        ∧ is_available km k now = true
        ∧ (∀ i k', (i < j)%nat → keys km !! ((cursor km + i) mod N)%nat = Some k' →
             is_available km k' now = false)
        ∧ km' = set_cursor ((cursor km + j + 1) mod N)%nat km
  | (None, km') =>
      (∀ i k', (i < n)%nat → keys km !! ((cursor km + i) mod N)%nat = Some k' →
         is_available km k' now = false)
      ∧ keys km' = keys km ∧ cooldown_until km' = cooldown_until km
      ∧ cooldown_seconds km' = cooldown_seconds km
  end.
Proof.
  revert km. induction n as [|n IH]; intros km N; simpl.
  { split; [intros; lia | done]. }
  destruct (keys km !! (cursor km mod length (keys km))%nat) as [key|] eqn:Hk; last first.
  { apply lookup_ge_None in Hk.
    assert (N = 0%nat) as HN0.
    { destruct (decide (N = 0%nat)) as [|Hne]; [done|].
      pose proof (Nat.mod_upper_bound (cursor km) N Hne). subst N. lia. }
    split; [|done]. intros i k' _ Hl. apply lookup_lt_Some in Hl.
    subst N. rewrite HN0 in Hl. simpl in Hl. lia. }
  assert (N ≠ 0%nat) as HN.
  { apply lookup_lt_Some in Hk. subst N. lia. }
  destruct (is_available _ key now) eqn:Hav.
  - exists 0%nat. rewrite !Nat.add_0_r. repeat split; try done; [lia|].
    intros; lia.
  - specialize (IH (set_cursor ((cursor km + 1) mod length (keys km))%nat km)).
    simpl in IH. fold N in IH, Hk |- *.
    destruct (scan n _ now) as [[k|] km'].
    + destruct IH as (j & Hj & Hl & Ha & Hbefore & ->).
      exists (S j).
      rewrite mod_add_shift in Hl by done.
      repeat split; [lia|done|done| |].
      * intros i k' Hi Hl'. destruct i as [|i].
        { rewrite Nat.add_0_r in Hl'. rewrite Hk in Hl'. by simplify_eq. }
        apply (Hbefore i k'); [lia|]. by rewrite mod_add_shift.
      * rewrite set_cursor_twice. f_equal.
        rewrite <- Nat.add_assoc, Nat.Div0.add_mod_idemp_l. f_equal. lia.
    + destruct IH as (Hall & ? & ? & ?). split; [|done].
      intros i k' Hi Hl'. destruct i as [|i].
      { rewrite Nat.add_0_r in Hl'. rewrite Hk in Hl'. by simplify_eq. }
      apply (Hall i k'); [lia|]. by rewrite mod_add_shift.
Qed.

(** [next_key] scans at most [N] keys from the cursor, skips the ones that
    are cooling down and returns the first available one, or nothing when
    every key is cooling down. *)
Lemma next_key_spec km now :
  let N := length (keys km) in
  match next_key km now with
  | (Some k, km') =>
      ∃ j, (j < N)%nat
        ∧ keys km !! ((cursor km + j) mod N)%nat = Some k
        ∧ is_available km k now = true
        ∧ (∀ i k', (i < j)%nat → keys km !! ((cursor km + i) mod N)%nat = Some k' →
             is_available km k' now = false)
        ∧ km' = set_cursor ((cursor km + j + 1) mod N)%nat km
  | (None, km') =>
      (∀ k, k ∈ keys km → is_available km k now = false)
      ∧ keys km' = keys km ∧ cooldown_until km' = cooldown_until km
      ∧ cooldown_seconds km' = cooldown_seconds km
  end.
Proof.
  intros N. unfold next_key. pose proof (scan_spec (length (keys km)) km now) as H.
  simpl in H. fold N in H |- *. destruct (scan N km now) as [[k|] km']; [done|].
  destruct H as (Hall & ? & ? & ?). split; [|done].
  intros k [p Hp]%list_elem_of_lookup.
  assert (p < N)%nat as HpN by (by apply lookup_lt_Some in Hp).
  apply (Hall ((p + (N - cursor km mod N)) mod N)%nat k).
  { apply Nat.mod_upper_bound. lia. }
  rewrite Nat.Div0.add_mod_idemp_r.
  rewrite <- (Nat.Div0.add_mod_idemp_l (cursor km)).
  pose proof (Nat.mod_upper_bound (cursor km) N ltac:(lia)).
  replace (cursor km mod N + (p + (N - cursor km mod N)))%nat with (p + 1 * N)%nat by lia.
  rewrite Nat.Div0.mod_add. by rewrite Nat.mod_small.
Qed.

Lemma next_key_none km now :
  (∀ k, k ∈ keys km → is_available km k now = false) →
  (next_key km now).1 = None.
Proof.
  intros Hall. pose proof (next_key_spec km now) as H. simpl in H.
  destruct (next_key km now) as [[k|] km']; [|done].
  destruct H as (j & _ & Hl & Ha & _).
  rewrite Hall in Ha; [done|]. by eapply list_elem_of_lookup_2.
Qed.

Lemma next_key_head km now key :
  keys km !! (cursor km mod length (keys km))%nat = Some key →
  is_available km key now = true →
  next_key km now =
    (Some key, set_cursor ((cursor km + 1) mod length (keys km))%nat km).
Proof.
  intros Hk Ha. unfold next_key.
  destruct (length (keys km)) as [|n] eqn:HN.
  { apply lookup_lt_Some in Hk. lia. }
  simpl. rewrite HN, Hk.
  change (is_available (set_cursor _ km) key now) with (is_available km key now).
  by rewrite Ha.
Qed.

(** The sweep never calls the remote more than [max_tries] times. *)
Lemma with_key_loop_bound w n km tick errs log :
  let r := with_key_loop w n km tick errs log in
  (length (attempted r) ≤ length log + n)%nat ∧ keys (manager r) = keys km
  ∧ cooldown_seconds (manager r) = cooldown_seconds km.
Proof.
  revert km tick errs log. induction n as [|n IH]; intros km tick errs log; simpl.
  { split; [lia|done]. }
  pose proof (scan_keys (length (keys km)) km (clock w tick)) as (Hk & _ & Hc).
  unfold next_key. destruct (scan _ km _) as [[key|] km1]; simpl in *; [|split; [lia|done]].
  destruct (remote w (length log) key) as [text|msg]; simpl.
  { rewrite length_app. simpl. split; [lia|done]. }
  destruct (is_rate_limit msg).
  - destruct (IH (backoff km1 key (clock w (S tick))) (S (S tick))
      (errs ++ [(Str.take 5 key ++ "*** rate-limited; cooling down")%string]) (log ++ [key]))
      as (Hlen & Hk' & Hc').
    rewrite length_app in Hlen. simpl in *. split; [lia|]. by rewrite Hk', Hc'.
  - destruct (IH km1 (S tick)
      (errs ++ [(Str.take 5 key ++ "*** failed: " ++ msg)%string]) (log ++ [key]))
      as (Hlen & Hk' & Hc').
    rewrite length_app in Hlen. simpl in *. split; [lia|]. by rewrite Hk', Hc'.
Qed.


Lemma monotone_le w a b : monotone w → (a ≤ b)%nat → clock w a ≤ clock w b.
Proof.
  intros Hm Hab. induction Hab as [|b Hab IH]; [lia|].
  specialize (Hm b). lia.
Qed.

Lemma fresh_from_head w km tick key rest :
  fresh_from w km tick (key :: rest) →
  next_key km (clock w tick) =
    (Some key, set_cursor ((cursor km + 1) mod length (keys km))%nat km).
Proof.
  intros (Hnd & Hidx & Hav). apply next_key_head.
  - specialize (Hidx 0%nat). rewrite Nat.add_0_r in Hidx. apply Hidx. simpl. lia.
  - unfold is_available. apply Z.leb_le, Hav. left.
Qed.

Lemma fresh_from_tail w km tick key rest km' tick' :
  monotone w → (tick ≤ tick')%nat →
  fresh_from w km tick (key :: rest) →
  keys km' = keys km →
  cursor km' = ((cursor km + 1) mod length (keys km))%nat →
  (∀ k, k ≠ key → cooldown_until km' !! k = cooldown_until km !! k) →
  fresh_from w km' tick' rest.
Proof.
  intros Hm Ht (Hnd & Hidx & Hav) Hk Hc Hcd.
  apply NoDup_cons in Hnd as [Hnotin Hnd].
  assert (length (keys km) ≠ 0%nat) as HN.
  { specialize (Hidx 0%nat ltac:(simpl; lia)). apply lookup_lt_Some in Hidx. lia. }
  split; [done|]. split.
  - intros i Hi. rewrite Hk, Hc, mod_add_shift by done.
    apply (Hidx (S i)). simpl. lia.
  - intros k Hin. rewrite Hcd by (intros ->; done).
    etrans; [apply Hav; by right|]. by apply monotone_le.
Qed.


(** When every call is rate limited, the sweep backs every key off at the
    time of its failure and raises. *)
Lemma with_key_loop_rate_limited w rest : ∀ km tick errs log,
  monotone w → always_rate_limited w →
  fresh_from w km tick rest →
  let r := with_key_loop w (length rest) km tick errs log in
  result r = exhausted (errors r)
  ∧ attempted r = log ++ rest
  ∧ keys (manager r) = keys km
  ∧ (∀ i k, rest !! i = Some k →
       cooldown_until (manager r) !! k
       = Some (clock w (tick + 2 * i + 1) + cooldown_seconds km))
  ∧ (∀ k, k ∉ rest → cooldown_until (manager r) !! k = cooldown_until km !! k).
Proof.
  induction rest as [|key rest IH]; intros km tick errs log Hm Hrl Hf; simpl.
  { repeat split; try done. by rewrite app_nil_r. }
  rewrite (fresh_from_head _ _ _ _ _ Hf).
  destruct (Hrl (length log) key) as (m & -> & ->).
  set (km2 := backoff (set_cursor ((cursor km + 1) mod length (keys km))%nat km)
                key (clock w (S tick))).
  edestruct (IH km2 (S (S tick))) as (Hres & Hatt & Hkeys & Hcd & Hother); [done|done| |].
  { eapply (fresh_from_tail _ km tick); [done| |done|done|done|].
    - lia.
    - intros k Hne. simpl. by rewrite lookup_insert_ne. }
  pose proof Hf as (Hnd & _ & _). apply NoDup_cons in Hnd as [Hnotin Hnd].
  split; [done|]. split; [by rewrite Hatt, <- app_assoc|]. split; [done|]. split.
  - intros [|i] k Hl; simpl in Hl.
    + simplify_eq. rewrite Hother by done. simpl. rewrite lookup_insert_eq.
      do 3 f_equal. lia.
    + rewrite (Hcd i k Hl). simpl. do 3 f_equal. lia.
  - intros k Hk. rewrite Hother by (intros ?; apply Hk; by right).
    simpl. rewrite lookup_insert_ne; [done|]. intros ->. apply Hk. left.
Qed.

Lemma fresh_from_start w km :
  NoDup (keys km) →
  (∀ k, k ∈ keys km → is_available km k (clock w 0) = true) →
  fresh_from w km 0 (rotate (cursor km) (keys km)).
Proof.
  intros Hnd Hav. split; [|split].
  - eapply NoDup_Permutation_proper; [|done]. unfold rotate.
    etrans; [apply Permutation_app_comm|]. by rewrite take_drop.
  - intros i Hi. rewrite length_rotate in Hi. rewrite lookup_rotate_r by done.
    f_equal. unfold rotate_nat_add.
    rewrite <- Nat2Z.inj_add, <- Nat2Z.inj_mod. by rewrite Nat2Z.id.
  - intros k Hk%elem_of_rotate. by apply Z.leb_le, Hav.
Qed.

End KeysFacts.

(** C3.  N distinct credentials, none of them cooling down when the call
    starts; every attempt of the call draws a rate-limit error.  Then the
    call raises [GroqRateLimitError] after exactly N attempts, one per
    credential in cursor order, and each credential's [cooldown_until] is the
    clock reading taken at its failure plus the 300 seconds of
    [cooldown_seconds].  A later call, in the world [w'], that starts before
    any of these cooldowns is over raises at once, without any attempt. *)
Theorem rate_limited_call_exhausts_all_keys (km : Keys.KeyManager) (w w' : Keys.world) :
  NoDup (Keys.keys km) →
  Keys.cooldown_seconds km = Keys.default_cooldown_seconds →
  (∀ k, k ∈ Keys.keys km →
     default 0 (Keys.cooldown_until km !! k) ≤ Keys.clock w 0) →
  monotone w →
  always_rate_limited w →
  (∀ i, (i < length (Keys.keys km))%nat →
     Keys.clock w' 0 < Keys.clock w (2 * i + 1) + 300) →
  let r := Keys.with_key w km in
  let N := length (Keys.keys km) in
  let r' := Keys.with_key w' (Keys.manager r) in
  (∃ msg, Keys.result r = Keys.GroqRateLimitError msg)
  ∧ length (Keys.attempted r) = N
  ∧ Keys.attempted r = rotate (Keys.cursor km) (Keys.keys km)
  ∧ (∀ k, k ∈ Keys.keys km →
       ∃ i, (i < N)%nat ∧ Keys.attempted r !! i = Some k
            ∧ Keys.cooldown_until (Keys.manager r) !! k
              = Some (Keys.clock w (2 * i + 1) + 300))
  ∧ (∃ msg, Keys.result r' = Keys.GroqRateLimitError msg)
  ∧ Keys.attempted r' = []
  ∧ Keys.cooldown_until (Keys.manager r') = Keys.cooldown_until (Keys.manager r).
Proof.
  intros Hnd Hcs Hav Hm Hrl Hsoon r N r'.
  assert (∀ k, k ∈ Keys.keys km → Keys.is_available km k (Keys.clock w 0) = true)
    as Hav'.
  { intros k Hk. by apply Z.leb_le, Hav. }
  pose proof (with_key_loop_rate_limited w (rotate (Keys.cursor km) (Keys.keys km))
                km 0 [] [] Hm Hrl (fresh_from_start w km Hnd Hav')) as H.
  rewrite length_rotate in H. simpl in H. fold (Keys.with_key w km) in H. fold r in H.
  destruct H as (Hres & Hatt & Hkeys & Hcd & _).
  assert (∀ k, k ∈ Keys.keys km →
            ∃ i, (i < N)%nat ∧ Keys.attempted r !! i = Some k
                 ∧ Keys.cooldown_until (Keys.manager r) !! k
                   = Some (Keys.clock w (2 * i + 1) + 300)) as Hcool.
  { intros k Hk. apply (elem_of_rotate _ (Keys.cursor km)) in Hk.
    apply list_elem_of_lookup in Hk as [i Hi].
    exists i. split; [|split].
    - apply lookup_lt_Some in Hi. by rewrite length_rotate in Hi.
    - by rewrite Hatt.
    - rewrite (Hcd i k Hi), Hcs. reflexivity. }
  split; [by eexists|]. split; [by rewrite Hatt, length_rotate|]. split; [done|].
  split; [done|].
  subst r'. unfold Keys.with_key.
  destruct (length (Keys.keys (Keys.manager r))) as [|n] eqn:Hlen; simpl.
  { split; [by eexists|done]. }
  pose proof (next_key_none (Keys.manager r) (Keys.clock w' 0)) as Hnone.
  rewrite Hkeys in Hnone.
  assert (∀ k, k ∈ Keys.keys km →
            Keys.is_available (Keys.manager r) k (Keys.clock w' 0) = false) as Hall.
  { intros k Hk. destruct (Hcool k Hk) as (i & Hi & _ & Hcd').
    unfold Keys.is_available. rewrite Hcd'. simpl. apply Z.leb_gt. by apply Hsoon. }
  specialize (Hnone Hall).
  pose proof (next_key_spec (Keys.manager r) (Keys.clock w' 0)) as Hspec.
  destruct (Keys.next_key _ _) as [[k|] km1]; simpl in *; [done|].
  destruct Hspec as (_ & _ & Hsame & _). split; [by eexists|done].
Qed.

Lemma rate_limited_call_exhausts_all_keys_witness :
  length (Keys.attempted (Keys.with_key Examples.w_429 Examples.km_two)) = 2%nat
  ∧ Keys.attempted
      (Keys.with_key Examples.w_later
         (Keys.manager (Keys.with_key Examples.w_429 Examples.km_two))) = [].
Proof.
  refine (let H := rate_limited_call_exhausts_all_keys
                     Examples.km_two Examples.w_429 Examples.w_later _ _ _ _ _ _ in
          conj (proj1 (proj2 H)) (proj1 (proj2 (proj2 (proj2 (proj2 (proj2 H))))))).
  - refine (bool_decide_unpack _ _). vm_compute. exact I.
  - reflexivity.
  - intros k Hk. vm_compute. discriminate.
  - intros n. simpl. lia.
  - intros n k. eexists. split; reflexivity.
  - intros i Hi. simpl. lia.
Defined.




(** * Properties of the manager: what is put on the queue *)

Section ManagerFacts.

Import Manager.

Lemma NoDup_submseteq_mono {A} (l k : list A) : l ⊆+ k → NoDup k → NoDup l.
Proof.
  intros (m & Hsub & Hperm)%submseteq_sublist_l Hnd.
  eapply sublist_NoDup; [|done]. by rewrite Hperm.
Qed.

Lemma ctl_todo_stopping l : ctl_todo (stopping l) = l.
Proof. by destruct l. Qed.

Lemma sched_todo_stopping l : sched_todo (sched_stopping l) = l.
Proof. by destruct l. Qed.

Lemma ctl_todo_cancelling l : ctl_todo (cancelling l) = [].
Proof. by destruct l. Qed.

Lemma remove_first_sublist i l : remove_first i l `sublist_of` l.
Proof.
  induction l as [|j l IH]; simpl; [done|].
  case_decide; [by apply sublist_cons|by apply sublist_skip].
Qed.

Lemma remove_first_notin i l : NoDup l → i ∉ remove_first i l.
Proof.
  induction 1 as [|j l Hj Hnd IH]; simpl; [apply not_elem_of_nil|].
  case_decide; [by subst|].
  intros [?|?]%elem_of_cons; [done|by apply IH].
Qed.

(** The effect of [queue_segment] on what the invariant speaks of. *)
Lemma queue_segment_view i st :
  segments (queue_segment i st) = segments st
  ∧ active (queue_segment i st) = active st
  ∧ scheduler (queue_segment i st) = scheduler st
  ∧ controller (queue_segment i st) = controller st
  ∧ (enqueued (queue_segment i st) = enqueued st
     ∨ enqueued (queue_segment i st) = enqueued st ++ [i]
       ∧ ∃ s p, segments st !! i = Some s ∧ file_path s = Some p).
Proof.
  unfold queue_segment, artifact.
  destruct (segments st !! i) as [s|] eqn:Hs; [|by auto 10].
  destruct (file_path s) as [p|] eqn:Hp; [|by auto 10].
  case_bool_decide; simpl; [|by auto 10].
  repeat split; try done. right. split; [done|]. by exists s, p.
Qed.

(** Handing segment [i], held by exactly one owner and not yet queued, to
    [queue_segment] keeps the invariant once [i] has left the owners. *)
Lemma queue_inv_hand_over i st st' :
  queue_inv st →
  i ∉ enqueued st →
  segments st' = segments st →
  (enqueued st' = enqueued st
   ∨ enqueued st' = enqueued st ++ [i]
     ∧ ∃ s p, segments st !! i = Some s ∧ file_path s = Some p) →
  owners st' ⊆+ owners st →
  i ∉ owners st' →
  queue_inv st'.
Proof.
  intros [He Ho Ha Hb Hf Hs] Hi Hseg Henq Hsub Hgone.
  assert (∀ j, j ∈ owners st' → j ∈ owners st) as Hin.
  { intros j Hj. by eapply elem_of_submseteq. }
  split.
  - destruct Henq as [->|[-> _]]; [done|].
    apply NoDup_app. split; [done|]. split; [|apply NoDup_singleton].
    by intros j Hj ->%list_elem_of_singleton.
  - by eapply NoDup_submseteq_mono.
  - intros j Hj. destruct Henq as [->|[-> _]]; [by apply Ha, Hin|].
    intros [?| ->%list_elem_of_singleton]%elem_of_app; [by apply (Ha j); auto|done].
  - intros j Hj. rewrite Hseg. by apply Hb, Hin.
  - intros j Hj. rewrite Hseg.
    destruct Henq as [Heq|[Heq (s & p & Hl & Hp)]]; rewrite Heq in Hj; [by apply Hf|].
    apply elem_of_app in Hj as [?| ->%list_elem_of_singleton]; [by apply Hf|].
    exists s. split; [done|]. by destruct (Hs _ _ Hl p Hp) as [-> _].
  - intros j s. rewrite Hseg. apply Hs.
Qed.

(** A step that leaves owners and queue history alone and changes at most
    one segment, keeping [seg_ok]. *)
Lemma queue_inv_frame st st' :
  queue_inv st →
  enqueued st' = enqueued st →
  owners st' ⊆+ owners st →
  length (segments st') = length (segments st) →
  (∀ i s', segments st' !! i = Some s' →
     ∃ s, segments st !! i = Some s ∧ (file_path s' = file_path s ∨ file_path s = None)
          ∧ seg_ok i s') →
  queue_inv st'.
Proof.
  intros [He Ho Ha Hb Hf Hs] Henq Hsub Hlen Hseg.
  assert (∀ j, j ∈ owners st' → j ∈ owners st) as Hin.
  { intros j Hj. by eapply elem_of_submseteq. }
  split.
  - by rewrite Henq.
  - by eapply NoDup_submseteq_mono.
  - intros j Hj. rewrite Henq. by apply Ha, Hin.
  - intros j Hj. rewrite Hlen. by apply Hb, Hin.
  - intros j Hj. rewrite Henq in Hj. destruct (Hf j Hj) as (s & Hl & Hp).
    destruct (segments st' !! j) as [s'|] eqn:Hl'.
    + exists s'. split; [done|]. destruct (Hseg j s' Hl') as (s0 & Hl0 & [Heq|Hnone] & _).
      * rewrite Hl in Hl0. injection Hl0 as <-. by rewrite Heq.
      * rewrite Hl in Hl0. injection Hl0 as <-. by rewrite Hp in Hnone.
    + apply lookup_ge_None in Hl'. apply lookup_lt_Some in Hl. lia.
  - intros j s' Hl'. by destruct (Hseg j s' Hl') as (_ & _ & _ & ?).
Qed.

Lemma queue_inv_same st st' :
  queue_inv st →
  enqueued st' = enqueued st →
  segments st' = segments st →
  owners st' ⊆+ owners st →
  queue_inv st'.
Proof.
  intros Hinv He Hs Ho. apply (queue_inv_frame st); [done|done|done|by rewrite Hs|].
  intros i s' Hl. rewrite Hs in Hl. exists s'. split; [done|]. split; [by left|].
  by apply (qi_segs _ Hinv).
Qed.

Lemma queue_inv_alter f i st st' :
  queue_inv st →
  enqueued st' = enqueued st →
  owners st' ⊆+ owners st →
  segments st' = alter f i (segments st) →
  (∀ s, segments st !! i = Some s → seg_ok i s →
     (file_path (f s) = file_path s ∨ file_path s = None) ∧ seg_ok i (f s)) →
  queue_inv st'.
Proof.
  intros Hinv He Ho Hs Hf. apply (queue_inv_frame st); [done|done|done| |].
  { by rewrite Hs, length_alter. }
  intros j s' Hl. rewrite Hs, list_lookup_alter in Hl.
  destruct (decide (i = j)) as [->|Hne].
  - destruct (segments st !! j) as [s|] eqn:Hj; simpl in Hl; [|done].
    injection Hl as <-. exists s. split; [done|].
    by apply Hf, (qi_segs _ Hinv).
  - exists s'. split; [done|]. split; [by left|]. by apply (qi_segs _ Hinv).
Qed.

Lemma seg_ok_signal i s : seg_ok i s → seg_ok i (seg_signal s).
Proof. done. Qed.

Lemma seg_ok_watched i s : seg_ok i s → seg_ok i (seg_watched s).
Proof. done. Qed.

Lemma signal_queue_inv i st st' :
  queue_inv st →
  enqueued st' = enqueued st →
  owners st' ⊆+ owners st →
  segments st' = segments (signal i st) →
  queue_inv st'.
Proof.
  intros Hinv He Ho Hs. apply (queue_inv_alter seg_signal i st); try done.
  intros s _ Hok. split; [by left|done].
Qed.

Lemma call_queue_inv c st st' :
  queue_inv st → call c st = Some st' → queue_inv st'.
Proof.
  intros Hinv Hc. unfold call in Hc.
  destruct (controller st) eqn:Hctl; try done. injection Hc as <-.
  assert (running st = false → sched_todo (scheduler st) = []) as Hrun.
  { unfold running. by destruct (scheduler st). }
  destruct c.
  - destruct (running st) eqn:Hr; [done|].
    apply (queue_inv_same st); try done.
    unfold owners. simpl. by rewrite Hctl, Hrun.
  - destruct (running st) eqn:Hr; [done|]. destruct (paused st); [|done]. simpl.
    apply (queue_inv_same st).
    + done.
    + by repeat case_match.
    + by repeat case_match.
    + unfold owners. rewrite Hrun by done.
      by repeat case_match; simpl; rewrite ?Hctl.
  - destruct (running st); [|done]. simpl.
    apply (queue_inv_same st); try done. unfold owners. simpl. by rewrite Hctl.
  - apply (queue_inv_same st); try done. unfold owners. simpl. by rewrite Hctl.
  - apply (queue_inv_same st); try done. unfold owners. simpl. by rewrite Hctl.
Qed.

Lemma NoDup_drop_middle {A} (l1 l2 : list A) i :
  NoDup (l1 ++ i :: l2) → l1 ++ l2 ⊆+ l1 ++ i :: l2 ∧ i ∉ l1 ++ l2.
Proof.
  intros Hnd. split.
  - apply submseteq_skips_l. by apply submseteq_cons.
  - apply NoDup_app in Hnd as (_ & Hdisj & [Hnotin _]%NoDup_cons).
    intros [Hin|Hin]%elem_of_app; [|done].
    apply (Hdisj i Hin). left.
Qed.

Lemma queue_segment_hand_over i st st' :
  queue_inv st →
  i ∉ enqueued st →
  segments st' = segments (queue_segment i st) →
  enqueued st' = enqueued (queue_segment i st) →
  owners st' ⊆+ owners st →
  i ∉ owners st' →
  queue_inv st'.
Proof.
  intros Hinv Hi Hs He Ho Hgone.
  destruct (queue_segment_view i st) as (Hs' & _ & _ & _ & He').
  apply (queue_inv_hand_over i st); try done; [by rewrite Hs, Hs'|].
  by rewrite He.
Qed.

Lemma ctl_step_queue_inv timeout st st' :
  queue_inv st → ctl_step timeout st = Some st' → queue_inv st'.
Proof.
  intros Hinv Hc. unfold ctl_step in Hc.
  pose proof (queue_segment_view) as Hq.
  destruct (controller st) as [|c| |todo sg| | |todo sg| | | | |] eqn:Hctl; try done.
  - destruct (timeout || negb (running st)); [|done]. injection Hc as <-.
    apply (queue_inv_same st); try done. unfold owners; simpl. rewrite Hctl.
    by destruct c.
  - injection Hc as <-. apply (queue_inv_same st); try done.
    unfold owners; simpl. rewrite Hctl, ctl_todo_stopping. simpl.
    rewrite !app_nil_r. apply Permutation_submseteq, Permutation_app_comm.
  - destruct todo as [|i rest]; [done|]. destruct sg.
    + destruct (timeout || ended st i); [|done]. injection Hc as <-.
      pose proof (qi_owners _ Hinv) as Hnd. unfold owners in Hnd.
      rewrite Hctl in Hnd. simpl in Hnd. rewrite app_assoc in Hnd.
      apply NoDup_drop_middle in Hnd as [Hsub Hnotin].
      destruct (Hq i st) as (_ & Ha & Hsc & _ & _).
      apply (queue_segment_hand_over i st); try done.
      * apply (qi_apart _ Hinv). unfold owners. rewrite Hctl. simpl.
        rewrite !elem_of_app. right. right. left.
      * unfold owners. simpl. rewrite Ha, Hsc, Hctl, ctl_todo_stopping. simpl.
        by rewrite !app_assoc.
      * unfold owners. simpl. rewrite Ha, Hsc, ctl_todo_stopping. by rewrite app_assoc.
    + injection Hc as <-. apply (signal_queue_inv i st); try done.
      unfold owners. simpl. by rewrite Hctl.
  - destruct (transcriber_thread st) as [w|].
    + destruct (timeout || negb (worker_alive st w)); [|done]. injection Hc as <-.
      apply (queue_inv_same st); try done. unfold owners; simpl. by rewrite Hctl.
    + injection Hc as <-.
      apply (queue_inv_same st); try done. unfold owners; simpl. by rewrite Hctl.
  - injection Hc as <-. apply (queue_inv_same st); try done.
    unfold owners; simpl. by rewrite Hctl, ctl_todo_cancelling.
  - destruct todo as [|i rest]; [done|]. destruct sg.
    + destruct (timeout || ended st i); [|done]. injection Hc as <-.
      unfold discard_segment. destruct (artifact st i).
      * apply (queue_inv_same st); try done.
        unfold owners; simpl. by rewrite Hctl, ctl_todo_cancelling.
      * apply (queue_inv_same st); try done.
        unfold owners; simpl. by rewrite Hctl, ctl_todo_cancelling.
    + injection Hc as <-. apply (signal_queue_inv i st); try done.
      unfold owners. simpl. by rewrite Hctl.
  - injection Hc as <-. apply (queue_inv_same st); try done.
    unfold owners; simpl. rewrite Hctl. simpl. apply submseteq_inserts_l. done.
  - destruct (pending_queue st) as [|[ts p] q]; injection Hc as <-.
    + apply (queue_inv_same st); try done. unfold owners; simpl. by rewrite Hctl.
    + apply (queue_inv_same st); try done.
  - destruct (transcriber_thread st) as [w|].
    + destruct (timeout || negb (worker_alive st w)); [|done]. injection Hc as <-.
      apply (queue_inv_same st); try done. unfold owners; simpl. by rewrite Hctl.
    + injection Hc as <-.
      apply (queue_inv_same st); try done. unfold owners; simpl. by rewrite Hctl.
  - injection Hc as <-.
    apply (queue_inv_same st); try done. unfold owners; simpl. by rewrite Hctl.
  - injection Hc as <-.
    apply (queue_inv_same st); try done. unfold owners; simpl. by rewrite Hctl.
Qed.

Lemma sched_step_queue_inv timeout st st' :
  queue_inv st → sched_step timeout st = Some st' → queue_inv st'.
Proof.
  intros Hinv Hc. unfold sched_step in Hc.
  pose proof (queue_segment_view) as Hq.
  destruct (scheduler st) as [| | | | |todo sg|] eqn:Hsc; try done.
  - injection Hc as <-. apply (queue_inv_same st); try done.
    unfold owners; simpl. rewrite Hsc. by destruct (stop_all st).
  - injection Hc as <-. apply (queue_inv_same st); try done.
    unfold owners; simpl. rewrite Hsc. by destruct (stop_all st).
  - injection Hc as <-. apply (queue_inv_same st); try done.
    unfold owners; simpl. rewrite Hsc, sched_todo_stopping. by simpl.
  - destruct todo as [|i rest]; [done|]. destruct sg.
    + destruct (timeout || ended st i); [|done]. injection Hc as <-.
      pose proof (qi_owners _ Hinv) as Hnd. unfold owners in Hnd.
      rewrite Hsc in Hnd. simpl in Hnd.
      replace (active st ++ i :: rest ++ ctl_todo (controller st))
        with (active st ++ i :: (rest ++ ctl_todo (controller st))) in Hnd by done.
      apply NoDup_drop_middle in Hnd as [Hsub Hnotin].
      destruct (Hq i st) as (_ & Ha & _ & Hct & _).
      apply (queue_segment_hand_over i st); try done.
      * apply (qi_apart _ Hinv). unfold owners. rewrite Hsc. simpl.
        apply elem_of_app. right. left.
      * unfold owners. simpl. by rewrite Ha, Hct, Hsc, sched_todo_stopping.
      * unfold owners. simpl. by rewrite Ha, Hct, sched_todo_stopping.
    + injection Hc as <-. apply (signal_queue_inv i st); try done.
      unfold owners. simpl. by rewrite Hsc.
Qed.

Lemma spawn_queue_inv now st st' :
  queue_inv st → spawn now st = Some st' → queue_inv st'.
Proof.
  intros [He Ho Ha Hb Hf Hs] Hc. unfold spawn in Hc.
  destruct (scheduler st) eqn:Hsc; try done. injection Hc as <-.
  set (n := length (segments st)).
  assert (n ∉ owners st) as Hfresh by (intros ?%Hb; lia).
  assert (n ∉ enqueued st) as Hfresh'.
  { intros (s & Hl%lookup_lt_Some & _)%Hf. lia. }
  assert (∀ j, j ∈ owners
            (set_scheduler SWait (set_active (active st ++ [n])
               (set_segments (segments st ++ [{|
                  started_at := now; max_duration := segment_duration st;
                  stop_event := false; frames := 0; file_path := None;
                  phase := Capturing; watched := false |}]) st)))
            → j ∈ owners st ∨ j = n) as Hown.
  { unfold owners. simpl. rewrite Hsc. simpl. intros j.
    rewrite !elem_of_app, list_elem_of_singleton. tauto. }
  split; simpl.
  - done.
  - unfold owners in *. simpl. rewrite Hsc in Ho, Hfresh. simpl in *.
    rewrite <- app_assoc. simpl. apply NoDup_app in Ho as (H1 & H2 & H3).
    apply NoDup_app. split; [done|]. split.
    + intros j Hj [->|Hj']%elem_of_cons; [|by apply (H2 j)].
      apply Hfresh. apply elem_of_app. by left.
    + apply NoDup_cons. split; [|done]. intros Hin. apply Hfresh.
      apply elem_of_app. by right.
  - intros j [Hj| ->]%Hown; [by apply Ha|done].
  - intros j [Hj%Hb| ->]%Hown; rewrite length_app; simpl; fold n; lia.
  - intros j Hj. destruct (Hf j Hj) as (s & Hl & Hp). exists s. split; [|done].
    by apply lookup_app_l_Some.
  - intros j s [Hl|[_ Hl]]%lookup_app_Some; [by apply Hs|].
    destruct (j - length (segments st))%nat; simpl in Hl; [|done].
    injection Hl as <-. by intros p.
Qed.

(** A transcriber touches neither the segments nor the active list nor the
    other threads. *)
Lemma work_view w r st st' :
  work w r st = Some st' →
  segments st' = segments st ∧ active st' = active st
  ∧ scheduler st' = scheduler st ∧ controller st' = controller st
  ∧ enqueued st' = enqueued st ∧ stop_all st' = stop_all st
  ∧ paused st' = paused st ∧ transcriber_thread st' = transcriber_thread st
  ∧ max_retries st' = max_retries st
  ∧ length (workers st') = length (workers st).
Proof.
  unfold work, set_worker. intros Hc.
  repeat case_match; simplify_eq; simpl; by rewrite ?length_insert.
Qed.

Lemma work_queue_inv w r st st' :
  queue_inv st → work w r st = Some st' → queue_inv st'.
Proof.
  intros Hinv (Hs & Ha & Hsc & Hct & He & _)%work_view.
  apply (queue_inv_same st); try done. unfold owners. by rewrite Ha, Hsc, Hct.
Qed.

(** A write that raises ends its transcriber; besides, it touches the
    counter and the file. *)
Lemma write_raises_view w kept st st' :
  write_raises w kept st = Some st' →
  ∃ it texts,
    workers st !! w = Some (WFlush it texts) ∧ texts ≠ []
    ∧ st' = set_worker w WDone
              (set_transcribing (transcribing st - 1)
                 (set_transcript
                    (Assembler.flush_raises texts kept (transcript st)) st)).
Proof.
  unfold write_raises. intros Hc.
  destruct (workers st !! w) as [[]|]; try done.
  destruct texts as [|t texts]; [done|]. simplify_eq. by eexists _, _.
Qed.

Lemma write_raises_queue_inv w kept st st' :
  queue_inv st → write_raises w kept st = Some st' → queue_inv st'.
Proof.
  intros Hinv (it & texts & _ & _ & ->)%write_raises_view.
  by apply (queue_inv_same st).
Qed.

Lemma seg_read_queue_inv i st st' :
  queue_inv st → seg_read i st = Some st' → queue_inv st'.
Proof.
  intros Hinv Hc. unfold seg_read in Hc.
  destruct (segments st !! i) as [s|] eqn:Hl; [|done].
  destruct (phase s) eqn:Hph; try done. destruct (stop_event s); [done|].
  injection Hc as <-. apply (queue_inv_alter seg_block i st); try done.
  intros s' Hl' Hok. simplify_eq. split; [by left|].
  intros p Hp. simpl in *. destruct (Hok p Hp) as (? & ? & [?|?]); congruence.
Qed.

Lemma seg_leave_queue_inv i st st' :
  queue_inv st → seg_leave i st = Some st' → queue_inv st'.
Proof.
  intros Hinv Hc. unfold seg_leave in Hc.
  destruct (segments st !! i) as [s|] eqn:Hl; [|done].
  destruct (phase s) eqn:Hph; try done.
  destruct (stop_event s || (1 <=? frames s)%nat); [|done].
  injection Hc as <-.
  assert (file_path s = None) as Hnone.
  { destruct (file_path s) as [p|] eqn:Hp; [|done].
    destruct (qi_segs _ Hinv i s Hl p Hp) as (_ & _ & [?|?]); congruence. }
  destruct (frames s) as [|n] eqn:Hfr.
  - apply (queue_inv_alter (seg_phase_set Finished) i st); try done.
    intros s' Hl' Hok. simplify_eq. split; [by left|].
    intros p Hp. simpl in *. congruence.
  - apply (queue_inv_alter (seg_write i) i st); try done.
    intros s' Hl' Hok. simplify_eq. split; [by right|].
    intros p Hp. simpl in *. simplify_eq. repeat split; [lia|by left].
Qed.

Lemma seg_exit_queue_inv i st st' :
  queue_inv st → seg_exit i st = Some st' → queue_inv st'.
Proof.
  intros Hinv Hc. unfold seg_exit in Hc.
  destruct (segments st !! i) as [s|] eqn:Hl; [|done].
  destruct (phase s) eqn:Hph; try done.
  injection Hc as <-. apply (queue_inv_alter (seg_phase_set Finished) i st); try done.
  intros s' Hl' Hok. simplify_eq. split; [by left|].
  intros p Hp. simpl in *. destruct (Hok p Hp) as (? & ? & _). by auto.
Qed.

Lemma seg_crash_queue_inv i st st' :
  queue_inv st → seg_crash i st = Some st' → queue_inv st'.
Proof.
  intros Hinv Hc. unfold seg_crash in Hc.
  destruct (segments st !! i) as [s|] eqn:Hl; [|done].
  destruct (phase s) eqn:Hph; try done.
  injection Hc as <-. apply (queue_inv_alter (seg_phase_set Crashed) i st); try done.
  intros s' Hl' Hok. simplify_eq. split; [by left|].
  intros p Hp. simpl in *. destruct (Hok p Hp) as (_ & _ & [?|?]); congruence.
Qed.

Lemma watch_queue_inv i st st' :
  queue_inv st → watch i st = Some st' → queue_inv st'.
Proof.
  intros Hinv Hc. unfold watch in Hc.
  destruct (segments st !! i) as [s|] eqn:Hl; [|done].
  destruct (seg_ended s && negb (watched s)); [|done].
  injection Hc as <-.
  set (st1 := set_segments (alter seg_watched i (segments st)) st).
  assert (queue_inv st1) as Hinv1.
  { apply (queue_inv_alter seg_watched i st); try done.
    intros s' _ Hok. split; [by left|done]. }
  case_bool_decide as Hin; [|done].
  set (st2 := set_active (remove_first i (active st)) st1).
  destruct (queue_segment_view i st2) as (_ & Ha & Hsc & Hct & _).
  pose proof (qi_owners _ Hinv) as Hnd. unfold owners in Hnd.
  apply (queue_segment_hand_over i st2).
  - apply (queue_inv_same st1); try done. unfold owners. simpl.
    apply submseteq_skips_r, sublist_submseteq, remove_first_sublist.
  - apply (qi_apart _ Hinv). unfold owners. apply elem_of_app. by left.
  - done.
  - done.
  - unfold owners. by rewrite Ha, Hsc, Hct.
  - unfold owners. rewrite Ha, Hsc, Hct. simpl.
    apply NoDup_app in Hnd as (Hnd1 & Hdisj & _).
    intros [Hi|Hi]%elem_of_app; [by apply (remove_first_notin i (active st))|].
    by apply (Hdisj i).
Qed.

Lemma step_queue_inv e st st' :
  queue_inv st → step e st = Some st' → queue_inv st'.
Proof.
  intros Hinv. destruct e; unfold step; intros Hstep.
  - by eapply call_queue_inv.
  - by eapply ctl_step_queue_inv.
  - by eapply sched_step_queue_inv.
  - by eapply spawn_queue_inv.
  - by eapply work_queue_inv.
  - by eapply write_raises_queue_inv.
  - by eapply seg_read_queue_inv.
  - by eapply seg_leave_queue_inv.
  - by eapply seg_exit_queue_inv.
  - by eapply seg_crash_queue_inv.
  - by eapply watch_queue_inv.
Qed.

Lemma init_queue_inv on_disk gap dur mw mr : queue_inv (init on_disk gap dur mw mr).
Proof.
  split; simpl; try done; try apply NoDup_nil_2.
  - by intros i ?%not_elem_of_nil.
  - by intros i ?%not_elem_of_nil.
  - by intros i ?%not_elem_of_nil.
Qed.

(** A property kept by every step holds after every run. *)
Lemma run_invariant (P : state → Prop) :
  (∀ e st st', P st → step e st = Some st' → P st') →
  ∀ tr st st', P st → run tr st = Some st' → P st'.
Proof.
  intros Hstep tr. induction tr as [|e tr IH]; intros st st' HP Hrun; simpl in Hrun.
  - by simplify_eq.
  - destruct (step e st) as [st1|] eqn:He; [|done]. eauto.
Qed.

End ManagerFacts.

(** C6. In every run, whatever the interleaving of watchers and stopping
    threads, no segment is put on the pending queue twice; a segment on the
    queue has left its capture loop with at least one block and has written
    its artifact; a segment without blocks, or one whose capture raised, has
    no artifact and is never put on the queue. *)
Theorem artifact_queued_at_most_once on_disk gap dur mw mr tr st :
  Manager.run tr (Manager.init on_disk gap dur mw mr) = Some st →
  NoDup (Manager.enqueued st)
  ∧ (∀ i : nat, i ∈ Manager.enqueued st →
       ∃ s, Manager.segments st !! i = Some s
            ∧ Manager.file_path s = Some i
            ∧ (1 ≤ Manager.frames s)%nat
            ∧ (Manager.phase s = Manager.Flushed ∨ Manager.phase s = Manager.Finished))
  ∧ (∀ (i : nat) s, Manager.segments st !! i = Some s →
       Manager.frames s = 0%nat ∨ Manager.phase s = Manager.Crashed →
       Manager.file_path s = None ∧ i ∉ Manager.enqueued st).
Proof.
  intros Hrun.
  assert (queue_inv st) as [He _ _ _ Hf Hs].
  { eapply (run_invariant queue_inv); [apply step_queue_inv| |done].
    apply init_queue_inv. }
  split; [done|]. split.
  - intros i Hi. destruct (Hf i Hi) as (s & Hl & Hp). exists s.
    destruct (Hs i s Hl i Hp) as (_ & ? & ?). done.
  - intros i s Hl Hbad.
    assert (Manager.file_path s = None) as Hnone.
    { destruct (Manager.file_path s) as [p|] eqn:Hp; [|done].
      destruct (Hs i s Hl p Hp) as (_ & ? & [?|?]); destruct Hbad; (lia || congruence). }
    split; [done|]. intros (s' & Hl' & Hp')%Hf. congruence.
Qed.

(** * Properties of the assembler and of the retry *)

Section AssemblerFacts.

Import Assembler.

Lemma map_fmap {A B} (f : A → B) (l : list A) : List.map f l = f <$> l.
Proof. induction l as [|x l IH]; simpl; [done|]. by rewrite IH. Qed.

Lemma insert_perm x l : insert x l ≡ₚ x :: l.
Proof.
  induction l as [|y l IH]; simpl; [done|].
  destruct (x.1 <=? y.1); [done|]. rewrite IH. apply Permutation_swap.
Qed.

Lemma sorted_perm l : sorted l ≡ₚ l.
Proof.
  induction l as [|x l IH]; simpl; [done|]. by rewrite insert_perm, IH.
Qed.





Lemma texts_of_nil_inv l : texts_of l = [] → l = [].
Proof.
  unfold texts_of. rewrite map_fmap. intros H. apply fmap_nil_inv in H.
  apply Permutation_nil_r. rewrite <- (sorted_perm l). by rewrite H.
Qed.

Lemma write_transcript_some l sink :
  l ≠ [] → write_transcript l sink = Some (Str.join " " (texts_of l)).
Proof.
  intros Hne. unfold write_transcript, flush.
  destruct (texts_of l) eqn:Ht; [|done]. by apply texts_of_nil_inv in Ht.
Qed.

End AssemblerFacts.

Section RetryFacts.

Import Retry.

(** The loop never runs out of its fuel. *)
Lemma loop_total fuel max_retries oracle retries calls naps :
  (Z.to_nat (max_retries + 1 - retries) < fuel)%nat →
  ∃ o, loop fuel max_retries oracle retries calls naps = Some o.
Proof.
  revert retries calls naps.
  induction fuel as [|fuel IH]; intros retries calls naps Hf; [lia|]. simpl.
  destruct (retries <=? max_retries) eqn:Hle; [|by eexists].
  apply Z.leb_le in Hle. unfold attempt.
  destruct (oracle calls); [by eexists| |].
  - destruct (retries + 1 >? max_retries); [by eexists|]. apply IH. lia.
  - destruct (retries + 1 >? max_retries); [by eexists|]. apply IH. lia.
Qed.

Lemma transcribe_single_total max_retries oracle :
  ∃ o, transcribe_single max_retries oracle = Some o.
Proof. apply loop_total. lia. Qed.

(** When every call fails. *)
Lemma loop_all_fail fuel max_retries oracle : ∀ retries calls naps,
  (∀ n, is_failure (oracle n) = true) →
  (Z.to_nat (max_retries + 1 - retries) < fuel)%nat →
  loop fuel max_retries oracle retries calls naps =
    Some {| text := "";
            attempts := calls + Z.to_nat (max_retries + 1 - retries);
            sleeps := naps ++ ((λ k, delay (oracle k)) <$>
                               seq calls (Z.to_nat (max_retries - retries))) |}.
Proof.
  induction fuel as [|fuel IH]; intros retries calls naps Hfail Hf; [lia|]. simpl.
  destruct (retries <=? max_retries) eqn:Hle.
  - apply Z.leb_le in Hle. specialize (Hfail calls) as Hc. unfold attempt, delay in *.
    assert (∀ d, (if retries + 1 >? max_retries
                  then Return ""
                  else Sleep d (retries + 1)) =
                 if decide (retries = max_retries) then Return ""
                 else Sleep d (retries + 1)) as Hif.
    { intros d. destruct (retries + 1 >? max_retries) eqn:Hgt; case_decide; try done; lia. }
    destruct (oracle calls) eqn:Ho; [done| |]; rewrite Hif; case_decide.
    all: try (subst; replace (max_retries + 1 - max_retries) with 1 by lia;
              replace (max_retries - max_retries) with 0 by lia; simpl;
              rewrite app_nil_r; do 2 f_equal; lia).
    all: rewrite IH by (done || lia).
    all: replace (Z.to_nat (max_retries - retries))
           with (S (Z.to_nat (max_retries - (retries + 1)))) by lia.
    all: simpl; rewrite Ho, <- app_assoc; simpl; do 2 f_equal; lia.
  - apply Z.leb_gt in Hle.
    replace (Z.to_nat (max_retries + 1 - retries)) with 0%nat by lia.
    replace (Z.to_nat (max_retries - retries)) with 0%nat by lia.
    simpl. by rewrite app_nil_r, Nat.add_0_r.
Qed.

End RetryFacts.

(** * Properties of the manager: the threads *)

Section ControlFacts.

Import Manager.

Lemma init_control_inv on_disk gap dur mw mr : control_inv (init on_disk gap dur mw mr).
Proof.
  split; simpl; try done.
  intros _. right. by repeat split.
Qed.

Lemma all_done_not_alive st w : all_done st → worker_alive st w = false.
Proof.
  intros Hd. unfold worker_alive. destruct (workers st !! w) as [pc|] eqn:Hw; [|done].
  by rewrite (Hd w pc Hw).
Qed.

Lemma single_all_done st :
  (∀ w pc, workers st !! w = Some pc → alive pc = true → transcriber_thread st = Some w) →
  match transcriber_thread st with
  | Some w => worker_alive st w = false
  | None => True
  end →
  all_done st.
Proof.
  intros Hs Ht w pc Hw. destruct (alive pc) eqn:Ha; [|by destruct pc].
  rewrite (Hs w pc Hw Ha) in Ht. unfold worker_alive in Ht. rewrite Hw in Ht.
  by destruct pc.
Qed.

Lemma lookup_spawned (l : list worker_pc) w pc :
  (∀ w pc, l !! w = Some pc → pc = WDone) →
  (l ++ [WTop]) !! w = Some pc →
  pc = WDone ∨ (w = length l ∧ pc = WTop).
Proof.
  intros Hd [Hw|[Hlen Hw]]%lookup_app_Some; [left; by eapply Hd|].
  right. destruct (w - length l)%nat eqn:Hsub; simpl in Hw; [|done].
  split; [lia|congruence].
Qed.

(** After a [start] or [resume] that found every older transcriber ended. *)
Lemma restart_control_inv st st' :
  control_inv st → controller st = CIdle →
  all_done st →
  controller st' = CIdle → scheduler st' = SLoop → stop_all st' = false →
  paused st' = false →
  workers st' = workers st ++ [WTop] →
  transcriber_thread st' = Some (length (workers st)) →
  control_inv st'.
Proof.
  intros Hinv Hctl Hd Hc' Hs' Hst' Hp' Hw' Ht'.
  split; rewrite ?Hc', ?Hs', ?Hst', ?Hp', ?Hw', ?Ht'; simpl; try done.
  - intros _. by left.
  - intros w pc [->|[-> ->]]%lookup_spawned; done.
  - intros w pc [->|[-> ->]]%lookup_spawned; try done. by intros [?|?].
    by intros [?|?].
Qed.

Lemma call_control_inv c st st' :
  control_inv st → call c st = Some st' → control_inv st'.
Proof.
  intros Hinv Hc. unfold call in Hc.
  destruct (controller st) eqn:Hctl; try done. injection Hc as <-.
  pose proof (ci_idle _ Hinv Hctl) as Hi.
  assert (running st = negb (sched_off (scheduler st))) as Hrun.
  { unfold running. by destruct (scheduler st). }
  assert (running st = false → all_done st ∧ transcriber_thread st = None) as Hquiet.
  { rewrite Hrun. intros Hoff. destruct Hi as [[Hl _]|(_ & ? & ?)]; [|done].
    by destruct (scheduler st). }
  destruct c.
  - destruct (running st); [done|]. destruct Hquiet as [Hd Ht]; [done|].
    by apply (restart_control_inv st).
  - destruct (running st); [done|]. destruct Hquiet as [Hd Ht]; [done|].
    destruct (paused st); [|done]. simpl. rewrite Ht.
    by apply (restart_control_inv st).
  - destruct (running st) eqn:Hr; [|done]. simpl.
    destruct Hinv as [Hb Hsj _ Hs Hj Hn Hp Hf Ha].
    split; simpl; try done.
  - destruct Hinv as [Hb Hsj _ Hs Hj Hn Hp Hf Ha].
    split; simpl; try done.
  - destruct Hinv as [Hb Hsj _ Hs Hj Hn Hp Hf Ha].
    split; simpl; try done.
Qed.

(** A step that touches no transcriber and leaves the flags alone keeps
    the invariant when the places it moves the caller and the scheduler to
    agree with each other. *)
Lemma control_inv_move st st' :
  control_inv st →
  stop_all st' = stop_all st → paused st' = paused st →
  workers st' = workers st →
  (active st = [] → active st' = []) →
  (transcriber_thread st' = transcriber_thread st
   ∨ transcriber_thread st' = None ∧ all_done st) →
  (controller st' ≠ CIdle → stop_all st = true) →
  (past_scheduler_join (controller st') = true → sched_off (scheduler st') = true) →
  (controller st' = CIdle →
     (sched_looping (scheduler st') = true ∧ stop_all st = false)
     ∨ (sched_off (scheduler st') = true ∧ all_done st
        ∧ transcriber_thread st' = None)) →
  (past_transcriber_join (controller st') = true →
     all_done st ∧ transcriber_thread st' = None) →
  no_local_list (controller st') = true →
  (paused st = true → controller st' = CIdle → sched_off (scheduler st') = true) →
  (sched_looping (scheduler st') = false → scheduler st' ≠ SSnapshot →
     active st' = [] ∨ (sched_looping (scheduler st) = false ∧ scheduler st ≠ SSnapshot)) →
  control_inv st'.
Proof.
  intros [Hb Hsj Hi Hs Hj Hn Hp Hf Ha] Hst Hpa Hw Hact Htt Hb' Hsj' Hi' Hj' Hn' Hp' Ha'.
  assert (all_done st' ↔ all_done st) as Hd by (unfold all_done; by rewrite Hw).
  split; rewrite ?Hst, ?Hpa, ?Hw; try done.
  - intros Hc. destruct (Hi' Hc) as [?|(? & ? & ?)]; [by left|right].
    by rewrite Hd.
  - intros w pc Hl Hal. destruct Htt as [->|[-> Hall]]; [by eapply Hs|].
    rewrite (Hall w pc Hl) in Hal. done.
  - intros Hc. rewrite Hd. by apply Hj'.
  - intros Hl Hne. destruct (Ha' Hl Hne) as [?|[? ?]]; [done|].
    by apply Hact, Ha.
Qed.

Lemma ctl_step_control_inv st st' :
  control_inv st → ctl_step false st = Some st' → control_inv st'.
Proof.
  intros Hinv Hc. unfold ctl_step in Hc.
  pose proof Hinv as [Hb Hsj Hi Hs Hj Hn Hp Hf Ha].
  assert (running st = negb (sched_off (scheduler st))) as Hrun.
  { unfold running. by destruct (scheduler st). }
  assert (sched_off (scheduler st) = true → active st = []) as Hquiet.
  { intros Hoff. apply Ha; by destruct (scheduler st). }
  assert (sched_off (scheduler st) = true → sched_looping (scheduler st) = false) as Hnl.
  { by destruct (scheduler st). }
  destruct (controller st) as [|c| |todo sg| | |todo sg| | | | |] eqn:Hctl; try done.
  - (* the scheduler is joined *)
    simpl in Hc. rewrite Hrun in Hc.
    destruct (sched_off (scheduler st)) eqn:Hoff; [|done]. injection Hc as <-.
    apply (control_inv_move st); simpl; try done; auto.
    all: try (intros _; by apply Hb).
    all: destruct c; try done.
  - (* pause, stop: the snapshot of the active list *)
    injection Hc as <-. rewrite Hquiet by auto.
    apply (control_inv_move st); simpl; try rewrite Hctl; try done; auto.
    all: try (intros _; by apply Hb).
  - (* pause, stop: the transcriber is joined *)
    destruct (transcriber_thread st) as [w|] eqn:Ht.
    + simpl in Hc. destruct (worker_alive st w) eqn:Hal; [done|]. injection Hc as <-.
      assert (all_done st) as Hd.
      { apply single_all_done; rewrite Ht; [exact Hs|done]. }
      apply (control_inv_move st); simpl; try done; auto.
      all: try (intros _; right; by auto).
      all: try (intros _ _; by auto).
    + injection Hc as <-.
      assert (all_done st) as Hd.
      { apply single_all_done; rewrite Ht; [exact Hs|done]. }
      apply (control_inv_move st); simpl; try done; auto.
      all: try (intros _; right; by auto).
      all: try (intros _ _; by auto).
  - (* cancel: the copy of the active list *)
    injection Hc as <-. rewrite Hquiet by auto.
    apply (control_inv_move st); simpl; try rewrite Hctl; try done; auto.
    all: try (intros _; by apply Hb).
  - (* cancel: the active list is cleared *)
    injection Hc as <-.
    apply (control_inv_move st); simpl; try rewrite Hctl; try done; auto.
    all: try (intros _; by apply Hb).
  - (* cancel: the queue is emptied *)
    destruct (pending_queue st) as [|[ts p] q]; injection Hc as <-.
    + apply (control_inv_move st); simpl; try rewrite Hctl; try done; auto.
      all: try (intros _; by apply Hb).
    + apply (control_inv_move st); simpl; try rewrite Hctl; try done; auto.
      all: try (intros _; by apply Hb).
  - (* cancel: the transcriber is joined *)
    destruct (transcriber_thread st) as [w|] eqn:Ht.
    + simpl in Hc. destruct (worker_alive st w) eqn:Hal; [done|]. injection Hc as <-.
      assert (all_done st) as Hd.
      { apply single_all_done; rewrite Ht; [exact Hs|done]. }
      apply (control_inv_move st); simpl; try done; auto.
      all: try (intros _; by apply Hb).
    + injection Hc as <-.
      assert (all_done st) as Hd.
      { apply single_all_done; rewrite Ht; [exact Hs|done]. }
      apply (control_inv_move st); simpl; try done; auto.
      all: try (intros _; by apply Hb).
  - (* cancel: the results are cleared *)
    injection Hc as <-.
    apply (control_inv_move st); simpl; try rewrite Hctl; try done; auto.
    all: try (intros _; by apply Hb).
  - (* cancel: the transcript is removed *)
    injection Hc as <-. destruct Hj as [Hd Ht]; [done|].
    apply (control_inv_move st); simpl; try rewrite Hctl; try done; auto.
    all: try (intros _; right; by auto).
    all: try (intros _ _; by auto).
Qed.

Lemma queue_segment_rest i st :
  stop_all (queue_segment i st) = stop_all st
  ∧ paused (queue_segment i st) = paused st
  ∧ workers (queue_segment i st) = workers st
  ∧ transcriber_thread (queue_segment i st) = transcriber_thread st
  ∧ transcribing (queue_segment i st) = transcribing st
  ∧ results (queue_segment i st) = results st
  ∧ transcript (queue_segment i st) = transcript st
  ∧ files (queue_segment i st) = files st
  ∧ sent (queue_segment i st) = sent st
  ∧ max_retries (queue_segment i st) = max_retries st.
Proof.
  unfold queue_segment. destruct (segments st !! i); [|done].
  by destruct (artifact st i).
Qed.

Lemma sched_step_control_inv timeout st st' :
  control_inv st → sched_step timeout st = Some st' → control_inv st'.
Proof.
  intros Hinv Hc. unfold sched_step in Hc.
  pose proof Hinv as [Hb Hsj Hi Hs Hj Hn Hp Hf Ha].
  assert (sched_off (scheduler st) = false → controller st = CIdle →
          sched_looping (scheduler st) = true ∧ stop_all st = false) as Hidle.
  { intros Hoff Hctl. destruct (Hi Hctl) as [?|[Hoff' _]]; [done|congruence]. }
  assert (sched_off (scheduler st) = false →
          past_scheduler_join (controller st) = false) as Hwait.
  { intros Hoff. destruct (past_scheduler_join (controller st)); [|done].
    rewrite Hsj in Hoff; done. }
  assert (sched_off (scheduler st) = false → ∀ b, paused st = true → controller st = CIdle → b) as Hnp.
  { intros Hoff b Hpa Hctl. rewrite (Hp Hpa Hctl) in Hoff. done. }
  destruct (scheduler st) as [| | | | |todo sg|] eqn:Hsc; try done.
  - injection Hc as <-. specialize (Hidle eq_refl). specialize (Hwait eq_refl).
    specialize (Hnp eq_refl).
    apply (control_inv_move st); simpl; try done; auto.
    all: try (rewrite Hwait; done).
    all: try (by apply Hnp).
    all: try (by destruct (stop_all st)).
    intros Hctl. destruct (Hidle Hctl) as [_ ->]. by left.
  - injection Hc as <-. specialize (Hidle eq_refl). specialize (Hwait eq_refl).
    specialize (Hnp eq_refl).
    apply (control_inv_move st); simpl; try done; auto.
    all: try (rewrite Hwait; done).
    all: try (by apply Hnp).
    all: try (by destruct (stop_all st)).
    intros Hctl. destruct (Hidle Hctl) as [_ ->]. by left.
  - injection Hc as <-. specialize (Hidle eq_refl). specialize (Hwait eq_refl).
    specialize (Hnp eq_refl).
    apply (control_inv_move st); simpl; try done; auto.
    all: try (rewrite Hwait; done).
    all: try (by apply Hnp).
    all: try (intros Hctl; by destruct (Hidle Hctl)).
    all: try (intros _ _; by left).
  - destruct todo as [|i rest]; [done|].
    specialize (Hidle eq_refl). specialize (Hwait eq_refl). specialize (Hnp eq_refl).
    destruct sg.
    + destruct (timeout || ended st i); [|done]. injection Hc as <-.
      destruct (queue_segment_view i st) as (_ & Hact & _ & Hctl' & _).
      destruct (queue_segment_rest i st) as (Hst & Hpa & Hw & Ht & _).
      apply (control_inv_move st); simpl; rewrite ?Hctl'; try done; auto.
      all: try (rewrite Hwait; done).
      all: try (by apply Hnp).
      all: try (intros Hctl; by destruct (Hidle Hctl)).
      all: try (intros; congruence).
      all: try (intros _ _; left; rewrite Hact; by apply Ha).
      rewrite Ht. exact Hj.
    + injection Hc as <-.
      apply (control_inv_move st); simpl; try done; auto.
      all: try (rewrite Hwait; done).
      all: try (by apply Hnp).
      all: try (intros Hctl; by destruct (Hidle Hctl)).
Qed.

Lemma spawn_control_inv now st st' :
  control_inv st → spawn now st = Some st' → control_inv st'.
Proof.
  intros [Hb Hsj Hi Hs Hj Hn Hp Hf Ha] Hc. unfold spawn in Hc.
  destruct (scheduler st) eqn:Hsc; try done. injection Hc as <-.
  split; simpl; rewrite ?Hsc in *; try done.
  all: try (intros Hpast; by specialize (Hsj Hpast)).
  all: try (intros Hctl; destruct (Hi Hctl) as [[_ ?]|[? _]]; [by left|done]).
  all: try (intros Hpa Hctl; by specialize (Hp Hpa Hctl)).
Qed.

(** A step that changes only segments, files, queue and active list, and
    empties no flag. *)
Lemma control_inv_data st st' :
  control_inv st →
  stop_all st' = stop_all st → paused st' = paused st →
  workers st' = workers st → transcriber_thread st' = transcriber_thread st →
  controller st' = controller st → scheduler st' = scheduler st →
  (active st = [] → active st' = []) →
  control_inv st'.
Proof.
  intros Hinv Hst Hpa Hw Ht Hc Hs Hact.
  pose proof Hinv as [Hb Hsj Hi Hs' Hj Hn Hp Hf Ha].
  apply (control_inv_move st); rewrite ?Hc, ?Hs, ?Ht; auto.
Qed.

(** What one statement of a transcriber does to its own place. *)
Lemma work_cases w r st st' :
  work w r st = Some st' →
  ∃ pc pc', workers st !! w = Some pc ∧ alive pc = true
    ∧ workers st' = <[w := pc']> (workers st)
    ∧ (pc' = WTopEmpty → pc = WTop ∧ stop_all st = true)
    ∧ (pc' = WTopIdle → pc = WTopEmpty ∧ pending_queue st = [])
    ∧ (pc' = WEmpty → pc = WGet ∧ pending_queue st = [])
    ∧ (pc' = WDone →
         (pc = WTopIdle ∧ transcribing st = 0) ∨ (pc = WEmpty ∧ stop_all st = true)).
Proof.
  unfold work, set_worker. intros Hc.
  destruct (workers st !! w) as [pc|] eqn:Hw; [|done].
  exists pc.
  destruct pc; try done; injection Hc as <-.
  - destruct (stop_all st) eqn:?; eexists; simpl; split_and!; try done.
  - destruct (pending_queue st) eqn:?; eexists; simpl; split_and!; try done.
  - destruct (transcribing st =? 0) eqn:Hz; eexists; simpl; split_and!; try done.
    intros _. left. split; [done|]. by apply Z.eqb_eq.
  - destruct (pending_queue st) eqn:?; eexists; simpl; split_and!; try done.
  - destruct (stop_all st) eqn:?; eexists; simpl; split_and!; try done.
    intros _. by right.
  - eexists; simpl; split_and!; try done.
  - destruct (retries <=? max_retries st); [|eexists; simpl; split_and!; done].
    destruct (Retry.attempt _ _ _); eexists; simpl; split_and!; try done.
  - eexists; simpl; split_and!; try done.
  - destruct (Str.nonempty text); eexists; simpl; split_and!; try done.
  - eexists; simpl; split_and!; try done.
  - eexists; simpl; split_and!; try done.
  - eexists; simpl; split_and!; try done.
  - eexists; simpl; split_and!; try done.
Qed.

Lemma lookup_set_worker (l : list worker_pc) w w' pc pc' :
  <[w := pc']> l !! w' = Some pc →
  (w' = w ∧ pc = pc') ∨ (w' ≠ w ∧ l !! w' = Some pc).
Proof.
  intros Hl. destruct (decide (w = w')) as [->|Hne].
  - left. split; [done|]. apply lookup_lt_Some in Hl as Hlen.
    rewrite length_insert in Hlen. rewrite list_lookup_insert_eq in Hl by done.
    congruence.
  - right. split; [done|]. by rewrite list_lookup_insert_ne in Hl.
Qed.

Lemma work_control_inv w r st st' :
  control_inv st → work w r st = Some st' → control_inv st'.
Proof.
  intros [Hb Hsj Hi Hs Hj Hn Hp Hf Ha] Hc.
  pose proof (work_view _ _ _ _ Hc) as (_ & Hact & Hsc & Hctl & _ & Hst & Hpa & Ht & _).
  destruct (work_cases _ _ _ _ Hc) as (pc & pc' & Hw & Hal & Hw' & H1 & H2 & _).
  assert (¬ all_done st) as Hnd.
  { intros Hd. by rewrite (Hd w pc Hw) in Hal. }
  split; rewrite ?Hact, ?Hsc, ?Hctl, ?Hst, ?Hpa, ?Ht; try done.
  - intros Hidle. destruct (Hi Hidle) as [?|(_ & ? & _)]; [by left|done].
  - rewrite Hw'. intros w0 pc0 [[-> ->]|[_ Hl]]%lookup_set_worker Hal0; eauto.
  - intros Hpast. by destruct (Hj Hpast).
  - rewrite Hw'. intros w0 pc0 [[-> ->]|[_ Hl]]%lookup_set_worker Hpc; [|by eauto].
    destruct Hpc as [Hpc|Hpc].
    + by destruct (H1 Hpc).
    + destruct (H2 Hpc) as [-> _]. eapply Hf; eauto.
Qed.

Lemma write_raises_control_inv w kept st st' :
  control_inv st → write_raises w kept st = Some st' → control_inv st'.
Proof.
  intros [Hb Hsj Hi Hs Hj Hn Hp Hf Ha] (it & texts & Hw & _ & ->)%write_raises_view.
  assert (¬ all_done st) as Hnd.
  { intros Hd. by specialize (Hd w _ Hw). }
  split; simpl; try done.
  - intros Hidle. destruct (Hi Hidle) as [?|(_ & ? & _)]; [by left|done].
  - intros w0 pc0 [[-> ->]|[_ Hl]]%lookup_set_worker Hal0; [done|by eauto].
  - intros Hpast. by destruct (Hj Hpast).
  - intros w0 pc0 [[-> ->]|[_ Hl]]%lookup_set_worker Hpc; [by destruct Hpc|by eauto].
Qed.

Lemma watch_control_inv i st st' :
  control_inv st → watch i st = Some st' → control_inv st'.
Proof.
  intros Hinv Hc. unfold watch in Hc.
  destruct (segments st !! i) as [s|]; [|done].
  destruct (seg_ended s && negb (watched s)); [|done]. injection Hc as <-.
  case_bool_decide.
  - match goal with |- control_inv (queue_segment i ?st2) =>
      destruct (queue_segment_view i st2) as (_ & Hact & Hsc & Hctl & _);
      destruct (queue_segment_rest i st2) as (Hst & Hpa & Hw & Ht & _) end.
    apply (control_inv_data st); rewrite ?Hact, ?Hsc, ?Hctl, ?Hst, ?Hpa, ?Hw, ?Ht; try done.
    simpl. by intros ->.
  - by apply (control_inv_data st).
Qed.

Lemma seg_control_inv f st st' :
  control_inv st →
  (f = seg_read ∨ f = seg_leave ∨ f = seg_exit ∨ f = seg_crash) →
  ∀ i, f i st = Some st' → control_inv st'.
Proof.
  intros Hinv Hf i Hc.
  apply (control_inv_data st); try done;
    destruct Hf as [->|[->|[->| ->]]];
    unfold seg_read, seg_leave, seg_exit, seg_crash in Hc;
    repeat case_match; by simplify_eq.
Qed.

Lemma step_control_inv e st st' :
  timely e = true → control_inv st → step e st = Some st' → control_inv st'.
Proof.
  intros Ht Hinv. destruct e; unfold step; intros Hstep.
  - by eapply call_control_inv.
  - destruct timeout; [done|]. by eapply ctl_step_control_inv.
  - by eapply sched_step_control_inv.
  - by eapply spawn_control_inv.
  - by eapply work_control_inv.
  - by eapply write_raises_control_inv.
  - eapply (seg_control_inv seg_read); eauto.
  - eapply (seg_control_inv seg_leave); eauto.
  - eapply (seg_control_inv seg_exit); eauto 6.
  - eapply (seg_control_inv seg_crash); eauto 6.
  - by eapply watch_control_inv.
Qed.

Lemma flying_insert l w pc pc' :
  l !! w = Some pc → flying (<[w := pc']> l) = flying l - weight pc + weight pc'.
Proof.
  revert w. induction l as [|x l IH]; intros [|w] Hl; simpl in *; try done.
  - simplify_eq. lia.
  - rewrite (IH w Hl). lia.
Qed.

Lemma flying_app l k : flying (l ++ k) = flying l + flying k.
Proof. induction l as [|x l IH]; simpl; [done|]. rewrite IH. lia. Qed.

Lemma flying_none l : (∀ w pc, l !! w = Some pc → in_flight pc = false) → flying l = 0.
Proof.
  induction l as [|x l IH]; intros H; simpl; [done|].
  unfold weight. rewrite (H 0%nat x eq_refl). rewrite IH; [done|].
  intros w pc Hl. by apply (H (S w) pc).
Qed.

Lemma work_transcribing w r st st' :
  work w r st = Some st' →
  ∃ pc pc', workers st !! w = Some pc ∧ workers st' = <[w := pc']> (workers st)
    ∧ transcribing st' = transcribing st - weight pc + weight pc'.
Proof.
  unfold work, set_worker. intros Hc.
  destruct (workers st !! w) as [pc|] eqn:Hw; [|done].
  exists pc.
  destruct pc; try done; injection Hc as <-; repeat case_match;
    eexists; split_and!; try done; simpl; unfold weight; simpl; lia.
Qed.

Lemma step_counter_inv e st st' :
  counter_inv st → step e st = Some st' → counter_inv st'.
Proof.
  unfold counter_inv. intros Hinv Hstep.
  assert (transcribing st' = transcribing st ∧ workers st' = workers st
          → transcribing st' = flying (workers st')) as Hsame.
  { intros [-> ->]. done. }
  destruct e; simpl in Hstep.
  - unfold call in Hstep. destruct (controller st); try done. injection Hstep as <-.
    destruct c; repeat case_match; simpl; try done;
      unfold spawn_transcriber; simpl; rewrite flying_app; simpl;
      unfold weight; simpl; lia.
  - apply Hsame. unfold ctl_step in Hstep.
    repeat case_match; simplify_eq; simpl; try done;
      unfold discard_segment; repeat case_match; try done;
      by destruct (queue_segment_rest n st) as (_ & _ & -> & _ & -> & _).
  - apply Hsame. unfold sched_step in Hstep.
    repeat case_match; simplify_eq; simpl; try done;
      by destruct (queue_segment_rest n st) as (_ & _ & -> & _ & -> & _).
  - apply Hsame. unfold spawn in Hstep. repeat case_match; by simplify_eq.
  - destruct (work_transcribing _ _ _ _ Hstep) as (pc & pc' & Hw & -> & ->).
    rewrite (flying_insert _ _ pc) by done. lia.
  - destruct (write_raises_view _ _ _ _ Hstep) as (it & texts & Hw & _ & ->). simpl.
    rewrite (flying_insert _ _ _ _ Hw). unfold weight. simpl. lia.
  - apply Hsame. unfold seg_read in Hstep. repeat case_match; by simplify_eq.
  - apply Hsame. unfold seg_leave in Hstep. repeat case_match; by simplify_eq.
  - apply Hsame. unfold seg_exit in Hstep. repeat case_match; by simplify_eq.
  - apply Hsame. unfold seg_crash in Hstep. repeat case_match; by simplify_eq.
  - apply Hsame. unfold watch in Hstep.
    destruct (segments st !! i); [|done].
    destruct (_ && _); [|done]. injection Hstep as <-.
    case_bool_decide; [|done].
    match goal with |- context [queue_segment i ?st2] =>
      by destruct (queue_segment_rest i st2) as (_ & _ & -> & _ & -> & _) end.
Qed.

End ControlFacts.

(** * Properties of the manager: the artifacts *)

Section DataFacts.

Import Manager.

Lemma init_data_inv on_disk gap dur mw mr : data_inv (init on_disk gap dur mw mr).
Proof. split; simpl; try done; by intros ? ?%not_elem_of_nil. Qed.

Lemma elem_of_pq_put x y q : x ∈ pq_put y q ↔ x = y ∨ x ∈ q.
Proof.
  induction q as [|z q IH]; simpl.
  - rewrite list_elem_of_singleton. split; [by left|]. intros [?|?%not_elem_of_nil]; done.
  - destruct (item_le y z).
    + by rewrite elem_of_cons.
    + rewrite !elem_of_cons, IH. tauto.
Qed.

Lemma elem_of_remove_first i j l : j ∈ l → j ≠ i → j ∈ remove_first i l.
Proof.
  induction l as [|x l IH]; simpl; [done|].
  intros Hin Hne. apply elem_of_cons in Hin as [->|Hin].
  - case_decide; [congruence|left].
  - case_decide; [done|]. right. by apply IH.
Qed.

(** What [queue_segment] does, in full. *)
Lemma queue_segment_spec (i : nat) st :
  queue_inv st →
  (∃ s, segments st !! i = Some s ∧ file_path s = Some i ∧ i ∈ files st
        ∧ queue_segment i st =
            set_pending_queue (pq_put (started_at s, i) (pending_queue st))
              (set_enqueued (enqueued st ++ [i]) st))
  ∨ (queue_segment i st = st
     ∧ ∀ s, segments st !! i = Some s →
         file_path s = None ∨ ∃ p, file_path s = Some p ∧ p ∉ files st).
Proof.
  intros Hq. unfold queue_segment, artifact.
  destruct (segments st !! i) as [s|] eqn:Hs; [|right; split; [done|by intros]].
  destruct (file_path s) as [p|] eqn:Hp.
  - destruct (qi_segs _ Hq i s Hs p Hp) as (-> & _).
    case_bool_decide.
    + left. by exists s.
    + right. split; [done|]. intros s' ?. simplify_eq. right. by exists i.
  - right. split; [done|]. intros s' ?. simplify_eq. by left.
Qed.

(** A step that moves no artifact. *)
Lemma data_inv_keep st st' :
  data_inv st →
  segments st' = segments st → enqueued st' = enqueued st → files st' = files st →
  (∀ it, it ∈ pending_queue st' → it.2 ∈ enqueued st) →
  (∀ w pc it, workers st' !! w = Some pc → held pc = Some it → it.2 ∈ enqueued st) →
  (∀ i, i ∈ active st ∨ i ∈ sched_todo (scheduler st) →
        i ∈ active st' ∨ i ∈ sched_todo (scheduler st')) →
  data_inv st'.
Proof.
  intros [Hp Hh Ho Hf Hph] Hs He Hfi Hp' Hh' Ho'.
  split; rewrite ?Hs, ?He, ?Hfi; try done.
  intros i s Hl. destruct (Ho i s Hl) as [?|[?|?]]; [| |by auto].
  - destruct (Ho' i) as [?|?]; auto.
  - destruct (Ho' i) as [?|?]; auto.
Qed.

(** Segment [i], ended and off every list, is handed to [queue_segment]. *)
Lemma data_inv_hand_over (i : nat) st0 st st' :
  queue_inv st → data_inv st0 →
  segments st = segments st0 → enqueued st = enqueued st0 → files st = files st0 →
  pending_queue st = pending_queue st0 → workers st = workers st0 →
  ended st i = true → i ∉ enqueued st →
  (∀ j, j ≠ i → j ∈ active st0 ∨ j ∈ sched_todo (scheduler st0) →
        j ∈ active st' ∨ j ∈ sched_todo (scheduler st')) →
  segments st' = segments (queue_segment i st) →
  enqueued st' = enqueued (queue_segment i st) →
  files st' = files (queue_segment i st) →
  pending_queue st' = pending_queue (queue_segment i st) →
  workers st' = workers (queue_segment i st) →
  data_inv st'.
Proof.
  intros Hq [Hp Hh Ho Hf Hph] Hs0 He0 Hf0 Hp0 Hw0 Hend Hnew Ho' Hs He Hfi Hpe Hw.
  assert (∀ j, j ∈ enqueued st0 → j ∈ enqueued st') as Hmono.
  { intros j Hj. rewrite He. destruct (queue_segment_spec i st Hq) as [(s & _ & _ & _ & ->)|[-> _]].
    - simpl. rewrite He0. apply elem_of_app. by left.
    - by rewrite He0. }
  destruct (queue_segment_spec i st Hq) as [(s & Hl & Hfp & Hin & Heq)|[Heq Hno]];
    rewrite Heq in *; simpl in *.
  - split; rewrite ?Hs, ?He, ?Hfi, ?Hpe, ?Hw, ?Hs0, ?Hf0, ?Hw0, ?Hp0.
    + intros it [->|Hit]%elem_of_pq_put; simpl.
      * apply elem_of_app. right. left.
      * rewrite He0. apply elem_of_app. left. by apply Hp.
    + intros w pc it Hwl Hheld. rewrite He0. apply elem_of_app. left. by eapply Hh.
    + intros j s' Hl'. destruct (decide (j = i)) as [->|Hne].
      * right. right. unfold ended in Hend. rewrite Hs0, Hl' in Hend.
        split; [done|]. right. apply elem_of_app. right. left.
      * destruct (Ho j s' Hl') as [?|[?|(? & [?|?])]]; [| | |].
        -- destruct (Ho' j) as [?|?]; auto.
        -- destruct (Ho' j) as [?|?]; auto.
        -- by auto.
        -- right. right. split; [done|]. right. rewrite He0.
           apply elem_of_app. by left.
    + intros j s' p Hl' Hfp' Hnot. apply (Hf j s' p); [done|done|].
      intros Hj. apply Hnot. rewrite He0. apply elem_of_app. by left.
    + done.
  - split; rewrite ?Hs, ?He, ?Hfi, ?Hpe, ?Hw, ?Hs0, ?Hf0, ?Hw0, ?Hp0, ?He0.
    + done.
    + done.
    + intros j s' Hl'. destruct (decide (j = i)) as [->|Hne].
      * right. right. unfold ended in Hend. rewrite Hs0, Hl' in Hend.
        split; [done|]. left.
        destruct (Hno s') as [?|(p & Hfp & Hnotin)]; [by rewrite Hs0|done|].
        exfalso. apply Hnotin. rewrite Hf0. apply (Hf i s' p); [done|done|].
        by rewrite <- He0.
      * destruct (Ho j s' Hl') as [?|[?|?]]; [| |by auto].
        -- destruct (Ho' j) as [?|?]; auto.
        -- destruct (Ho' j) as [?|?]; auto.
    + done.
    + done.
Qed.

(** A file that was queued is unlinked. *)
Lemma data_inv_unlink p st st' :
  queue_inv st → data_inv st →
  p ∈ enqueued st →
  segments st' = segments st → enqueued st' = enqueued st →
  files st' = files st ∖ {[p]} →
  (∀ it, it ∈ pending_queue st' → it.2 ∈ enqueued st) →
  (∀ w pc it, workers st' !! w = Some pc → held pc = Some it → it.2 ∈ enqueued st) →
  active st' = active st →
  sched_todo (scheduler st') = sched_todo (scheduler st) →
  data_inv st'.
Proof.
  intros Hq [Hp Hh Ho Hf Hph] Hin Hs He Hfi Hp' Hh' Ha Hsc.
  split; rewrite ?Hs, ?He, ?Hfi, ?Ha, ?Hsc; try done.
  intros i s q Hl Hfp Hnot. apply elem_of_difference. split; [by eapply Hf|].
  intros ->%elem_of_singleton.
  destruct (qi_segs _ Hq i s Hl p Hfp) as (-> & _). done.
Qed.

(** One segment changes; it has not ended before, or it does not change in
    what the invariant reads. *)
Lemma data_inv_segment f (i : nat) st st' :
  data_inv st →
  segments st' = alter f i (segments st) →
  enqueued st' = enqueued st → files st ⊆ files st' →
  pending_queue st' = pending_queue st → workers st' = workers st →
  active st' = active st →
  sched_todo (scheduler st') = sched_todo (scheduler st) →
  (∀ s, segments st !! i = Some s →
     (seg_ended s = false
      ∨ (seg_ended (f s) = seg_ended s ∧ file_path (f s) = file_path s))
     ∧ (∀ p, file_path (f s) = Some p → file_path s = Some p ∨ p ∈ files st')
     ∧ (phase (f s) = Flushed → file_path (f s) = Some i)
     ∧ (phase (f s) = Finished → frames (f s) = 0%nat ∨ file_path (f s) = Some i)) →
  data_inv st'.
Proof.
  intros [Hp Hh Ho Hf Hph] Hs He Hfi Hpe Hw Ha Hsc Hstep.
  split; rewrite ?He, ?Hpe, ?Hw, ?Ha, ?Hsc; try done.
  - intros j s' Hl. rewrite Hs, list_lookup_alter in Hl.
    destruct (decide (i = j)) as [->|Hne]; [|by apply Ho].
    destruct (segments st !! j) as [s|] eqn:Hj; simpl in Hl; [|done].
    injection Hl as <-. destruct (Hstep s eq_refl) as ([Hlive|[Hsame Hfp]] & _).
    + destruct (Ho j s Hj) as [?|[?|[Hend _]]]; [by auto|by auto|congruence].
    + rewrite Hsame, Hfp. by apply Ho.
  - intros j s' p Hl Hfp Hnot. rewrite Hs, list_lookup_alter in Hl.
    destruct (decide (i = j)) as [->|Hne]; [|by apply Hfi, (Hf j s' p)].
    destruct (segments st !! j) as [s|] eqn:Hj; simpl in Hl; [|done].
    injection Hl as <-. destruct (Hstep s eq_refl) as (_ & Hnew & _).
    destruct (Hnew p Hfp) as [Hold|?]; [|done]. by apply Hfi, (Hf j s p).
  - intros j s' Hl. rewrite Hs, list_lookup_alter in Hl.
    destruct (decide (i = j)) as [->|Hne]; [|by apply Hph].
    destruct (segments st !! j) as [s|] eqn:Hj; simpl in Hl; [|done].
    injection Hl as <-. by destruct (Hstep s eq_refl) as (_ & _ & ? & ?).
Qed.

Lemma data_inv_signal (i : nat) st st' :
  data_inv st →
  segments st' = segments (signal i st) →
  enqueued st' = enqueued st → files st' = files st →
  pending_queue st' = pending_queue st → workers st' = workers st →
  active st' = active st →
  sched_todo (scheduler st') = sched_todo (scheduler st) →
  data_inv st'.
Proof.
  intros Hinv Hs He Hfi Hpe Hw Ha Hsc.
  apply (data_inv_segment seg_signal i st); try done.
  { by rewrite Hfi. }
  intros s Hl. destruct (di_phase _ Hinv i s Hl) as [? ?].
  split_and!; simpl; auto.
Qed.

Lemma call_data_inv c st st' :
  data_inv st → call c st = Some st' → data_inv st'.
Proof.
  intros Hinv Hc. unfold call in Hc.
  destruct (controller st) eqn:Hctl; try done. injection Hc as <-.
  pose proof Hinv as [Hp Hh Ho Hf Hph].
  assert (running st = false → sched_todo (scheduler st) = []) as Hrun.
  { unfold running. by destruct (scheduler st). }
  assert (∀ w pc it, (workers st ++ [WTop]) !! w = Some pc → held pc = Some it →
                     it.2 ∈ enqueued st) as Hspawn.
  { intros w pc it [Hl|[_ Hl]]%lookup_app_Some Hheld; [by eapply Hh|].
    destruct (w - length (workers st))%nat; simpl in Hl; [|done]. by simplify_eq. }
  destruct c.
  - destruct (running st) eqn:Hr; [done|].
    apply (data_inv_keep st); simpl; try done.
    + by intros it ?%not_elem_of_nil.
    + rewrite Hrun by done. intros i [?|?%not_elem_of_nil]; by auto.
  - destruct (running st) eqn:Hr; [done|]. destruct (paused st); [|done]. simpl.
    apply (data_inv_keep st); simpl; try done.
    + by repeat case_match.
    + by repeat case_match.
    + by repeat case_match.
    + by repeat case_match.
    + repeat case_match; simpl; done.
    + rewrite Hrun by done. intros i [?|?%not_elem_of_nil]; [left|done].
      by repeat case_match.
  - destruct (running st); [|done]. by apply (data_inv_keep st).
  - by apply (data_inv_keep st).
  - by apply (data_inv_keep st).
Qed.

Lemma ctl_step_data_inv st st' :
  queue_inv st → control_inv st → data_inv st →
  ctl_step false st = Some st' → data_inv st'.
Proof.
  intros Hq Hci Hinv Hc. unfold ctl_step in Hc.
  pose proof Hinv as [Hp Hh Ho Hf Hph].
  pose proof (ci_no_list _ Hci) as Hnl.
  assert (past_scheduler_join (controller st) = true → active st = []) as Hquiet.
  { intros Hpast. pose proof (ci_sched_joined _ Hci Hpast).
    apply (ci_active _ Hci); by destruct (scheduler st). }
  destruct (controller st) as [|c| |todo sg| | |todo sg| | | | |] eqn:Hctl; try done.
  - simpl in Hc. destruct (negb (running st)); [|done]. injection Hc as <-.
    by apply (data_inv_keep st).
  - injection Hc as <-. apply (data_inv_keep st); simpl; try done.
    rewrite Hquiet by done. auto.
  - destruct (transcriber_thread st) as [w|]; simpl in Hc.
    + destruct (negb (worker_alive st w)); [|done]. injection Hc as <-.
      by apply (data_inv_keep st).
    + injection Hc as <-. by apply (data_inv_keep st).
  - injection Hc as <-. by apply (data_inv_keep st).
  - injection Hc as <-. apply (data_inv_keep st); simpl; try done.
    rewrite Hquiet by done. auto.
  - destruct (pending_queue st) as [|[ts p] q] eqn:Hpq; injection Hc as <-.
    + apply (data_inv_keep st); simpl; try done. by rewrite Hpq.
    + apply (data_inv_unlink p st); simpl; try done.
      * apply (Hp (ts, p)). left.
      * intros it Hit. apply Hp. by right.
  - destruct (transcriber_thread st) as [w|]; simpl in Hc.
    + destruct (negb (worker_alive st w)); [|done]. injection Hc as <-.
      by apply (data_inv_keep st).
    + injection Hc as <-. by apply (data_inv_keep st).
  - injection Hc as <-. by apply (data_inv_keep st).
  - injection Hc as <-. by apply (data_inv_keep st).
Qed.

Lemma sched_step_data_inv st st' :
  queue_inv st → data_inv st →
  sched_step false st = Some st' → data_inv st'.
Proof.
  intros Hq Hinv Hc. unfold sched_step in Hc.
  pose proof Hinv as [Hp Hh Ho Hf Hph].
  destruct (scheduler st) as [| | | | |todo sg|] eqn:Hsc; try done.
  - injection Hc as <-. apply (data_inv_keep st); simpl; try done.
    rewrite Hsc. destruct (stop_all st); simpl; auto.
  - injection Hc as <-. apply (data_inv_keep st); simpl; try done.
    rewrite Hsc. destruct (stop_all st); simpl; auto.
  - injection Hc as <-. apply (data_inv_keep st); simpl; try done.
    rewrite Hsc, sched_todo_stopping. simpl. intros i [?|[]%not_elem_of_nil]; auto.
  - destruct todo as [|i rest]; [done|]. destruct sg.
    + simpl in Hc. destruct (ended st i) eqn:Hend; [|done]. injection Hc as <-.
      destruct (queue_segment_view i st) as (_ & Ha & _).
      apply (data_inv_hand_over i st st); simpl; try done.
      * apply (qi_apart _ Hq). unfold owners. rewrite Hsc. simpl.
        apply elem_of_app. right. left.
      * rewrite Hsc, sched_todo_stopping, Ha. simpl.
        intros j Hne [?|[?|?]%elem_of_cons]; auto. done.
    + injection Hc as <-. apply (data_inv_signal i st); simpl; try done.
      by rewrite Hsc.
Qed.

Lemma spawn_data_inv now st st' :
  data_inv st → spawn now st = Some st' → data_inv st'.
Proof.
  intros [Hp Hh Ho Hf Hph] Hc. unfold spawn in Hc.
  destruct (scheduler st) eqn:Hsc; try done. injection Hc as <-.
  split; simpl; try done.
  - intros i s [Hl|[Hle Hl]]%lookup_app_Some.
    + destruct (Ho i s Hl) as [?|[Hin|?]]; [| |by auto].
      * left. apply elem_of_app. by left.
      * simpl in Hin. by apply not_elem_of_nil in Hin.
    + left. apply elem_of_app. right.
      destruct (i - length (segments st))%nat eqn:Hsub; simpl in Hl; [|done].
      replace i with (length (segments st)) by lia. left.
  - intros i s p [Hl|[_ Hl]]%lookup_app_Some; [by apply Hf|].
    destruct (i - length (segments st))%nat; simpl in Hl; [|done]. by simplify_eq.
  - intros i s [Hl|[_ Hl]]%lookup_app_Some; [by apply Hph|].
    destruct (i - length (segments st))%nat; simpl in Hl; [|done]. by simplify_eq.
Qed.

(** What a transcriber's statement does to queue, files and held items. *)
Lemma work_data w r st st' :
  work w r st = Some st' →
  (files st' = files st
   ∨ ∃ it, workers st !! w = Some (WUnlink it) ∧ files st' = files st ∖ {[it.2]})
  ∧ (∀ it, it ∈ pending_queue st' → it ∈ pending_queue st)
  ∧ (∀ w' pc it, workers st' !! w' = Some pc → held pc = Some it →
       (∃ pc0, workers st !! w' = Some pc0 ∧ held pc0 = Some it)
       ∨ it ∈ pending_queue st).
Proof.
  unfold work, set_worker. intros Hc.
  destruct (workers st !! w) as [pc|] eqn:Hw; [|done].
  assert (∀ pc' it0, (held pc' = None ∨ held pc' = held pc
                      ∨ (held pc' = Some it0 ∧ it0 ∈ pending_queue st)) →
            ∀ w' pc0 it, <[w:=pc']> (workers st) !! w' = Some pc0 → held pc0 = Some it →
              (∃ pc1, workers st !! w' = Some pc1 ∧ held pc1 = Some it)
              ∨ it ∈ pending_queue st) as Hheld.
  { intros pc' it0 Hpc' w' pc0 it [[-> ->]|[_ Hl]]%lookup_set_worker Hh; [|by eauto].
    destruct Hpc' as [?|[Heq|[? ?]]]; [congruence| |right; congruence].
    left. exists pc. split; [done|congruence]. }
  destruct pc; try done; injection Hc as <-.
  all: repeat case_match; simpl.
  all: split_and!; try (by left); try done.
  all: try (intros it ?; by right).
  all: try (right; eexists; split; [done|reflexivity]).
  all: try (eapply (Hheld _ (0, 0%nat)); simpl; by auto).
  all: try (eapply Hheld; simpl; right; right; split; [reflexivity|left]).
  all: intros it Hit;
    match goal with H : pending_queue _ = _ |- _ => by rewrite H in Hit end.
Qed.

Lemma work_data_inv w r st st' :
  queue_inv st → data_inv st → work w r st = Some st' → data_inv st'.
Proof.
  intros Hq Hinv Hc. pose proof Hinv as [Hp Hh Ho Hf Hph].
  pose proof (work_view _ _ _ _ Hc) as (Hs & Ha & Hsc & _ & He & _).
  destruct (work_data _ _ _ _ Hc) as (Hfi & Hpq & Hheld).
  assert (∀ w' pc it, workers st' !! w' = Some pc → held pc = Some it →
                      it.2 ∈ enqueued st) as Hh'.
  { intros w' pc it Hl Hit.
    destruct (Hheld w' pc it Hl Hit) as [(pc0 & ? & ?)|?]; [by eapply Hh|by apply Hp]. }
  destruct Hfi as [Hfi|(it & Hw & Hfi)].
  - apply (data_inv_keep st); try done; [by auto|by rewrite Ha, Hsc].
  - apply (data_inv_unlink it.2 st); try done; [by eapply Hh|by auto|by rewrite Hsc].
Qed.

Lemma write_raises_data_inv w kept st st' :
  data_inv st → write_raises w kept st = Some st' → data_inv st'.
Proof.
  intros Hinv (it & texts & Hw & _ & ->)%write_raises_view.
  apply (data_inv_keep st); try done.
  - apply Hinv.
  - simpl. intros w' pc it' [[-> ->]|[_ Hl]]%lookup_set_worker Hheld; [done|].
    by eapply (di_held _ Hinv).
Qed.

Lemma seg_read_data_inv i st st' :
  data_inv st → seg_read i st = Some st' → data_inv st'.
Proof.
  intros Hinv Hc. unfold seg_read in Hc.
  destruct (segments st !! i) as [s|] eqn:Hl; [|done].
  destruct (phase s) eqn:Hph; try done. destruct (stop_event s); [done|].
  injection Hc as <-. apply (data_inv_segment seg_block i st); try done.
  intros s' ?. simplify_eq. unfold seg_ended. rewrite Hph. simpl.
  split_and!; auto; rewrite Hph; done.
Qed.

Lemma seg_leave_data_inv i st st' :
  queue_inv st → data_inv st → seg_leave i st = Some st' → data_inv st'.
Proof.
  intros Hq Hinv Hc. unfold seg_leave in Hc.
  destruct (segments st !! i) as [s|] eqn:Hl; [|done].
  destruct (phase s) eqn:Hph; try done.
  destruct (stop_event s || (1 <=? frames s)%nat); [|done].
  injection Hc as <-.
  destruct (frames s) as [|n] eqn:Hfr.
  - apply (data_inv_segment (seg_phase_set Finished) i st); try done.
    intros s' ?. simplify_eq. unfold seg_ended. rewrite Hph. simpl.
    split_and!; auto; try done.
  - apply (data_inv_segment (seg_write i) i st); simpl; try done.
    { apply union_subseteq_r. }
    intros s' ?. simplify_eq. unfold seg_ended. rewrite Hph. simpl.
    split_and!; auto; try done. intros p ?. simplify_eq. right.
    apply elem_of_union. left. by apply elem_of_singleton.
Qed.

Lemma seg_exit_data_inv i st st' :
  data_inv st → seg_exit i st = Some st' → data_inv st'.
Proof.
  intros Hinv Hc. unfold seg_exit in Hc.
  destruct (segments st !! i) as [s|] eqn:Hl; [|done].
  destruct (phase s) eqn:Hph; try done.
  injection Hc as <-. apply (data_inv_segment (seg_phase_set Finished) i st); try done.
  intros s' ?. simplify_eq. unfold seg_ended. rewrite Hph. simpl.
  destruct (di_phase _ Hinv i s Hl) as [Hfl _].
  split_and!; auto.
Qed.

Lemma seg_crash_data_inv i st st' :
  data_inv st → seg_crash i st = Some st' → data_inv st'.
Proof.
  intros Hinv Hc. unfold seg_crash in Hc.
  destruct (segments st !! i) as [s|] eqn:Hl; [|done].
  destruct (phase s) eqn:Hph; try done.
  injection Hc as <-. apply (data_inv_segment (seg_phase_set Crashed) i st); try done.
  intros s' ?. simplify_eq. unfold seg_ended. rewrite Hph. simpl.
  split_and!; auto; done.
Qed.

Lemma watch_data_inv i st st' :
  queue_inv st → data_inv st → watch i st = Some st' → data_inv st'.
Proof.
  intros Hq Hinv Hc. unfold watch in Hc.
  destruct (segments st !! i) as [s|] eqn:Hl; [|done].
  destruct (seg_ended s && negb (watched s)) eqn:Hcond; [|done].
  apply andb_prop in Hcond as [Hend _].
  injection Hc as <-.
  set (st1 := set_segments (alter seg_watched i (segments st)) st).
  assert (data_inv st1) as Hinv1.
  { apply (data_inv_segment seg_watched i st); try done.
    intros s' ?. simplify_eq. destruct (di_phase _ Hinv i s Hl) as [? ?].
    split_and!; simpl; auto. }
  assert (queue_inv st1) as Hq1.
  { apply (queue_inv_alter seg_watched i st); try done.
    intros s' _ Hok. split; [by left|done]. }
  case_bool_decide as Hin; [|done].
  set (st2 := set_active (remove_first i (active st)) st1).
  assert (queue_inv st2) as Hq2.
  { apply (queue_inv_same st1); try done. unfold owners. simpl.
    apply submseteq_skips_r, sublist_submseteq, remove_first_sublist. }
  destruct (queue_segment_view i st2) as (_ & Ha & Hsc & _).
  apply (data_inv_hand_over i st1 st2); try done.
  - unfold ended. simpl. rewrite list_lookup_alter_eq, Hl. simpl.
    by unfold seg_ended in *.
  - apply (qi_apart _ Hq). unfold owners. apply elem_of_app. by left.
  - rewrite Ha, Hsc. simpl. intros j Hne [?|?]; [left|by right].
    by apply elem_of_remove_first.
Qed.

Lemma step_data_inv e st st' :
  timely e = true → queue_inv st → control_inv st → data_inv st →
  step e st = Some st' → data_inv st'.
Proof.
  intros Ht Hq Hci Hinv. destruct e; unfold step; intros Hstep.
  - by eapply call_data_inv.
  - destruct timeout; [done|]. by eapply ctl_step_data_inv.
  - destruct timeout; [done|]. by eapply sched_step_data_inv.
  - by eapply spawn_data_inv.
  - by eapply work_data_inv.
  - by eapply write_raises_data_inv.
  - by eapply seg_read_data_inv.
  - by eapply seg_leave_data_inv.
  - by eapply seg_exit_data_inv.
  - by eapply seg_crash_data_inv.
  - by eapply watch_data_inv.
Qed.

End DataFacts.

(** * Properties of the manager: the control methods *)

Section TimelyFacts.

Import Manager.

Lemma init_timely_inv on_disk gap dur mw mr : timely_inv (init on_disk gap dur mw mr).
Proof.
  split; [apply init_queue_inv|apply init_control_inv|apply init_data_inv|done].
Qed.

Lemma step_timely_inv e st st' :
  timely e = true → timely_inv st → step e st = Some st' → timely_inv st'.
Proof.
  intros Ht [Hq Hc Hd Hn] Hstep. split.
  - by eapply step_queue_inv.
  - by eapply step_control_inv.
  - by eapply step_data_inv.
  - by eapply step_counter_inv.
Qed.

Lemma run_timely_inv tr : ∀ st st',
  forallb timely tr = true → timely_inv st → run tr st = Some st' → timely_inv st'.
Proof.
  induction tr as [|e tr IH]; intros st st' Ht Hinv Hrun; simpl in *.
  - by simplify_eq.
  - apply andb_prop in Ht as [He Ht].
    destruct (step e st) as [st1|] eqn:Hstep; [|done].
    eapply IH; [done| |done]. by eapply step_timely_inv.
Qed.

Lemma run_app tr1 tr2 st :
  run (tr1 ++ tr2) st = match run tr1 st with Some st1 => run tr2 st1 | None => None end.
Proof.
  revert st. induction tr1 as [|e tr1 IH]; intros st; simpl; [done|].
  destruct (step e st); [apply IH|done].
Qed.

(** With one consumer, nothing is in flight while that consumer is not. *)
Lemma single_consumer_idle st w pc :
  control_inv st → counter_inv st →
  workers st !! w = Some pc → alive pc = true → in_flight pc = false →
  transcribing st = 0.
Proof.
  intros Hc Hn Hw Hal Hfl. rewrite Hn. apply flying_none.
  intros w' pc' Hw'. destruct (alive pc') eqn:Hal'; [|by destruct pc'].
  pose proof (ci_single _ Hc w pc Hw Hal) as H1.
  pose proof (ci_single _ Hc w' pc' Hw' Hal') as H2.
  rewrite H1 in H2. simplify_eq. done.
Qed.

Lemma all_done_idle st : counter_inv st → all_done st → transcribing st = 0.
Proof.
  intros Hn Hd. rewrite Hn. apply flying_none.
  intros w pc Hw. by rewrite (Hd w pc Hw).
Qed.

(** As long as no join gives up and no write raises, a transcriber ends
    only after it has seen the stop flag set. *)
Lemma step_consumer_inv e st st' :
  timely e = true → steady e = true → control_inv st → consumer_inv st →
  step e st = Some st' → consumer_inv st'.
Proof.
  intros Ht Hs Hc Hinv Hstep.
  assert (∀ st2, stop_all st2 = stop_all st →
            (scheduler st2 ≠ SNone → scheduler st ≠ SNone) →
            transcriber_thread st2 = transcriber_thread st →
            workers st2 = workers st → consumer_inv st2) as Hsame.
  { intros st2 E1 E2 E3 E4 Hst Hsc. rewrite E1 in Hst.
    destruct (Hinv Hst (E2 Hsc)) as (w & Hw & Hal). exists w.
    unfold worker_alive in *. by rewrite E3, E4. }
  destruct e as [c|[]|[]|now|w r|w kept|i|i|i|i|i]; simpl in Ht, Hs, Hstep; try done.
  - (* a call *)
    unfold call in Hstep. destruct (controller st) eqn:Hctl; try done.
    injection Hstep as <-.
    assert (∀ st1, consumer_inv (set_scheduler SLoop (spawn_transcriber st1))) as Hnew.
    { intros st1 _ _. exists (length (workers st1)). split; [done|].
      unfold worker_alive. simpl. rewrite lookup_app_r by lia.
      by rewrite Nat.sub_diag. }
    destruct c.
    + destruct (running st); [done|]. apply Hnew.
    + destruct (running st); [done|]. destruct (paused st); cbn [negb]; [|done].
      cbv zeta. cbn [transcriber_thread set_stop_all set_paused].
      destruct (transcriber_thread st) as [w|] eqn:Htt; [|apply Hnew].
      destruct (worker_alive _ w) eqn:Hal; [|apply Hnew].
      intros _ _. exists w. by split.
    + destruct (running st); simpl; [by intros ?|done].
    + by intros ?.
    + by intros ?.
  - (* the caller: a method is in progress, the stop flag is set *)
    assert (stop_all st = true) as Hstop.
    { apply (ci_busy _ Hc). intros Hidle. unfold ctl_step in Hstep.
      by rewrite Hidle in Hstep. }
    intros Hst. exfalso. revert Hst. unfold ctl_step in Hstep.
    assert (∀ j, stop_all (queue_segment j st) = true) as Hq.
    { intros j. by destruct (queue_segment_rest j st) as (-> & _). }
    assert (∀ j, stop_all (discard_segment j st) = true) as Hd.
    { intros j. unfold discard_segment. by destruct (artifact st j). }
    repeat case_match; simplify_eq; simpl; rewrite ?Hq, ?Hd, ?Hstop; done.
  - (* the scheduler *)
    unfold sched_step in Hstep.
    destruct (scheduler st) as [| | | | |todo sg|] eqn:Hsc; try done;
      repeat case_match; simplify_eq;
      try (apply Hsame; simpl; rewrite ?Hsc; done).
    match goal with |- context [queue_segment ?j st] =>
      destruct (queue_segment_rest j st) as (E1 & _ & E2 & E3 & _) end.
    apply Hsame; simpl; rewrite ?Hsc; done.
  - unfold spawn in Hstep. destruct (scheduler st) eqn:Hsc; try done. simplify_eq.
    apply Hsame; simpl; rewrite ?Hsc; done.
  - (* a transcriber *)
    pose proof (work_view _ _ _ _ Hstep) as (_ & _ & Hsc & _ & _ & E1 & _ & E3 & _).
    destruct (work_cases _ _ _ _ Hstep) as (pc & pc' & Hw & Hal & Hw' & _ & _ & _ & Hdone).
    intros Hst Hne. rewrite E1 in Hst. rewrite Hsc in Hne.
    destruct (Hinv Hst Hne) as (w0 & Htt & Hal0). exists w0.
    split; [by rewrite E3|]. unfold worker_alive in *. rewrite Hw'.
    destruct (decide (w0 = w)) as [->|Hdiff]; [|by rewrite list_lookup_insert_ne].
    rewrite list_lookup_insert_eq by (by apply lookup_lt_Some in Hw).
    destruct pc'; try done.
    destruct (Hdone eq_refl) as [[-> _]|[_ ?]]; [|congruence].
    rewrite (ci_flag_seen _ Hc w WTopIdle Hw) in Hst; [done|by right].
  - unfold seg_read in Hstep. repeat case_match; simplify_eq. by apply Hsame.
  - unfold seg_leave in Hstep. repeat case_match; simplify_eq; by apply Hsame.
  - unfold seg_exit in Hstep. repeat case_match; simplify_eq. by apply Hsame.
  - unfold seg_crash in Hstep. repeat case_match; simplify_eq. by apply Hsame.
  - unfold watch in Hstep. repeat case_match; simplify_eq; [|by apply Hsame].
    match goal with |- consumer_inv (queue_segment ?j ?st1) =>
      destruct (queue_segment_rest j st1) as (E1 & _ & E2 & E3 & _);
      destruct (queue_segment_view j st1) as (_ & _ & E4 & _) end.
    apply Hsame; rewrite ?E1, ?E2, ?E3, ?E4; done.
Qed.

Lemma run_consumer_inv tr : ∀ st st',
  forallb timely tr = true → forallb steady tr = true →
  timely_inv st → consumer_inv st → run tr st = Some st' → consumer_inv st'.
Proof.
  induction tr as [|e tr IH]; intros st st' Ht Hs Hinv Hc Hrun; simpl in *.
  - by simplify_eq.
  - apply andb_prop in Ht as [He Ht]. apply andb_prop in Hs as [Hse Hs].
    destruct (step e st) as [st1|] eqn:Hstep; [|done].
    eapply IH; [done|done| | |done].
    + by eapply step_timely_inv.
    + eapply step_consumer_inv; [done|done| |done|done]. apply (ti_control _ Hinv).
Qed.

Lemma queue_segment_workers i st : workers (queue_segment i st) = workers st.
Proof. unfold queue_segment. by repeat case_match. Qed.

Lemma step_threads e st st' :
  step e st = Some st' →
  (length (workers st') ≤ length (workers st) + (if is_restart e then 1 else 0))%nat.
Proof.
  intros Hstep. destruct e as [c|t|t|now|w r|w kept|i|i|i|i|i]; simpl in Hstep.
  - unfold call in Hstep. destruct (controller st); try done.
    injection Hstep as <-.
    destruct c; simpl; repeat case_match; simpl;
      rewrite ?length_app; simpl; lia.
  - unfold ctl_step, stopping, cancelling, discard_segment in Hstep.
    repeat case_match; simplify_eq; simpl; rewrite ?queue_segment_workers; simpl; lia.
  - unfold sched_step, sched_stopping in Hstep.
    repeat case_match; simplify_eq; simpl; rewrite ?queue_segment_workers; simpl; lia.
  - unfold spawn in Hstep. repeat case_match; simplify_eq; simpl; lia.
  - destruct (work_cases _ _ _ _ Hstep) as (pc & pc1 & _ & _ & -> & _).
    rewrite length_insert. simpl. lia.
  - destruct (write_raises_view _ _ _ _ Hstep) as (it & texts & _ & _ & ->).
    simpl. rewrite length_insert. lia.
  - unfold seg_read in Hstep. repeat case_match; simplify_eq; simpl; lia.
  - unfold seg_leave in Hstep. repeat case_match; simplify_eq; simpl; lia.
  - unfold seg_exit in Hstep. repeat case_match; simplify_eq; simpl; lia.
  - unfold seg_crash in Hstep. repeat case_match; simplify_eq; simpl; lia.
  - unfold watch in Hstep. repeat case_match; simplify_eq; simpl;
      rewrite ?queue_segment_workers; simpl; lia.
Qed.

Lemma run_threads tr : ∀ st st',
  run tr st = Some st' →
  (length (workers st') ≤ length (workers st) + restarts tr)%nat.
Proof.
  induction tr as [|e tr IH]; intros st st' Hrun; simpl in Hrun.
  - injection Hrun as <-. unfold restarts. simpl. lia.
  - destruct (step e st) as [st1|] eqn:Hstep; [|done].
    pose proof (step_threads _ _ _ Hstep). pose proof (IH _ _ Hrun).
    unfold restarts in *. simpl. destruct (is_restart e); simpl; lia.
Qed.

End TimelyFacts.

(** C2, the failing run.  [cancel] is called while segment 0 is mid-capture
    and no join gives up; when [cancel] has returned, the sink is absent and
    queue and results are empty, but the artifact of segment 0 has been
    handed to the transcription client. *)
Theorem cancel_lets_active_segment_be_transcribed :
  ∃ st_call st_end,
    Manager.run Traces.recording Traces.fresh = Some st_call
    ∧ Manager.active st_call = [0%nat]
    ∧ (Manager.phase <$> Manager.segments st_call !! 0%nat) = Some Manager.Capturing
    ∧ Manager.sent st_call = []
    ∧ forallb Manager.timely Traces.cancel_race = true
    ∧ Manager.run Traces.cancel_race st_call = Some st_end
    ∧ Manager.controller st_end = Manager.CIdle
    ∧ Manager.transcript st_end = None
    ∧ Manager.pending_queue st_end = []
    ∧ Manager.results st_end = []
    ∧ Manager.sent st_end = [0%nat].
Proof.
  eexists _, _. split; [vm_compute; reflexivity|].
  split_and!; try (vm_compute; reflexivity).
Qed.

(** C7.  What [_transcriber_loop] does where the claim, the comment above
    its first test and the docstring of [stop] say otherwise.  In a run
    without any timed-out join, the transcriber reads the flag set and the
    queue empty, the scheduler then queues the last segment, and the
    transcriber leaves with the queue non-empty; [stop] returns with the
    artifact queued, never sent, and no transcript.  And after a [cancel]
    whose join gave up, a second transcriber leaves through the timed-out
    [get] while the first one sleeps between two attempts, in flight. *)
Theorem transcriber_leaves_work_behind :
  (∃ st, Manager.run (Traces.recording ++ Traces.stop_race) Traces.fresh = Some st
         ∧ forallb Manager.timely (Traces.recording ++ Traces.stop_race) = true
         ∧ Manager.workers st = [Manager.WTopIdle]
         ∧ Manager.pending_queue st = [(100, 0%nat)]
         ∧ ¬ exits_only_when_drained st)
  ∧ (∃ st, Manager.run (Traces.recording ++ Traces.stop_early) Traces.fresh = Some st
           ∧ forallb Manager.timely (Traces.recording ++ Traces.stop_early) = true
           ∧ forallb Manager.steady (Traces.recording ++ Traces.stop_early) = true
           ∧ Manager.controller st = Manager.CIdle
           ∧ Manager.workers st = [Manager.WDone]
           ∧ Manager.pending_queue st = [(100, 0%nat)]
           ∧ 0%nat ∈ Manager.files st
           ∧ Manager.sent st = []
           ∧ Manager.results st = []
           ∧ Manager.transcript st = None)
  ∧ (∃ st, Manager.run Traces.two_consumers Traces.fresh = Some st
           ∧ Manager.transcribing st = 1
           ∧ Manager.workers st
             = [Manager.WSleep (100, 0%nat) 1 5; Manager.WEmpty]
           ∧ Manager.stop_all st = true
           ∧ ¬ exits_only_when_drained st).
Proof.
  split_and!.
  - eexists. split; [vm_compute; reflexivity|]. split_and!; try (vm_compute; reflexivity).
    intros H. specialize (H 0%nat (Retry.Text "") _ eq_refl eq_refl eq_refl).
    destruct H as (_ & H & _). vm_compute in H. done.
  - eexists. split; [vm_compute; reflexivity|]. split_and!; vm_compute; reflexivity.
  - eexists. split; [vm_compute; reflexivity|]. split_and!; try (vm_compute; reflexivity).
    intros H. specialize (H 1%nat (Retry.Text "") _ eq_refl eq_refl eq_refl).
    destruct H as (_ & _ & H). vm_compute in H. done.
Qed.

(** X26.  A transcriber leaves its loop only through the test at the top
    of the loop, which it reaches after reading the stop flag set and then
    the queue empty, and passes on reading zero in flight; or through the
    [get] that timed out on the empty queue, on reading the stop flag set,
    the in-flight count not being read.  As long as no join has given up
    there is a single consumer, and at every exit the stop flag is set and
    the count of items in flight is zero. *)
Theorem transcriber_exit_paths on_disk gap dur mw mr tr st w r st' :
  Manager.run tr (Manager.init on_disk gap dur mw mr) = Some st →
  Manager.work w r st = Some st' →
  (∀ pc', Manager.workers st' !! w = Some pc' →
     (pc' = Manager.WTopEmpty →
        Manager.workers st !! w = Some Manager.WTop ∧ Manager.stop_all st = true)
     ∧ (pc' = Manager.WTopIdle →
        Manager.workers st !! w = Some Manager.WTopEmpty ∧ Manager.pending_queue st = [])
     ∧ (pc' = Manager.WEmpty →
        Manager.workers st !! w = Some Manager.WGet ∧ Manager.pending_queue st = [])
     ∧ (pc' = Manager.WDone →
        (Manager.workers st !! w = Some Manager.WTopIdle ∧ Manager.transcribing st = 0)
        ∨ (Manager.workers st !! w = Some Manager.WEmpty ∧ Manager.stop_all st = true)))
  ∧ (forallb Manager.timely tr = true →
     Manager.worker_alive st' w = false →
     Manager.stop_all st = true ∧ Manager.transcribing st = 0
     ∧ ∀ w', Manager.worker_alive st w' = true → w' = w).
Proof.
  intros Hrun Hwork.
  destruct (work_cases _ _ _ _ Hwork) as (pc & pc1 & Hw & Hal & Hw' & H1 & H2 & H3 & H4).
  assert (Manager.workers st' !! w = Some pc1) as Hpc1.
  { rewrite Hw'. apply list_lookup_insert_eq. by apply lookup_lt_Some in Hw. }
  split.
  - intros pc' Hpc'. rewrite Hpc1 in Hpc'. injection Hpc' as <-.
    split_and!.
    + intros Heq. by destruct (H1 Heq) as [-> ?].
    + intros Heq. by destruct (H2 Heq) as [-> ?].
    + intros Heq. by destruct (H3 Heq) as [-> ?].
    + intros Heq. destruct (H4 Heq) as [[-> ?]|[-> ?]]; auto.
  - intros Ht Hdead.
    assert (timely_inv st) as [_ Hc _ Hn].
    { eapply run_timely_inv; [done|apply init_timely_inv|done]. }
    assert (pc1 = Manager.WDone) as ->.
    { unfold Manager.worker_alive in Hdead. rewrite Hpc1 in Hdead. by destruct pc1. }
    assert (in_flight pc = false) as Hfl.
    { destruct (H4 eq_refl) as [[-> _]|[-> _]]; done. }
    split_and!.
    + destruct (H4 eq_refl) as [[-> _]|[_ ?]]; [|done].
      eapply (ci_flag_seen _ Hc); eauto.
    + by eapply single_consumer_idle.
    + intros w' Hal'. unfold Manager.worker_alive in Hal'.
      destruct (Manager.workers st !! w') as [pc'|] eqn:Hw''; [|done].
      assert (alive pc' = true) as Hal'' by (by destruct pc').
      pose proof (ci_single _ Hc w pc Hw Hal) as E1.
      pose proof (ci_single _ Hc w' pc' Hw'' Hal'') as E2.
      rewrite E1 in E2. by injection E2.
Qed.

Lemma transcriber_exit_paths_witness :
  ∃ st st',
    Manager.run (take 22 (Traces.recording ++ Traces.pausing)) Traces.fresh = Some st
    ∧ Manager.work 0 (Retry.Text "") st = Some st'
    ∧ Manager.stop_all st = true ∧ Manager.transcribing st = 0
    ∧ ∀ w', Manager.worker_alive st w' = true → w' = 0%nat.
Proof.
  eexists _, _. split; [vm_compute; reflexivity|]. split; [vm_compute; reflexivity|].
  refine (proj2 (transcriber_exit_paths None 12 15 2 3
                   (take 22 (Traces.recording ++ Traces.pausing)) _ 0%nat
                   (Retry.Text "") _ _ _) _ _); vm_compute; reflexivity.
Defined.

(** C9.  With nothing active, the scheduler ended and no transcriber
    thread, [stop] runs through without raising and leaves transcript file,
    results and pending queue as they are; right after a [stop], when the
    stop flag is set and [_paused] is false, it changes nothing at all. *)
Theorem second_stop_is_noop st :
  Manager.controller st = Manager.CIdle →
  Manager.active st = [] →
  Manager.running st = false →
  Manager.transcriber_thread st = None →
  ∃ st',
    Manager.run Traces.stop_again st = Some st'
    ∧ Manager.controller st' = Manager.CIdle
    ∧ Manager.transcript st' = Manager.transcript st
    ∧ Manager.results st' = Manager.results st
    ∧ Manager.pending_queue st' = Manager.pending_queue st
    ∧ Manager.files st' = Manager.files st
    ∧ Manager.sent st' = Manager.sent st
    ∧ (Manager.stop_all st = true → Manager.paused st = false → st' = st).
Proof.
  intros Hctl Hact Hrun Hnone.
  set (st1 := Manager.set_controller (Manager.CJoinScheduler false)
                (Manager.set_stop_all true (Manager.set_paused false st))).
  set (st2 := Manager.set_controller Manager.CStopSnapshot st1).
  set (st3 := Manager.set_controller Manager.CJoinTranscriber (Manager.set_active [] st2)).
  set (st4 := Manager.set_controller Manager.CIdle st3).
  assert (Manager.call Manager.Stop st = Some st1) as E1.
  { unfold Manager.call. by rewrite Hctl. }
  assert (Manager.ctl_step false st1 = Some st2) as E2.
  { unfold Manager.ctl_step, Manager.running in *. simpl.
    by destruct (Manager.scheduler st). }
  assert (Manager.ctl_step false st2 = Some st3) as E3.
  { unfold Manager.ctl_step. simpl. by rewrite Hact. }
  assert (Manager.ctl_step false st3 = Some st4) as E4.
  { unfold Manager.ctl_step. simpl. by rewrite Hnone. }
  exists st4. split.
  - simpl. by rewrite E1, E2, E3, E4.
  - simpl. split_and!; try done.
    intros Hst Hpa. subst st4 st3 st2 st1. destruct st. simpl in *. by subst.
Qed.

Lemma second_stop_is_noop_witness :
  ∃ st, Manager.run (Traces.recording ++ Traces.stopping) Traces.fresh = Some st
        ∧ Manager.run Traces.stop_again st = Some st.
Proof.
  eexists. split; [vm_compute; reflexivity|].
  refine (match second_stop_is_noop _ _ _ _ _ with
          | ex_intro _ st' (conj Hrun (conj _ (conj _ (conj _ (conj _ (conj _ (conj _ Heq))))))) =>
              eq_trans Hrun (f_equal Some (Heq _ _))
          end); vm_compute; reflexivity.
Defined.

(** C10 as claimed fails: after a [pause] whose join of the transcriber
    gave up, [resume] starts a second transcriber beside the first, and both
    have an item in flight.  And after a write of the transcript file has
    raised, the session goes on recording with no transcriber at all. *)
Lemma two_live_transcribers :
  (∃ st, Manager.run (Traces.asleep ++ Traces.pause_gives_up ++ take 4 Traces.overtaken)
           (Manager.main_recorder None 2 3) = Some st
         ∧ Manager.workers st
           = [Manager.WSleep (100, 0%nat) 1 5; Manager.WCall (200, 1%nat) 0]
         ∧ Manager.worker_alive st 0 = true ∧ Manager.worker_alive st 1 = true
         ∧ Manager.transcribing st = 2)
  ∧ (∃ st, Manager.run Traces.second_write_raises (Manager.main_recorder None 2 3)
           = Some st
           ∧ forallb Manager.timely Traces.second_write_raises = true
           ∧ Manager.running st = true ∧ Manager.stop_all st = false
           ∧ Manager.workers st = [Manager.WDone]
           ∧ Manager.worker_alive st 0 = false).
Proof.
  split; (eexists; split; [vm_compute; reflexivity|]); split_and!; vm_compute; reflexivity.
Qed.

(** C10, amended.  The manager built with one worker count is the manager
    built with any other: [max_workers] is not stored, so every run from the
    one is a run from the other, also through [main], which clamps the count
    to 2..5 first.  [start] creates one transcriber thread, never a pool: in
    every run the transcriber threads created are at most as many as the
    calls of [start] and [resume], whatever the count.  As long as no join
    gives up, no two transcribers are alive at a time; and as long as,
    besides, no write of the transcript file raises, one transcriber is
    alive whenever the stop flag is unset after a [start]. *)
Theorem max_workers_is_ignored on_disk gap dur mr (w1 w2 : Z) tr :
  Manager.init on_disk gap dur w1 mr = Manager.init on_disk gap dur w2 mr
  ∧ Manager.run tr (Manager.init on_disk gap dur w1 mr)
    = Manager.run tr (Manager.init on_disk gap dur w2 mr)
  ∧ Manager.main_recorder on_disk w1 mr = Manager.main_recorder on_disk w2 mr
  ∧ 2 ≤ Manager.clamp_workers w1 ≤ 5
  ∧ (∀ st, Manager.controller st = Manager.CIdle → Manager.running st = false →
       ∃ st', Manager.step (Manager.Call Manager.Start) st = Some st'
              ∧ Manager.workers st' = Manager.workers st ++ [Manager.WTop]
              ∧ Manager.transcriber_thread st' = Some (length (Manager.workers st)))
  ∧ (∀ st, Manager.run tr (Manager.init on_disk gap dur w1 mr) = Some st →
       (length (Manager.workers st) ≤ restarts tr)%nat)
  ∧ (∀ st, forallb Manager.timely tr = true →
       Manager.run tr (Manager.init on_disk gap dur w1 mr) = Some st →
       ∀ a b, Manager.worker_alive st a = true → Manager.worker_alive st b = true →
              a = b)
  ∧ (∀ st, forallb Manager.timely tr = true → forallb Manager.steady tr = true →
       Manager.run tr (Manager.init on_disk gap dur w1 mr) = Some st →
       Manager.stop_all st = false → Manager.scheduler st ≠ Manager.SNone →
       ∃ w, Manager.worker_alive st w = true
            ∧ ∀ w', Manager.worker_alive st w' = true → w' = w).
Proof.
  assert (∀ st, forallb Manager.timely tr = true →
            Manager.run tr (Manager.init on_disk gap dur w1 mr) = Some st →
            ∀ a b, Manager.worker_alive st a = true →
                   Manager.worker_alive st b = true → a = b) as Hone.
  { intros st Ht Hrun a b Ha Hb.
    assert (timely_inv st) as [_ Hc _ _].
    { eapply run_timely_inv; [done|apply init_timely_inv|done]. }
    unfold Manager.worker_alive in *.
    destruct (Manager.workers st !! a) as [pa|] eqn:Hla; [|done].
    destruct (Manager.workers st !! b) as [pb|] eqn:Hlb; [|done].
    assert (alive pa = true) as Ha' by (by destruct pa).
    assert (alive pb = true) as Hb' by (by destruct pb).
    pose proof (ci_single _ Hc a pa Hla Ha') as E1.
    pose proof (ci_single _ Hc b pb Hlb Hb') as E2.
    rewrite E1 in E2. by injection E2. }
  split_and!; try done.
  - unfold Manager.clamp_workers. lia.
  - unfold Manager.clamp_workers. lia.
  - intros st Hctl Hrun. eexists. split.
    + simpl. unfold Manager.call. by rewrite Hctl, Hrun.
    + done.
  - intros st Hrun. pose proof (run_threads _ _ _ Hrun) as H. simpl in H. lia.
  - intros st Ht Hs Hrun Hst Hsc.
    destruct (run_consumer_inv tr _ st Ht Hs (init_timely_inv on_disk gap dur w1 mr))
      with (2 := Hrun) as (w & _ & Hal); [by intros _ ?|done|done|].
    exists w. split; [done|]. intros w' Hal'. by apply (Hone st Ht Hrun).
Qed.

Lemma artifact_queued_at_most_once_witness :
  ∃ st, Manager.run (Traces.recording ++ Traces.pausing) Traces.fresh = Some st
        ∧ NoDup (Manager.enqueued st).
Proof.
  eexists. split; [vm_compute; reflexivity|].
  refine (proj1 (artifact_queued_at_most_once None 12 15 2 3
                   (Traces.recording ++ Traces.pausing) _ _)).
  vm_compute; reflexivity.
Defined.

(** * Properties of the manager: one item through the loop *)

Section SoloFacts.

Import Manager Solo.

Lemma same_but_worker_refl st : same_but_worker st st.
Proof. by repeat split. Qed.

Lemma same_but_worker_trans st1 st2 st3 :
  same_but_worker st1 st2 → same_but_worker st2 st3 → same_but_worker st1 st3.
Proof.
  unfold same_but_worker. intros (?&?&?&?&?&?&?&?&?&?&?&?) (?&?&?&?&?&?&?&?&?&?&?&?).
  split_and!; congruence.
Qed.

(** The transcriber's steps through [_transcribe_single] end where the loop
    of [Retry] says, having called the remote as often. *)
Lemma retry_run w it oracle fuel : ∀ st retries calls naps o,
  workers st !! w = Some (WCall it retries) →
  Retry.loop fuel (max_retries st) oracle retries calls naps = Some o →
  ∃ st',
    run (retry_events w fuel (max_retries st) oracle retries calls) st = Some st'
    ∧ workers st' = <[w := WText it (Retry.text o)]> (workers st)
    ∧ sent st' = sent st ++ replicate (Retry.attempts o - calls) it.2
    ∧ same_but_worker st st'.
Proof.
  induction fuel as [|fuel IH]; intros st retries calls naps o Hw Hloop; [done|].
  simpl in Hloop |- *. unfold work at 1. rewrite Hw.
  assert (w < length (workers st))%nat as Hlen by (by apply lookup_lt_Some in Hw).
  destruct (retries <=? max_retries st) eqn:Hle; last first.
  { injection Hloop as <-. simpl. eexists. split; [done|].
    rewrite Nat.sub_diag. simpl. rewrite app_nil_r. by repeat split. }
  destruct (Retry.attempt (max_retries st) retries (oracle calls)) as [t|secs r'] eqn:Hatt.
  { injection Hloop as <-. simpl. eexists. split; [done|]. simpl.
    replace (S calls - calls)%nat with 1%nat by lia. by repeat split. }
  set (st1 := set_worker w (WSleep it r' secs) (set_sent (sent st ++ [it.2]) st)).
  assert (work w (oracle calls) st1 =
          Some (set_worker w (WCall it r') st1)) as Hwake.
  { unfold work. simpl. by rewrite list_lookup_insert_eq. }
  simpl. rewrite Hwake.
  set (st2 := set_worker w (WCall it r') st1).
  destruct (IH st2 r' (S calls) (naps ++ [secs]) o) as (st' & Hrun & Hw' & Hsent & Hsame).
  { simpl. rewrite list_lookup_insert_eq; [done|]. by rewrite length_insert. }
  { done. }
  exists st'. split; [done|]. split; [|split].
  - rewrite Hw'. simpl. by rewrite !list_insert_insert_eq.
  - rewrite Hsent. simpl. rewrite <- app_assoc. f_equal.
    assert (S calls ≤ Retry.attempts o)%nat as Hmore.
    { clear -Hloop. revert Hloop. generalize (naps ++ [secs]) (S calls) r'.
      induction fuel as [|fuel IH]; intros l c r; [done|]. simpl.
      destruct (r <=? max_retries st); [|intros [= <-]; simpl; lia].
      destruct (Retry.attempt _ _ _); [intros [= <-]; simpl; lia|].
      intros H%IH. lia. }
    replace (Retry.attempts o - calls)%nat with (S (Retry.attempts o - S calls)) by lia.
    done.
  - eapply same_but_worker_trans; [|exact Hsame]. by repeat split.
Qed.

End SoloFacts.

(** C5 as claimed fails: with [max_retries = 3] and every call failing, the
    remote is called four times, with three sleeps of one second between the
    calls. *)
Lemma four_attempts_for_three_retries :
  Retry.transcribe_single 3 (λ _, Retry.Failed)
    = Some {| Retry.text := ""; Retry.attempts := 4; Retry.sleeps := [1; 1; 1] |}
  ∧ ¬ at_most_max_retries_attempts 3 (λ _, Retry.Failed).
Proof.
  split; [reflexivity|]. intros H. specialize (H _ eq_refl). simpl in H. lia.
Qed.

(** C5, amended.  An item all of whose attempts fail is given
    [max_retries + 1] attempts, the first and [max_retries] retries; before
    each retry the transcriber sleeps 5 seconds after a rate limit and 1
    second after any other failure; then [_transcribe_single] returns the
    empty text.  In the loop, the transcriber then appends no result, writes
    no transcript, unlinks the artifact, leaves the in-flight count as it
    found it, and stands at the top of the loop again. *)
Theorem failed_item_is_retried_then_dropped
    (st : Manager.state) (w : nat) (it : Z * Manager.path) (oracle : nat → Retry.reply) :
  (∀ n, Retry.is_failure (oracle n) = true) →
  Manager.workers st !! w = Some (Manager.WBegin it) →
  let n := Z.to_nat (Manager.max_retries st + 1) in
  Retry.transcribe_single (Manager.max_retries st) oracle =
    Some {| Retry.text := ""; Retry.attempts := n;
            Retry.sleeps := (λ k, Retry.delay (oracle k))
                              <$> seq 0 (Z.to_nat (Manager.max_retries st)) |}
  ∧ (∀ k, (oracle k = Retry.RateLimited → Retry.delay (oracle k) = 5)
          ∧ (oracle k = Retry.Failed → Retry.delay (oracle k) = 1))
  ∧ ∃ st',
      Manager.run (Solo.failed_round w (Manager.max_retries st) oracle) st = Some st'
      ∧ Manager.workers st' = <[w := Manager.WTop]> (Manager.workers st)
      ∧ Manager.sent st' = Manager.sent st ++ replicate n it.2
      ∧ Manager.results st' = Manager.results st
      ∧ Manager.transcript st' = Manager.transcript st
      ∧ Manager.files st' = Manager.files st ∖ {[it.2]}
      ∧ Manager.transcribing st' = Manager.transcribing st
      ∧ Manager.pending_queue st' = Manager.pending_queue st.
Proof.
  intros Hfail Hw n.
  assert (Retry.transcribe_single (Manager.max_retries st) oracle =
          Some {| Retry.text := ""; Retry.attempts := n;
                  Retry.sleeps := (λ k, Retry.delay (oracle k))
                                    <$> seq 0 (Z.to_nat (Manager.max_retries st)) |}) as Hbig.
  { unfold Retry.transcribe_single. rewrite loop_all_fail by (done || lia).
    subst n. simpl. do 2 f_equal; [f_equal; lia|do 2 f_equal; lia]. }
  split; [done|]. split.
  { intros k. split; intros ->; done. }
  assert (w < length (Manager.workers st))%nat as Hlen by (by apply lookup_lt_Some in Hw).
  set (st1 := Manager.set_worker w (Manager.WCall it 0)
                (Manager.set_transcribing (Manager.transcribing st + 1) st)).
  assert (Manager.work w (oracle 0%nat) st = Some st1) as E1.
  { unfold Manager.work. by rewrite Hw. }
  destruct (retry_run w it oracle (S (Z.to_nat (Manager.max_retries st + 1))) st1 0 0%nat []
              _ ltac:(simpl; by rewrite list_lookup_insert_eq) Hbig)
    as (st2 & E2 & Hw2 & Hsent2 & Hsame).
  destruct Hsame as (Hres & Htr & Hfi & Hpq & Hcnt & Hmax & _).
  simpl in Hw2, Hsent2, Hres, Htr, Hfi, Hpq, Hcnt, Hmax.
  rewrite list_insert_insert_eq in Hw2.
  assert (Manager.workers st2 !! w = Some (Manager.WText it "")) as Hl2.
  { rewrite Hw2. by apply list_lookup_insert_eq. }
  set (st3 := Manager.set_worker w (Manager.WUnlink it) st2).
  assert (Manager.work w (oracle 0%nat) st2 = Some st3) as E3.
  { unfold Manager.work. by rewrite Hl2. }
  set (st4 := Manager.set_worker w Manager.WEnd
                (Manager.set_files (Manager.files st3 ∖ {[it.2]}) st3)).
  assert (Manager.work w (oracle 0%nat) st3 = Some st4) as E4.
  { unfold Manager.work. simpl. rewrite list_lookup_insert_eq; [done|].
    rewrite Hw2, length_insert. done. }
  set (st5 := Manager.set_worker w Manager.WTop
                (Manager.set_transcribing (Manager.transcribing st4 - 1) st4)).
  assert (Manager.work w (oracle 0%nat) st4 = Some st5) as E5.
  { unfold Manager.work. simpl. rewrite list_lookup_insert_eq; [done|].
    rewrite !length_insert, Hw2, length_insert. done. }
  exists st5. split.
  - unfold Solo.failed_round.
    assert (∀ e tr s, Manager.run (e :: tr) s =
              match Manager.step e s with
              | Some s' => Manager.run tr s'
              | None => None
              end) as Hcons by done.
    rewrite Hcons.
    change (Manager.step (Manager.Work w (oracle 0%nat)) st)
      with (Manager.work w (oracle 0%nat) st).
    rewrite E1, run_app.
    change (Manager.max_retries st1) with (Manager.max_retries st) in E2.
    rewrite E2. simpl. by rewrite E3, E4, E5.
  - simpl. rewrite Hw2, !list_insert_insert_eq, Hsent2, Hres, Htr, Hfi, Hpq, Hcnt.
    rewrite Nat.sub_0_r. split_and!; try done. lia.
Qed.

Lemma failed_item_is_retried_then_dropped_witness :
  Retry.transcribe_single 3 (λ k, if Nat.even k then Retry.RateLimited else Retry.Failed)
  = Some {| Retry.text := ""; Retry.attempts := 4; Retry.sleeps := [5; 1; 5] |}.
Proof.
  refine (proj1 (failed_item_is_retried_then_dropped
                   (Manager.set_workers [Manager.WBegin (100, 0%nat)] Traces.fresh) 0
                   (100, 0%nat)
                   (λ k, if Nat.even k then Retry.RateLimited else Retry.Failed) _ _)).
  - intros n. by destruct (Nat.even n).
  - reflexivity.
Defined.

Import KeysMore RetryMore ManagerMore AppSpec Progress Disk Pausing Transcribe.

(** * More on the key rotation *)

Section StrFacts.

Lemma prefix_spec (p s : string) :
  String.prefix p s = true ↔ ∃ post, s = (p ++ post)%string.
Proof.
  revert s. induction p as [|c p IH]; intros s; simpl.
  - split; [intros _; by exists s|by destruct s].
  - destruct s as [|d s]; simpl.
    + split; [done|]. by intros [post H].
    + destruct (Ascii.ascii_dec c d) as [->|Hne].
      * rewrite IH. split; intros [post H]; exists post; [by rewrite H|by injection H].
      * split; [done|]. intros [post H]. by injection H.
Qed.

Lemma contains_unfold (tok s : string) :
  Str.contains tok s =
    String.prefix tok s
    || match s with EmptyString => false | String _ s' => Str.contains tok s' end.
Proof. by destruct s. Qed.

Lemma contains_spec (tok s : string) :
  Str.contains tok s = true ↔ ∃ pre post, s = (pre ++ tok ++ post)%string.
Proof.
  induction s as [|c s IH]; rewrite contains_unfold.
  - rewrite orb_false_r, prefix_spec. split.
    + intros [post H]. by exists EmptyString, post.
    + intros (pre & post & H). destruct pre; simpl in H; [by exists post|done].
  - rewrite orb_true_iff, prefix_spec, IH. split.
    + intros [[post H]|(pre & post & H)].
      * by exists EmptyString, post.
      * exists (String c pre), post. simpl. by rewrite H.
    + intros (pre & post & H). destruct pre as [|d pre]; simpl in H.
      * left. by exists post.
      * right. injection H as -> ->. by exists pre, post.
Qed.

Lemma lower_app (a b : string) :
  Str.lower (a ++ b) = (Str.lower a ++ Str.lower b)%string.
Proof. induction a as [|c a IH]; simpl; [done|]. by rewrite IH. Qed.

End StrFacts.

Section MoreKeysFacts.

Import Keys.

(** What one call of [_with_key] leaves behind, from any point of its
    loop. *)
Lemma with_key_loop_outcome w n : ∀ km tick errs log,
  let r := with_key_loop w n km tick errs log in
  ∃ rest, attempted r = log ++ rest
   ∧ (∀ i k, rest !! i = Some k → k ∈ keys km)
   ∧ (∀ t, result r = Returned t →
        ∃ m k, rest !! m = Some k ∧ length rest = S m
               ∧ remote w (length log + m) k = Ok t)
   ∧ (∀ i k, rest !! i = Some k →
        (S i < length rest)%nat ∨ (∃ msg, result r = GroqRateLimitError msg) →
        ∃ msg, remote w (length log + i) k = Exc msg)
   ∧ (∀ msg, result r = GroqRateLimitError msg →
        result r = exhausted (errors r)
        ∧ length (errors r) = (length errs + length rest)%nat)
   ∧ (∀ k, cooldown_until (manager r) !! k ≠ cooldown_until km !! k →
        ∃ i msg, rest !! i = Some k ∧ remote w (length log + i) k = Exc msg
                 ∧ is_rate_limit msg = true).
Proof.
  induction n as [|n IH]; intros km tick errs log; simpl.
  { exists []. rewrite app_nil_r. split_and!; try done.
    all: intros msg _; split; [done|]; simpl; lia. }
  pose proof (next_key_spec km (clock w tick)) as Hs. simpl in Hs.
  destruct (next_key km (clock w tick)) as [[key|] km1]; simpl; last first.
  { destruct Hs as (_ & _ & Hcd & _). rewrite Hcd.
    exists []. rewrite app_nil_r. split_and!; try done.
    all: intros msg _; split; [done|]; simpl; lia. }
  destruct Hs as (j & Hj & Hkey & Hav & _ & ->).
  assert (key ∈ keys km) as Hin by (by eapply list_elem_of_lookup_2).
  destruct (remote w (length log) key) as [text|msg] eqn:Hrem; simpl.
  { exists [key]. split_and!; try done.
    - intros [|i] k Hl; simpl in Hl; [by simplify_eq|done].
    - intros t [= <-]. exists 0%nat, key. by rewrite Nat.add_0_r.
    - intros [|i] k Hl [Hlt|[m Hm]]; simpl in *; try done; lia. }
  assert (∀ km' tick' e,
    keys km' = keys km →
    (∀ k, cooldown_until km' !! k ≠ cooldown_until km !! k →
          k = key ∧ is_rate_limit msg = true) →
    let r := with_key_loop w n km' tick' (errs ++ [e]) (log ++ [key]) in
    ∃ rest, attempted r = log ++ rest
     ∧ (∀ i k, rest !! i = Some k → k ∈ keys km)
     ∧ (∀ t, result r = Returned t →
          ∃ m k, rest !! m = Some k ∧ length rest = S m
                 ∧ remote w (length log + m) k = Ok t)
     ∧ (∀ i k, rest !! i = Some k →
          (S i < length rest)%nat ∨ (∃ msg, result r = GroqRateLimitError msg) →
          ∃ msg, remote w (length log + i) k = Exc msg)
     ∧ (∀ msg, result r = GroqRateLimitError msg →
          result r = exhausted (errors r)
          ∧ length (errors r) = (length errs + length rest)%nat)
     ∧ (∀ k, cooldown_until (manager r) !! k ≠ cooldown_until km !! k →
          ∃ i msg, rest !! i = Some k ∧ remote w (length log + i) k = Exc msg
                   ∧ is_rate_limit msg = true)) as Hnext.
  { intros km' tick' e Hkeys Hcd r.
    destruct (IH km' tick' (errs ++ [e]) (log ++ [key]))
      as (rest & Hatt & Hmem & Hret & Hexc & Hraise & Hcool).
    fold r in Hatt, Hret, Hexc, Hraise, Hcool.
    rewrite length_app in Hret, Hexc, Hraise, Hcool. simpl in *.
    exists (key :: rest). split_and!.
    - by rewrite Hatt, <- app_assoc.
    - intros [|i] k Hl; simpl in Hl; [by simplify_eq|].
      rewrite <- Hkeys. eauto.
    - intros t Ht. destruct (Hret t Ht) as (m & k & Hl & Hlen & Hr).
      exists (S m), k. simpl. split_and!; [done|by rewrite Hlen|].
      by replace (length log + S m)%nat with (length log + 1 + m)%nat by lia.
    - intros [|i] k Hl Hwhy; simpl in Hl.
      + simplify_eq. rewrite Nat.add_0_r. by exists msg.
      + replace (length log + S i)%nat with (length log + 1 + i)%nat by lia.
        apply Hexc; [done|]. destruct Hwhy as [Hlt|?]; [left; simpl in Hlt; lia|by right].
    - intros m Hm. destruct (Hraise m Hm) as [? Hlen]. split; [done|].
      rewrite Hlen. simpl. lia.
    - intros k Hne.
      destruct (decide (cooldown_until (manager r) !! k = cooldown_until km' !! k))
        as [Heq|Hne'].
      + rewrite Heq in Hne. destruct (Hcd k Hne) as [-> Hrl].
        exists 0%nat, msg. by rewrite Nat.add_0_r.
      + destruct (Hcool k Hne') as (i & m & Hl & Hr & Hrl).
        exists (S i), m. split_and!; [done| |done].
        by replace (length log + S i)%nat with (length log + 1 + i)%nat by lia. }
  destruct (is_rate_limit msg) eqn:Hrl.
  - apply Hnext; [done|]. intros k. simpl.
    destruct (decide (k = key)) as [->|Hne]; [done|].
    by rewrite lookup_insert_ne.
  - apply Hnext; [done|]. by intros k.
Qed.

(** A key that is cooling down at every clock reading is not tried. *)
Lemma with_key_loop_skips w n key : ∀ km tick errs log,
  cooling_throughout w km key →
  key ∈ attempted (with_key_loop w n km tick errs log) → key ∈ log.
Proof.
  induction n as [|n IH]; intros km tick errs log Hcool; simpl; [done|].
  pose proof (next_key_spec km (clock w tick)) as Hs. simpl in Hs.
  destruct (next_key km (clock w tick)) as [[k|] km1]; simpl; [|done].
  destruct Hs as (j & _ & _ & Hav & _ & ->).
  assert (k ≠ key) as Hne.
  { intros ->. unfold is_available in Hav. apply Z.leb_le in Hav.
    specialize (Hcool tick). lia. }
  assert (key ∈ log ++ [k] → key ∈ log) as Hlog.
  { intros [?|Hk%list_elem_of_singleton]%elem_of_app; [done|]. by subst. }
  destruct (remote w (length log) k) as [text|msg]; simpl; [done|].
  destruct (is_rate_limit msg).
  - intros Hin. apply Hlog. revert Hin. apply IH.
    intros t. unfold cooling_throughout in Hcool. simpl.
    rewrite lookup_insert_ne by done. apply Hcool.
  - intros Hin. apply Hlog. revert Hin. by apply IH.
Qed.

(** A call that is answered at once tries the key under the cursor, if it
    is available, and moves the cursor by one. *)
Lemma with_key_answered w km key text :
  keys km !! (cursor km mod length (keys km))%nat = Some key →
  is_available km key (clock w 0) = true →
  remote w 0 key = Ok text →
  with_key w km =
    {| result := Returned text;
       manager := set_cursor ((cursor km + 1) mod length (keys km))%nat km;
       attempted := [key]; errors := []; ticks := 1 |}.
Proof.
  intros Hk Hav Hrem. unfold with_key.
  pose proof (next_key_head km (clock w 0) key Hk Hav) as Hnk.
  apply lookup_lt_Some in Hk.
  destruct (length (keys km)) as [|n]; [lia|].
  cbn [with_key_loop]. rewrite Hnk. simpl. by rewrite Hrem.
Qed.

Lemma calls_rotate ws : ∀ km (j : nat) r,
  keys km ≠ [] →
  (∀ w, w ∈ ws →
     (∀ k, k ∈ keys km → is_available km k (clock w 0) = true) ∧ always_answers w) →
  calls ws km !! j = Some r →
  ∃ key, keys km !! ((cursor km + j) mod length (keys km))%nat = Some key
         ∧ attempted r = [key]
         ∧ ∃ text, result r = Returned text.
Proof.
  induction ws as [|w ws IH]; intros km j r Hne Hws Hl; [done|].
  assert (length (keys km) ≠ 0)%nat as HN by (by destruct (keys km)).
  destruct (lookup_lt_is_Some_2 (keys km) (cursor km mod length (keys km))%nat)
    as [key Hkey].
  { by apply Nat.mod_upper_bound. }
  destruct (Hws w) as [Hfree Hans]; [left|].
  destruct (Hans 0%nat key) as [text Hrem].
  assert (is_available km key (clock w 0) = true) as Hav.
  { apply Hfree. by eapply list_elem_of_lookup_2. }
  pose proof (with_key_answered w km key text Hkey Hav Hrem) as Hcall.
  simpl in Hl. rewrite Hcall in Hl.
  destruct j as [|j]; simpl in Hl.
  - simplify_eq. simpl. exists key. rewrite Nat.add_0_r. eauto.
  - apply IH in Hl as (key' & Hk' & Hatt & Hres); try done.
    + simpl in Hk'. rewrite mod_add_shift in Hk' by done.
      by exists key'.
    + intros w' Hw'. apply Hws. by right.
Qed.

Lemma lower_byte_fixed c : is_upper c = false → Str.lower_byte c = c.
Proof. unfold Str.lower_byte, is_upper. by intros ->. Qed.

Lemma lower_byte_upper c :
  is_upper c = true → Str.lower_byte c = ascii_of_nat (nat_of_ascii c + 32).
Proof. unfold Str.lower_byte, is_upper. by intros ->. Qed.

Lemma same_letter_lower c d : same_letter c d = true → Str.lower_byte c = Str.lower_byte d.
Proof.
  assert (∀ a b, is_upper a = true → nat_of_ascii b = (nat_of_ascii a + 32)%nat →
                 Str.lower_byte a = Str.lower_byte b) as Hup.
  { intros a b Ha Hb. rewrite (lower_byte_upper a Ha), <- Hb, ascii_nat_embedding.
    symmetry. apply lower_byte_fixed. unfold is_upper in *. rewrite Hb.
    apply andb_prop in Ha as [?%Nat.leb_le ?%Nat.leb_le].
    apply andb_false_iff. right. apply Nat.leb_gt. lia. }
  unfold same_letter. rewrite !orb_true_iff, !andb_true_iff, !Nat.eqb_eq.
  intros [[Heq|[Hc Hd]]|[Hd Hc]].
  - by apply Ascii.eqb_eq in Heq as ->.
  - by apply Hup.
  - symmetry. by apply Hup.
Qed.

Lemma same_ignoring_case_lower s : ∀ t,
  same_ignoring_case s t = true → Str.lower s = Str.lower t.
Proof.
  induction s as [|c s IH]; intros [|d t]; simpl; try done.
  intros [Hc Hs]%andb_prop. by rewrite (same_letter_lower c d Hc), (IH t Hs).
Qed.

(** A message that holds a token, in any mix of cases, is a rate limit. *)
Lemma mention_is_rate_limit pre s post tok :
  tok ∈ RATE_LIMIT_TOKENS → same_ignoring_case s tok = true →
  Str.lower tok = tok →
  is_rate_limit (pre ++ s ++ post) = true.
Proof.
  intros Hin Hs Hlow. unfold is_rate_limit. apply existsb_exists.
  exists tok. split; [by apply list_elem_of_In|]. apply contains_spec.
  exists (Str.lower pre), (Str.lower post).
  by rewrite !lower_app, (same_ignoring_case_lower s tok Hs), Hlow.
Qed.

Lemma tokens_are_lowered tok : tok ∈ RATE_LIMIT_TOKENS → Str.lower tok = tok.
Proof.
  unfold RATE_LIMIT_TOKENS. rewrite !elem_of_cons, elem_of_nil.
  intros [->|[->|[->|[->|[->|[->|[]]]]]]]; reflexivity.
Qed.

(** The errors of a call begin with the errors so far, and a key that has
    been cooled down within the call stays so until the call ends. *)
Lemma with_key_loop_cooled w n key : ∀ km tick errs log,
  (∃ t, cooldown_until km !! key = Some (clock w t + cooldown_seconds km)) →
  let r := with_key_loop w n km tick errs log in
  (∃ t, cooldown_until (manager r) !! key = Some (clock w t + cooldown_seconds km))
  ∧ cooldown_seconds (manager r) = cooldown_seconds km
  ∧ ∃ rest, errors r = errs ++ rest.
Proof.
  induction n as [|n IH]; intros km tick errs log Hcool; simpl.
  { split; [done|]. split; [done|]. exists []. by rewrite app_nil_r. }
  pose proof (next_key_spec km (clock w tick)) as Hs. simpl in Hs.
  destruct (next_key km (clock w tick)) as [[k|] km1]; simpl.
  - destruct Hs as (j & _ & _ & _ & _ & ->).
    destruct (remote w (length log) k) as [text|msg]; simpl.
    { split; [done|]. split; [done|]. exists []. by rewrite app_nil_r. }
    destruct (is_rate_limit msg).
    + edestruct (IH (backoff (set_cursor ((cursor km + j + 1) mod length (keys km))%nat km)
                       k (clock w (S tick))) (S (S tick))) as (Hc & Hsec & rest & Hrest).
      { simpl. destruct (decide (k = key)) as [->|Hne].
        - exists (S tick). by rewrite lookup_insert_eq.
        - by rewrite lookup_insert_ne. }
      simpl in Hc, Hsec. split; [exact Hc|]. split; [exact Hsec|].
      rewrite Hrest, <- app_assoc. by eexists.
    + edestruct (IH (set_cursor ((cursor km + j + 1) mod length (keys km))%nat km)
                   (S tick)) as (Hc & Hsec & rest & Hrest); [exact Hcool|].
      simpl in Hc, Hsec. split; [exact Hc|]. split; [exact Hsec|].
      rewrite Hrest, <- app_assoc. by eexists.
  - destruct Hs as (_ & _ & Hcu & Hsec). rewrite Hcu. split; [done|].
    split; [done|]. exists []. by rewrite app_nil_r.
Qed.

(** The keys tried begin with the keys tried so far. *)
Lemma with_key_loop_log w n : ∀ km tick errs log,
  ∃ rest, attempted (with_key_loop w n km tick errs log) = log ++ rest.
Proof.
  intros km tick errs log.
  destruct (with_key_loop_outcome w n km tick errs log) as (rest & Hatt & _).
  by exists rest.
Qed.

End MoreKeysFacts.

(** X1.  [_with_key] treats an exception as a rate limit when its
    message mentions one of the tokens of [RATE_LIMIT_TOKENS] anywhere and
    in any mix of cases.  When the first key of a call draws such an
    exception, the call notes it as rate-limited, the key is put in
    cooldown until a clock reading of the call plus [cooldown_seconds], and
    it is still in cooldown when the call ends. *)
Theorem rate_limit_is_token_in_lowered_message
    (km : Keys.KeyManager) (w : Keys.world) (key pre s post tok : string) :
  Keys.keys km !! (Keys.cursor km mod length (Keys.keys km))%nat = Some key →
  Keys.is_available km key (Keys.clock w 0) = true →
  Keys.remote w 0 key = Keys.Exc (pre ++ s ++ post) →
  tok ∈ Keys.RATE_LIMIT_TOKENS →
  same_ignoring_case s tok = true →
  let r := Keys.with_key w km in
  Keys.is_rate_limit (pre ++ s ++ post) = true
  ∧ Keys.attempted r !! 0%nat = Some key
  ∧ Keys.errors r !! 0%nat
    = Some (Str.take 5 key ++ "*** rate-limited; cooling down")%string
  ∧ (∃ t, Keys.cooldown_until (Keys.manager r) !! key
          = Some (Keys.clock w t + Keys.cooldown_seconds km)).
Proof.
  intros Hk Hav Hrem Htok Hs r.
  pose proof (mention_is_rate_limit pre s post tok Htok Hs (tokens_are_lowered tok Htok))
    as Hrl.
  split; [done|].
  pose proof (next_key_head km (Keys.clock w 0) key Hk Hav) as Hnk.
  assert (length (Keys.keys km) ≠ 0)%nat as HN.
  { apply lookup_lt_Some in Hk. lia. }
  subst r. unfold Keys.with_key.
  destruct (length (Keys.keys km)) as [|n] eqn:HNn; [done|].
  cbn [Keys.with_key_loop]. rewrite Hnk. cbn [length]. rewrite Hrem, Hrl.
  match goal with |- context [Keys.with_key_loop w n ?km1 ?tick ?errs ?log] =>
    destruct (with_key_loop_cooled w n key km1 tick errs log) as (Hc & _ & rest & Hrest);
    [|destruct (with_key_loop_log w n km1 tick errs log) as (rest' & Hlog)] end.
  { simpl. exists 1%nat. by rewrite lookup_insert_eq. }
  rewrite Hrest, Hlog. by split_and!.
Qed.

Lemma rate_limit_is_token_in_lowered_message_witness :
  Keys.is_rate_limit "Error 503: Rate LIMIT reached" = true
  ∧ Keys.attempted (Keys.with_key
       {| Keys.clock := λ n, 1000 + Z.of_nat n;
          Keys.remote := λ _ _, Keys.Exc "Error 503: Rate LIMIT reached" |}
       Examples.km_two) !! 0%nat = Some "gsk_alpha"%string.
Proof.
  refine (let H := rate_limit_is_token_in_lowered_message Examples.km_two
                     {| Keys.clock := λ n, 1000 + Z.of_nat n;
                        Keys.remote := λ _ _, Keys.Exc "Error 503: Rate LIMIT reached" |}
                     "gsk_alpha" "Error 503: " "Rate LIMIT" " reached" "rate limit"
                     _ _ _ _ _ in
          conj (proj1 H) (proj1 (proj2 H))).
  - reflexivity.
  - reflexivity.
  - reflexivity.
  - unfold Keys.RATE_LIMIT_TOKENS. left.
  - reflexivity.
Defined.

(** X2.  One call of [_with_key], whatever the remote answers.  The value
    returned is the answer to the last key tried, and every key tried before
    it raised; when the call raises [GroqRateLimitError] every key tried
    raised, the message is the fixed prefix followed by the errors joined
    with a semicolon, one error per key tried.  Every key tried is a key of
    the manager, and a key's [cooldown_until] is changed only if the key drew
    a rate-limit error in this call: an answer, or a failure of another kind,
    never cools a key down. *)
Theorem with_key_accounts_for_every_attempt (km : Keys.KeyManager) (w : Keys.world) :
  let r := Keys.with_key w km in
  (∀ text, Keys.result r = Keys.Returned text →
     ∃ n k, Keys.attempted r !! n = Some k ∧ length (Keys.attempted r) = S n
            ∧ Keys.remote w n k = Keys.Ok text)
  ∧ (∀ n k, Keys.attempted r !! n = Some k →
       (S n < length (Keys.attempted r))%nat
       ∨ (∃ msg, Keys.result r = Keys.GroqRateLimitError msg) →
       ∃ msg, Keys.remote w n k = Keys.Exc msg)
  ∧ (∀ msg, Keys.result r = Keys.GroqRateLimitError msg →
       msg = ("All Groq keys failed or are cooling down: "
              ++ Str.join "; " (Keys.errors r))%string
       ∧ length (Keys.errors r) = length (Keys.attempted r))
  ∧ (∀ n k, Keys.attempted r !! n = Some k → k ∈ Keys.keys km)
  ∧ (∀ k, Keys.cooldown_until (Keys.manager r) !! k ≠ Keys.cooldown_until km !! k →
       ∃ n msg, Keys.attempted r !! n = Some k ∧ Keys.remote w n k = Keys.Exc msg
                ∧ Keys.is_rate_limit msg = true).
Proof.
  intros r.
  destruct (with_key_loop_outcome w (length (Keys.keys km)) km 0 [] [])
    as (rest & Hatt & Hmem & Hret & Hexc & Hraise & Hcool).
  fold (Keys.with_key w km) in Hatt, Hret, Hexc, Hraise, Hcool.
  fold r in Hatt, Hret, Hexc, Hraise, Hcool. simpl in *. subst rest.
  split_and!; try done.
  intros msg Hmsg. destruct (Hraise msg Hmsg) as [Hres Hlen].
  split; [|done]. rewrite Hmsg in Hres. unfold Keys.exhausted in Hres. by injection Hres.
Qed.

(** X3.  A key whose cooldown lies beyond every clock reading of a call is
    not tried in that call, and its [cooldown_until] is left as it was. *)
Theorem cooling_key_is_never_tried (km : Keys.KeyManager) (w : Keys.world) (key : string) :
  cooling_throughout w km key →
  let r := Keys.with_key w km in
  (key ∉ Keys.attempted r)
  ∧ Keys.cooldown_until (Keys.manager r) !! key = Keys.cooldown_until km !! key.
Proof.
  intros Hcool r.
  assert (key ∉ Keys.attempted r) as Hnot.
  { intros Hin. apply with_key_loop_skips in Hin; [|done].
    by apply not_elem_of_nil in Hin. }
  split; [done|].
  destruct (decide (Keys.cooldown_until (Keys.manager r) !! key
                    = Keys.cooldown_until km !! key)) as [|Hne]; [done|].
  destruct (with_key_loop_outcome w (length (Keys.keys km)) km 0 [] [])
    as (rest & Hatt & _ & _ & _ & _ & Hc).
  fold (Keys.with_key w km) in Hatt, Hc. fold r in Hatt, Hc. simpl in Hatt. subst rest.
  destruct (Hc key Hne) as (i & msg & Hl & _).
  destruct Hnot. by eapply list_elem_of_lookup_2.
Qed.

Lemma cooling_key_is_never_tried_witness :
  "gsk_alpha"%string ∉ Keys.attempted (Keys.with_key Examples.w_boom Examples.km_cooling).
Proof.
  refine (proj1 (cooling_key_is_never_tried Examples.km_cooling Examples.w_boom
                   "gsk_alpha" _)).
  intros t. vm_compute. reflexivity.
Defined.

(** X4.  Calls that are answered at once are spread over the keys in turn:
    when no key is cooling down at the time of any of the calls, the [j]-th
    of a series of calls on one client tries one key only, the one [j]
    places after the cursor the series started with, wrapping around the key
    list. *)
Theorem answered_calls_take_the_keys_in_turn
    (km : Keys.KeyManager) (ws : list Keys.world) (j : nat) (r : Keys.run) :
  Keys.keys km ≠ [] →
  (∀ w, w ∈ ws →
     (∀ k, k ∈ Keys.keys km → Keys.is_available km k (Keys.clock w 0) = true)
     ∧ always_answers w) →
  calls ws km !! j = Some r →
  ∃ key, Keys.keys km !! ((Keys.cursor km + j) mod length (Keys.keys km))%nat = Some key
         ∧ Keys.attempted r = [key]
         ∧ ∃ text, Keys.result r = Keys.Returned text.
Proof.
  intros Hne Hws Hl. destruct (calls_rotate ws km j r Hne Hws Hl) as (key & ? & ? & ?).
  by exists key.
Qed.

Lemma answered_calls_take_the_keys_in_turn_witness :
  ∃ r key, calls (replicate 3 {| Keys.clock := λ n, 1000 + Z.of_nat n;
                                 Keys.remote := λ _ _, Keys.Ok "text" |})
             Examples.km_two !! 2%nat = Some r
           ∧ Keys.keys Examples.km_two !! 0%nat = Some key
           ∧ Keys.attempted r = [key].
Proof.
  eexists.
  destruct (answered_calls_take_the_keys_in_turn Examples.km_two
              (replicate 3 {| Keys.clock := λ n, 1000 + Z.of_nat n;
                              Keys.remote := λ _ _, Keys.Ok "text" |}) 2 _
              ltac:(done)
              ltac:(intros w [-> _]%elem_of_replicate; split;
                      [intros k _; reflexivity|intros n k; by eexists])
              eq_refl) as (key & Hk & Hatt & _).
  exists key. split; [reflexivity|]. split; [exact Hk|exact Hatt].
Defined.

(** X21.  [KeyManager.__init__] raises exactly when no environment variable
    whose name starts with GROQ_API_KEY has a value that is not empty.
    Otherwise the keys are the non-empty values of those variables, so no
    key is the empty string and the [if not key] of [_with_key] is taken
    only when [next_key] returns [None]; the cooldown is the one asked for;
    and the first call made at a clock reading that is not negative starts
    with the first key. *)
Theorem key_manager_needs_a_nonempty_key (environ : list (string * string)) (cooldown : Z) :
  (Keys.KeyManager_init environ cooldown = None ↔
   ∀ name value, (name, value) ∈ environ →
     String.prefix "GROQ_API_KEY" name = true → value = EmptyString)
  ∧ (∀ km, Keys.KeyManager_init environ cooldown = Some km →
       Keys.keys km ≠ []
       ∧ (∀ k, k ∈ Keys.keys km ↔
               k ≠ EmptyString
               ∧ ∃ name, (name, k) ∈ environ
                         ∧ String.prefix "GROQ_API_KEY" name = true)
       ∧ Keys.cooldown_seconds km = cooldown
       ∧ ∀ w, 0 ≤ Keys.clock w 0 →
           head (Keys.attempted (Keys.with_key w km)) = head (Keys.keys km)).
Proof.
  unfold Keys.KeyManager_init.
  set (ks := List.map snd
               (List.filter
                  (λ kv, String.prefix "GROQ_API_KEY" kv.1 && Str.nonempty kv.2) environ)).
  assert (∀ k, k ∈ ks ↔
               k ≠ EmptyString
               ∧ ∃ name, (name, k) ∈ environ
                         ∧ String.prefix "GROQ_API_KEY" name = true) as Hks.
  { intros k. subst ks. rewrite list_elem_of_In, in_map_iff. split.
    - intros ([name v] & <- & [Hin [Hp Hv]%andb_prop]%filter_In). simpl in *.
      split; [by destruct v|]. exists name. by rewrite list_elem_of_In.
    - intros (Hne & name & Hin%list_elem_of_In & Hp). exists (name, k).
      split; [done|]. apply filter_In. split; [done|]. simpl.
      rewrite Hp. by destruct k. }
  split.
  - split.
    + intros Hnone name value Hin Hp.
      destruct (decide (value = EmptyString)) as [|Hne]; [done|].
      assert (value ∈ ks) as Hv by (apply Hks; eauto).
      destruct ks; [by apply not_elem_of_nil in Hv|done].
    + intros Hall. destruct ks as [|k ks'] eqn:Hk; [done|].
      assert (k ∈ k :: ks') as Hin by left.
      apply Hks in Hin as (Hne & name & Hin & Hp). by destruct (Hall name k Hin Hp).
  - intros km Hkm.
    assert (ks ≠ [] ∧ km = {| Keys.keys := ks; Keys.cooldown_seconds := cooldown;
                              Keys.cooldown_until := ∅; Keys.cursor := 0 |})
      as [Hne ->].
    { destruct ks; [done|]. by simplify_eq. }
    simpl. split; [done|]. split; [done|]. split; [done|].
    intros w Hclock. unfold Keys.with_key. simpl.
    destruct ks as [|k ks']; [done|]. simpl.
    set (km := {| Keys.keys := k :: ks'; Keys.cooldown_seconds := cooldown;
                  Keys.cooldown_until := ∅; Keys.cursor := 0 |}).
    rewrite (next_key_head km (Keys.clock w 0) k).
    2: { change (Keys.cursor km) with 0%nat. by rewrite Nat.Div0.mod_0_l. }
    2: { unfold Keys.is_available. simpl. rewrite lookup_empty. simpl.
         by apply Z.leb_le. }
    destruct (Keys.remote w 0 k) as [text|msg]; [done|].
    destruct (Keys.is_rate_limit msg);
      match goal with |- context [Keys.with_key_loop ?w ?n ?m ?t ?e ?l] =>
        destruct (with_key_loop_log w n m t e l) as [rest ->] end; done.
Qed.

(** * More on the retry *)

Section MoreRetryFacts.

Import Retry.

Lemma loop_budget max_retries oracle fuel : ∀ retries calls naps o,
  loop fuel max_retries oracle retries calls naps = Some o →
  ∃ (k : nat) extra,
    attempts o = (calls + k)%nat ∧ sleeps o = naps ++ extra
    ∧ Z.of_nat k ≤ Z.max 0 (max_retries + 1 - retries)
    ∧ (retries ≤ max_retries → (1 ≤ k)%nat)
    ∧ length extra = (k - 1)%nat
    ∧ (∀ i s, extra !! i = Some s →
         s = delay (oracle (calls + i)%nat)
         ∧ is_failure (oracle (calls + i)%nat) = true)
    ∧ (text o ≠ EmptyString →
         ∃ j, k = S j ∧ oracle (calls + j)%nat = Text (text o)).
Proof.
  induction fuel as [|fuel IH]; intros retries calls naps o Hloop; [done|].
  simpl in Hloop. destruct (retries <=? max_retries) eqn:Hle; last first.
  { apply Z.leb_gt in Hle. injection Hloop as <-. simpl.
    exists 0%nat, []. rewrite app_nil_r. split_and!; try done; lia. }
  apply Z.leb_le in Hle.
  assert (∀ t, (t = EmptyString ∨ oracle calls = Text t) →
    ∃ (k : nat) extra,
      S calls = (calls + k)%nat ∧ naps = naps ++ extra
      ∧ Z.of_nat k ≤ Z.max 0 (max_retries + 1 - retries)
      ∧ (retries ≤ max_retries → (1 ≤ k)%nat)
      ∧ length extra = (k - 1)%nat
      ∧ (∀ i s, extra !! i = Some s →
           s = delay (oracle (calls + i)%nat)
           ∧ is_failure (oracle (calls + i)%nat) = true)
      ∧ (t ≠ EmptyString → ∃ j, k = S j ∧ oracle (calls + j)%nat = Text t)) as Hone.
  { intros t Ht. exists 1%nat, []. rewrite app_nil_r.
    split_and!; try done; try lia.
    intros Hne. exists 0%nat. rewrite Nat.add_0_r. by destruct Ht. }
  assert (∀ d, d = delay (oracle calls) → is_failure (oracle calls) = true →
    retries + 1 ≤ max_retries →
    loop fuel max_retries oracle (retries + 1) (S calls) (naps ++ [d]) = Some o →
    ∃ (k : nat) extra,
      attempts o = (calls + k)%nat ∧ sleeps o = naps ++ extra
      ∧ Z.of_nat k ≤ Z.max 0 (max_retries + 1 - retries)
      ∧ (retries ≤ max_retries → (1 ≤ k)%nat)
      ∧ length extra = (k - 1)%nat
      ∧ (∀ i s, extra !! i = Some s →
           s = delay (oracle (calls + i)%nat)
           ∧ is_failure (oracle (calls + i)%nat) = true)
      ∧ (text o ≠ EmptyString →
           ∃ j, k = S j ∧ oracle (calls + j)%nat = Text (text o))) as Hmore.
  { intros d Hd Hfail Hlt Hrec.
    destruct (IH _ _ _ _ Hrec) as (k & extra & Ha & Hs & Hk & Hk1 & Hlen & Hex & Htext).
    specialize (Hk1 Hlt).
    exists (S k), (d :: extra). split_and!; try lia.
    - by rewrite Hs, <- app_assoc.
    - simpl. lia.
    - intros [|i] s Hl; simpl in Hl.
      + simplify_eq. by rewrite Nat.add_0_r.
      + replace (calls + S i)%nat with (S calls + i)%nat by lia. by apply Hex.
    - intros Hne. destruct (Htext Hne) as (j & -> & Hj).
      exists (S j). split; [done|].
      by replace (calls + S j)%nat with (S calls + j)%nat by lia. }
  unfold attempt in Hloop.
  destruct (oracle calls) as [s| |] eqn:Hor.
  - injection Hloop as <-. simpl. apply Hone. by right.
  - destruct (retries + 1 >? max_retries) eqn:Hgt.
    + injection Hloop as <-. simpl. apply Hone. by left.
    + apply (Hmore 5); rewrite ?Hor; try done. lia.
  - destruct (retries + 1 >? max_retries) eqn:Hgt.
    + injection Hloop as <-. simpl. apply Hone. by left.
    + apply (Hmore 1); rewrite ?Hor; try done. lia.
Qed.

Lemma loop_first_answer max_retries oracle t fuel : ∀ retries calls naps (k : nat),
  retries + Z.of_nat k ≤ max_retries →
  (∀ j, (j < k)%nat → is_failure (oracle (calls + j)%nat) = true) →
  oracle (calls + k)%nat = Text t →
  (k < fuel)%nat →
  loop fuel max_retries oracle retries calls naps =
    Some {| text := t; attempts := S (calls + k);
            sleeps := naps ++ ((λ j, delay (oracle j)) <$> seq calls k) |}.
Proof.
  induction fuel as [|fuel IH]; intros retries calls naps k Hk Hfail Hans Hfuel; [lia|].
  simpl. destruct (retries <=? max_retries) eqn:Hle; last first.
  { apply Z.leb_gt in Hle. lia. }
  destruct k as [|k].
  - rewrite Nat.add_0_r in Hans. rewrite Hans. simpl.
    by rewrite Nat.add_0_r, app_nil_r.
  - specialize (Hfail 0%nat ltac:(lia)) as Hnow. rewrite Nat.add_0_r in Hnow.
    unfold attempt.
    assert ((retries + 1 >? max_retries) = false) as Hgt by lia.
    assert (loop fuel max_retries oracle (retries + 1) (S calls)
              (naps ++ [delay (oracle calls)]) =
            Some {| text := t; attempts := S (calls + S k);
                    sleeps := naps ++ ((λ j, delay (oracle j)) <$> seq calls (S k)) |})
      as Hrec.
    { rewrite (IH (retries + 1) (S calls) _ k); try lia.
      - simpl. rewrite <- app_assoc. do 2 f_equal. lia.
      - intros j Hj. replace (S calls + j)%nat with (calls + S j)%nat by lia.
        apply Hfail. lia.
      - by replace (S calls + k)%nat with (calls + S k)%nat by lia. }
    destruct (oracle calls) as [s| |] eqn:Hor; [done| |]; rewrite Hgt; exact Hrec.
Qed.

Lemma total_bound naps (n : nat) :
  Forall (λ s, s = 1 ∨ s = 5) naps → length naps = n → total naps ≤ 5 * Z.of_nat n.
Proof.
  intros Hall. revert n. induction Hall as [|s naps Hs Hall IH]; intros n Hn; simpl in *.
  - lia.
  - destruct n as [|n]; [done|]. injection Hn as Hn. specialize (IH n Hn).
    destruct Hs; lia.
Qed.

Lemma retry_events_steady w fuel max_retries oracle : ∀ retries calls,
  forallb Manager.steady (Solo.retry_events w fuel max_retries oracle retries calls) = true.
Proof.
  induction fuel as [|fuel IH]; intros retries calls; simpl; [done|].
  destruct (retries <=? max_retries); [|done].
  destruct (Retry.attempt _ _ _); simpl; [done|apply IH].
Qed.

End MoreRetryFacts.

(** X5.  [_transcribe_single] always returns, whatever the remote does.  It
    calls [llm.transcribe] at most [max_retries + 1] times and sleeps once
    between two calls, 5 seconds after a [GroqRateLimitError] and 1 second
    after another exception, so for at most [5 * max_retries] seconds in
    all; a text that is not empty is the answer to the last call.  With a
    negative [max_retries] it returns the empty text without calling the
    remote at all. *)
Theorem retry_budget (max_retries : Z) (oracle : nat → Retry.reply) :
  ∃ o, Retry.transcribe_single max_retries oracle = Some o
    ∧ Z.of_nat (Retry.attempts o) ≤ Z.max 0 (max_retries + 1)
    ∧ length (Retry.sleeps o) = (Retry.attempts o - 1)%nat
    ∧ (∀ i s, Retry.sleeps o !! i = Some s →
         Retry.is_failure (oracle i) = true
         ∧ (oracle i = Retry.RateLimited → s = 5)
         ∧ (oracle i = Retry.Failed → s = 1))
    ∧ total (Retry.sleeps o) ≤ 5 * Z.max 0 max_retries
    ∧ (Retry.text o ≠ EmptyString →
         ∃ n, Retry.attempts o = S n ∧ oracle n = Retry.Text (Retry.text o))
    ∧ (max_retries < 0 →
         o = {| Retry.text := ""; Retry.attempts := 0; Retry.sleeps := [] |}).
Proof.
  destruct (transcribe_single_total max_retries oracle) as [o Ho].
  exists o. split; [done|].
  destruct (loop_budget _ _ _ _ _ _ _ Ho) as (k & extra & Ha & Hs & Hk & _ & Hlen & Hex & Ht).
  simpl in *. subst extra. rewrite Ha. split_and!; try done; try lia.
  - intros i s Hl. destruct (Hex i s Hl) as [-> Hf]. split; [done|].
    split; intros ->; done.
  - etrans; [apply (total_bound _ (k - 1))|]; try done; try lia.
    apply Forall_lookup. intros i s Hl. destruct (Hex i s Hl) as [-> _].
    destruct (oracle i); simpl; auto.
  - intros Hneg. assert (k = 0%nat) as -> by lia.
    destruct o as [t a s]. simpl in *. subst a.
    destruct s; [|done].
    destruct (decide (t = EmptyString)) as [->|Hne]; [done|].
    destruct (Ht Hne) as (j & ? & _). done.
Qed.

(** X6.  When the first [k] calls fail and the next one answers, with
    [k <= max_retries], [_transcribe_single] returns that answer after
    [k + 1] calls, having slept after each failure for the delay of its
    kind. *)
Theorem first_answer_is_returned
    (max_retries : Z) (oracle : nat → Retry.reply) (k : nat) (t : string) :
  Z.of_nat k ≤ max_retries →
  (∀ j, (j < k)%nat → Retry.is_failure (oracle j) = true) →
  oracle k = Retry.Text t →
  Retry.transcribe_single max_retries oracle =
    Some {| Retry.text := t; Retry.attempts := S k;
            Retry.sleeps := (λ j, Retry.delay (oracle j)) <$> seq 0 k |}.
Proof.
  intros Hk Hfail Hans. unfold Retry.transcribe_single.
  rewrite (loop_first_answer max_retries oracle t _ 0 0%nat [] k); try done; lia.
Qed.

Lemma first_answer_is_returned_witness :
  Retry.transcribe_single 3
    (λ j, match j with 0%nat => Retry.RateLimited | 1%nat => Retry.Failed
                  | _ => Retry.Text "hello" end)
  = Some {| Retry.text := "hello"; Retry.attempts := 3; Retry.sleeps := [5; 1] |}.
Proof.
  refine (first_answer_is_returned 3 _ 2 "hello" _ _ _).
  - lia.
  - intros [|[|j]] Hj; try reflexivity. lia.
  - reflexivity.
Defined.

(** X7.  One round of [_transcriber_loop] on an item whose transcription
    comes back with a text that is not empty, the transcriber running
    alone.  The stripped text is appended to the results with the start time
    of the item, and the remote was called once per attempt.  When the write
    of the transcript file goes through, the file then holds the texts of
    all results in start-time order joined by single spaces, the artifact is
    unlinked, the in-flight count is back where it was, and the transcriber
    stands at the top of its loop.  When the write raises, the text stays in
    the results, the file is as the failed write left it, the artifact is
    not unlinked, the in-flight count is back where it was, and the
    transcriber thread has ended. *)
Theorem transcribed_item_is_recorded
    (st : Manager.state) (w : nat) (it : Z * Manager.path) (oracle : nat → Retry.reply)
    (o : Retry.outcome) :
  Manager.workers st !! w = Some (Manager.WBegin it) →
  Retry.transcribe_single (Manager.max_retries st) oracle = Some o →
  Retry.text o ≠ EmptyString →
  (∃ st',
    Manager.run (good_round w (Manager.max_retries st) oracle) st = Some st'
    ∧ forallb Manager.steady (good_round w (Manager.max_retries st) oracle) = true
    ∧ Manager.workers st' = <[w := Manager.WTop]> (Manager.workers st)
    ∧ Manager.results st' = Manager.results st ++ [(it.1, Str.strip (Retry.text o))]
    ∧ Manager.transcript st'
      = Some (Str.join " " (Assembler.texts_of (Manager.results st')))
    ∧ Manager.files st' = Manager.files st ∖ {[it.2]}
    ∧ Manager.transcribing st' = Manager.transcribing st
    ∧ Manager.sent st' = Manager.sent st ++ replicate (Retry.attempts o) it.2
    ∧ Manager.pending_queue st' = Manager.pending_queue st)
  ∧ (∀ kept, ∃ st',
    Manager.run (raising_round w (Manager.max_retries st) oracle kept) st = Some st'
    ∧ Manager.workers st' = <[w := Manager.WDone]> (Manager.workers st)
    ∧ Manager.worker_alive st' w = false
    ∧ Manager.results st' = Manager.results st ++ [(it.1, Str.strip (Retry.text o))]
    ∧ Manager.transcript st'
      = match kept with
        | None => Manager.transcript st
        | Some n =>
            Some (Str.take n (Str.join " " (Assembler.texts_of (Manager.results st'))))
        end
    ∧ Manager.files st' = Manager.files st
    ∧ Manager.transcribing st' = Manager.transcribing st
    ∧ Manager.sent st' = Manager.sent st ++ replicate (Retry.attempts o) it.2
    ∧ Manager.pending_queue st' = Manager.pending_queue st).
Proof.
  intros Hw Ho Hne.
  assert (Str.nonempty (Retry.text o) = true) as Hne'.
  { by destruct (Retry.text o). }
  assert (w < length (Manager.workers st))%nat as Hlen by (by apply lookup_lt_Some in Hw).
  set (st1 := Manager.set_worker w (Manager.WCall it 0)
                (Manager.set_transcribing (Manager.transcribing st + 1) st)).
  assert (Manager.work w (oracle 0%nat) st = Some st1) as E1.
  { unfold Manager.work. by rewrite Hw. }
  destruct (retry_run w it oracle (S (Z.to_nat (Manager.max_retries st + 1))) st1 0 0%nat []
              _ ltac:(simpl; by rewrite list_lookup_insert_eq) Ho)
    as (st2 & E2 & Hw2 & Hsent2 & Hsame).
  destruct Hsame as (Hres & Htr & Hfi & Hpq & Hcnt & Hmax & _).
  simpl in Hw2, Hsent2, Hres, Htr, Hfi, Hpq, Hcnt, Hmax.
  rewrite list_insert_insert_eq in Hw2.
  assert (∀ pc, <[w := pc]> (Manager.workers st) !! w = Some pc) as Hlook.
  { intros pc. by apply list_lookup_insert_eq. }
  set (res := Assembler.append it.1 (Retry.text o) (Manager.results st2)).
  set (st3 := Manager.set_worker w (Manager.WSnapshot it) (Manager.set_results res st2)).
  assert (Manager.work w (oracle 0%nat) st2 = Some st3) as E3.
  { unfold Manager.work. by rewrite Hw2, Hlook, Hne'. }
  set (st4 := Manager.set_worker w (Manager.WFlush it (Assembler.texts_of res)) st3).
  assert (Manager.work w (oracle 0%nat) st3 = Some st4) as E4.
  { unfold Manager.work. simpl. by rewrite Hw2, list_insert_insert_eq, Hlook. }
  set (st5 := Manager.set_worker w (Manager.WUnlink it)
                (Manager.set_transcript
                   (Assembler.flush (Assembler.texts_of res) (Manager.transcript st4)) st4)).
  assert (Manager.work w (oracle 0%nat) st4 = Some st5) as E5.
  { unfold Manager.work. simpl. by rewrite Hw2, !list_insert_insert_eq, Hlook. }
  set (st6 := Manager.set_worker w Manager.WEnd
                (Manager.set_files (Manager.files st5 ∖ {[it.2]}) st5)).
  assert (Manager.work w (oracle 0%nat) st5 = Some st6) as E6.
  { unfold Manager.work. simpl. by rewrite Hw2, !list_insert_insert_eq, Hlook. }
  set (st7 := Manager.set_worker w Manager.WTop
                (Manager.set_transcribing (Manager.transcribing st6 - 1) st6)).
  assert (Manager.work w (oracle 0%nat) st6 = Some st7) as E7.
  { unfold Manager.work. simpl. by rewrite Hw2, !list_insert_insert_eq, Hlook. }
  assert (∀ e tr s, Manager.run (e :: tr) s =
            match Manager.step e s with
            | Some s' => Manager.run tr s'
            | None => None
            end) as Hcons by done.
  change (Manager.max_retries st1) with (Manager.max_retries st) in E2.
  assert (res = Manager.results st ++ [(it.1, Str.strip (Retry.text o))]) as Hres'.
  { subst res. by rewrite Hres. }
  split.
  - exists st7. split; [|split].
    + unfold good_round. rewrite Hcons.
      change (Manager.step (Manager.Work w (oracle 0%nat)) st)
        with (Manager.work w (oracle 0%nat) st).
      rewrite E1, run_app, E2. simpl. by rewrite E3, E4, E5, E6, E7.
    + unfold good_round. cbn [forallb Manager.steady andb].
      rewrite forallb_app, retry_events_steady. done.
    + simpl. rewrite Hw2, !list_insert_insert_eq, Hsent2, Hfi, Hpq, Hcnt.
      rewrite Nat.sub_0_r, Hres'.
      split_and!; try done; [|lia].
      apply (write_transcript_some (_ ++ [_])). by destruct (Manager.results st).
  - intros kept.
    destruct (Assembler.texts_of res) as [|t texts] eqn:Htexts.
    { apply texts_of_nil_inv in Htexts. rewrite Hres' in Htexts.
      by destruct (Manager.results st). }
    set (st5' := Manager.set_worker w Manager.WDone
                   (Manager.set_transcribing (Manager.transcribing st4 - 1)
                      (Manager.set_transcript
                         (Assembler.flush_raises (t :: texts) kept
                            (Manager.transcript st4)) st4))).
    assert (Manager.write_raises w kept st4 = Some st5') as E5'.
    { unfold Manager.write_raises. simpl.
      by rewrite Hw2, !list_insert_insert_eq, Hlook. }
    exists st5'. split.
    + unfold raising_round. rewrite Hcons.
      change (Manager.step (Manager.Work w (oracle 0%nat)) st)
        with (Manager.work w (oracle 0%nat) st).
      rewrite E1, run_app, E2. simpl. by rewrite E3, E4, E5'.
    + simpl. rewrite Hw2, !list_insert_insert_eq, Hsent2, Hfi, Hpq, Hcnt, Htr.
      rewrite Nat.sub_0_r, <- Hres', <- Htexts.
      split_and!; try done; try lia.
      unfold Manager.worker_alive. subst st5'. simpl.
      by rewrite Hw2, !list_insert_insert_eq, Hlook.
Qed.

Lemma transcribed_item_is_recorded_witness :
  ∃ st', Manager.run (good_round 0 3 (λ _, Retry.Text " hello "))
           (Manager.set_workers [Manager.WBegin (100, 0%nat)] Traces.fresh) = Some st'
         ∧ Manager.results st' = [(100, "hello"%string)].
Proof.
  edestruct (transcribed_item_is_recorded
               (Manager.set_workers [Manager.WBegin (100, 0%nat)] Traces.fresh) 0
               (100, 0%nat) (λ _, Retry.Text " hello "))
    as [(st' & Hrun & _ & _ & Hres & _) _].
  - reflexivity.
  - vm_compute. reflexivity.
  - vm_compute. discriminate.
  - exists st'. split; [exact Hrun|exact Hres].
Defined.

(** * More on the manager: the items *)

Section ItemFacts.

Import Manager.

Lemma seg_grows_refl st st' : segments st' = segments st → seg_grows st st'.
Proof. intros Hs i s Hl. exists s. by rewrite Hs. Qed.

Lemma seg_grows_alter f i st st' :
  segments st' = alter f i (segments st) →
  (∀ s, started_at (f s) = started_at s) →
  seg_grows st st'.
Proof.
  intros Hs Hf j s Hl. rewrite Hs, list_lookup_alter.
  destruct (decide (i = j)) as [->|Hne].
  - rewrite Hl. simpl. by eexists.
  - rewrite Hl. by eexists.
Qed.

Lemma item_le_total a b : item_le a b = false → item_le b a = true.
Proof.
  unfold item_le. destruct a as [t1 p1], b as [t2 p2]. simpl.
  destruct (t1 <? t2) eqn:E1; [done|]. simpl.
  destruct (t1 =? t2) eqn:E2; simpl.
  - apply Z.eqb_eq in E2 as ->. rewrite Z.ltb_irrefl, Z.eqb_refl. simpl.
    intros H. apply Nat.leb_gt in H. apply Nat.leb_le. lia.
  - intros _. apply Z.ltb_ge in E1. apply Z.eqb_neq in E2.
    assert ((t2 <? t1) = true) as -> by lia. done.
Qed.

Lemma item_le_trans a b c : item_le a b = true → item_le b c = true → item_le a c = true.
Proof.
  unfold item_le. destruct a as [t1 p1], b as [t2 p2], c as [t3 p3]. simpl.
  rewrite !orb_true_iff, !andb_true_iff, !Z.ltb_lt, !Z.eqb_eq, !Nat.leb_le. lia.
Qed.

Lemma item_le_fst a b : item_le a b = true → a.1 ≤ b.1.
Proof.
  unfold item_le. rewrite orb_true_iff, andb_true_iff, Z.ltb_lt, Z.eqb_eq. lia.
Qed.

Lemma pq_put_sorted x q : queue_sorted q → queue_sorted (pq_put x q).
Proof.
  induction q as [|y q IH]; simpl; [done|]. intros [Hy Hq].
  destruct (item_le x y) eqn:Hle; simpl.
  - split; [|done]. constructor; [done|].
    eapply Forall_impl; [exact Hy|]. intros z Hz. by eapply item_le_trans.
  - split; [|by apply IH]. apply Forall_forall. intros z Hz.
    apply elem_of_pq_put in Hz as [->|Hz]; [by apply item_le_total|].
    rewrite Forall_forall in Hy. by apply Hy.
Qed.

Lemma pq_put_perm x q : pq_put x q ≡ₚ x :: q.
Proof.
  induction q as [|y q IH]; simpl; [done|].
  destruct (item_le x y); [done|]. rewrite IH. apply Permutation_swap.
Qed.

Lemma queue_sorted_sublist q q' : q' `sublist_of` q → queue_sorted q → queue_sorted q'.
Proof.
  induction 1 as [|x l1 l2 Hsub IH|x l1 l2 Hsub IH]; simpl; [done| |].
  - intros [Hx Hq]. split; [|by apply IH].
    rewrite Forall_forall in Hx |- *. intros y Hy. apply Hx.
    by eapply elem_of_sublist.
  - intros [_ Hq]. by apply IH.
Qed.

Lemma calls_for_snoc p q st st' :
  sent st' = sent st ++ [q] →
  calls_for p st' = (calls_for p st + (if decide (q = p) then 1 else 0))%nat.
Proof.
  intros Hs. unfold calls_for. rewrite Hs, filter_app, length_app. f_equal.
  rewrite filter_cons, filter_nil. by case_decide.
Qed.

Lemma calls_for_zero p st : p ∉ sent st → calls_for p st = 0%nat.
Proof.
  unfold calls_for. intros Hnot.
  destruct (filter (λ q, q = p) (sent st)) as [|x l] eqn:Hf; [done|].
  assert (x ∈ filter (λ q, q = p) (sent st)) as Hx by (rewrite Hf; left).
  apply list_elem_of_filter in Hx as [-> Hx]. done.
Qed.

Lemma calls_for_pos p st : p ∉ sent st ∨ p ∈ sent st.
Proof. destruct (decide (p ∈ sent st)); auto. Qed.

Lemma init_items_inv on_disk gap dur mw mr : items_inv (init on_disk gap dur mw mr).
Proof.
  split; simpl; try done; try (by intros ? ?%not_elem_of_nil).
  - constructor.
  - intros p. unfold calls_for. simpl. lia.
Qed.

Lemma item_of_segment_mono st st' it :
  seg_grows st st' → enqueued st `sublist_of` enqueued st' →
  item_of_segment st it → item_of_segment st' it.
Proof.
  intros Hg He (s & Hl & Hts & Hin).
  destruct (Hg _ _ Hl) as (s' & Hl' & Hts'). exists s'.
  split; [done|]. split; [congruence|]. by eapply elem_of_sublist.
Qed.

(** A step that adds no item and sends nothing. *)
Lemma items_inv_quiet st st' :
  items_inv st → seg_grows st st' → max_retries st' = max_retries st →
  pending_queue st' `sublist_of` pending_queue st →
  results st' `sublist_of` results st →
  (∃ extra, workers st' = workers st ++ extra ∧ Forall (λ pc, held pc = None) extra) →
  sent st' = sent st → enqueued st' = enqueued st →
  items_inv st'.
Proof.
  intros [Hso Hit Hhe Hre Hnd Hap Hon Hun Hup Hbu Hse] Hg Hmr Hq Hr (extra & Hw & Hex) Hs He.
  assert (∀ w pc it, workers st' !! w = Some pc → held pc = Some it →
                     workers st !! w = Some pc) as Hold.
  { intros w pc it Hl Hh. rewrite Hw in Hl.
    apply lookup_app_Some in Hl as [Hl|[_ Hl]]; [done|].
    rewrite Forall_lookup in Hex. rewrite (Hex _ _ Hl) in Hh. done. }
  assert (enqueued st `sublist_of` enqueued st') as He' by (by rewrite He).
  assert (∀ p, calls_for p st' = calls_for p st) as Hcf.
  { intros p. unfold calls_for. by rewrite Hs. }
  split.
  - by eapply queue_sorted_sublist.
  - intros it Hin. eapply item_of_segment_mono; [done|done|].
    apply Hit. by eapply elem_of_sublist.
  - intros w pc it Hl Hh. eapply item_of_segment_mono; [done|done|]. eauto.
  - intros e Hin. destruct (Hre e) as (i & s & Hl & Hts & Hi).
    { by eapply elem_of_sublist. }
    destruct (Hg _ _ Hl) as (s' & Hl' & Hts'). exists i, s'.
    split; [done|]. split; [congruence|]. by rewrite He.
  - eapply sublist_NoDup; [exact Hnd|]. by apply fmap_sublist.
  - intros w pc it Hl Hh Hin. eapply Hap; eauto.
    eapply elem_of_sublist; [exact Hin|]. by apply fmap_sublist.
  - intros w w' pc pc' it it' Hl Hl' Hh Hh'. eapply Hon; eauto.
  - intros p. rewrite He, Hs. apply Hun.
  - intros it Hin. rewrite Hs. apply Hup. by eapply elem_of_sublist.
  - intros w pc it Hl Hh. rewrite Hcf, Hmr. eauto.
  - intros p. rewrite Hcf, Hmr. apply Hse.
Qed.

(** A segment not yet queued is put on the queue. *)
Lemma items_inv_put st st' (i : nat) s :
  items_inv st → seg_grows st st' → max_retries st' = max_retries st →
  segments st !! i = Some s → i ∉ enqueued st →
  pending_queue st' = pq_put (started_at s, i) (pending_queue st) →
  enqueued st' = enqueued st ++ [i] →
  results st' = results st → workers st' = workers st → sent st' = sent st →
  items_inv st'.
Proof.
  intros [Hso Hit Hhe Hre Hnd Hap Hon Hun Hup Hbu Hse] Hg Hmr Hseg Hnew Hq He Hr Hw Hs.
  assert (enqueued st `sublist_of` enqueued st') as He'.
  { rewrite He. by apply sublist_inserts_r. }
  assert (∀ p, calls_for p st' = calls_for p st) as Hcf.
  { intros p. unfold calls_for. by rewrite Hs. }
  assert (item_of_segment st' (started_at s, i)) as Hitem.
  { destruct (Hg _ _ Hseg) as (s' & Hl' & Hts'). exists s'. simpl.
    split; [done|]. split; [done|]. rewrite He, elem_of_app, list_elem_of_singleton. auto. }
  assert (∀ it, it ∈ pending_queue st → it.2 ≠ i) as Hfresh.
  { intros it Hin Heq. destruct (Hit it Hin) as (_ & _ & _ & Hin').
    apply Hnew. rewrite <- Heq. exact Hin'. }
  split; rewrite ?Hq, ?Hr, ?Hw, ?Hs.
  - by apply pq_put_sorted.
  - intros it [->|Hin]%elem_of_pq_put; [done|].
    eapply item_of_segment_mono; [done|done|]. by apply Hit.
  - intros w pc it Hl Hh. eapply item_of_segment_mono; [done|done|]. eauto.
  - intros e Hin. destruct (Hre e Hin) as (j & s0 & Hl & Hts & Hj).
    destruct (Hg _ _ Hl) as (s' & Hl' & Hts'). exists j, s'.
    split; [done|]. split; [congruence|]. by eapply elem_of_sublist.
  - rewrite (pq_put_perm _ _). simpl. apply NoDup_cons. split; [|done].
    intros (it & Heq & Hin)%list_elem_of_fmap. by apply (Hfresh it).
  - intros w pc it Hl Hh. rewrite (pq_put_perm _ _). simpl.
    intros [Heq|Hin]%elem_of_cons; [|by eapply Hap].
    destruct (Hhe w pc it Hl Hh) as (_ & _ & _ & Hin'). simpl in Heq.
    apply Hnew. rewrite <- Heq. exact Hin'.
  - done.
  - intros p Hp. apply Hun. intros Hin. apply Hp. by eapply elem_of_sublist.
  - intros it [->|Hin]%elem_of_pq_put; [by apply Hun|by apply Hup].
  - intros w pc it Hl Hh. rewrite Hcf, Hmr. eauto.
  - intros p. rewrite Hcf, Hmr. apply Hse.
Qed.

(** A transcriber moves on with the item it holds, or lets go of it. *)
Lemma items_inv_worker st st' w pc pc' :
  items_inv st →
  workers st !! w = Some pc → workers st' = <[w := pc']> (workers st) →
  held pc' = None ∨ held pc' = held pc →
  budget (max_retries st) pc' ≤ budget (max_retries st) pc →
  pending_queue st' = pending_queue st → sent st' = sent st →
  enqueued st' = enqueued st → segments st' = segments st →
  max_retries st' = max_retries st →
  (∀ e, e ∈ results st' → e ∈ results st ∨ ∃ it, held pc = Some it ∧ e.1 = it.1) →
  items_inv st'.
Proof.
  intros [Hso Hit Hhe Hre Hnd Hap Hon Hun Hup Hbu Hse] Hw Hw' Hheld Hbud Hq Hs He Hseg Hmr Hres.
  assert (∀ p, calls_for p st' = calls_for p st) as Hcf.
  { intros p. unfold calls_for. by rewrite Hs. }
  assert (∀ it, item_of_segment st it → item_of_segment st' it) as Hmono.
  { intros it (s & ? & ? & ?). exists s. by rewrite Hseg, He. }
  assert (∀ w0 pc0 it, workers st' !! w0 = Some pc0 → held pc0 = Some it →
            ∃ pc1, workers st !! w0 = Some pc1 ∧ held pc1 = Some it
                   ∧ budget (max_retries st) pc0 ≤ budget (max_retries st) pc1) as Hold.
  { intros w0 pc0 it Hl Hh. rewrite Hw' in Hl.
    apply lookup_set_worker in Hl as [[-> ->]|[_ Hl]].
    - exists pc. destruct Hheld as [Hn|Heq]; [congruence|]. split; [done|].
      split; [congruence|done].
    - exists pc0. split; [done|]. split; [done|lia]. }
  split; rewrite ?Hq, ?Hs, ?He, ?Hmr.
  - done.
  - intros it Hin. by apply Hmono, Hit.
  - intros w0 pc0 it Hl Hh. destruct (Hold _ _ _ Hl Hh) as (pc1 & Hl1 & Hh1 & _).
    apply Hmono. eauto.
  - intros e Hin. destruct (Hres e Hin) as [Hin'|(it & Hh & Hts)].
    + destruct (Hre e Hin') as (i & s & ? & ? & ?). exists i, s. by rewrite Hseg.
    + destruct (Hhe w pc it Hw Hh) as (s & ? & ? & ?). exists it.2, s.
      rewrite Hseg. split; [done|]. split; [congruence|done].
  - done.
  - intros w0 pc0 it Hl Hh. destruct (Hold _ _ _ Hl Hh) as (pc1 & Hl1 & Hh1 & _). eauto.
  - intros w0 w1 pc0 pc1 it it' Hl0 Hl1 Hh0 Hh1 Heq.
    destruct (Hold _ _ _ Hl0 Hh0) as (pa & Hla & Hha & _).
    destruct (Hold _ _ _ Hl1 Hh1) as (pb & Hlb & Hhb & _). eauto.
  - done.
  - done.
  - intros w0 pc0 it Hl Hh. rewrite Hcf.
    destruct (Hold _ _ _ Hl Hh) as (pc1 & Hl1 & Hh1 & Hb).
    specialize (Hbu w0 pc1 it Hl1 Hh1). lia.
  - intros p. rewrite Hcf. apply Hse.
Qed.

Lemma work_items_inv w r st st' :
  items_inv st → work w r st = Some st' → items_inv st'.
Proof.
  intros Hinv Hwork.
  pose proof Hinv as [Hso Hit Hhe Hre Hnd Hap Hon Hun Hup Hbu Hse].
  unfold work in Hwork.
  destruct (workers st !! w) as [pc|] eqn:Hw; [|done].
  assert (w < length (workers st))%nat as Hlen by (by apply lookup_lt_Some in Hw).
  destruct pc as [| | | | |it|it retries|it retries secs|it t|it|it texts|it| |];
    try done; injection Hwork as <-.
  - eapply (items_inv_worker st); try done; destruct (stop_all st); simpl; auto; lia.
  - eapply (items_inv_worker st); try done; destruct (pending_queue st); simpl; auto; lia.
  - eapply (items_inv_worker st); try done;
      destruct (transcribing st =? 0); simpl; auto; lia.
  - (* get *)
    destruct (pending_queue st) as [|it q] eqn:Hq.
    { eapply (items_inv_worker st); try done; simpl; auto; lia. }
    simpl in Hso. destruct Hso as [Hfirst Hso].
    simpl in Hnd. apply NoDup_cons in Hnd as [Hnotin Hnd].
    assert (item_of_segment st it) as Hitem by (apply Hit; left).
    assert (∀ w0 pc0 it0, <[w := WBegin it]> (workers st) !! w0 = Some pc0 →
              held pc0 = Some it0 →
              (w0 = w ∧ it0 = it ∧ pc0 = WBegin it)
              ∨ (w0 ≠ w ∧ workers st !! w0 = Some pc0)) as Hcase.
    { intros w0 pc0 it0 [[-> ->]|[? ?]]%lookup_set_worker Hh; [left|right]; try done.
      simpl in Hh. by simplify_eq. }
    split; simpl.
    + done.
    + intros it0 Hin. destruct (Hit it0) as (s & ? & ? & ?); [by right|]. by exists s.
    + intros w0 pc0 it0 Hl Hh. destruct (Hcase _ _ _ Hl Hh) as [(-> & -> & ->)|[_ Hl0]]; eauto.
    + done.
    + done.
    + intros w0 pc0 it0 Hl Hh. destruct (Hcase _ _ _ Hl Hh) as [(-> & -> & ->)|[_ Hl0]]; [done|].
      intros Hin. apply (Hap w0 pc0 it0 Hl0 Hh). simpl. by right.
    + intros w0 w1 pc0 pc1 it0 it1 Hl0 Hl1 Hh0 Hh1 Heq.
      destruct (Hcase _ _ _ Hl0 Hh0) as [(-> & -> & ->)|[Hne0 Hl0']];
        destruct (Hcase _ _ _ Hl1 Hh1) as [(-> & -> & ->)|[Hne1 Hl1']]; try done.
      * destruct (Hap w1 pc1 it1 Hl1' Hh1). simpl. rewrite <- Heq. left.
      * destruct (Hap w0 pc0 it0 Hl0' Hh0). simpl. rewrite Heq. left.
      * eauto.
    + done.
    + intros it0 Hin. apply Hup. by right.
    + intros w0 pc0 it0 Hl Hh. change (calls_for it0.2 _) with (calls_for it0.2 st).
      destruct (Hcase _ _ _ Hl Hh) as [(-> & -> & ->)|[_ Hl0]]; [|by eauto].
      simpl. rewrite calls_for_zero; [lia|]. apply Hup. left.
    + done.
  - eapply (items_inv_worker st); try done; destruct (stop_all st); simpl; auto; lia.
  - eapply (items_inv_worker st); try done; simpl; auto; lia.
  - (* the call *)
    destruct (retries <=? max_retries st) eqn:Hle; last first.
    { eapply (items_inv_worker st); try done; simpl; auto; lia. }
    apply Z.leb_le in Hle.
    set (pc' := match Retry.attempt (max_retries st) retries r with
                | Retry.Return t => WText it t
                | Retry.Sleep secs retries' => WSleep it retries' secs
                end).
    assert (held pc' = Some it ∧ budget (max_retries st) pc' ≤ max_retries st - retries)
      as [Hheld Hbud].
    { subst pc'. unfold Retry.attempt.
      destruct r; simpl; [split; [done|lia]| |];
        destruct (retries + 1 >? max_retries st) eqn:Hgt; simpl; (split; [done|lia]). }
    assert (∀ st1, workers st1 = <[w := pc']> (workers st) →
              sent st1 = sent st ++ [it.2] → pending_queue st1 = pending_queue st →
              enqueued st1 = enqueued st → segments st1 = segments st →
              results st1 = results st → max_retries st1 = max_retries st →
              items_inv st1) as Hgoal.
    { intros st1 Hw1 Hs1 Hq1 He1 Hseg1 Hr1 Hmr1.
      assert (∀ w0 pc0 it0, workers st1 !! w0 = Some pc0 → held pc0 = Some it0 →
                (w0 = w ∧ it0 = it ∧ pc0 = pc')
                ∨ (w0 ≠ w ∧ workers st !! w0 = Some pc0 ∧ it0.2 ≠ it.2)) as Hcase.
      { intros w0 pc0 it0 Hl Hh. rewrite Hw1 in Hl.
        apply lookup_set_worker in Hl as [[-> ->]|[Hne Hl]].
        - left. rewrite Hheld in Hh. by simplify_eq.
        - right. split; [done|]. split; [done|]. intros Heq.
          apply Hne. by apply (Hon w0 w pc0 (WCall it retries) it0 it). }
      assert (item_of_segment st it) as Hitem by (by apply (Hhe w (WCall it retries))).
      assert (∀ it0, item_of_segment st it0 → item_of_segment st1 it0) as Hmono.
      { intros it0 (s & ? & ? & ?). exists s. by rewrite Hseg1, He1. }
      specialize (Hbu w (WCall it retries) it Hw eq_refl) as Hmine. simpl in Hmine.
      split; rewrite ?Hq1, ?Hr1, ?He1, ?Hmr1.
      - done.
      - intros it0 Hin. by apply Hmono, Hit.
      - intros w0 pc0 it0 Hl Hh.
        destruct (Hcase _ _ _ Hl Hh) as [(-> & -> & ->)|(_ & Hl0 & _)]; apply Hmono; eauto.
      - intros e Hin. destruct (Hre e Hin) as (i & s & ? & ? & ?). exists i, s.
        by rewrite Hseg1.
      - done.
      - intros w0 pc0 it0 Hl Hh.
        destruct (Hcase _ _ _ Hl Hh) as [(-> & -> & ->)|(_ & Hl0 & _)]; eauto.
      - intros w0 w1 pc0 pc1 it0 it1 Hl0 Hl1 Hh0 Hh1 Heq.
        destruct (Hcase _ _ _ Hl0 Hh0) as [(-> & -> & ->)|(Hne0 & Hl0' & Hd0)];
          destruct (Hcase _ _ _ Hl1 Hh1) as [(-> & -> & ->)|(Hne1 & Hl1' & Hd1)];
          try done; try congruence.
        eauto.
      - intros p Hp. rewrite Hs1. intros [Hin|Hin%list_elem_of_singleton]%elem_of_app.
        + by apply (Hun p).
        + subst p. by destruct Hitem as (_ & _ & _ & ?).
      - intros it0 Hin. rewrite Hs1.
        intros [Hin'|Hin'%list_elem_of_singleton]%elem_of_app.
        + by apply (Hup it0).
        + apply (Hap w (WCall it retries) it Hw eq_refl).
          apply list_elem_of_fmap. exists it0. by rewrite Hin'.
      - intros w0 pc0 it0 Hl Hh. rewrite (calls_for_snoc _ it.2 st) by done.
        destruct (Hcase _ _ _ Hl Hh) as [(-> & -> & ->)|(_ & Hl0 & Hd)].
        + rewrite decide_True by done. lia.
        + rewrite decide_False by done. rewrite Nat.add_0_r. eauto.
      - intros p. rewrite (calls_for_snoc _ it.2 st) by done.
        case_decide; [subst p; lia|]. rewrite Nat.add_0_r. apply Hse. }
    subst pc'. destruct (Retry.attempt (max_retries st) retries r); by apply Hgoal.
  - eapply (items_inv_worker st); try done; simpl; auto; lia.
  - destruct (Str.nonempty t).
    + eapply (items_inv_worker st); try done; simpl; auto; try lia.
      intros e [Hin|Hin%list_elem_of_singleton]%elem_of_app; [by left|].
      right. exists it. by subst e.
    + eapply (items_inv_worker st); try done; simpl; auto; lia.
  - eapply (items_inv_worker st); try done; simpl; auto; lia.
  - eapply (items_inv_worker st); try done; simpl; auto; lia.
  - eapply (items_inv_worker st); try done; simpl; auto; lia.
  - eapply (items_inv_worker st); try done; simpl; auto; lia.
Qed.

End ItemFacts.

Section EffectFacts.

Import Manager.

Lemma effect_same st st' :
  pending_queue st' = pending_queue st → results st' = results st →
  workers st' = workers st → sent st' = sent st → enqueued st' = enqueued st →
  effect st st'.
Proof.
  intros Hq Hr Hw Hs He. apply Quiet; rewrite ?Hq, ?Hr; try done.
  exists []. by rewrite app_nil_r.
Qed.

Lemma effect_spawned st st' :
  pending_queue st' `sublist_of` pending_queue st →
  results st' `sublist_of` results st →
  workers st' = workers st ++ [WTop] → sent st' = sent st →
  enqueued st' = enqueued st →
  effect st st'.
Proof.
  intros Hq Hr Hw Hs He. apply Quiet; try done.
  exists [WTop]. split; [done|]. by repeat constructor.
Qed.

Lemma queue_segment_cases (i : nat) st s :
  segments st !! i = Some s → seg_ok i s →
  queue_segment i st = st
  ∨ queue_segment i st =
      set_pending_queue (pq_put (started_at s, i) (pending_queue st))
        (set_enqueued (enqueued st ++ [i]) st).
Proof.
  intros Hl Hok. unfold queue_segment, artifact. rewrite Hl.
  destruct (file_path s) as [p|] eqn:Hp; [|by left].
  destruct (Hok p Hp) as (-> & _).
  case_bool_decide; [by right|by left].
Qed.

Lemma queue_segment_effect (i : nat) st st' :
  queue_inv st → i ∉ enqueued st →
  pending_queue st' = pending_queue (queue_segment i st) →
  enqueued st' = enqueued (queue_segment i st) →
  results st' = results st → workers st' = workers st → sent st' = sent st →
  effect st st'.
Proof.
  intros Hinv Hnew Hq He Hr Hw Hs.
  destruct (segments st !! i) as [s|] eqn:Hl; last first.
  { unfold queue_segment in Hq, He. rewrite Hl in Hq, He. by apply effect_same. }
  destruct (queue_segment_cases i st s Hl (qi_segs _ Hinv i s Hl)) as [Heq|Heq];
    rewrite Heq in Hq, He; simpl in *.
  - by apply effect_same.
  - by eapply (Put st st' i s).
Qed.

Lemma step_effect e st st' :
  queue_inv st → step e st = Some st' →
  effect st st' ∧ seg_grows st st' ∧ max_retries st' = max_retries st.
Proof.
  intros Hinv Hstep. destruct e; simpl in Hstep.
  - (* a call *)
    unfold call in Hstep. destruct (controller st); try done. injection Hstep as <-.
    split; [|split; [apply seg_grows_refl|]];
      destruct c; repeat case_match; simpl; try done;
      try (by apply effect_same);
      apply effect_spawned; simpl; try done; apply sublist_nil_l.
  - (* the caller *)
    unfold ctl_step in Hstep.
    destruct (controller st) as [|c| |todo sg| | |todo sg| | | | |] eqn:Hctl; try done.
    + destruct (timeout || negb (running st)); [|done]. injection Hstep as <-.
      split; [by apply effect_same|]. split; [by apply seg_grows_refl|done].
    + injection Hstep as <-.
      split; [by apply effect_same|]. split; [by apply seg_grows_refl|done].
    + destruct todo as [|i rest]; [done|]. destruct sg.
      * destruct (timeout || ended st i); [|done]. injection Hstep as <-.
        destruct (queue_segment_view i st) as (Hs & _).
        destruct (queue_segment_rest i st) as (_ & _ & Hw & _ & _ & Hr & _ & _ & Hse & Hmr).
        split; [|split; [by apply seg_grows_refl|done]].
        apply (queue_segment_effect i); try done.
        apply (qi_apart _ Hinv). unfold owners. rewrite Hctl. simpl.
        rewrite !elem_of_app. right. right. left.
      * injection Hstep as <-. split; [by apply effect_same|].
        split; [|done]. by apply (seg_grows_alter seg_signal i).
    + destruct (transcriber_thread st) as [w|].
      * destruct (timeout || negb (worker_alive st w)); [|done]. injection Hstep as <-.
        split; [by apply effect_same|]. split; [by apply seg_grows_refl|done].
      * injection Hstep as <-.
        split; [by apply effect_same|]. split; [by apply seg_grows_refl|done].
    + injection Hstep as <-.
      split; [by apply effect_same|]. split; [by apply seg_grows_refl|done].
    + destruct todo as [|i rest]; [done|]. destruct sg.
      * destruct (timeout || ended st i); [|done]. injection Hstep as <-.
        unfold discard_segment. destruct (artifact st i);
          (split; [by apply effect_same|]; split; [by apply seg_grows_refl|done]).
      * injection Hstep as <-. split; [by apply effect_same|].
        split; [|done]. by apply (seg_grows_alter seg_signal i).
    + injection Hstep as <-.
      split; [by apply effect_same|]. split; [by apply seg_grows_refl|done].
    + destruct (pending_queue st) as [|[ts p] q] eqn:Hq; injection Hstep as <-.
      * split; [by apply effect_same|]. split; [by apply seg_grows_refl|done].
      * split; [|split; [by apply seg_grows_refl|done]].
        apply Quiet; simpl; try done.
        -- rewrite Hq. by apply sublist_cons.
        -- exists []. by rewrite app_nil_r.
    + destruct (transcriber_thread st) as [w|].
      * destruct (timeout || negb (worker_alive st w)); [|done]. injection Hstep as <-.
        split; [by apply effect_same|]. split; [by apply seg_grows_refl|done].
      * injection Hstep as <-.
        split; [by apply effect_same|]. split; [by apply seg_grows_refl|done].
    + injection Hstep as <-. split; [|split; [by apply seg_grows_refl|done]].
      apply Quiet; simpl; try done; [apply sublist_nil_l|].
      exists []. by rewrite app_nil_r.
    + injection Hstep as <-.
      split; [by apply effect_same|]. split; [by apply seg_grows_refl|done].
  - (* the scheduler *)
    unfold sched_step in Hstep.
    destruct (scheduler st) as [| | | | |todo sg|] eqn:Hsc; try done.
    + injection Hstep as <-.
      split; [by apply effect_same|]. split; [by apply seg_grows_refl|done].
    + injection Hstep as <-.
      split; [by apply effect_same|]. split; [by apply seg_grows_refl|done].
    + injection Hstep as <-.
      split; [by apply effect_same|]. split; [by apply seg_grows_refl|done].
    + destruct todo as [|i rest]; [done|]. destruct sg.
      * destruct (timeout || ended st i); [|done]. injection Hstep as <-.
        destruct (queue_segment_view i st) as (Hs & _).
        destruct (queue_segment_rest i st) as (_ & _ & Hw & _ & _ & Hr & _ & _ & Hse & Hmr).
        split; [|split; [by apply seg_grows_refl|done]].
        apply (queue_segment_effect i); try done.
        apply (qi_apart _ Hinv). unfold owners. rewrite Hsc. simpl.
        rewrite !elem_of_app. right. left.
      * injection Hstep as <-. split; [by apply effect_same|].
        split; [|done]. by apply (seg_grows_alter seg_signal i).
  - (* a new segment *)
    unfold spawn in Hstep. destruct (scheduler st); try done. injection Hstep as <-.
    split; [by apply effect_same|]. split; [|done].
    intros i s Hl. exists s. split; [|done]. simpl. by apply lookup_app_l_Some.
  - (* a transcriber *)
    pose proof (work_view _ _ _ _ Hstep) as (Hs & _ & _ & _ & _ & _ & _ & _ & Hmr & _).
    split; [by eapply Worked|]. split; [by apply seg_grows_refl|done].
  - (* a write that raises *)
    pose proof (write_raises_view _ _ _ _ Hstep) as (it & texts & _ & _ & Heq).
    split; [by eapply Raised|]. subst st'. split; [by apply seg_grows_refl|done].
  - unfold seg_read in Hstep. repeat case_match; try done. injection Hstep as <-.
    split; [by apply effect_same|]. split; [|done]. by apply (seg_grows_alter seg_block i).
  - unfold seg_leave in Hstep. repeat case_match; try done; injection Hstep as <-.
    + split; [by apply effect_same|]. split; [|done].
      by apply (seg_grows_alter (seg_phase_set Finished) i).
    + split; [by apply effect_same|]. split; [|done].
      by apply (seg_grows_alter (seg_write i) i).
  - unfold seg_exit in Hstep. repeat case_match; try done. injection Hstep as <-.
    split; [by apply effect_same|]. split; [|done].
    by apply (seg_grows_alter (seg_phase_set Finished) i).
  - unfold seg_crash in Hstep. repeat case_match; try done. injection Hstep as <-.
    split; [by apply effect_same|]. split; [|done].
    by apply (seg_grows_alter (seg_phase_set Crashed) i).
  - (* a watcher *)
    unfold watch in Hstep.
    destruct (segments st !! i) as [s|] eqn:Hl; [|done].
    destruct (seg_ended s && negb (watched s)); [|done]. injection Hstep as <-.
    case_bool_decide as Hact; last first.
    { split; [by apply effect_same|]. split; [|done].
      by apply (seg_grows_alter seg_watched i). }
    set (st2 := set_active (remove_first i (active st))
                  (set_segments (alter seg_watched i (segments st)) st)).
    assert (segments st2 !! i = Some (seg_watched s)) as Hl2.
    { unfold st2. simpl. by rewrite list_lookup_alter_eq, Hl. }
    destruct (queue_segment_view i st2) as (Hs & _).
    split; [|split].
    + destruct (queue_segment_cases i st2 _ Hl2) as [Heq|Heq].
      { apply seg_ok_watched, (qi_segs _ Hinv i s Hl). }
      * rewrite Heq. by apply effect_same.
      * rewrite Heq. apply (Put _ _ i s); try done.
        apply (qi_apart _ Hinv). unfold owners. rewrite !elem_of_app. by left.
    + apply (seg_grows_alter seg_watched i); [|done]. by rewrite Hs.
    + by destruct (queue_segment_rest i st2) as (_ & _ & _ & _ & _ & _ & _ & _ & _ & ?).
Qed.

Lemma step_items_inv e st st' :
  queue_inv st → items_inv st → step e st = Some st' → items_inv st'.
Proof.
  intros Hq Hinv Hstep.
  destruct (step_effect e st st' Hq Hstep) as (Heff & Hg & Hmr).
  destruct Heff as [? ? ? ? ?|i s ? ? ? ? ? ? ?|w r Hwork|w kept Hraise].
  - by eapply items_inv_quiet.
  - by eapply items_inv_put.
  - by eapply work_items_inv.
  - destruct (write_raises_view _ _ _ _ Hraise) as (it & texts & Hw & _ & ->).
    eapply (items_inv_worker st); try done; simpl; auto; lia.
Qed.

Lemma run_items_inv tr : ∀ st st',
  queue_inv st → items_inv st → run tr st = Some st' → queue_inv st' ∧ items_inv st'.
Proof.
  induction tr as [|e tr IH]; intros st st' Hq Hi Hrun; simpl in Hrun.
  - by simplify_eq.
  - destruct (step e st) as [st1|] eqn:Hstep; [|done].
    eapply IH; [| |done].
    + by eapply step_queue_inv.
    + by eapply step_items_inv.
Qed.

Lemma run_max_retries tr : ∀ st st',
  queue_inv st → run tr st = Some st' → max_retries st' = max_retries st.
Proof.
  induction tr as [|e tr IH]; intros st st' Hq Hrun; simpl in Hrun.
  - by simplify_eq.
  - destruct (step e st) as [st1|] eqn:Hstep; [|done].
    destruct (step_effect e st st1 Hq Hstep) as (_ & _ & Hmr).
    rewrite <- Hmr. apply IH; [|done]. by eapply step_queue_inv.
Qed.

End EffectFacts.

Section OwnFacts.

Import Manager.

Lemma own_timely e : own e = true → timely e = true.
Proof. by destruct e as [|[]|[]| | | | | | | |]. Qed.

Lemma forallb_own_timely tr : forallb own tr = true → forallb timely tr = true.
Proof.
  induction tr as [|e tr IH]; simpl; [done|].
  intros [He Htr]%andb_prop. rewrite (own_timely e He). by apply IH.
Qed.

(** What the manager's own threads leave alone. *)
Lemma own_frame e st st' :
  own e = true → step e st = Some st' →
  paused st' = paused st ∧ stop_all st' = stop_all st
  ∧ ((∀ t, e ≠ Ctl t) → controller st' = controller st)
  ∧ ((∀ t, e ≠ Sched t) → (∀ n, e ≠ Spawn n) → scheduler st' = scheduler st).
Proof.
  intros Hb Hstep.
  assert (∀ i st0, paused (queue_segment i st0) = paused st0
                   ∧ stop_all (queue_segment i st0) = stop_all st0
                   ∧ controller (queue_segment i st0) = controller st0
                   ∧ scheduler (queue_segment i st0) = scheduler st0) as Hq.
  { intros i st0. unfold queue_segment. destruct (segments st0 !! i); [|done].
    by destruct (artifact st0 i). }
  assert (∀ i st0, paused (discard_segment i st0) = paused st0
                   ∧ stop_all (discard_segment i st0) = stop_all st0
                   ∧ controller (discard_segment i st0) = controller st0
                   ∧ scheduler (discard_segment i st0) = scheduler st0) as Hd.
  { intros i st0. unfold discard_segment. by destruct (artifact st0 i). }
  destruct e as [c|timeout|timeout| | | | | | | |]; simpl in Hb, Hstep; try done.
  - destruct timeout; [done|]. unfold ctl_step in Hstep.
    destruct (controller st) as [|c| |todo sg| | |todo sg| | | | |]; try done;
      repeat case_match; simplify_eq; simpl;
      rewrite ?(proj1 (Hq _ _)), ?(proj1 (proj2 (Hq _ _))),
        ?(proj2 (proj2 (proj2 (Hq _ _)))),
        ?(proj1 (Hd _ _)), ?(proj1 (proj2 (Hd _ _))),
        ?(proj2 (proj2 (proj2 (Hd _ _))));
      split_and!; try done; intros Hne; by destruct (Hne false).
  - destruct timeout; [done|]. unfold sched_step in Hstep.
    destruct (scheduler st) as [| | | | |todo sg|]; try done;
      repeat case_match; simplify_eq; simpl;
      rewrite ?(proj1 (Hq _ _)), ?(proj1 (proj2 (Hq _ _))),
        ?(proj1 (proj2 (proj2 (Hq _ _))));
      split_and!; try done; intros Hne; by destruct (Hne false).
  - unfold spawn in Hstep. destruct (scheduler st); try done. simplify_eq. simpl.
    split_and!; try done. intros _ Hne. by destruct (Hne now).
  - pose proof (work_view _ _ _ _ Hstep) as (_ & _ & ? & ? & _ & ? & ? & _). done.
  - by destruct (write_raises_view _ _ _ _ Hstep) as (? & ? & _ & _ & ->).
  - unfold seg_read in Hstep. repeat case_match; by simplify_eq.
  - unfold seg_leave in Hstep. repeat case_match; by simplify_eq.
  - unfold seg_exit in Hstep. repeat case_match; by simplify_eq.
  - unfold seg_crash in Hstep. repeat case_match; by simplify_eq.
  - unfold watch in Hstep. repeat case_match; simplify_eq; try done.
    match goal with |- context [queue_segment ?i ?st2] =>
      destruct (Hq i st2) as (-> & -> & -> & ->) end. done.
Qed.

End OwnFacts.

(** * More on the manager: the transcript file *)

Section SinkFacts.

Import Manager.

Lemma init_sink_inv on_disk b gap dur mw mr :
  sink_inv on_disk b (init on_disk gap dur mw mr).
Proof. split; simpl; try done. intros _. split_and!; auto. Qed.

(** A step that touches neither the results, the file nor the
    transcribers. *)
Lemma sink_inv_frame on_disk b st st' :
  sink_inv on_disk b st →
  results st' = results st → transcript st' = transcript st →
  workers st' = workers st → paused st' = paused st →
  (scheduler st' = SNone ↔ scheduler st = SNone) →
  (drained (controller st') = true → pending_queue st' = []) →
  (controller st' = CCancelTranscript ↔ controller st = CCancelTranscript) →
  (in_cancel (controller st') = true → in_cancel (controller st) = true) →
  sink_inv on_disk b st'.
Proof.
  intros [Hdr Hcl Hun Hfr Hso Hno Hfl Hwr] Hr Ht Hw Hp Hsc Hq Hct Hic.
  assert (settled st' → settled st) as Hset.
  { intros [Hall Hne]. split; [by rewrite <- Hw|]. by rewrite <- Hct. }
  split; rewrite ?Hr, ?Ht, ?Hw, ?Hp.
  - done.
  - rewrite Hct. done.
  - auto.
  - rewrite Hsc. done.
  - auto.
  - rewrite Hsc. auto.
  - done.
  - done.
Qed.

Lemma call_sink_inv on_disk b c st st' :
  control_inv st → sink_inv on_disk b st → call c st = Some st' → sink_inv on_disk b st'.
Proof.
  intros Hc Hinv Hcall. pose proof Hinv as [Hdr Hcl Hun Hfr Hso Hno Hfl Hwr].
  unfold call in Hcall. destruct (controller st) eqn:Hctl; try done.
  injection Hcall as <-.
  assert (running st = false → all_done st) as Hdone.
  { intros Hrun. destruct (ci_idle _ Hc Hctl) as [[Hl _]|(_ & ? & _)]; [|done].
    unfold running in Hrun. by destruct (scheduler st). }
  assert (∀ st1 : state, workers st1 = workers st ∨ workers st1 = workers st ++ [WTop] →
            ∀ w pc, workers st1 !! w = Some pc → writing pc = true →
                    workers st !! w = Some pc) as Hsame.
  { intros st1 [Hw|Hw] w pc Hl Hwri; rewrite Hw in Hl; [done|].
    apply lookup_app_Some in Hl as [Hl|[_ Hl]]; [done|].
    destruct (w - length (workers st))%nat; simpl in Hl; [|done]. by simplify_eq. }
  destruct c.
  - (* start *)
    destruct (running st) eqn:Hrun; [done|]. specialize (Hdone eq_refl).
    split; simpl; try done; rewrite ?Hctl; try done.
    + intros w it texts Hl.
      pose proof (Hsame (spawn_transcriber st) (or_intror eq_refl) _ _ Hl eq_refl) as Hl'.
      by specialize (Hdone _ _ Hl').
    + intros w pc Hl Hwri.
      pose proof (Hsame (spawn_transcriber st) (or_intror eq_refl) _ _ Hl Hwri) as Hl'.
      rewrite (Hdone _ _ Hl') in Hwri. done.
  - (* resume *)
    destruct (running st) eqn:Hrun; [done|]. specialize (Hdone eq_refl).
    destruct (paused st) eqn:Hpa; cbn [negb]; [|done].
    assert (scheduler st ≠ SNone) as Hstarted.
    { intros Hsn. destruct (Hfr Hsn) as (_ & _ & ? & _). congruence. }
    cbv zeta. set (st1 := set_stop_all false (set_paused false st)).
    match goal with |- sink_inv _ _ (set_scheduler SLoop ?x) => set (st2 := x) end.
    assert (results st2 = results st ∧ transcript st2 = transcript st
            ∧ pending_queue st2 = pending_queue st ∧ controller st2 = controller st
            ∧ (workers st2 = workers st ∨ workers st2 = workers st ++ [WTop]))
      as (Hr2 & Ht2 & Hq2 & Hc2 & Hw2).
    { subst st2 st1. simpl. destruct (transcriber_thread st) as [w|]; simpl; [|by auto 10].
      destruct (worker_alive _ w); simpl; by auto 10. }
    assert (settled (set_scheduler SLoop st2) → settled st) as Hset.
    { intros [Hall Hne]. simpl in *. split; [|by rewrite Hctl].
      intros w pc Hl. destruct (writing pc) eqn:Hwri; [|done].
      by rewrite (Hdone _ _ Hl) in Hwri. }
    split; simpl; rewrite ?Hr2, ?Ht2, ?Hq2, ?Hc2, ?Hctl; try done.
    + intros Hs Hne. apply Hso; auto.
    + intros Hs Hnil _. apply Hno; auto.
    + intros w it texts Hl. pose proof (Hsame st2 Hw2 _ _ Hl eq_refl) as Hl'.
      by specialize (Hdone _ _ Hl').
    + intros w pc Hl Hwri. pose proof (Hsame st2 Hw2 _ _ Hl Hwri) as Hl'.
      rewrite (Hdone _ _ Hl') in Hwri. done.
  - (* pause *)
    destruct (running st) eqn:Hrun; simpl; [|done].
    assert (settled (set_controller (CJoinScheduler false)
                       (set_stop_all true (set_paused true st))) → settled st) as Hset.
    { intros [Hall Hne]. split; [done|by rewrite Hctl]. }
    split; simpl; try done; auto.
    intros Hs. unfold running in Hrun. by rewrite Hs in Hrun.
  - (* stop *)
    assert (settled (set_controller (CJoinScheduler false)
                       (set_stop_all true (set_paused false st))) → settled st) as Hset.
    { intros [Hall Hne]. split; [done|by rewrite Hctl]. }
    split; simpl; try done; auto.
    intros Hs. destruct (Hfr Hs) as (? & ? & _ & ?). done.
  - (* cancel *)
    assert (settled (set_controller (CJoinScheduler true)
                       (set_stop_all true (set_paused false st))) → settled st) as Hset.
    { intros [Hall Hne]. split; [done|by rewrite Hctl]. }
    split; simpl; try done; auto.
    intros Hs. destruct (Hfr Hs) as (? & ? & _ & ?). done.
Qed.

Lemma ctl_step_sink_inv on_disk b st st' :
  control_inv st → sink_inv on_disk b st → ctl_step false st = Some st' →
  sink_inv on_disk b st'.
Proof.
  intros Hc Hinv Hstep. pose proof Hinv as [Hdr Hcl Hun Hfr Hso Hno Hfl Hwr].
  unfold ctl_step in Hstep.
  destruct (controller st) as [|c| |todo sg| | |todo sg| | | | |] eqn:Hctl; try done.
  - destruct (false || negb (running st)); [|done]. injection Hstep as <-.
    apply (sink_inv_frame on_disk b st); simpl; rewrite ?Hctl; try done; by destruct c.
  - injection Hstep as <-.
    apply (sink_inv_frame on_disk b st); simpl; rewrite ?Hctl; try done;
      by destruct (active st).
  - destruct todo as [|i rest]; [done|]. destruct sg.
    + destruct (false || ended st i); [|done]. injection Hstep as <-.
      destruct (queue_segment_view i st) as (_ & _ & Hsc & _).
      destruct (queue_segment_rest i st) as (_ & Hpa & Hw & _ & _ & Hr & Ht & _).
      apply (sink_inv_frame on_disk b st); simpl; rewrite ?Hctl, ?Hsc; try done;
        by destruct rest.
    + injection Hstep as <-.
      apply (sink_inv_frame on_disk b st); simpl; rewrite ?Hctl; try done.
  - destruct (transcriber_thread st) as [w|].
    + destruct (false || negb (worker_alive st w)); [|done]. injection Hstep as <-.
      apply (sink_inv_frame on_disk b st); simpl; rewrite ?Hctl; try done.
    + injection Hstep as <-.
      apply (sink_inv_frame on_disk b st); simpl; rewrite ?Hctl; try done.
  - injection Hstep as <-.
    apply (sink_inv_frame on_disk b st); simpl; rewrite ?Hctl; try done;
      by destruct (active st).
  - destruct todo as [|i rest]; [done|]. destruct sg.
    + destruct (false || ended st i); [|done]. injection Hstep as <-.
      assert (∀ st1, results (discard_segment i st1) = results st1
                ∧ transcript (discard_segment i st1) = transcript st1
                ∧ workers (discard_segment i st1) = workers st1
                ∧ paused (discard_segment i st1) = paused st1
                ∧ scheduler (discard_segment i st1) = scheduler st1) as Hd.
      { intros st1. unfold discard_segment. by destruct (artifact st1 i). }
      destruct (Hd st) as (Hr & Ht & Hw & Hpa & Hsc).
      apply (sink_inv_frame on_disk b st); simpl; rewrite ?Hctl, ?Hsc; try done;
        by destruct rest.
    + injection Hstep as <-.
      apply (sink_inv_frame on_disk b st); simpl; rewrite ?Hctl; try done.
  - injection Hstep as <-.
    apply (sink_inv_frame on_disk b st); simpl; rewrite ?Hctl; try done.
  - destruct (pending_queue st) as [|[ts p] q] eqn:Hq; injection Hstep as <-.
    + apply (sink_inv_frame on_disk b st); simpl; rewrite ?Hctl; try done.
    + apply (sink_inv_frame on_disk b st); simpl; rewrite ?Hctl; try done.
  - assert (sink_inv on_disk b (set_controller CCancelResults st)) as Hgoal.
    { apply (sink_inv_frame on_disk b st); simpl; rewrite ?Hctl; try done;
        try (intros _; apply Hdr; by rewrite Hctl). }
    assert (sink_inv on_disk b
              (set_controller CCancelResults (set_transcriber_thread None st))) as Hgoal'.
    { apply (sink_inv_frame on_disk b st); simpl; rewrite ?Hctl; try done;
        try (intros _; apply Hdr; by rewrite Hctl). }
    destruct (transcriber_thread st) as [w|].
    + destruct (false || negb (worker_alive st w)); [|done]. by injection Hstep as <-.
    + by injection Hstep as <-.
  - injection Hstep as <-.
    destruct (ci_joined _ Hc) as [Hdone _]; [by rewrite Hctl|].
    split; simpl; rewrite ?Hctl; try done.
    + intros Hs. destruct (Hfr Hs) as (? & ? & ? & ?). done.
    + by intros [_ ?].
    + intros w it texts Hl. by specialize (Hdone _ _ Hl).
    + intros w pc Hl Hwri. rewrite (Hdone _ _ Hl) in Hwri. done.
  - injection Hstep as <-.
    split; simpl; rewrite ?Hctl; try done.
    + intros Hs. destruct (Hfr Hs) as (? & ? & ? & ?). auto.
    + intros _ _ Hne. destruct Hne. by apply Hcl.
Qed.

Lemma sched_step_sink_inv on_disk b st st' :
  control_inv st → sink_inv on_disk b st → sched_step false st = Some st' →
  sink_inv on_disk b st'.
Proof.
  intros Hc Hinv Hstep. pose proof Hinv as [Hdr Hcl Hun Hfr Hso Hno Hfl Hwr].
  assert (drained (controller st) = true → sched_off (scheduler st) = true) as Hoff.
  { intros Hd. apply (ci_sched_joined _ Hc). by destruct (controller st). }
  unfold sched_step in Hstep.
  destruct (scheduler st) as [| | | | |todo sg|] eqn:Hsc; try done.
  - injection Hstep as <-.
    apply (sink_inv_frame on_disk b st); simpl; rewrite ?Hsc; try done;
      by destruct (stop_all st).
  - injection Hstep as <-.
    apply (sink_inv_frame on_disk b st); simpl; rewrite ?Hsc; try done;
      by destruct (stop_all st).
  - injection Hstep as <-.
    apply (sink_inv_frame on_disk b st); simpl; rewrite ?Hsc; try done;
      by destruct (active st).
  - destruct todo as [|i rest]; [done|]. destruct sg.
    + destruct (false || ended st i); [|done]. injection Hstep as <-.
      destruct (queue_segment_view i st) as (_ & _ & _ & Hctl & _).
      destruct (queue_segment_rest i st) as (_ & Hpa & Hw & _ & _ & Hr & Ht & _).
      apply (sink_inv_frame on_disk b st); simpl; rewrite ?Hctl, ?Hsc; try done;
        try (by destruct rest).
      intros Hd. by specialize (Hoff Hd).
    + injection Hstep as <-.
      apply (sink_inv_frame on_disk b st); simpl; rewrite ?Hsc; try done.
Qed.

Lemma spawn_sink_inv on_disk b now st st' :
  sink_inv on_disk b st → spawn now st = Some st' → sink_inv on_disk b st'.
Proof.
  intros Hinv Hstep. pose proof Hinv as [Hdr _ _ _ _ _ _ _]. unfold spawn in Hstep.
  destruct (scheduler st) eqn:Hsc; try done. injection Hstep as <-.
  apply (sink_inv_frame on_disk b st); simpl; rewrite ?Hsc; try done.
Qed.

Lemma seg_sink_inv on_disk b f st st' :
  sink_inv on_disk b st →
  (f = seg_read ∨ f = seg_leave ∨ f = seg_exit ∨ f = seg_crash) →
  ∀ i, f i st = Some st' → sink_inv on_disk b st'.
Proof.
  intros Hinv Hf i Hstep. pose proof Hinv as [Hdr _ _ _ _ _ _ _].
  apply (sink_inv_frame on_disk b st); try done;
    destruct Hf as [->|[->|[->| ->]]];
    unfold seg_read, seg_leave, seg_exit, seg_crash in Hstep;
    repeat case_match; by simplify_eq.
Qed.

Lemma watch_sink_inv on_disk b i st st' :
  control_inv st → sink_inv on_disk b st → watch i st = Some st' → sink_inv on_disk b st'.
Proof.
  intros Hc Hinv Hstep. pose proof Hinv as [Hdr _ _ _ _ _ _ _]. unfold watch in Hstep.
  destruct (segments st !! i) as [s|]; [|done].
  destruct (seg_ended s && negb (watched s)); [|done]. injection Hstep as <-.
  case_bool_decide as Hact; [|by apply (sink_inv_frame on_disk b st)].
  match goal with |- sink_inv _ _ (queue_segment i ?st2) =>
    destruct (queue_segment_view i st2) as (_ & _ & Hsc & Hctl & _);
    destruct (queue_segment_rest i st2) as (_ & Hpa & Hw & _ & _ & Hr & Ht & _) end.
  apply (sink_inv_frame on_disk b st); rewrite ?Hsc, ?Hctl; try done.
  simpl. intros Hd.
  assert (active st = []) as Hnil.
  { assert (sched_off (scheduler st) = true) as Hoff.
    { apply (ci_sched_joined _ Hc). by destruct (controller st). }
    apply (ci_active _ Hc); by destruct (scheduler st). }
  rewrite Hnil in Hact. by apply not_elem_of_nil in Hact.
Qed.

(** A transcriber moves on outside [_write_transcript]. *)
Lemma sink_inv_worker on_disk b st st' w pc pc' :
  sink_inv on_disk b st →
  workers st !! w = Some pc → workers st' = <[w := pc']> (workers st) →
  writing pc = false → writing pc' = false →
  results st' = results st → transcript st' = transcript st →
  paused st' = paused st → scheduler st' = scheduler st →
  controller st' = controller st →
  (pending_queue st = [] → pending_queue st' = []) →
  sink_inv on_disk b st'.
Proof.
  intros [Hdr Hcl Hun Hfr Hso Hno Hfl Hwr] Hw Hw' Hpc Hpc' Hr Ht Hp Hsc Hctl Hq.
  assert (∀ w0 pc0, workers st' !! w0 = Some pc0 → writing pc0 = true →
                    workers st !! w0 = Some pc0) as Hold.
  { intros w0 pc0 Hl Hwri. rewrite Hw' in Hl.
    apply lookup_set_worker in Hl as [[-> ->]|[_ Hl]]; [congruence|done]. }
  assert (settled st' → settled st) as Hset.
  { intros [Hall Hne]. split; [|by rewrite <- Hctl].
    intros w0 pc0 Hl. destruct (decide (w0 = w)) as [->|Hne0]; [congruence|].
    apply (Hall w0). rewrite Hw'. by rewrite list_lookup_insert_ne. }
  split; rewrite ?Hr, ?Ht, ?Hp, ?Hsc, ?Hctl; auto.
  - intros Hs. destruct (Hfr Hs) as (Hnil & _). by rewrite Hnil in Hw.
  - intros w0 it texts Hl. apply (Hfl w0 it). by apply Hold.
  - intros w0 pc0 Hl Hwri. apply (Hwr w0 pc0); [|done]. by apply Hold.
Qed.

Lemma work_sink_inv on_disk b w r st st' :
  control_inv st → sink_inv on_disk b st → work w r st = Some st' → sink_inv on_disk b st'.
Proof.
  intros Hc Hinv Hwork. pose proof Hinv as [Hdr Hcl Hun Hfr Hso Hno Hfl Hwr].
  unfold work in Hwork.
  destruct (workers st !! w) as [pc|] eqn:Hw; [|done].
  assert (w < length (workers st))%nat as Hlen by (by apply lookup_lt_Some in Hw).
  assert (scheduler st ≠ SNone) as Hstarted.
  { intros Hs. destruct (Hfr Hs) as (Hnil & _). by rewrite Hnil in Hw. }
  assert (alive pc = true → controller st ≠ CCancelTranscript) as Hnot.
  { intros Hal Hctl. destruct (ci_joined _ Hc) as [Hdone _]; [by rewrite Hctl|].
    by rewrite (Hdone _ _ Hw) in Hal. }
  assert (alive pc = true → ∀ w0 pc0, workers st !! w0 = Some pc0 → w0 ≠ w →
                                     pc0 = WDone) as Halone.
  { intros Hal w0 pc0 Hl Hne. destruct (alive pc0) eqn:Hal0; [|by destruct pc0].
    pose proof (ci_single _ Hc w pc Hw Hal) as E1.
    pose proof (ci_single _ Hc w0 pc0 Hl Hal0) as E2. congruence. }
  destruct pc as [| | | | |it|it retries|it retries secs|it t|it|it texts|it| |];
    try done; injection Hwork as <-.
  - eapply (sink_inv_worker on_disk b st); try done; by destruct (stop_all st).
  - eapply (sink_inv_worker on_disk b st); try done; by destruct (pending_queue st).
  - eapply (sink_inv_worker on_disk b st); try done; by destruct (transcribing st =? 0).
  - destruct (pending_queue st) eqn:Hq.
    + eapply (sink_inv_worker on_disk b st); try done.
    + eapply (sink_inv_worker on_disk b st); try done. by rewrite Hq.
  - eapply (sink_inv_worker on_disk b st); try done; by destruct (stop_all st).
  - eapply (sink_inv_worker on_disk b st); try done.
  - destruct (retries <=? max_retries st); [|by eapply (sink_inv_worker on_disk b st)].
    destruct (Retry.attempt _ _ _); by eapply (sink_inv_worker on_disk b st).
  - eapply (sink_inv_worker on_disk b st); try done.
  - (* the append *)
    destruct (Str.nonempty t); [|by eapply (sink_inv_worker on_disk b st)].
    specialize (Hnot eq_refl). specialize (Halone eq_refl).
    assert (∀ w0 pc0, <[w := WSnapshot it]> (workers st) !! w0 = Some pc0 →
              writing pc0 = true → w0 = w ∧ pc0 = WSnapshot it) as Hme.
    { intros w0 pc0 [[-> ->]|[Hne Hl]]%lookup_set_worker Hwri; [done|].
      rewrite (Halone _ _ Hl Hne) in Hwri. done. }
    assert (¬ settled (set_worker w (WSnapshot it)
                         (set_results (Assembler.append it.1 t (results st)) st))) as Hbusy.
    { intros [Hall _]. specialize (Hall w (WSnapshot it)). simpl in Hall.
      rewrite list_lookup_insert_eq in Hall by done. by specialize (Hall eq_refl). }
    split; simpl; try done.
    + intros w0 it0 texts Hl. by destruct (Hme _ _ Hl eq_refl).
    + intros w0 pc0 _ _. unfold Assembler.append. by destruct (results st).
  - (* the snapshot *)
    specialize (Hnot eq_refl). specialize (Halone eq_refl).
    assert (¬ settled (set_worker w (WFlush it (Assembler.texts_of (results st))) st))
      as Hbusy.
    { intros [Hall _]. specialize (Hall w (WFlush it (Assembler.texts_of (results st)))).
      simpl in Hall. rewrite list_lookup_insert_eq in Hall by done.
      by specialize (Hall eq_refl). }
    split; simpl; try done.
    + intros w0 it0 texts [[-> [= -> ->]]|[Hne Hl]]%lookup_set_worker; [done|].
      by specialize (Halone _ _ Hl Hne).
    + intros w0 pc0 _ _. by apply (Hwr w (WSnapshot it)).
  - (* the write *)
    specialize (Hnot eq_refl). specialize (Halone eq_refl).
    pose proof (Hfl w it texts Hw) as ->.
    pose proof (Hwr w _ Hw eq_refl) as Hne.
    split; simpl; try done.
    + intros _ _. by apply write_transcript_some.
    + intros w0 it0 texts [[-> [=]]|[Hne0 Hl]]%lookup_set_worker.
      by specialize (Halone _ _ Hl Hne0).
  - eapply (sink_inv_worker on_disk b st); try done.
  - eapply (sink_inv_worker on_disk b st); try done.
Qed.

(** The write raises: the file is no longer known to hold the results. *)
Lemma write_raises_sink_inv on_disk b w kept st st' :
  control_inv st → sink_inv on_disk b st → write_raises w kept st = Some st' →
  sink_inv on_disk false st'.
Proof.
  intros Hc Hinv Hstep. pose proof Hinv as [Hdr Hcl Hun Hfr Hso Hno Hfl Hwr].
  destruct (write_raises_view _ _ _ _ Hstep) as (it & texts & Hw & _ & ->).
  pose proof (Hwr w _ Hw eq_refl) as Hne.
  assert (controller st ≠ CCancelTranscript) as Hnot.
  { intros Hctl. destruct (ci_joined _ Hc) as [Hdone _]; [by rewrite Hctl|].
    by specialize (Hdone _ _ Hw). }
  split; simpl; try done.
  - intros Hs. destruct (Hfr Hs) as (Hnil & _). by rewrite Hnil in Hw.
  - intros w0 it0 texts0 [[_ [=]]|[_ Hl]]%lookup_set_worker. by eapply Hfl.
Qed.

Lemma sink_inv_weaken on_disk b st : sink_inv on_disk b st → sink_inv on_disk false st.
Proof. intros [Hdr Hcl Hun Hfr Hso Hno Hfl Hwr]. by split. Qed.

Lemma step_sink_inv on_disk b e st st' :
  timely e = true → control_inv st → sink_inv on_disk b st → step e st = Some st' →
  sink_inv on_disk (b && steady e) st'.
Proof.
  intros Ht Hc Hinv.
  destruct e; unfold step; simpl; rewrite ?andb_true_r, ?andb_false_r; intros Hstep.
  - by eapply call_sink_inv.
  - destruct timeout; [done|]. by eapply ctl_step_sink_inv.
  - destruct timeout; [done|]. by eapply sched_step_sink_inv.
  - by eapply spawn_sink_inv.
  - by eapply work_sink_inv.
  - by eapply write_raises_sink_inv.
  - eapply (seg_sink_inv on_disk b seg_read); eauto.
  - eapply (seg_sink_inv on_disk b seg_leave); eauto.
  - eapply (seg_sink_inv on_disk b seg_exit); eauto 6.
  - eapply (seg_sink_inv on_disk b seg_crash); eauto 6.
  - by eapply watch_sink_inv.
Qed.

Lemma run_sink_inv on_disk tr : ∀ b st st',
  forallb timely tr = true → timely_inv st → sink_inv on_disk b st →
  run tr st = Some st' → timely_inv st' ∧ sink_inv on_disk (b && forallb steady tr) st'.
Proof.
  induction tr as [|e tr IH]; intros b st st' Ht Hinv Hs Hrun; simpl in *.
  - simplify_eq. by rewrite andb_true_r.
  - apply andb_prop in Ht as [He Ht].
    destruct (step e st) as [st1|] eqn:Hstep; [|done].
    rewrite andb_assoc. eapply IH; [done| | |done].
    + by eapply step_timely_inv.
    + eapply step_sink_inv; [done| |done|done]. apply (ti_control _ Hinv).
Qed.

(** A text without carriage return comes back from the file as it was
    written, whether the platform ends its lines by a line feed or by a
    carriage return and a line feed. *)
Lemma read_back s linesep :
  linesep = String Str.lf EmptyString
  ∨ linesep = String Str.cr (String Str.lf EmptyString) →
  cr_free s = true →
  Str.universal_newlines (Str.to_linesep linesep s) = s.
Proof.
  intros Hsep. induction s as [|c s IH]; simpl; [done|].
  intros [Hc Hs]%andb_prop. apply negb_true_iff in Hc. specialize (IH Hs).
  destruct (Ascii.eqb c Str.lf) eqn:Hlf.
  - apply Ascii.eqb_eq in Hlf as ->.
    destruct Hsep as [-> | ->]; simpl; f_equal; exact IH.
  - simpl. rewrite Hc. f_equal. exact IH.
Qed.

Lemma cr_free_app s t : cr_free (s ++ t) = cr_free s && cr_free t.
Proof. induction s as [|c s IH]; simpl; [done|]. by rewrite IH, andb_assoc. Qed.

Lemma cr_free_join texts :
  Forall (λ t, cr_free t = true) texts → cr_free (Str.join " " texts) = true.
Proof.
  induction 1 as [|t texts Ht _ IH]; simpl; [done|].
  destruct texts as [|t' texts]; [done|].
  rewrite cr_free_app, Ht. simpl. exact IH.
Qed.

End SinkFacts.

Section CounterFacts.

Import Manager.

Lemma flying_bounds l : 0 ≤ flying l ≤ Z.of_nat (length l).
Proof.
  induction l as [|pc l IH]; simpl; [lia|]. unfold weight. destruct (in_flight pc); lia.
Qed.

Lemma flying_zero l w pc : flying l = 0 → l !! w = Some pc → in_flight pc = false.
Proof.
  revert w. induction l as [|x l IH]; intros w Hz Hl; [done|]. simpl in Hz.
  pose proof (flying_bounds l) as Hb. unfold weight in Hz.
  destruct w as [|w]; simpl in Hl.
  - simplify_eq. destruct (in_flight pc); [lia|done].
  - apply (IH w); [|done]. destruct (in_flight x); lia.
Qed.

Lemma queue_sorted_lookup q : ∀ (i j : nat) a b,
  queue_sorted q → (i ≤ j)%nat → q !! i = Some a → q !! j = Some b → a.1 ≤ b.1.
Proof.
  induction q as [|x q IH]; intros i j a b Hso Hij Ha Hb; [done|].
  destruct Hso as [Hx Hso]. destruct i as [|i], j as [|j]; simpl in *; try lia.
  - simplify_eq. lia.
  - simplify_eq. rewrite Forall_forall in Hx. apply item_le_fst, Hx.
    by eapply list_elem_of_lookup_2.
  - apply (IH i j); try done. lia.
Qed.

End CounterFacts.




(** X8.  In every run, join timeouts included, [_transcribing] is the
    number of transcriber threads that stand between their [+= 1] and their
    [-= 1]: it is never negative, never more than the number of transcriber
    threads created, and zero exactly when no transcriber holds an item it
    has started on. *)
Theorem in_flight_count_is_exact on_disk gap dur mw mr tr st :
  Manager.run tr (Manager.init on_disk gap dur mw mr) = Some st →
  Manager.transcribing st = flying (Manager.workers st)
  ∧ 0 ≤ Manager.transcribing st ≤ Z.of_nat (length (Manager.workers st))
  ∧ (Manager.transcribing st = 0 ↔
     ∀ w pc, Manager.workers st !! w = Some pc → in_flight pc = false).
Proof.
  intros Hrun.
  assert (counter_inv st) as Hn.
  { eapply (run_invariant counter_inv); [apply step_counter_inv| |done]. done. }
  unfold counter_inv in Hn. rewrite Hn. split; [done|]. split; [apply flying_bounds|].
  split.
  - intros Hz w pc Hl. by eapply flying_zero.
  - apply flying_none.
Qed.

Lemma in_flight_count_is_exact_witness :
  ∃ st, Manager.run (Traces.recording ++ take 9 Traces.pausing) Traces.fresh = Some st
        ∧ Manager.transcribing st = flying (Manager.workers st)
        ∧ Manager.transcribing st = 1.
Proof.
  eexists. split; [vm_compute; reflexivity|].
  split; [|vm_compute; reflexivity].
  refine (proj1 (in_flight_count_is_exact None 12 15 2 3
                   (Traces.recording ++ take 9 Traces.pausing) _ _)).
  vm_compute; reflexivity.
Defined.

(** X9.  In every run, whatever the interleaving and the timeouts, an
    artifact is handed to [llm.transcribe] at most [max_retries + 1] times
    in all, and not at all with a negative [max_retries]; it is handed over
    only after it was put on the pending queue, and once it has been handed
    over it is never on the queue again. *)
Theorem artifact_is_sent_within_budget on_disk gap dur mw mr tr st (p : Manager.path) :
  Manager.run tr (Manager.init on_disk gap dur mw mr) = Some st →
  Z.of_nat (calls_for p st) ≤ Z.max 0 (mr + 1)
  ∧ (p ∈ Manager.sent st → p ∈ Manager.enqueued st)
  ∧ (p ∈ Manager.sent st → p ∉ (Manager.pending_queue st).*2).
Proof.
  intros Hrun.
  destruct (run_items_inv tr _ _ (init_queue_inv on_disk gap dur mw mr)
              (init_items_inv on_disk gap dur mw mr) Hrun) as [Hq Hi].
  pose proof (run_max_retries tr _ _ (init_queue_inv on_disk gap dur mw mr) Hrun) as Hmr.
  simpl in Hmr. split_and!.
  - rewrite <- Hmr. apply (ii_sent _ Hi).
  - intros Hs. destruct (decide (p ∈ Manager.enqueued st)) as [|Hn]; [done|].
    by destruct (ii_unsent_new _ Hi p Hn).
  - intros Hs (it & -> & Hin)%list_elem_of_fmap.
    by destruct (ii_unsent_pending _ Hi it Hin).
Qed.

Lemma artifact_is_sent_within_budget_witness :
  ∃ st, Manager.run (Traces.recording ++ Traces.pausing) Traces.fresh = Some st
        ∧ Manager.sent st = [0%nat]
        ∧ Z.of_nat (calls_for 0%nat st) ≤ Z.max 0 (3 + 1).
Proof.
  eexists. split; [vm_compute; reflexivity|]. split; [vm_compute; reflexivity|].
  refine (proj1 (artifact_is_sent_within_budget None 12 15 2 3
                   (Traces.recording ++ Traces.pausing) _ 0%nat _)).
  vm_compute; reflexivity.
Defined.

(** X10.  In every run, an item on the pending queue or in the hands of a
    transcriber is the pair of the [_started_at] and the [file_path] of one
    segment, and every entry of the results carries the [_started_at] of a
    segment that was put on the queue: the time a text is sorted by is the
    time its segment was created. *)
Theorem items_carry_the_start_time_of_their_segment on_disk gap dur mw mr tr st :
  Manager.run tr (Manager.init on_disk gap dur mw mr) = Some st →
  (∀ it, it ∈ Manager.pending_queue st
         ∨ (∃ w pc, Manager.workers st !! w = Some pc ∧ held pc = Some it) →
     ∃ s, Manager.segments st !! it.2 = Some s
          ∧ Manager.started_at s = it.1 ∧ Manager.file_path s = Some it.2)
  ∧ (∀ start_ts text, (start_ts, text) ∈ Manager.results st →
       ∃ (i : nat) s, Manager.segments st !! i = Some s
                      ∧ Manager.started_at s = start_ts
                      ∧ i ∈ Manager.enqueued st).
Proof.
  intros Hrun.
  destruct (run_items_inv tr _ _ (init_queue_inv on_disk gap dur mw mr)
              (init_items_inv on_disk gap dur mw mr) Hrun) as [Hq Hi].
  split.
  - intros it Hit.
    assert (item_of_segment st it) as (s & Hl & Hts & Hin).
    { destruct Hit as [Hin|(w & pc & Hl & Hh)].
      - by apply (ii_item _ Hi).
      - by apply (ii_held _ Hi w pc). }
    exists s. split; [done|]. split; [done|].
    destruct (qi_file _ Hq _ Hin) as (s' & Hl' & Hp).
    assert (Some s = Some s') as [= ->] by (etrans; [symmetry; exact Hl|exact Hl']).
    exact Hp.
  - intros ts text Hin. by destruct (ii_results _ Hi _ Hin) as (i & s & ? & ? & ?); eauto.
Qed.

Lemma items_carry_the_start_time_of_their_segment_witness :
  ∃ st, Manager.run (Traces.recording ++ Traces.pausing) Traces.fresh = Some st
        ∧ Manager.results st = [(100, "hello"%string)]
        ∧ (∀ start_ts text, (start_ts, text) ∈ Manager.results st →
             ∃ (i : nat) s, Manager.segments st !! i = Some s
                            ∧ Manager.started_at s = start_ts
                            ∧ i ∈ Manager.enqueued st).
Proof.
  eexists. split; [vm_compute; reflexivity|]. split; [vm_compute; reflexivity|].
  refine (proj2 (items_carry_the_start_time_of_their_segment None 12 15 2 3
                   (Traces.recording ++ Traces.pausing) _ _)).
  vm_compute; reflexivity.
Defined.

(** X11.  In every run the pending queue holds its items in order of start
    time, and the [get] of a transcriber takes the first one: no item still
    on the queue started before the item taken. *)
Theorem earliest_item_is_taken_first on_disk gap dur mw mr tr st :
  Manager.run tr (Manager.init on_disk gap dur mw mr) = Some st →
  (∀ (i j : nat) a b, (i ≤ j)%nat →
     Manager.pending_queue st !! i = Some a → Manager.pending_queue st !! j = Some b →
     a.1 ≤ b.1)
  ∧ (∀ w r st' it q,
       Manager.work w r st = Some st' →
       Manager.workers st !! w = Some Manager.WGet →
       Manager.pending_queue st = it :: q →
       Manager.workers st' !! w = Some (Manager.WBegin it)
       ∧ Manager.pending_queue st' = q
       ∧ ∀ it', it' ∈ q → it.1 ≤ it'.1).
Proof.
  intros Hrun.
  destruct (run_items_inv tr _ _ (init_queue_inv on_disk gap dur mw mr)
              (init_items_inv on_disk gap dur mw mr) Hrun) as [Hq Hi].
  pose proof (ii_sorted _ Hi) as Hso. split.
  - intros i j a b. by apply queue_sorted_lookup.
  - intros w r st' it q Hwork Hw Hpq. unfold Manager.work in Hwork.
    rewrite Hw, Hpq in Hwork. injection Hwork as <-. simpl.
    split; [|split; [done|]].
    + apply list_lookup_insert_eq. by apply lookup_lt_Some in Hw.
    + rewrite Hpq in Hso. destruct Hso as [Hfirst _].
      rewrite Forall_forall in Hfirst. intros it' Hin. by apply item_le_fst, Hfirst.
Qed.

Lemma earliest_item_is_taken_first_witness :
  ∃ st st', Manager.run (Traces.recording ++ take 7 Traces.pausing) Traces.fresh = Some st
            ∧ Manager.work 0 (Retry.Text "") st = Some st'
            ∧ Manager.workers st' !! 0%nat = Some (Manager.WBegin (100, 0%nat)).
Proof.
  eexists _, _. split; [vm_compute; reflexivity|]. split; [vm_compute; reflexivity|].
  refine (proj1 (proj2 (earliest_item_is_taken_first None 12 15 2 3
                          (Traces.recording ++ take 7 Traces.pausing) _ _)
                   0%nat (Retry.Text "") _ (100, 0%nat) [] _ _ _));
    vm_compute; reflexivity.
Defined.

(** X12.  As long as no join gives up, [pause], [stop] and [cancel] find
    the active list empty when they come to it: the scheduler thread has
    ended and has stopped the segments and queued their artifacts in its own
    [_stop_active_segments].  The caller never signals or queues a segment
    itself, and removes artifacts only while [cancel] empties the queue. *)
Theorem control_methods_find_no_active_segment on_disk gap dur mw mr tr st :
  forallb Manager.timely tr = true →
  Manager.run tr (Manager.init on_disk gap dur mw mr) = Some st →
  no_local_list (Manager.controller st) = true
  ∧ (past_scheduler_join (Manager.controller st) = true →
       Manager.running st = false ∧ Manager.active st = [])
  ∧ (∀ st', Manager.step (Manager.Ctl false) st = Some st' →
       Manager.segments st' = Manager.segments st
       ∧ Manager.enqueued st' = Manager.enqueued st
       ∧ (Manager.files st' ≠ Manager.files st →
          Manager.controller st = Manager.CCancelDrain)).
Proof.
  intros Ht Hrun.
  assert (timely_inv st) as [_ Hc _ _].
  { eapply run_timely_inv; [done|apply init_timely_inv|done]. }
  pose proof (ci_no_list _ Hc) as Hno. split; [done|]. split.
  - intros Hpast. pose proof (ci_sched_joined _ Hc Hpast) as Hoff.
    split; [unfold Manager.running; by destruct (Manager.scheduler st)|].
    apply (ci_active _ Hc); by destruct (Manager.scheduler st).
  - intros st' Hstep. simpl in Hstep. unfold Manager.ctl_step in Hstep.
    destruct (Manager.controller st) eqn:Hctl; try done;
      repeat case_match; simplify_eq; simpl; split_and!; try done.
Qed.

Lemma control_methods_find_no_active_segment_witness :
  ∃ st, Manager.run (Traces.recording ++ take 11 Traces.cancel_race) Traces.fresh = Some st
        ∧ Manager.controller st = Manager.CCancelSnapshot
        ∧ Manager.active st = [].
Proof.
  eexists. split; [vm_compute; reflexivity|]. split; [vm_compute; reflexivity|].
  refine (proj2 (proj1 (proj2 (control_methods_find_no_active_segment None 12 15 2 3
                   (Traces.recording ++ take 11 Traces.cancel_race) _ _ _)) _));
    vm_compute; reflexivity.
Defined.

(** X13.  As long as no join gives up, [cancel] returns with nothing of the
    session left: the transcript file is gone, results and pending queue are
    empty, no segment is active, scheduler and transcribers have ended,
    nothing is in flight and [_paused] is false. *)
Theorem cancel_leaves_nothing_behind on_disk gap dur mw mr tr st :
  forallb Manager.timely tr = true →
  Manager.run tr (Manager.init on_disk gap dur mw mr) = Some st →
  Manager.controller st = Manager.CCancelTranscript →
  ∃ st', Manager.step (Manager.Ctl false) st = Some st'
    ∧ Manager.controller st' = Manager.CIdle
    ∧ Manager.transcript st' = None
    ∧ (∀ linesep, read_transcript linesep st' = EmptyString)
    ∧ Manager.results st' = [] ∧ Manager.pending_queue st' = []
    ∧ Manager.active st' = [] ∧ Manager.running st' = false
    ∧ Manager.paused st' = false
    ∧ (∀ w, Manager.worker_alive st' w = false) ∧ Manager.transcribing st' = 0.
Proof.
  intros Ht Hrun Hctl.
  destruct (run_sink_inv on_disk tr true _ _ Ht (init_timely_inv on_disk gap dur mw mr)
              (init_sink_inv on_disk true gap dur mw mr) Hrun) as [[_ Hc _ Hn] Hs].
  destruct (ci_joined _ Hc) as [Hdone _]; [by rewrite Hctl|].
  assert (sched_off (Manager.scheduler st) = true) as Hoff.
  { apply (ci_sched_joined _ Hc). by rewrite Hctl. }
  eexists. split; [simpl; unfold Manager.ctl_step; by rewrite Hctl|].
  simpl. split_and!; try done.
  - apply (si_cleared _ _ _ Hs Hctl).
  - apply (si_drained _ _ _ Hs). by rewrite Hctl.
  - apply (ci_active _ Hc); by destruct (Manager.scheduler st).
  - unfold Manager.running. simpl. by destruct (Manager.scheduler st).
  - apply (si_unpaused _ _ _ Hs). by rewrite Hctl.
  - intros w. by apply all_done_not_alive.
  - by apply all_done_idle.
Qed.

Lemma cancel_leaves_nothing_behind_witness :
  ∃ st', Manager.run (Traces.recording ++ Traces.cancel_race) Traces.fresh = Some st'
         ∧ Manager.results st' = [] ∧ Manager.transcript st' = None.
Proof.
  edestruct (cancel_leaves_nothing_behind None 12 15 2 3
               (Traces.recording ++ take 24 Traces.cancel_race))
    as (st' & Hstep & _ & Htr & _ & Hres & _).
  - vm_compute; reflexivity.
  - vm_compute; reflexivity.
  - vm_compute; reflexivity.
  - exists st'. split; [|split; [exact Hres|exact Htr]].
    rewrite <- Hstep. vm_compute. reflexivity.
Defined.

(** X14.  What [read_transcript] returns.  As long as no join gives up
    and no write of the file raises, and whenever no transcriber is inside
    [_write_transcript] and [cancel] is not about to remove the file: once a
    session was started, [read_transcript] returns the empty string if
    there are no results; if the file is there it returns the texts of the
    results in start-time order joined by single spaces, with every line
    ending inside a text turned into a line feed; and it returns that join
    itself when no text holds a carriage return, on a platform whose lines
    end by a line feed or by a carriage return and a line feed. *)
Theorem transcript_file_follows_results on_disk gap dur mw mr tr st linesep :
  forallb Manager.timely tr = true →
  forallb Manager.steady tr = true →
  Manager.run tr (Manager.init on_disk gap dur mw mr) = Some st →
  settled st →
  Manager.scheduler st ≠ Manager.SNone →
  (Manager.results st = [] → read_transcript linesep st = EmptyString)
  ∧ (Manager.transcript st ≠ None →
     read_transcript linesep st
     = Str.universal_newlines
         (Str.to_linesep linesep
            (Str.join " " (Assembler.texts_of (Manager.results st)))))
  ∧ (Manager.transcript st ≠ None →
     linesep = String Str.lf EmptyString
     ∨ linesep = String Str.cr (String Str.lf EmptyString) →
     (∀ e, e ∈ Manager.results st → cr_free e.2 = true) →
     read_transcript linesep st
     = Str.join " " (Assembler.texts_of (Manager.results st))).
Proof.
  intros Ht Hsteady Hrun Hset Hst.
  destruct (run_sink_inv on_disk tr true _ _ Ht (init_timely_inv on_disk gap dur mw mr)
              (init_sink_inv on_disk true gap dur mw mr) Hrun) as [_ Hs].
  rewrite Hsteady in Hs. simpl in Hs.
  assert (Manager.transcript st ≠ None →
          Manager.transcript st
          = Some (Str.join " " (Assembler.texts_of (Manager.results st)))) as Hfile.
  { intros Hsome. apply (si_some _ _ _ Hs); [done|done|].
    intros Hnil. by apply Hsome, (si_none _ _ _ Hs). }
  split_and!.
  - intros Hnil. unfold read_transcript. by rewrite (si_none _ _ _ Hs Hset Hnil Hst).
  - intros Hsome. unfold read_transcript. by rewrite (Hfile Hsome).
  - intros Hsome Hsep Hfree. unfold read_transcript. rewrite (Hfile Hsome).
    apply read_back; [done|]. apply cr_free_join.
    unfold Assembler.texts_of. rewrite map_fmap. apply Forall_fmap, Forall_forall.
    intros e He. apply Hfree. by rewrite <- (sorted_perm (Manager.results st)).
Qed.

Lemma transcript_file_follows_results_witness :
  ∃ st, Manager.run (Traces.recording ++ Traces.pausing) Traces.fresh = Some st
        ∧ Manager.results st = [(100, "hello"%string)]
        ∧ read_transcript (String Str.cr (String Str.lf EmptyString)) st
          = "hello"%string.
Proof.
  eexists. split; [vm_compute; reflexivity|]. split; [vm_compute; reflexivity|].
  refine (eq_trans
            (proj2 (proj2 (transcript_file_follows_results None 12 15 2 3
               (Traces.recording ++ Traces.pausing) _
               (String Str.cr (String Str.lf EmptyString)) _ _ _ _ _)) _ _ _) _).
  - vm_compute; reflexivity.
  - vm_compute; reflexivity.
  - vm_compute; reflexivity.
  - split; [|vm_compute; discriminate].
    intros [|[|w]] pc Hl; vm_compute in Hl; by simplify_eq.
  - vm_compute; discriminate.
  - vm_compute; discriminate.
  - by right.
  - intros e He. vm_compute in He. apply list_elem_of_singleton in He as ->. reflexivity.
  - vm_compute; reflexivity.
Defined.

(** X15.  As long as no join gives up: when [pause], [stop] or [cancel] has
    returned and until the next [start] or [resume], the scheduler and every
    transcriber have ended, no item is in flight and no segment is active;
    every segment has ended, and each one that captured a block without
    raising has written its artifact and was put on the queue. *)
Theorem control_method_returns_with_threads_gone on_disk gap dur mw mr tr st :
  forallb Manager.timely tr = true →
  Manager.run tr (Manager.init on_disk gap dur mw mr) = Some st →
  Manager.controller st = Manager.CIdle →
  Manager.stop_all st = true →
  Manager.running st = false ∧ Manager.active st = []
  ∧ Manager.transcriber_thread st = None
  ∧ (∀ w, Manager.worker_alive st w = false) ∧ Manager.transcribing st = 0
  ∧ (∀ (i : nat) s, Manager.segments st !! i = Some s →
       Manager.seg_ended s = true
       ∧ ((1 ≤ Manager.frames s)%nat → Manager.phase s ≠ Manager.Crashed →
          Manager.file_path s = Some i ∧ i ∈ Manager.enqueued st)).
Proof.
  intros Ht Hrun Hctl Hstop.
  assert (timely_inv st) as [Hq Hc Hd Hn].
  { eapply run_timely_inv; [done|apply init_timely_inv|done]. }
  destruct (ci_idle _ Hc Hctl) as [[_ Hno]|(Hoff & Hdone & Hnone)]; [congruence|].
  assert (Manager.active st = []) as Hact.
  { apply (ci_active _ Hc); by destruct (Manager.scheduler st). }
  split_and!; try done.
  - unfold Manager.running. by destruct (Manager.scheduler st).
  - intros w. by apply all_done_not_alive.
  - by apply all_done_idle.
  - intros i s Hl. destruct (di_owned _ Hd i s Hl) as [Hin|[Hin|[Hend Hfile]]].
    + rewrite Hact in Hin. by apply not_elem_of_nil in Hin.
    + destruct (Manager.scheduler st); simpl in *; try done;
        by apply not_elem_of_nil in Hin.
    + split; [done|]. intros Hfr Hph.
      assert (Manager.file_path s = Some i) as Hfp.
      { destruct (di_phase _ Hd i s Hl) as [_ Hfin].
        unfold Manager.seg_ended in Hend.
        destruct (Manager.phase s); try done. destruct Hfin as [?|?]; [done|lia|done]. }
      split; [done|]. destruct Hfile as [?|?]; [congruence|done].
Qed.

Lemma control_method_returns_with_threads_gone_witness :
  ∃ st, Manager.run (Traces.recording ++ Traces.stopping) Traces.fresh = Some st
        ∧ Manager.transcribing st = 0.
Proof.
  eexists. split; [vm_compute; reflexivity|].
  refine (proj1 (proj2 (proj2 (proj2 (proj2
            (control_method_returns_with_threads_gone None 12 15 2 3
               (Traces.recording ++ Traces.stopping) _ _ _ _ _))))));
    vm_compute; reflexivity.
Defined.

(** X16.  In every run, also with several transcribers alive after joins
    that gave up, no artifact is in two places: the pending queue holds each
    artifact at most once, an artifact a transcriber has taken is not on the
    queue, and no two transcribers hold the same artifact. *)
Theorem no_artifact_in_two_hands on_disk gap dur mw mr tr st :
  Manager.run tr (Manager.init on_disk gap dur mw mr) = Some st →
  NoDup (Manager.pending_queue st).*2
  ∧ (∀ w pc it, Manager.workers st !! w = Some pc → held pc = Some it →
       it.2 ∉ (Manager.pending_queue st).*2)
  ∧ (∀ w w' pc pc' it it',
       Manager.workers st !! w = Some pc → Manager.workers st !! w' = Some pc' →
       held pc = Some it → held pc' = Some it' → it.2 = it'.2 → w = w').
Proof.
  intros Hrun.
  destruct (run_items_inv tr _ _ (init_queue_inv on_disk gap dur mw mr)
              (init_items_inv on_disk gap dur mw mr) Hrun) as [_ Hi].
  split; [apply (ii_queue_nodup _ Hi)|]. split.
  - apply (ii_apart _ Hi).
  - apply (ii_one_holder _ Hi).
Qed.

Lemma no_artifact_in_two_hands_witness :
  ∃ st, Manager.run Traces.two_consumers Traces.fresh = Some st
        ∧ Manager.workers st !! 0%nat = Some (Manager.WSleep (100, 0%nat) 1 5)
        ∧ NoDup (Manager.pending_queue st).*2.
Proof.
  eexists. split; [vm_compute; reflexivity|]. split; [vm_compute; reflexivity|].
  refine (proj1 (no_artifact_in_two_hands None 12 15 2 3 Traces.two_consumers _ _)).
  vm_compute; reflexivity.
Defined.

(** X17.  As long as no join gives up, the artifact of a segment stays on
    disk until the segment has been put on the queue: the test
    [file_path.exists()] that guards the [put] never fails for a segment
    that wrote its file, and nothing deletes an artifact that was not
    queued. *)
Theorem unqueued_artifact_is_on_disk on_disk gap dur mw mr tr st (i : nat) s p :
  forallb Manager.timely tr = true →
  Manager.run tr (Manager.init on_disk gap dur mw mr) = Some st →
  Manager.segments st !! i = Some s →
  Manager.file_path s = Some p →
  i ∉ Manager.enqueued st →
  p = i ∧ p ∈ Manager.files st ∧ Manager.artifact st i = Some p.
Proof.
  intros Ht Hrun Hl Hp Hnew.
  assert (timely_inv st) as [Hq _ Hd _].
  { eapply run_timely_inv; [done|apply init_timely_inv|done]. }
  destruct (qi_segs _ Hq i s Hl p Hp) as (-> & _).
  pose proof (di_files _ Hd i s i Hl Hp Hnew) as Hin.
  split; [done|]. split; [done|].
  unfold Manager.artifact. rewrite Hl, Hp. by rewrite bool_decide_eq_true_2.
Qed.

Lemma unqueued_artifact_is_on_disk_witness :
  ∃ st, Manager.run (Traces.recording ++ take 5 Traces.pausing) Traces.fresh = Some st
        ∧ Manager.enqueued st = []
        ∧ Manager.artifact st 0 = Some 0%nat.
Proof.
  eexists. split; [vm_compute; reflexivity|]. split; [vm_compute; reflexivity|].
  refine (proj2 (proj2 (unqueued_artifact_is_on_disk None 12 15 2 3
                          (Traces.recording ++ take 5 Traces.pausing) _ 0%nat _ 0%nat
                          _ _ _ _ _))).
  - vm_compute; reflexivity.
  - vm_compute; reflexivity.
  - vm_compute; reflexivity.
  - reflexivity.
  - vm_compute. apply not_elem_of_nil.
Defined.

(** * The hotkey handlers *)

Section AppFacts.

Import App.

Lemma last_label_app shown e1 e2 :
  last_label shown (e1 ++ e2) = last_label (last_label shown e1) e2.
Proof.
  revert shown. induction e1 as [|[] e1 IH]; intros shown; simpl; try done; apply IH.
Qed.

Lemma commands_app e1 e2 : commands (e1 ++ e2) = commands e1 ++ commands e2.
Proof. induction e1 as [|[] e1 IH]; simpl; try done. by rewrite IH. Qed.

Lemma follow_app p cs1 cs2 :
  follow p (cs1 ++ cs2) =
    match follow p cs1 with Some p' => follow p' cs2 | None => None end.
Proof.
  revert p. induction cs1 as [|c cs1 IH]; intros p; simpl; [done|].
  destruct (next p c); [apply IH|done].
Qed.

Lemma press_sound k s :
  sound s →
  sound (press k s).1
  ∧ (∀ shown, shown = label_of s → last_label shown (press k s).2 = label_of (press k s).1)
  ∧ follow (phase_of s) (commands (press k s).2) = Some (phase_of (press k s).1).
Proof.
  intros (Hp & Hm & Hmode). unfold sound, label_of, phase_of.
  destruct s as [r p lf m]. simpl in *.
  destruct k as [| | |w|]; simpl;
    unfold start_recording, pause_recording, stop_and_process, cancel_all; simpl.
  - destruct r, p; simpl; try (specialize (Hp eq_refl)); try done;
      split_and!; try done; try tauto; auto;
      intros shown ->; simpl; try done;
      destruct Hmode as [-> | ->]; done.
  - destruct r, p; simpl; try (specialize (Hp eq_refl)); try done;
      split_and!; try done; try tauto; auto;
      intros shown ->; simpl; try done;
      destruct Hmode as [-> | ->]; done.
  - destruct r, p; simpl; try (specialize (Hp eq_refl)); try done;
      split_and!; try done; try tauto; auto.
  - destruct r; simpl; [|by split_and!; auto].
    destruct (Str.nonempty (Str.strip (transcript w))); simpl.
    + destruct (reply w); [destruct (log_ok w)| |]; simpl;
        destruct p; simpl; split_and!; auto;
        destruct (String.eqb m "prompt"); simpl; auto.
    + destruct p; simpl; split_and!; auto.
  - destruct r, p; simpl; try (specialize (Hp eq_refl)); try done;
      split_and!; try done; try tauto; auto.
Qed.

Lemma presses_sound ks : ∀ s,
  sound s →
  sound (presses ks s).1
  ∧ last_label (label_of s) (presses ks s).2 = label_of (presses ks s).1
  ∧ follow (phase_of s) (commands (presses ks s).2) = Some (phase_of (presses ks s).1).
Proof.
  induction ks as [|k ks IH]; intros s Hs; simpl; [done|].
  destruct (press_sound k s Hs) as (Hs1 & Hl1 & Hf1).
  destruct (press k s) as [s1 e1]. simpl in *.
  destruct (IH s1 Hs1) as (Hs2 & Hl2 & Hf2).
  destruct (presses ks s1) as [s2 e2]. simpl in *.
  split; [done|]. split.
  - by rewrite last_label_app, (Hl1 _ eq_refl).
  - by rewrite commands_app, follow_app, Hf1.
Qed.

End AppFacts.

(** X18.  With the handlers run one at a time, from the status [main]
    starts with and whatever keys are pressed, whatever the transcript and
    the language model: [paused] is only set while [recording] is; the mode
    is "transcribe" or "prompt", and "transcribe" whenever nothing is being
    recorded; and the label last sent to the window is the one that belongs
    to the status: "idle", "paused", "recording" or "recording prompt". *)
Theorem status_and_label_stay_consistent (ks : list App.hotkey) :
  let s := (App.presses ks App.initial).1 in
  let effs := (App.presses ks App.initial).2 in
  (App.paused s = true → App.recording s = true)
  ∧ (App.recording s = false → App.mode s = "transcribe"%string)
  ∧ (App.mode s = "transcribe"%string ∨ App.mode s = "prompt"%string)
  ∧ last_label "idle" effs = label_of s.
Proof.
  destruct (presses_sound ks App.initial) as ((H1 & H2 & H3) & Hl & _).
  { split_and!; auto. }
  simpl. split_and!; try done.
Qed.

(** X19.  With the handlers run one at a time, the methods of the recorder
    are called in the order of a session: [start] only when nothing is being
    recorded, [pause] only while recording, [resume] only after a [pause],
    [stop] and [cancel] only while a session is open; and the status tells
    where in the session the recorder was left. *)
Theorem recorder_calls_follow_the_session (ks : list App.hotkey) :
  let s := (App.presses ks App.initial).1 in
  let effs := (App.presses ks App.initial).2 in
  follow Idle (App.commands effs) = Some (phase_of s).
Proof.
  destruct (presses_sound ks App.initial) as (_ & _ & Hf).
  { split_and!; auto. }
  exact Hf.
Qed.

Section DriveFacts.

Import Manager App.

Lemma own_in_step e s st st' :
  own e = true → in_step s st → step e st = Some st' → in_step s st'.
Proof.
  intros Hb [Hp Hph] Hstep.
  destruct (own_frame e st st' Hb Hstep) as (Hpa & Hst & Hctl & Hsc).
  split; [congruence|]. rewrite Hst.
  assert (controller st = CIdle → controller st' = CIdle) as Hidle.
  { intros Hi. rewrite Hctl; [done|]. intros t ->. simpl in Hstep.
    unfold ctl_step in Hstep. by rewrite Hi in Hstep. }
  destruct (phase_of s).
  - destruct Hph as [?|(Hs & ? & Hi)]; [by left|]. right.
    split; [|auto]. rewrite Hsc; [done| |].
    + intros t ->. simpl in Hstep. unfold sched_step in Hstep. by rewrite Hs in Hstep.
    + intros n ->. simpl in Hstep. unfold spawn in Hstep. by rewrite Hs in Hstep.
  - destruct Hph as (Hs & Hi & Hl). split; [done|]. split; [auto|].
    destruct e; try (rewrite Hsc; by auto); simpl in Hstep.
    + unfold sched_step in Hstep. rewrite Hs in Hstep.
      destruct (scheduler st); try done; by simplify_eq.
    + unfold spawn in Hstep. destruct (scheduler st); try done; by simplify_eq.
  - done.
Qed.

Lemma run_own_in_step evs : ∀ s st st',
  forallb own evs = true → in_step s st → run evs st = Some st' → in_step s st'.
Proof.
  induction evs as [|e evs IH]; intros s st st' Hb Hin Hrun; simpl in *.
  - by simplify_eq.
  - apply andb_prop in Hb as [He Hb].
    destruct (step e st) as [st1|] eqn:Hstep; [|done].
    eapply IH; [done| |done]. by eapply own_in_step.
Qed.

(** A handler leaves the status alone and calls nothing, or calls one
    method, the one that moves the session on. *)
Lemma press_cases k s :
  sound s →
  ((press k s).1 = s ∧ commands (press k s).2 = [])
  ∨ ∃ c, commands (press k s).2 = [c]
         ∧ next (phase_of s) c = Some (phase_of (press k s).1)
         ∧ App.paused (press k s).1 = match c with Pause => true | _ => false end.
Proof.
  intros (Hp & Hm & Hmode). unfold phase_of.
  destruct s as [r p lf m]. simpl in *.
  destruct k as [| | |w|]; simpl;
    unfold start_recording, pause_recording, stop_and_process, cancel_all; simpl.
  - destruct r, p; simpl; try (specialize (Hp eq_refl)); try done;
      [right; by eexists|by left|right; by eexists].
  - destruct r, p; simpl; try (specialize (Hp eq_refl)); try done;
      [right; by eexists|by left|right; by eexists].
  - destruct r, p; simpl; try (specialize (Hp eq_refl)); try done;
      [by left|right; by eexists|by left].
  - destruct r; simpl; [|by left]. right. exists Stop.
    destruct (Str.nonempty (Str.strip (transcript w))); simpl.
    + destruct (String.eqb m "prompt");
        destruct (reply w); try destruct (log_ok w); simpl; by destruct p.
    + by destruct p.
  - destruct r, p; simpl; try (specialize (Hp eq_refl)); try done;
      [right; by eexists|right; by eexists|by left].
Qed.

(** What entering a method does to the flags. *)
Lemma call_flags c st st' :
  call c st = Some st' →
  controller st = CIdle
  ∧ match c with
    | Start =>
        running st = false →
        stop_all st' = false ∧ Manager.paused st' = false
        ∧ controller st' = CIdle ∧ scheduler st' = SLoop
    | Resume =>
        running st = false → Manager.paused st = true →
        stop_all st' = false ∧ Manager.paused st' = false
        ∧ controller st' = CIdle ∧ scheduler st' = SLoop
    | Pause => running st = true → stop_all st' = true ∧ Manager.paused st' = true
    | Stop | Cancel => stop_all st' = true ∧ Manager.paused st' = false
    end.
Proof.
  unfold call. destruct (controller st) eqn:Hctl; try done. intros [= <-].
  split; [done|]. destruct c.
  - by intros ->.
  - intros -> ->. simpl. split_and!; try done;
      destruct (transcriber_thread st); simpl; try done;
      by destruct (worker_alive _ _).
  - by intros ->.
  - done.
  - done.
Qed.

(** A key is pressed and the recorder enters the method the handler
    calls. *)
Lemma press_in_step k s st st' :
  sound s → control_inv st → in_step s st →
  run (Call <$> commands (press k s).2) st = Some st' →
  in_step (press k s).1 st'.
Proof.
  intros Hs Hc [Hp Hph] Hrun.
  destruct (press_cases k s Hs) as [[-> Hnone]|(c & Hone & Hnext & Hpa)].
  { rewrite Hnone in Hrun. simpl in Hrun. by simplify_eq. }
  rewrite Hone in Hrun. simpl in Hrun.
  destruct (call c st) as [st1|] eqn:Hcall; [|done]. simplify_eq.
  destruct (call_flags _ _ _ Hcall) as [Hidle Hflags].
  assert (stop_all st = true ∨ scheduler st = SNone → running st = false) as Hoff.
  { intros Hwhy. unfold running. destruct Hwhy as [Hst|Hsn]; [|by rewrite Hsn].
    destruct (ci_idle _ Hc Hidle) as [[_ ?]|[? _]]; [congruence|].
    by destruct (scheduler st). }
  unfold in_step. rewrite Hpa.
  destruct (phase_of s) eqn:Hphase, c; simpl in Hnext; simplify_eq;
    match goal with H : _ = phase_of _ |- _ => rewrite <- H end.
  - destruct Hflags as (? & ? & ? & Hsc); [apply Hoff; tauto|].
    split; [done|]. split_and!; try done. by rewrite Hsc.
  - destruct Hph as (Hst & _ & Hl). destruct Hflags as [? ?].
    { unfold running. by destruct (scheduler st). }
    done.
  - destruct Hflags as [? ?]. split; [done|]. by left.
  - destruct Hflags as [? ?]. split; [done|]. by left.
  - assert (App.paused s = true) as Hps.
    { unfold phase_of in Hphase. destruct (App.recording s), (App.paused s); done. }
    destruct Hflags as (? & ? & ? & Hsc); [apply Hoff; tauto|congruence|].
    split; [done|]. split_and!; try done. by rewrite Hsc.
  - destruct Hflags as [? ?]. split; [done|]. by left.
  - destruct Hflags as [? ?]. split; [done|]. by left.
Qed.

Lemma commands_timely cs : forallb timely (Call <$> cs) = true.
Proof. by induction cs. Qed.

Lemma drive_in_step ks : ∀ s st s' st',
  quiet ks = true → timely_inv st → sound s → in_step s st →
  controller st = CIdle →
  drive ks s st = Some (s', st') →
  timely_inv st' ∧ in_step s' st' ∧ controller st' = CIdle.
Proof.
  induction ks as [|[k evs] ks IH];
    intros s st s' st' Hq Hinv Hs Hin Hidle Hdrive; simpl in *.
  - by simplify_eq.
  - apply andb_prop in Hq as [Hevs Hq].
    pose proof (press_in_step k s st) as Hpress.
    pose proof (press_sound k s) as Hsound.
    destruct (press k s) as [s1 effs]. simpl in *.
    rewrite run_app in Hdrive.
    destruct (run (Call <$> commands effs) st) as [st1|] eqn:Hcall; [|done].
    destruct (run evs st1) as [st2|] eqn:Hevents; [|done].
    destruct (controller st2) eqn:Hctl2; try done.
    assert (timely_inv st1) as Hinv1.
    { eapply run_timely_inv; [apply commands_timely|done|done]. }
    pose proof (forallb_own_timely _ Hevs) as Ht.
    eapply IH; [done| | | |done|done].
    + by eapply run_timely_inv.
    + by apply Hsound.
    + eapply run_own_in_step; [done| |done].
      apply Hpress; [done|apply (ti_control _ Hinv)|done|done].
Qed.

End DriveFacts.

(** X20.  The handlers of [main] and the recorder together, the handlers
    run one at a time and no join giving up: whatever keys are pressed and
    however the recorder's threads run in between, whenever a handler has
    returned, [status] and the recorder tell the same story.
    [status["paused"]] equals the recorder's [_paused]; while the status
    says recording and not paused, the stop flag is unset and the scheduler
    is running; otherwise the scheduler is not running and no transcriber is
    alive. *)
Theorem status_agrees_with_recorder on_disk gap dur mw mr
    (ks : list (App.hotkey * list Manager.event)) (s : App.status) (st : Manager.state) :
  quiet ks = true →
  App.drive ks App.initial (Manager.init on_disk gap dur mw mr) = Some (s, st) →
  Manager.controller st = Manager.CIdle
  ∧ App.paused s = Manager.paused st
  ∧ (phase_of s = Recording →
       Manager.stop_all st = false ∧ Manager.running st = true)
  ∧ (phase_of s ≠ Recording →
       Manager.running st = false ∧ ∀ w, Manager.worker_alive st w = false).
Proof.
  intros Hq Hdrive.
  assert (sound App.initial) as Hs0 by (split_and!; auto).
  assert (in_step App.initial (Manager.init on_disk gap dur mw mr)) as Hi0.
  { split; [done|]. right. done. }
  destruct (drive_in_step ks _ _ _ _ Hq (init_timely_inv on_disk gap dur mw mr)
              Hs0 Hi0 eq_refl Hdrive) as ([_ Hc _ _] & [Hp Hph] & Hidle).
  split; [done|]. split; [done|]. split.
  - intros Hrec. rewrite Hrec in Hph. destruct Hph as (? & ? & Hl).
    split; [done|]. unfold Manager.running. by destruct (Manager.scheduler st).
  - intros Hnot.
    assert (sched_looping (Manager.scheduler st) = false) as Hnl.
    { destruct (phase_of s); [| done |].
      - destruct Hph as [Hs|(Hs & _)]; [|by rewrite Hs].
        destruct (ci_idle _ Hc Hidle) as [[_ ?]|[? _]]; [congruence|].
        by destruct (Manager.scheduler st).
      - destruct (ci_idle _ Hc Hidle) as [[_ ?]|[? _]]; [congruence|].
        by destruct (Manager.scheduler st). }
    destruct (ci_idle _ Hc Hidle) as [[? _]|(Hoff & Hdone & _)]; [congruence|].
    split; [unfold Manager.running; by destruct (Manager.scheduler st)|].
    intros w. by apply all_done_not_alive.
Qed.

Lemma status_agrees_with_recorder_witness :
  ∃ s st,
    App.drive [(App.KStart, List.tl Traces.recording);
               (App.KPause, List.tl Traces.pausing)] App.initial Traces.fresh
    = Some (s, st)
    ∧ App.paused s = true ∧ Manager.paused st = true
    ∧ Manager.controller st = Manager.CIdle.
Proof.
  eexists _, _. split; [vm_compute; reflexivity|].
  split; [vm_compute; reflexivity|]. split; [vm_compute; reflexivity|].
  refine (proj1 (status_agrees_with_recorder None 12 15 2 3
                   [(App.KStart, List.tl Traces.recording);
                    (App.KPause, List.tl Traces.pausing)] _ _ _ _));
    vm_compute; reflexivity.
Defined.

(** * The threads of the manager come to their end *)

Section ProgressFacts.

Import Manager.

Variable answer : remote.

Lemma own_answered e st : own (answered answer e st) = own e.
Proof. by destruct e. Qed.

Lemma bystander_own e : bystander e = true → own e = true.
Proof. by destruct e. Qed.

Lemma bystander_calm e : bystander e = true → calm e = true.
Proof. by destruct e as [|[]|[]| | | | | | | |]. Qed.

Lemma calm_own e : calm e = true → own e = true.
Proof. unfold calm. by intros [? _]%andb_prop. Qed.

Lemma forallb_calm tr :
  forallb calm tr = true → forallb own tr = true ∧ forallb steady tr = true.
Proof.
  induction tr as [|e tr IH]; simpl; [done|].
  intros [[Ho Hs]%andb_prop Htr]%andb_prop. destruct (IH Htr) as [-> ->].
  by rewrite Ho, Hs.
Qed.

Lemma reaches_refl ok st : reaches ok answer st st.
Proof. by exists []. Qed.

Lemma run_answered_app tr1 tr2 st :
  run_answered answer (tr1 ++ tr2) st
  = match run_answered answer tr1 st with
    | Some st1 => run_answered answer tr2 st1
    | None => None
    end.
Proof.
  revert st. induction tr1 as [|e tr1 IH]; intros st; simpl; [done|].
  destruct (step (answered answer e st) st); [apply IH|done].
Qed.

Lemma reaches_trans ok st1 st2 st3 :
  reaches ok answer st1 st2 → reaches ok answer st2 st3 → reaches ok answer st1 st3.
Proof.
  intros (tr1 & Hok1 & Hrun1) (tr2 & Hok2 & Hrun2). exists (tr1 ++ tr2). split.
  - rewrite forallb_app, Hok1, Hok2. done.
  - by rewrite run_answered_app, Hrun1.
Qed.

Lemma reaches_step ok e st st' :
  ok e = true → step (answered answer e st) st = Some st' → reaches ok answer st st'.
Proof. intros Hok Hstep. exists [e]. simpl. by rewrite Hok, Hstep. Qed.

Lemma reaches_weaken (ok ok' : event → bool) st st' :
  (∀ e, ok e = true → ok' e = true) →
  reaches ok answer st st' → reaches ok' answer st st'.
Proof.
  intros Himp (tr & Hok & Hrun). exists tr. split; [|done].
  clear Hrun. induction tr as [|e tr IH]; simpl in *; [done|].
  apply andb_prop in Hok as [He Hok]. by rewrite (Himp e He), IH.
Qed.

(** A run against a remote is a run. *)
Lemma run_answered_run tr : ∀ st st',
  forallb own tr = true → run_answered answer tr st = Some st' →
  ∃ tr', forallb timely tr' = true ∧ run tr' st = Some st'.
Proof.
  induction tr as [|e tr IH]; intros st st' Hok Hrun; simpl in *.
  - exists []. by simplify_eq.
  - apply andb_prop in Hok as [He Hok].
    destruct (step (answered answer e st) st) as [st1|] eqn:Hstep; [|done].
    destruct (IH st1 st' Hok Hrun) as (tr' & Ht & Hrun').
    exists (answered answer e st :: tr'). simpl. rewrite Hstep. split; [|done].
    rewrite Ht, andb_true_r. apply own_timely. by rewrite own_answered.
Qed.

Lemma reaches_timely_inv st st' :
  reaches calm answer st st' → timely_inv st → timely_inv st'.
Proof.
  intros (tr & Hok & Hrun) Hinv. apply forallb_calm in Hok as [Hok _].
  destruct (run_answered_run tr st st' Hok Hrun) as (tr' & Ht & Hrun').
  by eapply run_timely_inv.
Qed.

(** What the threads other than the caller leave alone. *)
Lemma bystander_frame e st st' :
  bystander e = true → step e st = Some st' →
  controller st' = controller st ∧ stop_all st' = stop_all st
  ∧ max_retries st' = max_retries st
  ∧ transcriber_thread st' = transcriber_thread st.
Proof.
  intros Hb Hstep.
  assert (∀ i st0, controller (queue_segment i st0) = controller st0
                   ∧ stop_all (queue_segment i st0) = stop_all st0
                   ∧ max_retries (queue_segment i st0) = max_retries st0
                   ∧ transcriber_thread (queue_segment i st0)
                     = transcriber_thread st0) as Hq.
  { intros i st0. unfold queue_segment. destruct (segments st0 !! i); [|done].
    by destruct (artifact st0 i). }
  destruct e as [c|timeout|timeout| | | | | | | |]; simpl in Hb, Hstep; try done.
  - destruct timeout; [done|]. unfold sched_step in Hstep.
    destruct (scheduler st) as [| | | | |todo sg|]; try done;
      repeat case_match; simplify_eq; simpl; try done; apply Hq.
  - unfold spawn in Hstep. destruct (scheduler st); try done. by simplify_eq.
  - pose proof (work_view _ _ _ _ Hstep) as (_ & _ & _ & ? & _ & ? & _ & ? & ? & _).
    done.
  - unfold seg_read in Hstep. repeat case_match; by simplify_eq.
  - unfold seg_leave in Hstep. repeat case_match; by simplify_eq.
  - unfold seg_exit in Hstep. repeat case_match; by simplify_eq.
  - unfold seg_crash in Hstep. repeat case_match; by simplify_eq.
  - unfold watch in Hstep. repeat case_match; simplify_eq; try done.
    match goal with |- context [queue_segment ?i ?st2] =>
      destruct (Hq i st2) as (-> & -> & -> & ->) end. done.
Qed.

Lemma reaches_frame st st' :
  reaches bystander answer st st' →
  controller st' = controller st ∧ stop_all st' = stop_all st
  ∧ max_retries st' = max_retries st
  ∧ transcriber_thread st' = transcriber_thread st.
Proof.
  intros (tr & Hok & Hrun). revert st Hok Hrun.
  induction tr as [|e tr IH]; intros st Hok Hrun; simpl in *.
  - by simplify_eq.
  - apply andb_prop in Hok as [He Hok].
    destruct (step (answered answer e st) st) as [st1|] eqn:Hstep; [|done].
    destruct (IH st1 Hok Hrun) as (-> & -> & -> & ->).
    eapply bystander_frame; [|done]. by destruct e.
Qed.

(** ** A segment comes to its end *)

Lemma seg_exit_ends i st s :
  segments st !! i = Some s → phase s = Flushed →
  ∃ st', reaches bystander answer st st' ∧ ended st' i = true
         ∧ scheduler st' = scheduler st.
Proof.
  intros Hs Hph. eexists. split_and!.
  - apply (reaches_step _ (SegExit i)); [done|].
    simpl. unfold seg_exit. rewrite Hs, Hph. reflexivity.
  - unfold ended. simpl. by rewrite list_lookup_alter_eq, Hs.
  - done.
Qed.

Lemma seg_leave_ends i st s :
  segments st !! i = Some s → phase s = Capturing →
  stop_event s || (1 <=? frames s)%nat = true →
  ∃ st', reaches bystander answer st st' ∧ ended st' i = true
         ∧ scheduler st' = scheduler st.
Proof.
  intros Hs Hph Hgo. destruct (frames s) as [|n] eqn:Hf.
  - eexists. split_and!.
    + apply (reaches_step _ (SegLeave i)); [done|].
      simpl. unfold seg_leave. rewrite Hs, Hph, Hf.
      rewrite Hgo. reflexivity.
    + unfold ended. simpl. by rewrite list_lookup_alter_eq, Hs.
    + done.
  - set (st1 := set_files ({[i]} ∪ files st)
                  (set_segments (alter (seg_write i) i (segments st)) st)).
    assert (reaches bystander answer st st1) as Hr.
    { apply (reaches_step _ (SegLeave i)); [done|].
      simpl. unfold seg_leave. rewrite Hs, Hph, Hf.
      by rewrite Hgo. }
    destruct (seg_exit_ends i st1 (seg_write i s)) as (st2 & Hr2 & He & Hsc).
    { simpl. by rewrite list_lookup_alter_eq, Hs. }
    { done. }
    exists st2. split_and!; [by eapply reaches_trans|done|by rewrite Hsc].
Qed.

Lemma segment_ends i st :
  ∃ st', reaches bystander answer st st' ∧ ended st' i = true
         ∧ scheduler st' = scheduler st.
Proof.
  destruct (segments st !! i) as [s|] eqn:Hs.
  2:{ exists st. split_and!; [apply reaches_refl| |done]. unfold ended. by rewrite Hs. }
  destruct (phase s) eqn:Hph.
  - destruct (stop_event s || (1 <=? frames s)%nat) eqn:Hgo.
    { by eapply seg_leave_ends. }
    apply orb_false_elim in Hgo as [Hev _].
    set (st1 := set_segments (alter seg_block i (segments st)) st).
    assert (reaches bystander answer st st1) as Hr.
    { apply (reaches_step _ (SegRead i)); [done|].
      simpl. unfold seg_read. by rewrite Hs, Hph, Hev. }
    destruct (seg_leave_ends i st1 (seg_block s)) as (st2 & Hr2 & He & Hsc).
    { simpl. by rewrite list_lookup_alter_eq, Hs. }
    { done. }
    { simpl. apply orb_true_r. }
    exists st2. split_and!; [by eapply reaches_trans|done|by rewrite Hsc].
  - by eapply seg_exit_ends.
  - exists st. split_and!; [apply reaches_refl| |done].
    unfold ended, seg_ended. by rewrite Hs, Hph.
  - exists st. split_and!; [apply reaches_refl| |done].
    unfold ended, seg_ended. by rewrite Hs, Hph.
Qed.

(** ** The scheduler comes to its end *)

Lemma stopping_ends : ∀ todo sg st,
  scheduler st = SStopping todo sg → todo ≠ [] →
  ∃ st', reaches bystander answer st st' ∧ scheduler st' = SDead.
Proof.
  induction todo as [|i rest IH]; intros sg st Hsc Hne; [done|].
  assert (∃ st1, reaches bystander answer st st1
                 ∧ scheduler st1 = SStopping (i :: rest) true) as (st1 & Hr1 & Hsc1).
  { destruct sg.
    - exists st. split; [apply reaches_refl|done].
    - eexists. split.
      + apply (reaches_step _ (Sched false)); [done|].
        simpl. unfold sched_step. rewrite Hsc. reflexivity.
      + done. }
  destruct (segment_ends i st1) as (st2 & Hr2 & He & Hsc2).
  rewrite Hsc1 in Hsc2.
  set (st3 := set_scheduler (sched_stopping rest) (queue_segment i st2)).
  assert (reaches bystander answer st2 st3) as Hr3.
  { apply (reaches_step _ (Sched false)); [done|].
    simpl. unfold sched_step. by rewrite Hsc2, He. }
  assert (reaches bystander answer st st3) as Hr.
  { eapply reaches_trans; [done|]. by eapply reaches_trans. }
  destruct rest as [|j rest].
  - by exists st3.
  - destruct (IH false st3) as (st4 & Hr4 & Hsc4); [done..|].
    exists st4. split; [by eapply reaches_trans|done].
Qed.

Lemma snapshot_ends st :
  scheduler st = SSnapshot →
  ∃ st', reaches bystander answer st st' ∧ scheduler st' = SDead.
Proof.
  intros Hsc.
  set (st1 := set_scheduler (sched_stopping (active st)) (set_active [] st)).
  assert (reaches bystander answer st st1) as Hr.
  { apply (reaches_step _ (Sched false)); [done|].
    simpl. unfold sched_step. by rewrite Hsc. }
  destruct (active st) as [|i rest] eqn:Hact.
  - by exists st1.
  - destruct (stopping_ends (i :: rest) false st1) as (st2 & Hr2 & Hsc2); [done..|].
    exists st2. split; [by eapply reaches_trans|done].
Qed.

Lemma wait_ends st :
  (scheduler st = SLoop ∨ scheduler st = SWait) → stop_all st = true →
  ∃ st', reaches bystander answer st st' ∧ scheduler st' = SDead.
Proof.
  intros Hsc Hstop.
  set (st1 := set_scheduler SSnapshot st).
  assert (reaches bystander answer st st1) as Hr.
  { apply (reaches_step _ (Sched false)); [done|].
    simpl. unfold sched_step. destruct Hsc as [-> | ->]; by rewrite Hstop. }
  destruct (snapshot_ends st1) as (st2 & Hr2 & Hsc2); [done|].
  exists st2. split; [by eapply reaches_trans|done].
Qed.

Lemma scheduler_ends st :
  stop_all st = true → sched_wf st →
  ∃ st', reaches bystander answer st st' ∧ sched_off (scheduler st') = true.
Proof.
  intros Hstop Hwf.
  assert (∀ st0, stop_all st0 = true →
            (∃ st', reaches bystander answer st0 st' ∧ scheduler st' = SDead) →
            ∃ st', reaches bystander answer st0 st'
                   ∧ sched_off (scheduler st') = true) as Hdead.
  { intros st0 _ (st' & Hr & Hsc). exists st'. by rewrite Hsc. }
  destruct (scheduler st) as [| | | | |todo sg|] eqn:Hsc.
  - exists st. split; [apply reaches_refl|by rewrite Hsc].
  - apply Hdead; [done|]. apply wait_ends; auto.
  - set (st1 := set_scheduler SWait
                  (set_active (active st ++ [length (segments st)])
                     (set_segments
                        (segments st ++
                           [{| started_at := 0; max_duration := segment_duration st;
                               stop_event := false; frames := 0; file_path := None;
                               phase := Capturing; watched := false |}]) st))).
    assert (reaches bystander answer st st1) as Hr.
    { apply (reaches_step _ (Spawn 0)); [done|].
      simpl. unfold spawn. by rewrite Hsc. }
    destruct (wait_ends st1) as (st2 & Hr2 & Hsc2); [by right|done|].
    exists st2. split; [by eapply reaches_trans|by rewrite Hsc2].
  - apply Hdead; [done|]. apply wait_ends; auto.
  - apply Hdead; [done|]. by apply snapshot_ends.
  - apply Hdead; [done|]. eapply stopping_ends; [done|].
    intros ->. by apply (Hwf sg).
  - exists st. split; [apply reaches_refl|by rewrite Hsc].
Qed.

(** ** A transcriber comes to its end *)

Variable w : nat.

Lemma lookup_set_worker_eq pc st :
  (w < length (workers st))%nat → workers (set_worker w pc st) !! w = Some pc.
Proof. intros Hlt. simpl. by apply list_lookup_insert_eq. Qed.

Lemma top_via st st1 pc1 :
  work w (answer (sent st)) st = Some st1 →
  workers st1 !! w = Some pc1 → pending_queue st1 = pending_queue st →
  (∃ st', back_on_top answer w st1 st') → ∃ st', back_on_top answer w st st'.
Proof.
  intros Hstep Hw1 Hq (st' & Hr & Hw' & Hq'). exists st'. split_and!.
  - eapply reaches_trans; [|done]. by apply (reaches_step _ (Work w Retry.Failed)).
  - done.
  - by rewrite Hq'.
Qed.

Ltac at_worker Hw :=
  first [ unfold work; rewrite Hw; reflexivity
        | apply lookup_set_worker_eq; simpl; by eapply lookup_lt_Some
        | done ].

Lemma from_end st : workers st !! w = Some WEnd → ∃ st', back_on_top answer w st st'.
Proof.
  intros Hw. eexists. split_and!.
  - apply (reaches_step _ (Work w Retry.Failed)); [done|]. simpl. at_worker Hw.
  - at_worker Hw.
  - done.
Qed.

Lemma from_unlink it st :
  workers st !! w = Some (WUnlink it) → ∃ st', back_on_top answer w st st'.
Proof.
  intros Hw. eapply (top_via st _ WEnd); [at_worker Hw..|].
  apply from_end. at_worker Hw.
Qed.

Lemma from_flush it texts st :
  workers st !! w = Some (WFlush it texts) → ∃ st', back_on_top answer w st st'.
Proof.
  intros Hw. eapply (top_via st _ (WUnlink it)); [at_worker Hw..|].
  apply (from_unlink it). at_worker Hw.
Qed.

Lemma from_snapshot it st :
  workers st !! w = Some (WSnapshot it) → ∃ st', back_on_top answer w st st'.
Proof.
  intros Hw.
  eapply (top_via st _ (WFlush it (Assembler.texts_of (results st))));
    [at_worker Hw..|].
  eapply from_flush. at_worker Hw.
Qed.

Lemma from_text it t st :
  workers st !! w = Some (WText it t) → ∃ st', back_on_top answer w st st'.
Proof.
  intros Hw. destruct (Str.nonempty t) eqn:Ht.
  - eapply (top_via st (set_worker w (WSnapshot it)
                          (set_results (Assembler.append it.1 t (results st)) st))
              (WSnapshot it)).
    + unfold work. by rewrite Hw, Ht.
    + at_worker Hw.
    + done.
    + apply (from_snapshot it). at_worker Hw.
  - eapply (top_via st (set_worker w (WUnlink it) st) (WUnlink it)).
    + unfold work. by rewrite Hw, Ht.
    + at_worker Hw.
    + done.
    + apply (from_unlink it). at_worker Hw.
Qed.

(** The retry loop of [_transcribe_single] is left, whatever the remote
    answers. *)
Lemma from_call : ∀ (n : nat) it retries st,
  workers st !! w = Some (WCall it retries) →
  max_retries st + 1 - retries ≤ Z.of_nat n →
  ∃ st', back_on_top answer w st st'.
Proof.
  induction n as [|n IH]; intros it retries st Hw Hn;
    destruct (retries <=? max_retries st) eqn:Hle.
  - apply Z.leb_le in Hle. lia.
  - eapply (top_via st (set_worker w (WText it "") st) (WText it "")).
    + unfold work. by rewrite Hw, Hle.
    + at_worker Hw.
    + done.
    + apply (from_text it ""). at_worker Hw.
  - destruct (Retry.attempt (max_retries st) retries (answer (sent st)))
      as [t|secs retries'] eqn:Hat.
    + eapply (top_via st (set_worker w (WText it t)
                            (set_sent (sent st ++ [it.2]) st)) (WText it t)).
      * unfold work. by rewrite Hw, Hle, Hat.
      * at_worker Hw.
      * done.
      * apply (from_text it t). at_worker Hw.
    + assert (retries' = retries + 1) as ->.
      { unfold Retry.attempt in Hat.
        destruct (answer (sent st)); [done|..]; by case_match; simplify_eq. }
      set (st1 := set_worker w (WSleep it (retries + 1) secs)
                    (set_sent (sent st ++ [it.2]) st)).
      eapply (top_via st st1 (WSleep it (retries + 1) secs)).
      * unfold work. by rewrite Hw, Hle, Hat.
      * at_worker Hw.
      * done.
      * assert (workers st1 !! w = Some (WSleep it (retries + 1) secs)) as Hw1
          by at_worker Hw.
        eapply (top_via st1 (set_worker w (WCall it (retries + 1)) st1)
                  (WCall it (retries + 1))).
        -- unfold work. by rewrite Hw1.
        -- at_worker Hw1.
        -- done.
        -- apply (IH it (retries + 1)); [at_worker Hw1|]. simpl. lia.
  - eapply (top_via st (set_worker w (WText it "") st) (WText it "")).
    + unfold work. by rewrite Hw, Hle.
    + at_worker Hw.
    + done.
    + apply (from_text it ""). at_worker Hw.
Qed.

Lemma from_call_any it retries st :
  workers st !! w = Some (WCall it retries) → ∃ st', back_on_top answer w st st'.
Proof.
  intros Hw. apply (from_call (Z.to_nat (max_retries st + 1 - retries)) it retries);
    [done|lia].
Qed.

Lemma from_sleep it retries secs st :
  workers st !! w = Some (WSleep it retries secs) → ∃ st', back_on_top answer w st st'.
Proof.
  intros Hw. eapply (top_via st _ (WCall it retries)); [at_worker Hw..|].
  eapply from_call_any. at_worker Hw.
Qed.

Lemma from_begin it st :
  workers st !! w = Some (WBegin it) → ∃ st', back_on_top answer w st st'.
Proof.
  intros Hw. eapply (top_via st _ (WCall it 0)); [at_worker Hw..|].
  eapply from_call_any. at_worker Hw.
Qed.

(** With the stop flag set a transcriber empties the queue and ends. *)
Lemma worker_ends : ∀ (m : nat) st pc,
  workers st !! w = Some pc → stop_all st = true →
  (6 * length (pending_queue st) + rank pc ≤ m)%nat →
  ∃ st', reaches bystander answer st st' ∧ workers st' !! w = Some WDone.
Proof.
  induction m as [m IH] using lt_wf_ind. intros st pc Hw Hstop Hm.
  assert (∀ st1 pc1,
            work w (answer (sent st)) st = Some st1 →
            workers st1 !! w = Some pc1 → stop_all st1 = true →
            (6 * length (pending_queue st1) + rank pc1
             < 6 * length (pending_queue st) + rank pc)%nat →
            ∃ st', reaches bystander answer st st' ∧ workers st' !! w = Some WDone)
    as Hgo.
  { intros st1 pc1 Hstep Hw1 Hstop1 Hlt.
    destruct (IH (6 * length (pending_queue st1) + rank pc1)%nat ltac:(lia)
                st1 pc1 Hw1 Hstop1 ltac:(lia)) as (st' & Hr & Hw').
    exists st'. split; [|done].
    eapply reaches_trans; [|done]. by apply (reaches_step _ (Work w Retry.Failed)). }
  assert ((∃ st1, back_on_top answer w st st1) → rank pc = 6%nat →
          ∃ st', reaches bystander answer st st' ∧ workers st' !! w = Some WDone)
    as Hiter.
  { intros (st1 & Hr1 & Hw1 & Hq1) Hrank.
    destruct (reaches_frame st st1 Hr1) as (_ & Hstop1 & _).
    destruct (IH (6 * length (pending_queue st1) + rank WTop)%nat
                ltac:(rewrite Hq1; simpl; lia) st1 WTop Hw1
                ltac:(by rewrite Hstop1) ltac:(lia)) as (st' & Hr & Hw').
    exists st'. split; [by eapply reaches_trans|done]. }
  destruct pc.
  - apply (Hgo (set_worker w WTopEmpty st) WTopEmpty).
    + unfold work. by rewrite Hw, Hstop.
    + at_worker Hw.
    + done.
    + simpl. lia.
  - destruct (pending_queue st) as [|it q] eqn:Hq.
    + apply (Hgo (set_worker w WTopIdle st) WTopIdle).
      * unfold work. by rewrite Hw, Hq.
      * at_worker Hw.
      * done.
      * simpl. rewrite ?Hq. simpl. lia.
    + apply (Hgo (set_worker w WGet st) WGet).
      * unfold work. by rewrite Hw, Hq.
      * at_worker Hw.
      * done.
      * simpl. rewrite ?Hq. simpl. lia.
  - destruct (transcribing st =? 0) eqn:Hz.
    + exists (set_worker w WDone st). split.
      * apply (reaches_step _ (Work w Retry.Failed)); [done|].
        simpl. unfold work. by rewrite Hw, Hz.
      * at_worker Hw.
    + apply (Hgo (set_worker w WGet st) WGet).
      * unfold work. by rewrite Hw, Hz.
      * at_worker Hw.
      * done.
      * simpl. lia.
  - destruct (pending_queue st) as [|it q] eqn:Hq.
    + apply (Hgo (set_worker w WEmpty st) WEmpty).
      * unfold work. by rewrite Hw, Hq.
      * at_worker Hw.
      * done.
      * simpl. rewrite ?Hq. simpl. lia.
    + apply (Hgo (set_worker w (WBegin it) (set_pending_queue q st)) (WBegin it)).
      * unfold work. by rewrite Hw, Hq.
      * at_worker Hw.
      * done.
      * simpl. rewrite ?Hq. simpl. lia.
  - exists (set_worker w WDone st). split.
    + apply (reaches_step _ (Work w Retry.Failed)); [done|].
      simpl. unfold work. by rewrite Hw, Hstop.
    + at_worker Hw.
  - apply Hiter; [by eapply from_begin|done].
  - apply Hiter; [by eapply from_call_any|done].
  - apply Hiter; [by eapply from_sleep|done].
  - apply Hiter; [by eapply from_text|done].
  - apply Hiter; [by eapply from_snapshot|done].
  - apply Hiter; [by eapply from_flush|done].
  - apply Hiter; [by eapply from_unlink|done].
  - apply Hiter; [by eapply from_end|done].
  - exists st. split; [apply reaches_refl|done].
Qed.

End ProgressFacts.

Section ReturnFacts.

Import Manager.

Variable answer : remote.

Lemma returns_via st st1 :
  reaches calm answer st st1 → returns answer st1 → returns answer st.
Proof.
  intros Hr (st' & Hr' & Hc). exists st'. split; [by eapply reaches_trans|done].
Qed.

Lemma ctl_reaches st st1 :
  ctl_step false st = Some st1 → reaches calm answer st st1.
Proof. intros Hstep. by apply (reaches_step _ _ (Ctl false)). Qed.

Lemma aside_reaches st st1 :
  reaches bystander answer st st1 → reaches calm answer st st1.
Proof. apply reaches_weaken, bystander_calm. Qed.

(** The transcriber the caller joins has ended, or ends. *)
Lemma transcriber_joined st :
  stop_all st = true →
  ∃ st1, reaches bystander answer st st1
         ∧ match transcriber_thread st1 with
           | Some w => worker_alive st1 w = false
           | None => True
           end.
Proof.
  intros Hstop. destruct (transcriber_thread st) as [w|] eqn:Htt.
  2:{ exists st. split; [apply reaches_refl|by rewrite Htt]. }
  destruct (workers st !! w) as [pc|] eqn:Hw.
  - destruct (worker_ends answer w _ st pc Hw Hstop (le_n _)) as (st1 & Hr & Hw1).
    exists st1. split; [done|].
    destruct (reaches_frame answer st st1 Hr) as (_ & _ & _ & ->).
    rewrite Htt. unfold worker_alive. by rewrite Hw1.
  - exists st. split; [apply reaches_refl|]. rewrite Htt.
    unfold worker_alive. by rewrite Hw.
Qed.

Lemma from_cancel_transcript st : controller st = CCancelTranscript → returns answer st.
Proof.
  intros Hc. exists (set_controller CIdle (set_transcript None st)).
  split; [|done]. apply ctl_reaches. unfold ctl_step. by rewrite Hc.
Qed.

Lemma from_cancel_results st : controller st = CCancelResults → returns answer st.
Proof.
  intros Hc. eapply returns_via.
  - apply ctl_reaches. unfold ctl_step. rewrite Hc. reflexivity.
  - by apply from_cancel_transcript.
Qed.

Lemma from_cancel_join st :
  controller st = CCancelJoin → stop_all st = true → returns answer st.
Proof.
  intros Hc Hstop.
  destruct (transcriber_joined st Hstop) as (st1 & Hr & Hdead).
  destruct (reaches_frame answer st st1 Hr) as (Hc1 & _).
  eapply returns_via; [by apply aside_reaches|].
  rewrite Hc in Hc1.
  destruct (transcriber_thread st1) as [w|] eqn:Htt.
  - eapply returns_via.
    + apply ctl_reaches. unfold ctl_step. rewrite Hc1, Htt, Hdead. reflexivity.
    + by apply from_cancel_results.
  - eapply returns_via.
    + apply ctl_reaches. unfold ctl_step. rewrite Hc1, Htt. reflexivity.
    + by apply from_cancel_results.
Qed.

Lemma from_cancel_drain : ∀ (n : nat) st,
  length (pending_queue st) = n →
  controller st = CCancelDrain → stop_all st = true → returns answer st.
Proof.
  induction n as [|n IH]; intros st Hn Hc Hstop.
  - destruct (pending_queue st) as [|it q] eqn:Hq; [|done].
    eapply returns_via.
    + apply ctl_reaches. unfold ctl_step. rewrite Hc, Hq. reflexivity.
    + by apply from_cancel_join.
  - destruct (pending_queue st) as [|[ts p] q] eqn:Hq; [done|].
    eapply returns_via.
    + apply ctl_reaches. unfold ctl_step. rewrite Hc, Hq. reflexivity.
    + apply IH; [|done..]. simpl in *. lia.
Qed.

Lemma from_cancel_clear st :
  controller st = CCancelClear → stop_all st = true → returns answer st.
Proof.
  intros Hc Hstop. eapply returns_via.
  - apply ctl_reaches. unfold ctl_step. rewrite Hc. reflexivity.
  - by eapply from_cancel_drain.
Qed.

Lemma joined_active st :
  control_inv st → past_scheduler_join (controller st) = true → active st = [].
Proof.
  intros Hinv Hpast. pose proof (ci_sched_joined _ Hinv Hpast) as Hoff.
  apply (ci_active _ Hinv); by destruct (scheduler st).
Qed.

Lemma from_cancel_snapshot st :
  control_inv st → controller st = CCancelSnapshot → returns answer st.
Proof.
  intros Hinv Hc.
  assert (active st = []) as Hact by (apply joined_active; [done|by rewrite Hc]).
  assert (stop_all st = true) as Hstop by (apply (ci_busy _ Hinv); by rewrite Hc).
  eapply returns_via.
  - apply ctl_reaches. unfold ctl_step. rewrite Hc, Hact. reflexivity.
  - by apply from_cancel_clear.
Qed.

Lemma from_join_transcriber st :
  controller st = CJoinTranscriber → stop_all st = true → returns answer st.
Proof.
  intros Hc Hstop.
  destruct (transcriber_joined st Hstop) as (st1 & Hr & Hdead).
  destruct (reaches_frame answer st st1 Hr) as (Hc1 & _).
  eapply returns_via; [by apply aside_reaches|].
  rewrite Hc in Hc1.
  destruct (transcriber_thread st1) as [w|] eqn:Htt.
  - exists (set_controller CIdle (set_transcriber_thread None st1)).
    split; [|done]. apply ctl_reaches. unfold ctl_step. by rewrite Hc1, Htt, Hdead.
  - exists (set_controller CIdle st1).
    split; [|done]. apply ctl_reaches. unfold ctl_step. by rewrite Hc1, Htt.
Qed.

Lemma from_stop_snapshot st :
  control_inv st → controller st = CStopSnapshot → returns answer st.
Proof.
  intros Hinv Hc.
  assert (active st = []) as Hact by (apply joined_active; [done|by rewrite Hc]).
  assert (stop_all st = true) as Hstop by (apply (ci_busy _ Hinv); by rewrite Hc).
  eapply returns_via.
  - apply ctl_reaches. unfold ctl_step. rewrite Hc, Hact. reflexivity.
  - by apply from_join_transcriber.
Qed.

Lemma from_join_scheduler c st :
  timely_inv st → sched_wf st → controller st = CJoinScheduler c → returns answer st.
Proof.
  intros Hinv Hwf Hc.
  assert (stop_all st = true) as Hstop
    by (apply (ci_busy _ (ti_control _ Hinv)); by rewrite Hc).
  destruct (scheduler_ends answer st Hstop Hwf) as (st1 & Hr & Hoff).
  destruct (reaches_frame answer st st1 Hr) as (Hc1 & _). rewrite Hc in Hc1.
  apply aside_reaches in Hr.
  set (st2 := set_controller (if c then CCancelSnapshot else CStopSnapshot) st1).
  assert (reaches calm answer st1 st2) as Hr2.
  { apply ctl_reaches. unfold ctl_step, running. rewrite Hc1.
    by destruct (scheduler st1). }
  assert (reaches calm answer st st2) as Hr12 by by eapply reaches_trans.
  pose proof (ti_control _ (reaches_timely_inv answer st st2 Hr12 Hinv)) as Hinv2.
  eapply returns_via; [done|].
  destruct c; [by apply from_cancel_snapshot|by apply from_stop_snapshot].
Qed.

Lemma returns_always st : timely_inv st → sched_wf st → returns answer st.
Proof.
  intros Hinv Hwf. pose proof (ti_control _ Hinv) as Hci.
  assert (controller st ≠ CIdle → stop_all st = true) as Hbusy by apply (ci_busy _ Hci).
  pose proof (ci_no_list _ Hci) as Hlist.
  destruct (controller st) as [|c| |todo sg| | |todo sg| | | | |] eqn:Hc; try done.
  - exists st. split; [apply reaches_refl|done].
  - by eapply from_join_scheduler.
  - by apply from_stop_snapshot.
  - by apply from_join_transcriber; [|apply Hbusy].
  - by apply from_cancel_snapshot.
  - by apply from_cancel_clear; [|apply Hbusy].
  - by eapply from_cancel_drain; [| |apply Hbusy].
  - by apply from_cancel_join; [|apply Hbusy].
  - by apply from_cancel_results.
  - by apply from_cancel_transcript.
Qed.

Lemma step_sched_wf e st st' :
  timely e = true → sched_wf st → step e st = Some st' → sched_wf st'.
Proof.
  intros Ht Hwf Hstep sg.
  destruct (own e) eqn:Hown.
  - destruct (own_frame e st st' Hown Hstep) as (_ & _ & _ & Hsame).
    destruct e as [c|timeout|timeout|now| | | | | | |];
      try (rewrite Hsame by done; apply Hwf).
    + destruct timeout; [done|]. simpl in Hstep. unfold sched_step in Hstep.
      destruct (scheduler st) as [| | | | |todo sg'|] eqn:Hsc; try done.
      * simplify_eq. simpl. by destruct (stop_all st).
      * simplify_eq. simpl. by destruct (stop_all st).
      * simplify_eq. simpl. by destruct (active st).
      * destruct todo as [|i rest]; [done|]. destruct sg'.
        -- destruct (false || ended st i); [|done]. simplify_eq. simpl.
           by destruct rest.
        -- simplify_eq. done.
    + simpl in Hstep. unfold spawn in Hstep.
      destruct (scheduler st); try done. by simplify_eq.
  - destruct e as [c|[]|[]| | | | | | | |]; try done.
    simpl in Hstep. unfold call in Hstep.
    destruct (controller st); try done. simplify_eq.
    destruct c; simpl; repeat case_match; simpl; try done; apply Hwf.
Qed.

Lemma run_sched_wf tr : ∀ st st',
  forallb timely tr = true → sched_wf st → run tr st = Some st' → sched_wf st'.
Proof.
  induction tr as [|e tr IH]; intros st st' Ht Hwf Hrun; simpl in *.
  - by simplify_eq.
  - apply andb_prop in Ht as [He Ht].
    destruct (step e st) as [st1|] eqn:Hstep; [|done].
    eapply IH; [done| |done]. by eapply step_sched_wf.
Qed.

End ReturnFacts.

(** X22.  No deadlock: from every state the manager reaches without a join
    giving up, and whatever the remote answers to the calls still to come,
    there is a schedule of the manager's own threads, with no further call of
    a method, no join giving up and no write raising, after which the
    caller is back from the [pause], [stop] or [cancel] it was in. *)
Theorem control_method_can_always_return on_disk gap dur mw mr tr st
    (answer : Progress.remote) :
  forallb Manager.timely tr = true →
  Manager.run tr (Manager.init on_disk gap dur mw mr) = Some st →
  ∃ tr' st',
    forallb ManagerMore.own tr' = true
    ∧ forallb Manager.steady tr' = true
    ∧ Progress.run_answered answer tr' st = Some st'
    ∧ Manager.controller st' = Manager.CIdle.
Proof.
  intros Ht Hrun.
  destruct (returns_always answer st) as (st' & (tr' & Hok & Hrun') & Hc).
  - eapply run_timely_inv; [done| |done]. apply init_timely_inv.
  - eapply run_sched_wf; [done| |done]. done.
  - apply forallb_calm in Hok as [Hown Hsteady]. by exists tr', st'.
Qed.

Lemma control_method_can_always_return_witness :
  ∃ st, Manager.run (Traces.recording ++ [Manager.Call Manager.Cancel]) Traces.fresh
        = Some st
    ∧ ∃ tr' st',
        forallb ManagerMore.own tr' = true
        ∧ forallb Manager.steady tr' = true
        ∧ Progress.run_answered (λ _, Retry.RateLimited) tr' st = Some st'
        ∧ Manager.controller st' = Manager.CIdle.
Proof.
  eexists. split; [vm_compute; reflexivity|].
  apply (control_method_can_always_return None 12 15 2 3
           (Traces.recording ++ [Manager.Call Manager.Cancel]));
    vm_compute; reflexivity.
Defined.

(** * More on the manager: the temporary files *)

Section DiskFacts.

Import Manager.

Lemma queue_segment_files i st :
  files (queue_segment i st) = files st
  ∧ ∀ it, it ∈ pending_queue (queue_segment i st) →
      it ∈ pending_queue st ∨ it.2 ∈ files st.
Proof.
  unfold queue_segment, artifact.
  destruct (segments st !! i) as [s|]; [|by auto].
  destruct (file_path s) as [p|]; [|by auto].
  case_bool_decide; [|by auto]. simpl. split; [done|].
  intros it [->|?]%elem_of_pq_put; [by right|by left].
Qed.

Lemma kept_same st st' :
  files st' = files st → pending_queue st' = pending_queue st → unlinks st st'.
Proof. intros Hf Hq. apply Kept; [by rewrite Hf|]. intros it. rewrite Hq. by left. Qed.

Lemma kept_queued i st0 st st' :
  files st0 = files st → pending_queue st0 = pending_queue st →
  files st' = files (queue_segment i st0) →
  pending_queue st' = pending_queue (queue_segment i st0) →
  unlinks st st'.
Proof.
  intros Hf Hq Hf' Hq'. destruct (queue_segment_files i st0) as [Hfq Hpq].
  apply Kept.
  - by rewrite Hf', Hfq, Hf.
  - intros it. rewrite Hq', <- Hf, <- Hq. apply Hpq.
Qed.

(** As long as no join gives up, a file is removed only by [cancel], from
    the queue, and by a transcriber, from its hands. *)
Lemma step_unlinks e st st' :
  timely e = true → control_inv st → step e st = Some st' → unlinks st st'.
Proof.
  intros Ht Hci Hstep.
  destruct e as [c|[]|[]|now|w r|w kept|i|i|i|i|i]; simpl in Ht, Hstep; try done.
  - unfold call in Hstep. destruct (controller st); try done. simplify_eq.
    destruct c; repeat case_match; simpl; try (by apply kept_same).
    all: apply Kept; simpl; [done|]; by intros it ?%not_elem_of_nil.
  - pose proof (ci_no_list _ Hci) as Hlist. unfold ctl_step in Hstep.
    destruct (controller st) as [|c| |todo sg| | |todo sg| | | | |]; try done.
    all: try (repeat case_match; simplify_eq; by apply kept_same).
    destruct (pending_queue st) as [|[ts p] q] eqn:Hq; simplify_eq.
    + by apply kept_same.
    + by eapply Drained.
  - unfold sched_step in Hstep.
    destruct (scheduler st) as [| | | | |todo sg|]; try done.
    all: try (simplify_eq; by apply kept_same).
    destruct todo as [|i rest]; [done|]. destruct sg.
    + destruct (false || ended st i); [|done]. simplify_eq.
      by apply (kept_queued i st).
    + simplify_eq. by apply kept_same.
  - unfold spawn in Hstep. destruct (scheduler st); try done. simplify_eq.
    by apply kept_same.
  - destruct (work_data _ _ _ _ Hstep) as ([Hf|(it & Hw & Hf)] & Hpend & _).
    + apply Kept; [by rewrite Hf|]. intros it Hit. left. by apply Hpend.
    + apply (Unlinked st st' w it); [done|].
      unfold work in Hstep. rewrite Hw in Hstep. by simplify_eq.
  - destruct (write_raises_view _ _ _ _ Hstep) as (it & texts & _ & _ & ->).
    by apply kept_same.
  - unfold seg_read in Hstep. repeat case_match; simplify_eq. by apply kept_same.
  - unfold seg_leave in Hstep. repeat case_match; simplify_eq;
      try (by apply kept_same).
    apply Kept; simpl; [set_solver|]. intros it ?. by left.
  - unfold seg_exit in Hstep. repeat case_match; simplify_eq. by apply kept_same.
  - unfold seg_crash in Hstep. repeat case_match; simplify_eq. by apply kept_same.
  - unfold watch in Hstep. repeat case_match; simplify_eq; [|by apply kept_same].
    match goal with |- unlinks _ (queue_segment ?i ?st0) =>
      by apply (kept_queued i st0) end.
Qed.

(** Who holds an item after a step held it before, or took it from the
    queue. *)
Lemma effect_held st st' w pc it :
  effect st st' → workers st' !! w = Some pc → held pc = Some it →
  (∃ pc0, workers st !! w = Some pc0 ∧ held pc0 = Some it) ∨ it ∈ pending_queue st.
Proof.
  intros Heff Hw Hheld.
  destruct Heff as [_ _ (extra & Hws & Hnone) _ _|i s _ _ _ _ _ Hws _|w0 r Hwork
                   |w0 kept Hraise].
  - rewrite Hws in Hw. apply lookup_app_Some in Hw as [Hw|[_ Hw]]; [by eauto|].
    rewrite Forall_forall in Hnone. apply list_elem_of_lookup_2 in Hw.
    specialize (Hnone _ Hw). congruence.
  - rewrite Hws in Hw. by eauto.
  - destruct (work_data _ _ _ _ Hwork) as (_ & _ & Hheld'). by eapply Hheld'.
  - destruct (write_raises_view _ _ _ _ Hraise) as (it0 & texts & _ & _ & ->).
    simpl in Hw. apply lookup_set_worker in Hw as [[_ ->]|[_ Hw]]; [done|].
    left. by eauto.
Qed.

Lemma init_files_inv on_disk gap dur mw mr : files_inv (init on_disk gap dur mw mr).
Proof. split; simpl; [by intros it ?%not_elem_of_nil|done]. Qed.

Lemma step_files_inv e st st' :
  timely e = true → timely_inv st → items_inv st → files_inv st →
  step e st = Some st' → files_inv st'.
Proof.
  intros Ht Hinv Hii [Hp Hh] Hstep.
  destruct (step_unlinks e st st' Ht (ti_control _ Hinv) Hstep)
    as [Hsub Hpend|ts p q Hq ->|w it Hw ->].
  - destruct (step_effect e st st' (ti_queue _ Hinv) Hstep) as (Heff & _).
    split.
    + intros it [Hin|Hf]%Hpend; apply Hsub; [by apply Hp|done].
    + intros w pc it Hw Hheld. apply Hsub.
      destruct (effect_held st st' w pc it Heff Hw Hheld) as [(pc0 & Hw0 & Hh0)|Hin];
        [by eapply Hh|by apply Hp].
  - pose proof (ii_queue_nodup _ Hii) as Hnd. rewrite Hq in Hnd. simpl in Hnd.
    apply NoDup_cons in Hnd as [Hnot _].
    split; simpl.
    + intros it Hin. apply elem_of_difference. split.
      * apply Hp. rewrite Hq. by right.
      * intros Heq%elem_of_singleton. apply Hnot. rewrite <- Heq.
        apply list_elem_of_fmap. by exists it.
    + intros w pc it Hw Hheld. apply elem_of_difference. split; [by eapply Hh|].
      intros Heq%elem_of_singleton.
      apply (ii_apart _ Hii w pc it Hw Hheld). rewrite Hq. simpl.
      rewrite Heq. by left.
  - split; simpl.
    + intros it0 Hin. apply elem_of_difference. split; [by apply Hp|].
      intros Heq%elem_of_singleton.
      apply (ii_apart _ Hii w (WUnlink it) it Hw eq_refl).
      rewrite <- Heq. apply list_elem_of_fmap. by exists it0.
    + intros w' pc it0 [[-> ->]|[Hne Hw']]%lookup_set_worker Hheld; [done|].
      apply elem_of_difference. split; [by eapply Hh|].
      intros Heq%elem_of_singleton. apply Hne.
      by apply (ii_one_holder _ Hii w' w pc (WUnlink it) it0 it).
Qed.

Lemma run_files_inv tr : ∀ st st',
  forallb timely tr = true → timely_inv st → items_inv st → files_inv st →
  run tr st = Some st' → files_inv st'.
Proof.
  induction tr as [|e tr IH]; intros st st' Ht Hinv Hii Hf Hrun; simpl in *.
  - by simplify_eq.
  - apply andb_prop in Ht as [He Ht].
    destruct (step e st) as [st1|] eqn:Hstep; [|done].
    eapply IH; [done| | | |done].
    + by eapply step_timely_inv.
    + eapply step_items_inv; [|done..]. apply Hinv.
    + by eapply step_files_inv.
Qed.

Lemma work_sent w r st st' (p : path) :
  work w r st = Some st' → p ∈ sent st' →
  p ∈ sent st ∨ ∃ pc it, workers st !! w = Some pc ∧ held pc = Some it ∧ it.2 = p.
Proof.
  unfold work, set_worker. intros Hstep Hin.
  destruct (workers st !! w) as [pc|] eqn:Hw; [|done].
  destruct pc; try done; simplify_eq; repeat case_match; simpl in Hin;
    try (by left).
  all: apply elem_of_app in Hin as [?|Heq%list_elem_of_singleton]; [by left|].
  all: right; by eexists _, _.
Qed.

(** Nothing comes back to an orphan: it stays on disk and is never sent. *)
Lemma step_orphan e st st' p :
  timely e = true → timely_inv st → orphan p st → step e st = Some st' →
  orphan p st'.
Proof.
  intros Ht Hinv (Hf & He & Hs & Hq & Hh) Hstep.
  assert (∀ it, it ∈ pending_queue st → it.2 ≠ p) as Hq'.
  { intros it Hin <-. apply Hq. apply list_elem_of_fmap. by exists it. }
  destruct (step_unlinks e st st' Ht (ti_control _ Hinv) Hstep)
    as [Hsub Hpend|ts p' q Hpq ->|w it Hw ->].
  - destruct (step_effect e st st' (ti_queue _ Hinv) Hstep) as (Heff & _).
    assert (∀ w pc it, workers st' !! w = Some pc → held pc = Some it → it.2 ≠ p)
      as Hh'.
    { intros w pc it Hw Hheld.
      destruct (effect_held st st' w pc it Heff Hw Hheld) as [(pc0 & Hw0 & Hh0)|Hin];
        [by eapply Hh|by apply Hq']. }
    split; [by apply Hsub|].
    destruct Heff as [Hsl _ _ Hsent Henq|i s _ Hnew Hput Henq _ _ Hsent|w r Hwork
                     |w kept Hraise].
    + rewrite Hsent, Henq. split_and!; try done.
      intros Hin. apply Hq. eapply elem_of_sublist; [done|]. by apply fmap_sublist.
    + rewrite Hsent, Henq, Hput. split_and!; try done.
      * apply elem_of_app. by left.
      * intros (it & Hit & [->|Hin]%elem_of_pq_put)%list_elem_of_fmap.
        -- simpl in Hit. by subst.
        -- by apply (Hq' it).
    + pose proof (work_view _ _ _ _ Hwork) as (_ & _ & _ & _ & Henq & _).
      destruct (work_data _ _ _ _ Hwork) as (_ & Hin' & _).
      rewrite Henq. split_and!; try done.
      * intros [?|(pc & it & Hw & Hheld & Hit)]%(work_sent w r st); [done| |done].
        by apply (Hh w pc it).
      * intros (it & Hit & Hin)%list_elem_of_fmap. apply (Hq' it); [|done].
        by apply Hin'.
    + destruct (write_raises_view _ _ _ _ Hraise) as (it0 & texts & _ & _ & ->).
      by split_and!.
  - simpl. split_and!; try done.
    + apply elem_of_difference. split; [done|]. intros Heq%elem_of_singleton.
      apply Hq. rewrite Hpq. simpl. rewrite Heq. by left.
    + intros Hin. apply Hq. rewrite Hpq. simpl. by right.
  - simpl. split_and!; try done.
    + apply elem_of_difference. split; [done|]. intros Heq%elem_of_singleton.
      by apply (Hh w (WUnlink it) it).
    + intros w' pc it0 [[-> ->]|[Hne Hw']]%lookup_set_worker Hheld; [done|].
      by eapply Hh.
Qed.

Lemma run_orphan tr p : ∀ st st',
  forallb timely tr = true → timely_inv st → orphan p st →
  run tr st = Some st' → orphan p st'.
Proof.
  induction tr as [|e tr IH]; intros st st' Ht Hinv Ho Hrun; simpl in *.
  - by simplify_eq.
  - apply andb_prop in Ht as [He Ht].
    destruct (step e st) as [st1|] eqn:Hstep; [|done].
    eapply IH; [done| | |done].
    + by eapply step_timely_inv.
    + by eapply step_orphan.
Qed.

End DiskFacts.



(** X24.  [start] empties the pending queue without removing the files of
    the items it drops.  As long as no join gives up, such a file is never
    removed afterwards and never sent to the remote: whatever happens after
    the [start], it stays on disk, off the queue, and its speech never
    reaches the results. *)
Theorem start_leaves_queued_artifacts_behind on_disk gap dur mw mr tr st it tr' st' :
  forallb Manager.timely tr = true →
  Manager.run tr (Manager.init on_disk gap dur mw mr) = Some st →
  Manager.running st = false →
  it ∈ Manager.pending_queue st →
  forallb Manager.timely tr' = true →
  Manager.run (Manager.Call Manager.Start :: tr') st = Some st' →
  it.2 ∈ Manager.files st'
  ∧ (it.2 ∉ Manager.sent st')
  ∧ (it.2 ∉ (Manager.pending_queue st').*2)
  ∧ ∀ w pc it', Manager.workers st' !! w = Some pc → held pc = Some it' →
      it'.2 ≠ it.2.
Proof.
  intros Ht Hrun Hoff Hin Ht' Hrun'.
  assert (timely_inv st) as Hinv.
  { eapply (run_timely_inv tr); [done| |done]. apply init_timely_inv. }
  assert (items_inv st) as Hii.
  { eapply run_items_inv; [| |done]; [apply init_queue_inv|apply init_items_inv]. }
  assert (files_inv st) as [Hp _].
  { eapply (run_files_inv tr); [done| | | |done].
    - apply init_timely_inv.
    - apply init_items_inv.
    - apply init_files_inv. }
  simpl in Hrun'.
  destruct (Manager.call Manager.Start st) as [st1|] eqn:Hcall; [|done].
  assert (orphan it.2 st') as (? & _ & ? & ? & ?); [|done].
  eapply (run_orphan tr'); [done| | |done].
  { by apply (step_timely_inv (Manager.Call Manager.Start) st). }
  unfold Manager.call in Hcall.
  destruct (Manager.controller st) eqn:Hc; try done. rewrite Hoff in Hcall.
  simplify_eq.
  destruct (ci_idle _ (ti_control _ Hinv) Hc) as [[Hloop _]|(_ & Hdone & _)].
  { unfold Manager.running in Hoff. by destruct (Manager.scheduler st). }
  split_and!; simpl.
  - by apply Hp.
  - by apply (di_pending _ (ti_data _ Hinv)).
  - by apply (ii_unsent_pending _ Hii).
  - apply not_elem_of_nil.
  - intros w pc it' [Hw|[_ Hw]]%lookup_app_Some Hheld.
    + rewrite (Hdone w pc Hw) in Hheld. done.
    + apply list_lookup_singleton_Some in Hw as [_ <-]. done.
Qed.

Lemma start_leaves_queued_artifacts_behind_witness :
  ∃ st st',
    Manager.run (Traces.recording ++ Traces.stop_race
                 ++ [Traces.tick 0; Manager.Ctl false; Manager.Ctl false;
                     Manager.Ctl false]) Traces.fresh = Some st
    ∧ Manager.pending_queue st = [(100, 0%nat)]
    ∧ Manager.run [Manager.Call Manager.Start; Manager.Sched false] st = Some st'
    ∧ (0%nat : Manager.path) ∈ Manager.files st'
    ∧ Manager.pending_queue st' = [].
Proof.
  eexists. eexists. split; [vm_compute; reflexivity|].
  split; [vm_compute; reflexivity|]. split; [vm_compute; reflexivity|].
  split; [|vm_compute; reflexivity].
  refine (proj1 (start_leaves_queued_artifacts_behind None 12 15 2 3
                   (Traces.recording ++ Traces.stop_race
                    ++ [Traces.tick 0; Manager.Ctl false; Manager.Ctl false;
                        Manager.Ctl false])
                   _ (100, 0%nat) [Manager.Sched false] _ _ _ _ _ _ _));
    vm_compute; try reflexivity.
  by left.
Defined.

(** * What [pause] leaves behind *)

Section PauseFacts.

Import Manager.








(** ** The items a transcriber has started on *)





(** ** The artifacts queued since [pause] was called *)














End PauseFacts.




(** * The retry on top of the key rotation *)

Section TranscribeFacts.

Import Keys.

Lemma manager_before_keys ws km n : keys (manager_before ws km n) = keys km.
Proof.
  induction n as [|n IH]; simpl; [done|].
  destruct (with_key_loop_bound (ws n) (length (keys (manager_before ws km n)))
              (manager_before ws km n) 0 [] []) as (_ & Hk & _).
  unfold with_key. by rewrite Hk.
Qed.

Lemma call_requests ws km n :
  (length (attempted (call ws km n)) ≤ length (keys km))%nat.
Proof.
  unfold call, with_key.
  destruct (with_key_loop_bound (ws n) (length (keys (manager_before ws km n)))
              (manager_before ws km n) 0 [] []) as (Hlen & _).
  rewrite manager_before_keys in *. simpl in Hlen. lia.
Qed.

Lemma requests_bound ws km n :
  (requests ws km n ≤ n * length (keys km))%nat.
Proof.
  induction n as [|n IH]; simpl; [lia|].
  pose proof (call_requests ws km n). lia.
Qed.

Lemma oracle_failure ws km n :
  Retry.is_failure (oracle ws km n) = true → oracle ws km n = Retry.RateLimited.
Proof. unfold oracle, reply_of. by destruct (result (call ws km n)). Qed.

Lemma oracle_text ws km n text :
  oracle ws km n = Retry.Text text →
  ∃ j k, attempted (call ws km n) !! j = Some k
         ∧ length (attempted (call ws km n)) = S j
         ∧ remote (ws n) j k = Ok text.
Proof.
  unfold oracle, reply_of. intros Ho.
  destruct (result (call ws km n)) as [t|msg] eqn:Hres; [|done]. simplify_eq.
  unfold call, with_key in *.
  destruct (with_key_loop_outcome (ws n) (length (keys (manager_before ws km n)))
              (manager_before ws km n) 0 [] [])
    as (rest & Hatt & _ & Hret & _).
  simpl in Hatt. destruct (Hret _ Hres) as (m & k & Hm & Hlen & Hrem).
  exists m, k. by rewrite Hatt.
Qed.

End TranscribeFacts.

(** X25.  [_transcribe_single] on a [GroqLLM]: every failure of
    [llm.transcribe] reaches it as [GroqRateLimitError], so each sleep
    between two attempts is the one of 5 seconds and the branch that sleeps
    1 second is never taken; one artifact costs at most
    [(max_retries + 1) * len(keys)] requests to the remote; and a text that
    is not empty is what the remote answered to the last key tried in the
    last attempt. *)
Theorem transcription_goes_through_the_keys
    (max_retries : Z) (ws : nat → Keys.world) (km : Keys.KeyManager) :
  ∃ o, Retry.transcribe_single max_retries (Transcribe.oracle ws km) = Some o
    ∧ Forall (λ s, s = 5) (Retry.sleeps o)
    ∧ (Transcribe.requests ws km (Retry.attempts o)
       ≤ Retry.attempts o * length (Keys.keys km))%nat
    ∧ Z.of_nat (Transcribe.requests ws km (Retry.attempts o))
      ≤ Z.max 0 (max_retries + 1) * Z.of_nat (length (Keys.keys km))
    ∧ (Retry.text o ≠ EmptyString →
         ∃ n j k, Retry.attempts o = S n
                  ∧ Keys.attempted (Transcribe.call ws km n) !! j = Some k
                  ∧ length (Keys.attempted (Transcribe.call ws km n)) = S j
                  ∧ Keys.remote (ws n) j k = Keys.Ok (Retry.text o)).
Proof.
  destruct (transcribe_single_total max_retries (Transcribe.oracle ws km)) as [o Ho].
  exists o. split; [done|].
  destruct (loop_budget _ _ _ _ _ _ _ Ho)
    as (k & extra & Hk & Hsl & Hle & _ & _ & Hnaps & Htext).
  simpl in Hk, Hsl. subst k. subst extra.
  pose proof (requests_bound ws km (Retry.attempts o)) as Hreq.
  split_and!.
  - apply Forall_lookup. intros i s Hi. destruct (Hnaps i s Hi) as [-> Hfail].
    simpl in *. by rewrite (oracle_failure ws km i Hfail).
  - done.
  - rewrite Z.sub_0_r in Hle. nia.
  - intros Hne. destruct (Htext Hne) as (j & Hj & Hor). simpl in Hor.
    destruct (oracle_text ws km j _ Hor) as (m & key & Hm & Hlen & Hrem).
    by exists j, m, key.
Qed.
